(** * cryodrgn/pose_search.py: hierarchical pose search

    A shallow embedding of [cryodrgn/pose_search.py] and the properties of
    its parts: the top-k pruner [keep_matrix], the resolution schedule
    [getL], the bilinear kernel [interpolate], the in-plane rotation
    [rot_2d], the masking of [mask_images], the losses of [eval_grid],
    the rescaling of [rotate_images], the memoised neighbour queries,
    [subdivide] and the driver [opt_theta_trans].

    Conventions.
    - A Python exception is a value of [exn]; a call that may raise returns
      [result A = exn + A] ([inl e]: raised, [inr v]: returned).
    - A tensor or numpy array is its shape and its elements in row-major
      order ([tensor], contiguous as the source's [view] calls need).
    - Index tensors (torch.long) are lists of [nat]: the source only ever
      builds non-negative indices, far below 2^63.
    - The arithmetic of a tensor's dtype is a class ([Arith], [Scalar]),
      with the rationals, the reals and binary64 floats as instances.
    - The collaborators that live outside this file ([so3_grid],
      [shift_grid], [lie_tools], the lattice and the render model) are
      fields of the class [Collaborators] and of the record
      [lattice_view].

    The definitions come first, the lemmas and theorems after them. *)

From Stdlib Require Import ZArith QArith Qround Floats Reals Lra Lia.
From Stdlib Require Lqa.
From stdpp Require Import base decidable option list sorting gmap strings.

Set Default Proof Using "Type".
Open Scope nat_scope.

(* ================================================================= *)
(** ** Exceptions *)

Inductive exn : Type :=
| AssertionError
| NotImplementedError (msg : string)
| RuntimeError (msg : string)
| IndexError
| ValueError
| NameError.

Definition result (A : Type) : Type := (exn + A)%type.

Definition ret {A} (a : A) : result A := inr a.
Definition raise {A} (e : exn) : result A := inl e.

Definition rbind {A B} (m : result A) (k : A → result B) : result B :=
  match m with
  | inl e => inl e
  | inr a => k a
  end.

Notation "'let*' x := m 'in' k" := (rbind m (λ x, k))
  (at level 10, x pattern, m at level 100, k at level 200, only parsing).

(** [assert c] *)
Definition assert_ (c : bool) : result unit :=
  if c then ret tt else raise AssertionError.

(* ================================================================= *)
(** ** Tensors *)

Record tensor (A : Type) : Type := Tensor { shape : list nat; data : list A }.
Arguments Tensor {A} shape data.
Arguments shape {A} t.
Arguments data {A} t.

(** Number of elements of a shape. *)
Definition numel (s : list nat) : nat := foldr Nat.mul 1 s.
Arguments numel : simpl never.

Definition wf_tensor {A} (t : tensor A) : Prop :=
  length (data t) = numel (shape t).

(** Row-major offset of a multi-index; [None] when the index has the wrong
    rank or an entry is out of range (IndexError). *)
Fixpoint ravel (s idx : list nat) : option nat :=
  match s, idx with
  | [], [] => Some 0
  | n :: s', i :: idx' =>
      if decide (i < n) then
        off ← ravel s' idx'; Some (i * numel s' + off)
      else None
  | _, _ => None
  end.

(** The index of axis [d] in the multi-index of flat offset [f]. *)
Fixpoint digits (s : list nat) (f : nat) : list nat :=
  match s with
  | [] => []
  | n :: s' => (f / numel s') mod n :: digits s' f
  end.

(** What the un-flattening loop computes, axis by axis. *)
Fixpoint axes (s : list nat) (flat : list nat) : list (list nat) :=
  match s with
  | [] => []
  | n :: s' => ((λ f, (f / numel s') mod n) <$> flat) :: axes s' flat
  end.

(** [t[i0, i1, ...]] *)
Definition tensor_get {A} (t : tensor A) (idx : list nat) : option A :=
  off ← ravel (shape t) idx; data t !! off.

(** [t.view(B, -1)]: the rows of the B x M matrix and M.  torch refuses the
    call when B = 0 (the extent standing for -1 cannot be inferred) and when
    B does not divide the number of elements. *)
Definition view_rows {A} (t : tensor A) (B : nat) : result (nat * list (list A)) :=
  let n := length (data t) in
  if decide (B = 0) then
    raise (RuntimeError "cannot reshape tensor into shape [0, -1]: the unspecified dimension is ambiguous")
  else if decide (n mod B = 0) then
    let M := n / B in
    ret (M, (λ i, take M (drop (i * M) (data t))) <$> seq 0 B)
  else raise (RuntimeError "shape [B, -1] is invalid for input size").

(* ================================================================= *)
(** ** Top-k pruner: [PoseSearch.keep_matrix] *)

Section keep_matrix_def.
Context {A : Type} (leb : A → A → bool).

(** Order of [topk(largest=False, sorted=True)] on (index, value) pairs:
    smaller value first, and among equal values the earlier index. *)
Definition topk_le (p q : nat * A) : Prop :=
  leb p.2 q.2 = true ∧ (leb q.2 p.2 = true → p.1 ≤ q.1).

#[global] Instance topk_le_dec p q : Decision (topk_le p q).
Proof. unfold topk_le. apply _. Defined.

Definition enumerate (row : list A) : list (nat * A) := zip (seq 0 (length row)) row.

(** [row.topk(k, dim=-1, largest=False, sorted=True)]: (values, indices).
    torch raises when k exceeds the extent of the dimension. *)
Definition topk (k : nat) (row : list A) : result (list A * list nat) :=
  if decide (k ≤ length row) then
    let sorted := merge_sort topk_le (enumerate row) in
    ret (take k sorted.*2, take k sorted.*1)
  else raise (RuntimeError "selected index k out of range").

(** A list comprehension [[f(x) for x in l]] whose body may raise. *)
Fixpoint list_comp {X Y} (f : X → result Y) (l : list X) : result (list Y) :=
  match l with
  | [] => ret []
  | x :: l' => let* y := f x in let* ys := list_comp f l' in ret (y :: ys)
  end.

(** One turn of the loop [for d in range(len(shape) - 1, -1, -1)]:
    [keep_idx[d] = flat_idx % shape[d]; flat_idx = flat_idx // shape[d]].
    An integer division by zero raises as soon as there is an element to
    divide. *)
Definition unravel_step (n : nat) (acc : result (list (list nat) * list nat))
  : result (list (list nat) * list nat) :=
  let* (keep_idx, flat_idx) := acc in
  if decide (n = 0 ∧ flat_idx ≠ []) then raise (RuntimeError "ZeroDivisionError")
  else ret (((λ f, f mod n) <$> (flat_idx : list nat)) :: keep_idx,
            (λ f, f / n) <$> (flat_idx : list nat)).

(** The whole loop; [foldr] visits the last axis first. *)
Definition unravel (s : list nat) (flat_idx : list nat)
  : result (list (list nat) * list nat) :=
  foldr unravel_step (ret ([], flat_idx)) s.

Definition keep_matrix (loss : tensor A) (B max_poses : nat) : result (list (list nat)) :=
  let shape := shape loss in
  let* (M, flat_loss) := view_rows loss B in
  let* top := list_comp (topk max_poses) flat_loss in
  let flat_idx := snd <$> top in
  (* flat_idx += torch.arange(B).unsqueeze(1) * flat_loss.shape[1] *)
  let flat_idx := imap (λ i row, (λ j, j + i * M) <$> row) flat_idx in
  (* flat_idx = flat_idx.view(-1) *)
  let flat_idx := mjoin flat_idx in
  let* (keep_idx, flat_idx) := unravel shape flat_idx in
  let* _ := assert_ (forallb (λ f, f =? 0) flat_idx) in
  ret keep_idx.

End keep_matrix_def.

(* ================================================================= *)
(** ** Resolution schedule: [PoseSearch.getL] *)

(** [min(self.Lmin * 2 ** iter_, self.Lmax)] on Python integers; [niter]
    is not used.  The definition is the source's for [iter_ >= 0] only:
    for a negative [iter_] Python's [**] leaves the integers ([2 ** -1]
    is the float 0.5, where the power of [Z] is 0).  The driver passes
    [base_healpy - 1] and the loop counter, non-negative for a base level
    of at least 1; the statements about the radius assume such levels. *)
Definition getL (Lmin Lmax : Z) (iter_ niter : Z) : Z :=
  Z.min (Lmin * 2 ^ iter_) Lmax.


(* ================================================================= *)
(** ** Reading the pruner's result *)

(** [vals] are smallest values of [row], in non-decreasing order: every
    value left out is at least as large as every value taken. *)
Definition k_smallest {A} (leb : A → A → bool) (vals row : list A) : Prop :=
  Sorted (λ x y, leb x y = true) vals ∧
  ∃ rest, vals ++ rest ≡ₚ row ∧ ∀ x y, x ∈ vals → y ∈ rest → leb x y = true.

(** The values of image [i]: [loss[i]], flattened. *)
Definition image_values {A} (loss : tensor A) (i : nat) : list A :=
  let M := numel (tail (shape loss)) in
  take M (drop (i * M) (data loss)).

(** [loss[keep[0][j], keep[1][j], ...]] *)
Definition gather {A} (loss : tensor A) (keep : list (list nat)) (j : nat) : option A :=
  idx ← mapM (λ a : list nat, a !! j) keep; tensor_get loss idx.

(* ================================================================= *)
(** ** Array helpers *)

(** [t.shape[0]] *)
Definition shape0 {X} (t : tensor X) : result nat :=
  match shape t with
  | [] => raise IndexError
  | n :: _ => ret n
  end.

(** [t[i]] for one integer index. *)
Definition tensor_row {X} (t : tensor X) (i : nat) : result (tensor X) :=
  match shape t with
  | [] => raise IndexError
  | n :: s =>
      if decide (i < n) then
        ret (Tensor s (take (numel s) (drop (i * numel s) (data t))))
      else raise IndexError
  end.

(** Iterating over a tensor: [for x in t]. *)
Definition tensor_iter {X} (t : tensor X) : result (list (tensor X)) :=
  let* n := shape0 t in list_comp (tensor_row t) (seq 0 n).

(** [t[i][j]] as a scalar. *)
Definition tensor_item2 {X} (t : tensor X) (i j : nat) : result X :=
  if decide (length (shape t) = 2) then
    match tensor_get t [i; j] with
    | Some x => ret x
    | None => raise IndexError
    end
  else raise IndexError.

(** [t[idx]] for an index array: one row per index. *)
Definition index_rows {X} (t : tensor X) (idx : list nat) : result (tensor X) :=
  let* rows := list_comp (tensor_row t) idx in
  ret (Tensor (length idx :: tail (shape t)) (mjoin (data <$> rows))).

(** [t[idx0, idx1]] for two index arrays of one length. *)
Definition index_rows2 {X} (t : tensor X) (idx0 idx1 : list nat) : result (tensor X) :=
  if decide (length idx0 = length idx1) then
    let* rows := list_comp (λ '(i, j), let* r := tensor_row t i in tensor_row r j)
                           (zip idx0 idx1) in
    ret (Tensor (length idx0 :: tail (tail (shape t))) (mjoin (data <$> rows)))
  else raise IndexError.

(** [np.array([a0, a1, ...])] of arrays: an empty list gives shape (0,);
    arrays of different shapes do not stack. *)
Definition np_array {X} (l : list (tensor X)) : result (tensor X) :=
  match l with
  | [] => ret (Tensor [0] [])
  | t :: l' =>
      if forallb (λ u, bool_decide (shape u = shape t)) l' then
        ret (Tensor (length l :: shape t) (mjoin (data <$> l)))
      else raise ValueError
  end.

(** [t.view(-1, c)] of a torch tensor, for a constant [c > 0]. *)
Definition view_cols {X} (t : tensor X) (c : nat) : result (tensor X) :=
  let n := length (data t) in
  if decide (n mod c = 0) then ret (Tensor [n / c; c] (data t))
  else raise (RuntimeError "shape [-1, c] is invalid for input size").

(** [a.reshape(-1, c)] of a numpy array: the same rows, and numpy's
    exception where the size is no multiple of [c]. *)
Definition reshape_cols {X} (t : tensor X) (c : nat) : result (tensor X) :=
  let n := length (data t) in
  if decide (n mod c = 0) then ret (Tensor [n / c; c] (data t))
  else raise ValueError.

(** [t.view(-1, c, d, e)]. *)
Definition view_blocks {X} (t : tensor X) (s : list nat) : result (tensor X) :=
  let n := length (data t) in
  if decide (n mod numel s = 0) then ret (Tensor (n / numel s :: s) (data t))
  else raise (RuntimeError "shape [-1, ...] is invalid for input size").

Definition shape_eqb (s1 s2 : list nat) : bool := bool_decide (s1 = s2).

(* ================================================================= *)
(** ** The search object *)

(** Children of a grid cell: the grid elements and their indices. *)
Definition children (F : Type) : Type := (tensor F * tensor Z)%type.

(** One call of the scorer by the driver: what [eval_grid] is given
    besides the images, the latent code and the tilt images of the
    enclosing [opt_theta_trans] call. *)
Record eval_request (F : Type) : Type := EvalRequest {
  req_keepB : option (list nat);   (* [images[keepB4]]: None for the whole batch *)
  req_trans : tensor F;            (* shifts of translate_images *)
  req_rot : tensor F;
  req_NQ : nat;
  req_L : Z;
  req_inplane : bool               (* angles_inplane is given *)
}.
Arguments EvalRequest {F}.
Arguments req_L {F}.
Arguments req_NQ {F}.
Arguments req_rot {F}.
Arguments req_trans {F}.
Arguments req_keepB {F}.
Arguments req_inplane {F}.

(** What lives outside [pose_search.py]: the grid modules, the conversion
    of quaternions and, for the driver, the scorer's verdict on a request
    (the lattice and the render model stand behind it). *)
Class Collaborators (F : Type) : Type := {
  so3_get_neighbor : tensor F → Z → Z → Z → children F;
  shift_get_neighbor : Z → Z → Z → Z → Z → children F;
  quaternions_to_SO3 : tensor F → tensor F;
  so3_get_base_ind : list nat → Z → tensor Z;
  shift_get_base_ind : list nat → Z → tensor Z;
  score : eval_request F → result (tensor F)
}.

(** The attributes [__init__] sets and nothing changes afterwards. *)
Record PoseSearch (F : Type) : Type := {
  base_healpy : Z;
  so3_base_quat : tensor F;
  s2_base_rot : tensor F;
  so3_base_rot : tensor F;
  nbase : nat;
  base_shifts : tensor F;
  t_extent : Z;
  t_ngrid : Z;
  Lmin : Z;
  Lmax : Z;
  nkeptposes : nat;
  loss_fn : string
}.
Arguments base_healpy {F}.
Arguments so3_base_quat {F}.
Arguments s2_base_rot {F}.
Arguments so3_base_rot {F}.
Arguments nbase {F}.
Arguments base_shifts {F}.
Arguments t_extent {F}.
Arguments t_ngrid {F}.
Arguments Lmin {F}.
Arguments Lmax {F}.
Arguments nkeptposes {F}.
Arguments loss_fn {F}.

(** What a call can change: the two memo tables, the model's mode, and
    the scorer requests made so far (latest first). *)
Record state (F : Type) : Type := State {
  training : bool;
  so3_neighbor_cache : gmap (Z * Z * Z) (children F);
  shift_neighbor_cache : gmap (Z * Z * Z) (children F);
  eval_log : list (eval_request F)
}.
Arguments State {F}.
Arguments training {F}.
Arguments so3_neighbor_cache {F}.
Arguments shift_neighbor_cache {F}.
Arguments eval_log {F}.

(** A freshly built object: [self._so3_neighbor_cache = {}] and so on. *)
Definition new_state {F} (training : bool) : state F :=
  State training ∅ ∅ [].

(** Stateful, fallible computations. *)
Definition M (F A : Type) : Type := state F → result A * state F.

Definition mret {F A} (a : A) : M F A := λ st, (inr a, st).
Definition mbind {F A B} (m : M F A) (k : A → M F B) : M F B :=
  λ st, match m st with
        | (inl e, st') => (inl e, st')
        | (inr a, st') => k a st'
        end.
Definition lift {F A} (r : result A) : M F A := λ st, (r, st).

Notation "'let!' x := m 'in' k" := (mbind m (λ x, k))
  (at level 10, x pattern, m at level 100, k at level 200, only parsing).

(** [[f(x) for x in l]] with effects. *)
Fixpoint list_compM {F X Y} (f : X → M F Y) (l : list X) : M F (list Y) :=
  match l with
  | [] => mret []
  | x :: l' => let! y := f x in let! ys := list_compM f l' in mret (y :: ys)
  end.

Section pose_search_def.
Context {F : Type} `{Collaborators F} (self : PoseSearch F).

(* ----------------------------------------------------------------- *)
(** *** Memoised neighbour queries *)

(** The keys are [(int(s2i), int(s1i), int(res))]; grid indices are
    integers, on which [int] is the identity. *)
Definition get_neighbor_so3 (quat : tensor F) (s2i s1i res : Z) : M F (children F) :=
  λ st,
    let key := (s2i, s1i, res) in
    let cache :=
      if decide (key ∈ dom (so3_neighbor_cache st)) then so3_neighbor_cache st
      else <[key := so3_get_neighbor quat s2i s1i res]> (so3_neighbor_cache st) in
    let st' := State (training st) cache (shift_neighbor_cache st) (eval_log st) in
    match cache !! key with
    | Some v => (inr v, st')
    | None => (inl IndexError, st')     (* KeyError: never, see below *)
    end.

Definition get_neighbor_shift (x y res : Z) : M F (children F) :=
  λ st,
    let key := (x, y, res) in
    let cache :=
      if decide (key ∈ dom (shift_neighbor_cache st)) then shift_neighbor_cache st
      else <[key := shift_get_neighbor x y (res - 1) (t_extent self) (t_ngrid self)]>
             (shift_neighbor_cache st) in
    let st' := State (training st) (so3_neighbor_cache st) cache (eval_log st) in
    match cache !! key with
    | Some v => (inr v, st')
    | None => (inl IndexError, st')
    end.

(* ----------------------------------------------------------------- *)
(** *** [subdivide] *)

Definition subdivide (quat : tensor F) (q_ind t_ind : tensor Z) (cur_res : Z)
  : M F (tensor F * tensor Z * tensor Z * tensor F * tensor F) :=
  let! N := lift (shape0 quat) in
  let! _ := lift (assert_ (shape_eqb (shape quat) [N; 4])) in
  let! _ := lift (assert_ (shape_eqb (shape q_ind) [N; 2])) in
  let! _ := lift (assert_ (shape_eqb (shape t_ind) [N; 2])) in
  (* neighbouring SO3 elements at the next resolution level *)
  let! neighbors :=
    list_compM (λ i,
      let! quat_i := lift (tensor_row quat i) in
      let! s2i := lift (tensor_item2 q_ind i 0) in
      let! s1i := lift (tensor_item2 q_ind i 1) in
      get_neighbor_so3 quat_i s2i s1i cur_res) (seq 0 N) in
  let! quat := lift (np_array (fst <$> neighbors)) in
  let! q_ind := lift (np_array (snd <$> neighbors)) in
  let! quat4 := lift (view_cols quat 4) in
  let rot := quaternions_to_SO3 quat4 in
  (* neighbouring translations at the next resolution level *)
  let! neighbors :=
    list_compM (λ i,
      let! xx := lift (tensor_item2 t_ind i 0) in
      let! yy := lift (tensor_item2 t_ind i 1) in
      get_neighbor_shift xx yy cur_res) (seq 0 N) in
  let! trans0 := lift (np_array (fst <$> neighbors)) in
  let! trans := lift (reshape_cols trans0 2) in
  let! t_ind := lift (np_array (snd <$> neighbors)) in
  let! _ := lift (assert_ (shape_eqb (shape quat) [N; 8; 4])) in
  let! _ := lift (assert_ (shape_eqb (shape q_ind) [N; 8; 2])) in
  let! _ := lift (assert_ (shape_eqb (shape t_ind) [N; 4; 2])) in
  let! _ := lift (assert_ (shape_eqb (shape rot) [N * 8; 3; 3])) in
  let! _ := lift (assert_ (shape_eqb (shape trans) [N * 4; 2])) in
  mret (quat, q_ind, t_ind, rot, trans).

End pose_search_def.

(** [range(a, b)] *)
Definition range (a b : Z) : list Z := seqZ a (b - a).

(** [a, b, c = t] *)
Definition unpack3 {X} (l : list X) : result (X * X * X) :=
  match l with
  | [a; b; c] => ret (a, b, c)
  | _ => raise ValueError
  end.

(** [x.unsqueeze(1).repeat(1, n).view(-1)]: every element n times. *)
Definition repeat_each (n : nat) (l : list nat) : list nat :=
  mjoin (replicate n <$> l).

(** [torch.cat((keepT, keepQ), dim=-1).view(2, B, K).permute(1, 2, 0)]:
    the B x K x 2 tensor of (keepT, keepQ) pairs. *)
Definition pose_pairs (B K : nat) (keepT keepQ : list nat) : result (tensor nat) :=
  let cat := keepT ++ keepQ in
  if decide (length cat = 2 * B * K) then
    ret (Tensor [B; K; 2]
           (mjoin ((λ i, [nth i cat 0; nth (B * K + i) cat 0]) <$> seq 0 (B * K))))
  else raise (RuntimeError "shape [2, B, K] is invalid for input size").

(** [keepT, keepQ = init_poses.reshape(-1, 2).t()] *)
Definition unpack_poses (init_poses : tensor nat) : result (list nat * list nat) :=
  let d := data init_poses in
  if decide (length d mod 2 = 0) then
    let n := length d / 2 in
    ret ((λ i, nth (2 * i) d 0) <$> seq 0 n, (λ i, nth (2 * i + 1) d 0) <$> seq 0 n)
  else raise (RuntimeError "shape [-1, 2] is invalid for input size").

(** [keepBN * B // n] on index tensors. *)
Definition rescale_batch (keepBN : list nat) (B n : nat) : result (list nat) :=
  if decide (n = 0 ∧ keepBN ≠ []) then raise (RuntimeError "ZeroDivisionError")
  else ret ((λ b, b * B / n) <$> keepBN).

(** The local variables of [opt_theta_trans] that the loop rebinds;
    [rot] and [loss] may still be unbound. *)
Record locals (F : Type) : Type := Locals {
  l_keepB : list nat;
  l_quat : tensor F;
  l_q_ind : tensor Z;
  l_t_ind : tensor Z;
  l_trans : tensor F;
  l_rot : option (tensor F);
  l_loss : option (tensor F)
}.
Arguments Locals {F}.
Arguments l_keepB {F}.
Arguments l_quat {F}.
Arguments l_q_ind {F}.
Arguments l_t_ind {F}.
Arguments l_trans {F}.
Arguments l_rot {F}.
Arguments l_loss {F}.

(** Reading a local variable that may be unbound. *)
Definition bound {X} (v : option X) : result X :=
  match v with
  | Some x => ret x
  | None => raise NameError
  end.

Section driver_def.
Context {F : Type} `{Collaborators F} (leb : F → F → bool) (self : PoseSearch F).

(** A call of [self.eval_grid] by the driver. *)
Definition eval_grid_call (req : eval_request F) : M F (tensor F) :=
  λ st, (score req,
         State (training st) (so3_neighbor_cache st) (shift_neighbor_cache st)
               (req :: eval_log st)).

(** [assert not self.model.training] *)
Definition assert_not_training : M F unit :=
  λ st, (assert_ (negb (training st)), st).

(** One turn of [for iter_ in range(self.base_healpy, niter + 1)]. *)
Definition loop_body (B : nat) (niter : Z) (v : locals F) (iter_ : Z) : M F (locals F) :=
  let keepB4 := repeat_each 4 (l_keepB v) in
  let L := getL (Lmin self) (Lmax self) iter_ niter in
  let! (quat, q_ind, t_ind, rot, trans) :=
    subdivide self (l_quat v) (l_q_ind v) (l_t_ind v) iter_ in
  let! loss := eval_grid_call (EvalRequest (Some keepB4) trans rot 8 L false) in
  let nkeptposes := nkeptposes self in
  let! keep := lift (keep_matrix leb loss B nkeptposes) in
  let! (keepBN, keepT, keepQ) := lift (unpack3 keep) in
  let! n := lift (shape0 loss) in
  let! keepB := lift (rescale_batch keepBN B n) in
  let! _ := lift (assert_ (length keepB =? B * nkeptposes)) in
  let! quat := lift (index_rows2 quat keepBN keepQ) in
  let! q_ind := lift (index_rows2 q_ind keepBN keepQ) in
  let! t_ind := lift (index_rows2 t_ind keepBN keepT) in
  mret (Locals keepB quat q_ind t_ind trans (Some rot) (Some loss)).

Fixpoint loop (B : nat) (niter : Z) (v : locals F) (iters : list Z) : M F (locals F) :=
  match iters with
  | [] => mret v
  | iter_ :: iters' => let! v' := loop_body B niter v iter_ in loop B niter v' iters'
  end.

(** [opt_theta_trans(images, z, images_tilt, niter, init_poses)] for a
    batch of [B = images.size(0)] images; the images, [z] and
    [images_tilt] themselves only reach the scorer. *)
Definition opt_theta_trans (B : nat) (niter : Z) (init_poses : option (tensor nat))
  : M F (tensor F * tensor F * tensor nat) :=
  let! _ := assert_not_training in
  let! (keepB, keepT, keepQ, loss) :=
    match init_poses with
    | None =>
        let L := getL (Lmin self) (Lmax self) (base_healpy self - 1) niter in
        let! loss :=
          eval_grid_call (EvalRequest None (base_shifts self) (s2_base_rot self)
                                      (nbase self) L true) in
        let! keep := lift (keep_matrix leb loss B (nkeptposes self)) in
        let! (keepB, keepT, keepQ) := lift (unpack3 keep) in
        mret (keepB, keepT, keepQ, Some loss)
    | Some init_poses =>
        let keepB := repeat_each (nkeptposes self) (seq 0 B) in
        let! (keepT, keepQ) := lift (unpack_poses init_poses) in
        mret (keepB, keepT, keepQ, None)
    end in
  let! new_init_poses := lift (pose_pairs B (nkeptposes self) keepT keepQ) in
  let! quat := lift (index_rows (so3_base_quat self) keepQ) in
  let q_ind := so3_get_base_ind keepQ (base_healpy self) in
  let! trans := lift (index_rows (base_shifts self) keepT) in
  let t_ind := shift_get_base_ind keepT (t_ngrid self * 2 ^ (base_healpy self - 1)) in
  let! v := loop B niter (Locals keepB quat q_ind t_ind trans None loss)
                 (range (base_healpy self) (niter + 1)) in
  let! loss := lift (bound (l_loss v)) in
  let! best := lift (keep_matrix leb loss B 1) in
  let! (bestBN, bestT, bestQ) := lift (unpack3 best) in
  let! _ := lift (assert_ (length bestBN =? B)) in
  let! (best_rot, best_trans) :=
    if decide (niter = 0)%Z then
      let! best_rot := lift (index_rows (so3_base_rot self) bestQ) in
      let! best_trans := lift (index_rows (base_shifts self) bestT) in
      mret (best_rot, best_trans)
    else
      let! rot := lift (bound (l_rot v)) in
      let! rot8 := lift (view_blocks rot [8; 3; 3]) in
      let! best_rot := lift (index_rows2 rot8 bestBN bestQ) in
      let! trans4 := lift (view_blocks (l_trans v) [4; 2]) in
      let! best_trans := lift (index_rows2 trans4 bestBN bestT) in
      mret (best_rot, best_trans)
    in
  mret (best_rot, best_trans, new_init_poses).

End driver_def.

(* ================================================================= *)
(** ** Sequences of neighbour queries on one object *)

Inductive call (F : Type) : Type :=
| CallSo3 (quat : tensor F) (s2i s1i res : Z)
| CallShift (x y res : Z).
Arguments CallSo3 {F}.
Arguments CallShift {F}.

Section calls.
Context {F : Type} `{Collaborators F} (self : PoseSearch F).

Definition do_call (st : state F) (c : call F) : state F :=
  match c with
  | CallSo3 quat s2i s1i res => (get_neighbor_so3 quat s2i s1i res st).2
  | CallShift x y res => (get_neighbor_shift self x y res st).2
  end.

Definition run_calls (calls : list (call F)) (st : state F) : state F :=
  foldl do_call st calls.

(** The quaternion of the first rotation query with the given key. *)
Definition first_quat (calls : list (call F)) (key : Z * Z * Z) : option (tensor F) :=
  head (omap (λ c, match c with
                   | CallSo3 quat s2i s1i res =>
                       if decide ((s2i, s1i, res) = key) then Some quat else None
                   | CallShift _ _ _ => None
                   end) calls).

(** The memo tables only hold what the grid modules computed for the
    key's cell. *)
Definition cache_ok (st : state F) : Prop :=
  (∀ s2i s1i res v, so3_neighbor_cache st !! (s2i, s1i, res) = Some v →
     ∃ quat, v = so3_get_neighbor quat s2i s1i res) ∧
  (∀ x y res v, shift_neighbor_cache st !! (x, y, res) = Some v →
     v = shift_get_neighbor x y (res - 1) (t_extent self) (t_ngrid self)).

End calls.

(* ================================================================= *)
(** ** What the grid modules promise *)

(** The index pairs held by a children index array. *)
Definition child_pairs (ind : tensor Z) (c : nat) : option (Z * Z) :=
  a ← tensor_get ind [c; 0]; b ← tensor_get ind [c; 1]; Some (a, b).

(** Modelled from the spec: [so3_grid.get_neighbor],
    [shift_grid.get_neighbor] and [lie_tools.quaternions_to_SO3] are not
    in the sources.  The spec gives their contracts: a valid rotation cell
    at resolution r has exactly 8 children at resolution r+1
    ([get_neighbor -> (child quaternions[8], child indices[8])]), a valid
    translation cell exactly 4 ([(child shifts[4], child indices[4])]), and
    the conversion maps a batch of quaternions to as many 3 x 3 matrices.
    Which index pairs are valid at a resolution is the grid modules'
    business: [valid_rot r s2i s1i] and [valid_shift r x y], at the
    driver's resolution level r. *)
Record grid_contract {F : Type} `{Collaborators F} (self : PoseSearch F)
    (valid_rot valid_shift : Z → Z → Z → Prop) : Prop := {
  so3_children_shape : ∀ quat s2i s1i res,
    valid_rot res s2i s1i →
    let '(q, ind) := so3_get_neighbor quat s2i s1i res in
    shape q = [8; 4] ∧ wf_tensor q ∧ shape ind = [8; 2] ∧ wf_tensor ind;
  so3_children_valid : ∀ quat s2i s1i res c a b,
    valid_rot res s2i s1i →
    child_pairs (so3_get_neighbor quat s2i s1i res).2 c = Some (a, b) →
    valid_rot (res + 1)%Z a b;
  shift_children_shape : ∀ x y res,
    valid_shift res x y →
    let '(t, ind) := shift_get_neighbor x y (res - 1) (t_extent self) (t_ngrid self) in
    shape t = [4; 2] ∧ wf_tensor t ∧ shape ind = [4; 2] ∧ wf_tensor ind;
  shift_children_valid : ∀ x y res c a b,
    valid_shift res x y →
    child_pairs (shift_get_neighbor x y (res - 1) (t_extent self) (t_ngrid self)).2 c
      = Some (a, b) →
    valid_shift (res + 1)%Z a b;
  to_SO3_shape : ∀ q n,
    shape q = [n; 4] → wf_tensor q →
    shape (quaternions_to_SO3 q) = [n; 3; 3] ∧ wf_tensor (quaternions_to_SO3 q)
}.

(* ================================================================= *)
(** ** Arithmetic of a tensor dtype *)

(** What [interpolate] needs of the numbers a tensor holds. *)
Class Arith (F : Type) : Type := {
  fzero : F;
  fone : F;
  fadd : F → F → F;
  fsub : F → F → F;
  fmul : F → F → F;
  of_int : Z → F;        (* [.float()] of an integer *)
  ffloor : F → Z;        (* [.floor().long()] *)
  fceil : F → Z          (* [.ceil().long()] *)
}.

(** What the losses and the rescaling need besides. *)
Class Scalar (F : Type) `{Arith F} : Type := {
  fneg : F → F;
  fdiv : F → F → F;
  fsqrt : F → F
}.

Section numeric.
Context {F : Type} `{Scalar F}.

(** [.sum(-1)] of one row. *)
Definition fsum (l : list F) : F := foldl fadd fzero l.

(** [.std(-1)] of one row: the unbiased estimator torch defaults to. *)
Definition fstd (l : list F) : F :=
  let n := length l in
  let mean := fdiv (fsum l) (of_int (Z.of_nat n)) in
  let sq := (λ x, let d := fsub x mean in fmul d d) <$> l in
  fsqrt (fdiv (fsum sq) (of_int (Z.of_nat n - 1))).

End numeric.

(* ================================================================= *)
(** ** Tensor operations *)

(** The tensor of shape [s] whose entry at a multi-index is [g] of it; an
    entry that cannot be read makes the operation raise. *)
Definition tabulate {X} (s : list nat) (g : list nat → option X) : result (tensor X) :=
  match mapM (λ off, g (digits s off)) (seq 0 (numel s)) with
  | Some d => ret (Tensor s d)
  | None => raise IndexError
  end.

(** Broadcasting of two shapes, last axes first. *)
Fixpoint broadcast_rev (r1 r2 : list nat) : result (list nat) :=
  match r1, r2 with
  | [], r => ret r
  | r, [] => ret r
  | a :: r1', b :: r2' =>
      let* r := broadcast_rev r1' r2' in
      if decide (a = b) then ret (a :: r)
      else if decide (a = 1) then ret (b :: r)
      else if decide (b = 1) then ret (a :: r)
      else raise (RuntimeError "the size of tensor a must match the size of tensor b")
  end.

Definition broadcast_shapes (s1 s2 : list nat) : result (list nat) :=
  let* r := broadcast_rev (reverse s1) (reverse s2) in ret (reverse r).

(** Where an entry of the broadcast result is read in an operand of
    shape [s]: the trailing axes, at 0 along an axis of extent 1. *)
Definition bidx (s idx : list nat) : list nat :=
  zip_with (λ n i, if decide (n = 1) then 0 else i) s (drop (length idx - length s) idx).

(** [a op b] with broadcasting. *)
Definition binop {X} (f : X → X → X) (a b : tensor X) : result (tensor X) :=
  let* s := broadcast_shapes (shape a) (shape b) in
  tabulate s (λ idx,
    x ← tensor_get a (bidx (shape a) idx);
    y ← tensor_get b (bidx (shape b) idx);
    Some (f x y)).

(** [a op= b]: the result must have the shape of [a]. *)
Definition binop_inplace {X} (f : X → X → X) (a b : tensor X) : result (tensor X) :=
  let* r := binop f a b in
  if bool_decide (shape r = shape a) then ret r
  else raise (RuntimeError "output with shape a doesn't match the broadcast shape").

(** Elementwise [f]. *)
Definition map1 {X} (f : X → X) (t : tensor X) : tensor X :=
  Tensor (shape t) (f <$> data t).

(** A reduction [h] over the last axis ([.sum(-1)], [.std(-1)]). *)
Definition reduce_last {X} (h : list X → X) (keepdim : bool) (t : tensor X)
  : result (tensor X) :=
  match reverse (shape t) with
  | [] => ret (Tensor [] [h (data t)])
  | n :: rs =>
      let s := reverse rs in
      let* r := tabulate s (λ idx,
                  row ← mapM (λ p, tensor_get t (idx ++ [p])) (seq 0 n); Some (h row)) in
      ret (if keepdim then Tensor (s ++ [1]) (data r) else r)
  end.

(** [t.unsqueeze(d)] for [d >= 0]. *)
Definition unsqueeze {X} (t : tensor X) (d : nat) : result (tensor X) :=
  if decide (d ≤ length (shape t)) then
    ret (Tensor (take d (shape t) ++ 1 :: drop d (shape t)) (data t))
  else raise IndexError.

(** [t.view(s)] for an explicit shape. *)
Definition view {X} (t : tensor X) (s : list nat) : result (tensor X) :=
  if decide (numel s = length (data t)) then ret (Tensor s (data t))
  else raise (RuntimeError "shape is invalid for input size").

(** [t.view(pre, -1, post)]: the extent standing for -1 is inferred. *)
Definition view_infer {X} (t : tensor X) (pre post : list nat) : result (tensor X) :=
  let n := length (data t) in
  let k := numel pre * numel post in
  if decide (k = 0) then
    raise (RuntimeError "cannot reshape: the unspecified dimension is ambiguous or the shape is invalid")
  else if decide (n mod k = 0) then ret (Tensor (pre ++ n / k :: post) (data t))
  else raise (RuntimeError "shape is invalid for input size").

Definition swap_last2 (idx : list nat) : list nat :=
  match reverse idx with
  | j :: i :: r => reverse (i :: j :: r)
  | _ => idx
  end.

(** [t.transpose(-1, -2)] *)
Definition transpose_last2 {X} (t : tensor X) : result (tensor X) :=
  if decide (2 ≤ length (shape t)) then
    tabulate (swap_last2 (shape t)) (λ idx, tensor_get t (swap_last2 idx))
  else raise IndexError.

Section matmul.
Context {F : Type} `{Scalar F}.

(** [a @ b] for operands of rank at least 2: a matrix product over the
    last two axes, broadcast over the leading ones. *)
Definition matmul (a b : tensor F) : result (tensor F) :=
  match reverse (shape a), reverse (shape b) with
  | m :: n :: ra, k :: m' :: rb =>
      if decide (m = m') then
        let sa := reverse ra in
        let sb := reverse rb in
        let* batch := broadcast_shapes sa sb in
        tabulate (batch ++ [n; k]) (λ idx,
          let bi := take (length batch) idx in
          match drop (length batch) idx with
          | [i; kk] =>
              terms ← mapM (λ j,
                         x ← tensor_get a (bidx sa bi ++ [i; j]);
                         y ← tensor_get b (bidx sb bi ++ [j; kk]);
                         Some (fmul x y)) (seq 0 m);
              Some (fsum terms)
          | _ => None
          end)
      else raise (RuntimeError "mat1 and mat2 shapes cannot be multiplied")
  | _, _ => raise (RuntimeError "matmul of a tensor of rank below 2")
  end.

End matmul.

(* ================================================================= *)
(** ** [interpolate] *)

(** An integer used as an index into an axis of extent [n]: negative
    indices count from the end. *)
Definition py_index (n : nat) (i : Z) : option nat :=
  if decide (0 ≤ i < Z.of_nat n)%Z then Some (Z.to_nat i)
  else if decide (- Z.of_nat n ≤ i < 0)%Z then Some (Z.to_nat (i + Z.of_nat n))
  else None.

Section interpolate.
Context {F : Type} `{Arith F}.

(** The bilinear combination for one coordinate pair: [c0] is [c[0]] (the
    row coordinate), [c1] is [c[1]], and [px r c] reads [img[..., r, c]]. *)
Definition bilinear (HH WW : nat) (px : nat → nat → option F) (c0 c1 : F) : option F :=
  let cf0 := ffloor c0 in let cf1 := ffloor c1 in
  let cc0 := fceil c0 in let cc1 := fceil c1 in
  let cr0 := fsub c0 (of_int cf0) in let cr1 := fsub c1 (of_int cf1) in
  let ci0 := fsub fone cr0 in let ci1 := fsub fone cr1 in
  rf ← py_index HH cf0; rc ← py_index HH cc0;
  kf ← py_index WW cf1; kc ← py_index WW cc1;
  v_ff ← px rf kf; v_fc ← px rf kc; v_cf ← px rc kf; v_cc ← px rc kc;
  Some (fadd (fadd (fadd (fmul (fmul v_ff ci0) ci1)
                         (fmul (fmul v_fc ci0) cr1))
                   (fmul (fmul v_cf cr0) ci1))
             (fmul (fmul v_cc cr0) cr1)).

Definition interpolate (img coords : tensor F) : result (tensor F) :=
  let* _ := assert_ (length (shape coords) =? 2) in
  let* _ := assert_ (bool_decide (last (shape coords) = Some 2)) in
  (* c = torch.stack((coords[:, 1], coords[:, 0]), dim=0) *)
  let* n := shape0 coords in
  match reverse (shape img) with
  | WW :: HH :: rb =>
      let bs := reverse rb in
      tabulate (bs ++ [n]) (λ idx,
        let bi := take (length bs) idx in
        match drop (length bs) idx with
        | [k] =>
            c0 ← tensor_get coords [k; 1];
            c1 ← tensor_get coords [k; 0];
            bilinear HH WW (λ r c, tensor_get img (bi ++ [r; c])) c0 c1
        | _ => None
        end)
  | _ => raise IndexError
  end.

End interpolate.

(* ================================================================= *)
(** ** The losses of [eval_grid] *)

Section eval_grid.
Context {F : Type} `{Scalar F}.

(** Lines 106-124 of [compute_err], the losses: [images] is B x T x Npix,
    [y_hat] is the prediction as line 105 leaves it (N x 1 x NQ x YX).
    Lines 88-105, which produce that prediction and can raise before any
    loss is computed, are [predict] below, and the whole function is
    [compute_err_full]. *)
Definition compute_err (loss_fn : string) (images y_hat : tensor F) : result (tensor F) :=
  let* images := unsqueeze images 2 in   (* BxTx1xYX *)
  if String.eqb loss_fn "mse" then
    let* d := binop fsub images y_hat in
    reduce_last fsum false (map1 (λ x, fmul x x) d)   (* BxTxQ *)
  else if String.eqb loss_fn "msf" then
    match shape images with
    | [B; T; _; Npix] =>
        let* a := view_infer images [B] [Npix] in
        let* N := shape0 y_hat in
        let* b := view_infer y_hat [N] [Npix] in
        let* bt := transpose_last2 b in
        let* ab := matmul a bt in
        let* dots := view_infer ab [B; T] [] in
        let* yy := binop fmul y_hat y_hat in
        let* n := reduce_last fsum false yy in
        let norm := map1 (λ x, fdiv x (of_int 2)) n in
        binop fadd (map1 fneg dots) norm   (* BxTxQ *)
    | _ => raise ValueError
    end
  else if String.eqb loss_fn "cor" then
    let* p := binop fmul images y_hat in
    let* s := reduce_last fsum false p in
    let* sd := reduce_last fstd false y_hat in
    binop fdiv (map1 fneg s) sd
  else raise (NotImplementedError ("Unknown loss_fn: " +:+ loss_fn)).

(** [eval_grid] from the predictions on (lines 106-129): the loss of the
    images and, for a tilt pair, the loss of the tilt images added to it.
    The whole function, from the render model on, is [eval_grid_full]
    below; what it returns is what this part returns for the predictions
    of [predict]. *)
Definition eval_grid (loss_fn : string) (images y_hat : tensor F)
    (tilt : option (tensor F * tensor F)) : result (tensor F) :=
  let* err := compute_err loss_fn images y_hat in
  match tilt with
  | None => ret err
  | Some (images_tilt, y_hat_tilt) =>
      let* err_tilt := compute_err loss_fn images_tilt y_hat_tilt in
      binop_inplace fadd err err_tilt
  end.

End eval_grid.

(* ================================================================= *)
(** ** [rotate_images] *)

(** What [rotate_images] reads from the lattice for the radius [L] and the
    angles it is given: the side [D], the circular mask
    ([get_circular_mask(L)], D*D booleans) and, per angle, the rotated
    pixel coordinates [(lattice_coords @ rot_matrices + 0.5) * (D - 1)], a
    YX x 2 array. *)
Record lattice_view (F : Type) : Type := LatticeView {
  lat_D : nat;
  lat_mask : list bool;
  lat_rot_coords : list (tensor F)
}.
Arguments LatticeView {F}.
Arguments lat_D {F}.
Arguments lat_mask {F}.
Arguments lat_rot_coords {F}.

(** [row_full[mask] = row]: the values of [row] at the places the mask
    selects, zero elsewhere. *)
Fixpoint scatter_row {X} (zero : X) (mask : list bool) (row : list X) : list X :=
  match mask with
  | [] => []
  | true :: mask' =>
      match row with
      | x :: row' => x :: scatter_row zero mask' row'
      | [] => zero :: scatter_row zero mask' []
      end
  | false :: mask' => zero :: scatter_row zero mask' row
  end.

(** The shape of an assigned value without its leading axes of extent 1:
    item assignment drops them before it broadcasts the value. *)
Fixpoint strip_ones (s : list nat) : list nat :=
  match s with
  | 1 :: s' => strip_ones s'
  | _ => s
  end.

Section rotate_images.
Context {F : Type} `{Scalar F}.

(** [full_images = zeros(BNQ, D, D); full_images.view(BNQ, D * D)[:, mask] = squeezed]:
    the mask must have D * D entries, and the value is broadcast to the
    BNQ x count selection, count being the number of masked pixels (a
    value of one column fills every masked pixel of its row). *)
Definition scatter_mask (BNQ D : nat) (mask : list bool) (squeezed : tensor F)
  : result (tensor F) :=
  if negb (length mask =? D * D) then raise IndexError
  else
    let count := count_occ bool_dec mask true in
    let s := strip_ones (shape squeezed) in
    let fits := match broadcast_shapes s [BNQ; count] with
                | inr r => bool_decide (r = [BNQ; count])
                | inl _ => false
                end in
    if negb fits then
      raise (RuntimeError "shape mismatch: value tensor cannot be broadcast to indexing result")
    else
      let* value := tabulate [BNQ; count]
                      (λ idx, tensor_get (Tensor s (data squeezed)) (bidx s idx)) in
      let* rows := tensor_iter value in
      ret (Tensor [BNQ; D; D] (mjoin ((λ r, scatter_row fzero mask (data r)) <$> rows))).

(** One turn of [for angle_idx, interp_coords in enumerate(rot_coords)]. *)
Definition rotate_one (squeezed full_images interp_coords : tensor F) : result (tensor F) :=
  let* interpolated := interpolate full_images interp_coords in
  let* _ := assert_ (shape_eqb (shape squeezed) (shape interpolated)) in
  let* s := reduce_last fstd true squeezed in
  let* si := reduce_last fstd true interpolated in
  let* ratio := binop fdiv s si in
  binop_inplace fmul interpolated ratio.

Definition rotate_images (images : tensor F) (lv : lattice_view F) : result (tensor F) :=
  match shape images with
  | [B; d1; NQ; YX] =>
      let BNQ := B * NQ in
      let* squeezed_images := view images [BNQ; YX] in
      let D := lat_D lv in
      let n_angles := length (lat_rot_coords lv) in
      let* full_images := scatter_mask BNQ D (lat_mask lv) squeezed_images in
      let* per_angle := list_comp (rotate_one squeezed_images full_images) (lat_rot_coords lv) in
      (* res[:, angle_idx] = interpolated *)
      let* res := tabulate [BNQ; n_angles; YX] (λ idx,
                    match idx with
                    | [b; a; p] => t ← per_angle !! a; tensor_get t [b; p]
                    | _ => None
                    end) in
      view res [B; 1; NQ * n_angles; YX]
  | _ => raise ValueError
  end.

End rotate_images.

(* ================================================================= *)
(** ** [eval_grid], from the render model on *)

Section eval_grid_whole.
Context {F : Type} `{Scalar F}.

(** Lines 88-105 of [compute_err]: the candidate images.  What runs
    before line 103 is random or lives outside this file (the draw of the
    in-plane angle, whose rotation [rot_2d(rand_a, 3)] only enters the
    argument of the render model, the products with the rotations and
    the lattice coordinates, [cat_z] and the render model itself):
    [model_out] is its outcome, the output of [self.model(x)] or the
    exception raised on the way.  [inplane] is given when
    [angles_inplane] is: what [rotate_images] reads from the lattice for
    the adjusted angles. *)
Definition predict (model_out : result (tensor F)) (NQ YX : nat)
    (inplane : option (lattice_view F)) : result (tensor F) :=
  let* y_hat := model_out in
  let* y_hat := view_infer y_hat [] [1; NQ; YX] in   (* y_hat.view(-1, 1, NQ, YX) *)
  match inplane with
  | None => ret y_hat
  | Some lv => rotate_images y_hat lv
  end.

(** The whole of [compute_err], lines 86-124; [compute_err] above is
    its part from line 106 on. *)
Definition compute_err_full (loss_fn : string) (images : tensor F)
    (model_out : result (tensor F)) (NQ YX : nat) (inplane : option (lattice_view F))
  : result (tensor F) :=
  let* y_hat := predict model_out NQ YX inplane in
  compute_err loss_fn images y_hat.

(** The whole of [eval_grid], lines 81-129.  [YX] is [coords.size(-2)],
    the number of lattice points within the mask.  A tilt pair comes with
    the outcome of the render model for the tilted rotations and, since
    its pass draws an in-plane angle of its own, with its own view of the
    lattice, read when [angles_inplane] is given. *)
Definition eval_grid_full (loss_fn : string) (images : tensor F)
    (model_out : result (tensor F)) (NQ YX : nat) (inplane : option (lattice_view F))
    (tilt : option (tensor F * result (tensor F) * lattice_view F))
  : result (tensor F) :=
  let* _ := shape0 images in              (* B = images.size(0) *)
  let* err := compute_err_full loss_fn images model_out NQ YX inplane in
  match tilt with
  | None => ret err
  | Some (images_tilt, model_out_tilt, lv_tilt) =>
      let* err_tilt :=
        compute_err_full loss_fn images_tilt model_out_tilt NQ YX
                         (match inplane with Some _ => Some lv_tilt | None => None end) in
      binop_inplace fadd err err_tilt
  end.

End eval_grid_whole.

(* ================================================================= *)
(** ** Number systems *)

(** Exact rationals: the arithmetic of [interpolate] without rounding. *)
#[global] Instance Q_arith : Arith Q := {|
  fzero := 0%Q; fone := 1%Q;
  fadd := Qplus; fsub := Qminus; fmul := Qmult;
  of_int := inject_Z; ffloor := Qfloor; fceil := Qceiling
|}.

(** Real numbers: the losses as mathematics has them. *)
#[global] Instance R_arith : Arith R := {|
  fzero := 0%R; fone := 1%R;
  fadd := Rplus; fsub := Rminus; fmul := Rmult;
  of_int := IZR; ffloor := Int_part; fceil := λ x, (- Int_part (- x))%Z
|}.
#[global] Instance R_scalar : Scalar R := {|
  fneg := Ropp; fdiv := Rdiv; fsqrt := sqrt
|}.

(** IEEE 754 binary64, the arithmetic of a [torch.float64] tensor (a
    [float32] tensor rounds more coarsely and treats zero divisors,
    infinities and NaN the same way). *)
Definition float_of_Z (z : Z) : float :=
  match z with
  | Z0 => 0%float
  | Zpos _ => PrimFloat.of_uint63 (Uint63.of_Z z)
  | Zneg p => (- PrimFloat.of_uint63 (Uint63.of_Z (Zpos p)))%float
  end.

(** [x.floor().long()]; what is not a finite number converts to the
    smallest 64-bit integer. *)
Definition float_floor (x : float) : Z :=
  match Prim2SF x with
  | S754_zero _ => 0
  | S754_finite s m e =>
      let q := if (0 <=? e)%Z then (Zpos m * 2 ^ e)%Z else (Zpos m / 2 ^ (- e))%Z in
      let exact := if (0 <=? e)%Z then true else (Zpos m mod 2 ^ (- e) =? 0)%Z in
      if s then (if exact then - q else - q - 1)%Z else q
  | _ => (- 2 ^ 63)%Z
  end.

Definition float_ceil (x : float) : Z :=
  match Prim2SF x with
  | S754_zero _ => 0
  | S754_finite s m e =>
      let q := if (0 <=? e)%Z then (Zpos m * 2 ^ e)%Z else (Zpos m / 2 ^ (- e))%Z in
      let exact := if (0 <=? e)%Z then true else (Zpos m mod 2 ^ (- e) =? 0)%Z in
      if s then (- q)%Z else (if exact then q else q + 1)%Z
  | _ => (- 2 ^ 63)%Z
  end.

#[global] Instance float_arith : Arith float := {|
  fzero := 0%float; fone := 1%float;
  fadd := PrimFloat.add; fsub := PrimFloat.sub; fmul := PrimFloat.mul;
  of_int := float_of_Z; ffloor := float_floor; fceil := float_ceil
|}.
#[global] Instance float_scalar : Scalar float := {|
  fneg := PrimFloat.opp; fdiv := PrimFloat.div; fsqrt := PrimFloat.sqrt
|}.

(** A float that is neither an infinity nor NaN. *)
Definition is_finite (x : float) : bool :=
  match Prim2SF x with
  | S754_zero _ | S754_finite _ _ _ => true
  | _ => false
  end.

(** Plus or minus zero. *)
Definition is_zero (x : float) : bool :=
  match Prim2SF x with
  | S754_zero _ => true
  | _ => false
  end.

(* ================================================================= *)
(** ** Reading the results of [interpolate] *)

(** [idx] is a multi-index into a tensor of shape [s]. *)
Abbreviation valid_index idx s := (Forall2 (λ (i n : nat), i < n) idx s).

(** The point at row [r] and column [c] lies within an image of [HH] rows
    and [WW] columns. *)
Definition in_bounds (HH WW : nat) (r c : Q) : Prop :=
  (0 <= r)%Q ∧ (r <= inject_Z (Z.of_nat HH - 1))%Q ∧
  (0 <= c)%Q ∧ (c <= inject_Z (Z.of_nat WW - 1))%Q.

(** The bilinear combination of the four integer-coordinate neighbours of
    the point at row [r] and column [c] of the image [img[bi]]: along each
    axis the floor neighbour weighs 1 minus the fractional part of the
    coordinate and the ceil neighbour the fractional part. *)
Definition bilinear_value (img : tensor Q) (bi : list nat) (r c : Q) : option Q :=
  let fr := (r - inject_Z (Qfloor r))%Q in
  let fc := (c - inject_Z (Qfloor c))%Q in
  v_ff ← tensor_get img (bi ++ [Z.to_nat (Qfloor r); Z.to_nat (Qfloor c)]);
  v_fc ← tensor_get img (bi ++ [Z.to_nat (Qfloor r); Z.to_nat (Qceiling c)]);
  v_cf ← tensor_get img (bi ++ [Z.to_nat (Qceiling r); Z.to_nat (Qfloor c)]);
  v_cc ← tensor_get img (bi ++ [Z.to_nat (Qceiling r); Z.to_nat (Qceiling c)]);
  Some (v_ff * (1 - fr) * (1 - fc) + v_fc * (1 - fr) * fc
        + v_cf * fr * (1 - fc) + v_cc * fr * fc)%Q.

(* ================================================================= *)
(** ** Reading the results of [eval_grid] *)

(** The names the dispatch of [compute_err] recognises. *)
Definition known_losses : list string := ["mse"; "msf"; "cor"].

(** The call did not raise [NotImplementedError]. *)
Definition supported {A} (r : result A) : Prop :=
  ∀ msg, r ≠ inl (NotImplementedError msg).

(** The render model of a tilt pair did not raise [NotImplementedError]
    on its own account. *)
Definition tilt_supported {F} (tilt : option (tensor F * result (tensor F) * lattice_view F))
  : Prop :=
  match tilt with
  | None => True
  | Some (_, model_out_tilt, _) => supported model_out_tilt
  end.

(* ================================================================= *)
(** ** Tensors entry by entry *)

(** [t] has shape [s] and its entry at every multi-index [idx] is [f idx]. *)
Definition tensor_is {X} (t : tensor X) (s : list nat) (f : list nat → X) : Prop :=
  shape t = s ∧ wf_tensor t ∧ ∀ idx, valid_index idx s → tensor_get t idx = Some (f idx).

(** The entry of [t] at [idx], [d] where there is none. *)
Definition entry {X} (d : X) (t : tensor X) (idx : list nat) : X :=
  default d (tensor_get t idx).

(** Two extents broadcast against each other. *)
Definition compat (a b : nat) : Prop := a = b ∨ a = 1 ∨ b = 1.

(** The extent of the result. *)
Definition bext (a b : nat) : nat := if decide (a = 1) then b else a.

(** Where a position along a broadcast axis is read in an operand of
    extent [n]. *)
Definition bfix (n i : nat) : nat := if decide (n = 1) then 0 else i.

(* ================================================================= *)
(** ** Reading the losses *)

(** [(images * images).sum(-1)]: the squared norm of every observed-image
    row. *)
Definition row_energy (images : tensor R) : result (tensor R) :=
  reduce_last fsum false (map1 (λ x, fmul x x) images).

(** The observed energy [eval_grid] works with: that of the images and,
    for a tilt pair, that of the tilt images added to it. *)
Definition energy (images : tensor R) (tilt : option (tensor R * tensor R))
  : result (tensor R) :=
  let* e := row_energy images in
  match tilt with
  | None => ret e
  | Some (images_tilt, _) =>
      let* e_tilt := row_energy images_tilt in binop fadd e e_tilt
  end.

(** The inputs of [eval_grid] have the documented shapes: [images] is
    B x T x Npix and the prediction N x 1 x Q x Npix, where N is 1 (base
    grid) or B (incremental grid). *)
Definition documented_shapes {X} (images y_hat : tensor X) (B T N Q P : nat) : Prop :=
  wf_tensor images ∧ shape images = [B; T; P] ∧
  wf_tensor y_hat ∧ shape y_hat = [N; 1; Q; P] ∧ (N = 1 ∨ N = B).

Definition tilt_documented {X} (tilt : option (tensor X * tensor X)) (B T N Q P : nat)
  : Prop :=
  match tilt with
  | None => True
  | Some (images_tilt, y_hat_tilt) => documented_shapes images_tilt y_hat_tilt B T N Q P
  end.

(* ================================================================= *)
(** ** The pruner, block by block *)

Section keep_matrix_reading.
Context {A : Type} (leb : A → A → bool).

(** What [topk] returns for one row. *)
Definition sorted_pairs (row : list A) : list (nat * A) :=
  merge_sort (topk_le leb) (enumerate row).
Definition top_of (k : nat) (row : list A) : list A * list nat :=
  (take k (sorted_pairs row).*2, take k (sorted_pairs row).*1).

(** The rows of [loss.view(B, -1)]. *)
Definition image_row (loss : tensor A) (M i : nat) : list A :=
  take M (drop (i * M) (data loss)).
Definition rows_of (loss : tensor A) (B M : nat) : list (list A) :=
  (λ i, take M (drop (i * M) (data loss))) <$> seq 0 B.

(** The flat indices the pruner builds, block by block. *)
Definition blocks_of (k M : nat) (rows : list (list A)) : list (list nat) :=
  imap (λ i (row : list nat), (λ j, j + i * M) <$> row) (snd <$> (top_of k <$> rows)).
Definition flat_of (k M : nat) (rows : list (list A)) : list nat :=
  mjoin (imap (λ i (row : list nat), (λ j, j + i * M) <$> row)
              (snd <$> (top_of k <$> rows))).

(** The index arrays the pruner returns. *)
Definition kept (loss : tensor A) (B : nat) (rest : list nat) (k : nat) : list (list nat) :=
  axes (shape loss) (flat_of k (numel rest) (rows_of loss B (numel rest))).

End keep_matrix_reading.

(* ================================================================= *)
(** ** Reading the stateful code *)

(** [m] never touches the model's mode. *)
Definition keeps_mode {F A} (m : M F A) : Prop :=
  ∀ st, training (m st).2 = training st.

(** The children of one cell, as the contract describes them. *)
Definition so3_children_ok {F} (valid_rot : Z → Z → Z → Prop) (cur_res : Z)
    (y : children F) : Prop :=
  (shape y.1 = [8; 4] ∧ wf_tensor y.1) ∧ (shape y.2 = [8; 2] ∧ wf_tensor y.2) ∧
  ∀ c a b, child_pairs y.2 c = Some (a, b) → valid_rot (cur_res + 1)%Z a b.
Definition shift_children_ok {F} (valid_shift : Z → Z → Z → Prop) (cur_res : Z)
    (y : children F) : Prop :=
  (shape y.1 = [4; 2] ∧ wf_tensor y.1) ∧ (shape y.2 = [4; 2] ∧ wf_tensor y.2) ∧
  ∀ c a b, child_pairs y.2 c = Some (a, b) → valid_shift (cur_res + 1)%Z a b.

(** The exceptions [subdivide] raises when the grid modules return:
    those of its assertions, of indexing, of [np.array] and of [view]. *)
Definition subdivide_error (e : exn) : Prop :=
  e = AssertionError ∨ e = IndexError ∨ e = ValueError ∨ ∃ msg, e = RuntimeError msg.

(** [m] raises nothing but the exceptions [P] admits. *)
Definition raises_only {F A} (P : exn → Prop) (m : M F A) : Prop :=
  ∀ st e st', m st = (inl e, st') → P e.

(** The scorer request for the base grid. *)
Definition base_request {F} (self : PoseSearch F) (niter : Z) : eval_request F :=
  EvalRequest None (base_shifts self) (s2_base_rot self) (nbase self)
              (getL (Lmin self) (Lmax self) (base_healpy self - 1) niter) true.

(* ================================================================= *)
(** ** Small inputs *)

(** Two images with three candidates each. *)
Definition loss23 : tensor Z := Tensor [2; 3] [5; 1; 4; 2; 9; 0]%Z.

(** The image [[0, 1], [2, 3]] and the single pair (1/4, 1/2). *)
Definition img22 : tensor Q := Tensor [2; 2] [0; 1; 2; 3]%Q.
Definition pair_quarter_half : tensor Q := Tensor [1; 2] [1 # 4; 1 # 2]%Q.

(** One image of two pixels under one translation, and a uniform
    prediction for its single candidate. *)
Definition one_image : tensor float := Tensor [1; 1; 2] [1; 2]%float.
Definition uniform_prediction : tensor float := Tensor [1; 1; 1; 2] [3; 3]%float.

(** One image of one pixel and two candidates, over the reals. *)
Definition one_pixel : tensor R := Tensor [1; 1; 1] [1%R].
Definition two_candidates : tensor R := Tensor [1; 1; 2; 1] [0%R; 2%R].

(** One image of two pixels and two candidates the losses tell apart,
    over the reals. *)
Definition one_row : tensor R := Tensor [1; 1; 2] [1%R; 2%R].
Definition two_guesses : tensor R := Tensor [1; 1; 2; 2] [0%R; 0%R; 1%R; 3%R].

(** One image of one pixel under two translations, and its single
    candidate. *)
Definition two_shifts : tensor float := Tensor [1; 2; 1] [0; 10]%float.
Definition unit_candidate : tensor float := Tensor [1; 1; 1; 1] [1]%float.

(** One image of one bright pixel and two candidates next to it: the
    squares of these values lie beyond 2^53, where binary64 no longer
    tells neighbouring integers apart. *)
Definition bright_pixel : tensor float := Tensor [1; 1; 1] [134607182]%float.
Definition bright_candidates : tensor float :=
  Tensor [1; 1; 2; 1] [134607182; 134607181]%float.

(** An output of the render model that does not divide into candidates
    of two pixels. *)
Definition short_output : tensor float := Tensor [3] [1; 2; 3]%float.

(** A 2 x 2 lattice, all four pixels inside the mask, and one angle whose
    rotated coordinates all fall on the centre of the image. *)
Definition centre_lattice : lattice_view float :=
  LatticeView 2 [true; true; true; true]
    [Tensor [4; 2] [0.5; 0.5; 0.5; 0.5; 0.5; 0.5; 0.5; 0.5]%float].
Definition one_prediction : tensor float := Tensor [1; 1; 1; 4] [1; 2; 3; 4]%float.

(** What [rotate_images] returns for them. *)
Definition all_infinite : tensor float :=
  Tensor [1; 1; 1; 4] [infinity; infinity; infinity; infinity].

(** A uniform prediction of four pixels; on [centre_lattice] its
    interpolation is uniform as well. *)
Definition uniform_four : tensor float := Tensor [1; 1; 1; 4] [3; 3; 3; 3]%float.

(** A 2 x 2 lattice with its first row inside the mask, and one angle
    whose rotated coordinates fall on a pixel inside the mask and on one
    outside. *)
Definition half_lattice : lattice_view float :=
  LatticeView 2 [true; true; false; false] [Tensor [2; 2] [0; 0; 0; 1]%float].

(** A small grid for examples: every rotation cell (s2, s1) has the eight
    children (4 s2 + a, 2 s1 + b), every shift cell (x, y) the four
    children (2 x + a, 2 y + b); grid elements are integers.  As in
    [so3_grid.get_neighbor], the child quaternions depend on the
    quaternion that is passed. *)
Definition toy_so3_children (s2i s1i : Z) : list Z :=
  mjoin ((λ a : Z, mjoin ((λ b : Z, [4 * s2i + a; 2 * s1i + b]%Z) <$> [0; 1]%Z)) <$> [0; 1; 2; 3]%Z).
Definition toy_shift_children (x y : Z) : list Z :=
  mjoin ((λ a : Z, mjoin ((λ b : Z, [2 * x + a; 2 * y + b]%Z) <$> [0; 1]%Z)) <$> [0; 1]%Z).

(** The toy scorer: loss of candidate (t, q) of image b is
    (7 * (b + t + q) + 3) mod 11 for a base-grid request of T shifts and Q
    rotations, and likewise per (row, translation child, rotation child)
    in the loop. *)
Definition toy_loss (n T Q : nat) : tensor Z :=
  Tensor [n; T; Q]
    ((λ i, Z.of_nat ((7 * (i / (T * Q) + (i / Q) mod T + i mod Q) + 3) mod 11)) <$> seq 0 (n * T * Q)).

Definition toy_score (B : nat) (req : eval_request Z) : result (tensor Z) :=
  match req_keepB req with
  | None =>
      (* base grid: [nbase] directions times six in-plane angles *)
      match shape (req_trans req) with
      | T :: _ => ret (toy_loss B T (req_NQ req * 6))
      | [] => raise IndexError
      end
  | Some keepB4 => ret (toy_loss (length keepB4 / 4) 4 (req_NQ req))
  end.

#[local] Instance toy_collab (B : nat) : Collaborators Z := {|
  so3_get_neighbor quat s2i s1i res :=
    (Tensor [8; 4] (mjoin ((λ c, [c + foldr Z.add 0 (data quat); res; 0; 0]%Z) <$> seqZ 0 8)),
     Tensor [8; 2] (toy_so3_children s2i s1i));
  shift_get_neighbor x y res ext ngrid :=
    (Tensor [4; 2] (toy_shift_children x y), Tensor [4; 2] (toy_shift_children x y));
  quaternions_to_SO3 q :=
    Tensor [length (data q) / 4; 3; 3] (mjoin ((λ i, replicate 9 (Z.of_nat i)) <$> seq 0 (length (data q) / 4)));
  so3_get_base_ind keepQ r :=
    Tensor [length keepQ; 2] (mjoin ((λ q, [Z.of_nat (q / 6); Z.of_nat (q mod 6)]) <$> keepQ));
  shift_get_base_ind keepT n :=
    Tensor [length keepT; 2] (mjoin ((λ t, [Z.of_nat t / n; Z.of_nat t mod n]%Z) <$> keepT));
  score := toy_score B
|}.

(** The toy grid with a rotation query that breaks the contract: three
    numbers per cell where eight quaternions are due. *)
#[local] Instance odd_collab : Collaborators Z := {|
  so3_get_neighbor quat s2i s1i res :=
    (Tensor [3] [0; 0; 0]%Z, Tensor [8; 2] (toy_so3_children s2i s1i));
  shift_get_neighbor := @shift_get_neighbor Z (toy_collab 1);
  quaternions_to_SO3 := @quaternions_to_SO3 Z (toy_collab 1);
  so3_get_base_ind := @so3_get_base_ind Z (toy_collab 1);
  shift_get_base_ind := @shift_get_base_ind Z (toy_collab 1);
  score := toy_score 1
|}.

(** A search object over the toy grid: 2 directions x 6 angles = 12 base
    rotations, 4 base shifts. *)
Definition toy_self (nkept : nat) (healpy : Z) : PoseSearch Z := {|
  base_healpy := healpy;
  so3_base_quat := Tensor [12; 4] (mjoin ((λ c, [c; 0; 0; 0]%Z) <$> seqZ 0 12));
  s2_base_rot := Tensor [2; 3; 3] (replicate 18 0%Z);
  so3_base_rot := Tensor [12; 3; 3] (mjoin ((λ c, replicate 9 c) <$> seqZ 100 12));
  nbase := 2;
  base_shifts := Tensor [4; 2] (mjoin ((λ c, [c; (- c)%Z]) <$> seqZ 0 4));
  t_extent := 5;
  t_ngrid := 2;
  Lmin := 12;
  Lmax := 24;
  nkeptposes := nkept;
  loss_fn := "msf"
|}.


Definition toy_valid_rot (r s2i s1i : Z) : Prop :=
  (0 ≤ s2i < 4 ^ r ∧ 0 ≤ s1i < 2 ^ r)%Z.
Definition toy_valid_shift (r x y : Z) : Prop :=
  (0 ≤ x < 2 ^ r ∧ 0 ≤ y < 2 ^ r)%Z.

(* ================================================================= *)
(** ** Reading the memo tables *)

(** The keys of the rotation and of the translation queries of a
    sequence of calls. *)
Definition so3_keys {F} (calls : list (call F)) : gset (Z * Z * Z) :=
  list_to_set (omap (λ c, match c with
                          | CallSo3 _ s2i s1i res => Some (s2i, s1i, res)
                          | CallShift _ _ _ => None
                          end) calls).
Definition shift_keys {F} (calls : list (call F)) : gset (Z * Z * Z) :=
  list_to_set (omap (λ c, match c with
                          | CallSo3 _ _ _ _ => None
                          | CallShift x y res => Some (x, y, res)
                          end) calls).

(** [st'] is [st] with possibly more entries in the memo tables. *)
Definition grown {F} (st st' : state F) : Prop :=
  so3_neighbor_cache st ⊆ so3_neighbor_cache st' ∧
  shift_neighbor_cache st ⊆ shift_neighbor_cache st' ∧
  training st' = training st ∧ eval_log st' = eval_log st.

(** A computation that only fills the memo tables, and whose result is
    replayed from them: once it has returned, it returns the same value
    from every later state and leaves that state as it is. *)
Definition replays {F A} (m : M F A) : Prop :=
  ∀ st a st1, m st = (inr a, st1) →
    grown st st1 ∧ ∀ st2, grown st1 st2 → m st2 = (inr a, st2).

(** [m] leaves the object as it is, whether it returns or raises. *)
Definition keeps_state {F A} (m : M F A) : Prop := ∀ st, (m st).2 = st.

(* ================================================================= *)
(** ** Reading the driver *)

(** The levels a call of the driver scores, in order: the base grid at
    level [base_healpy - 1] for a cold start, then every level of the
    loop. *)
Definition scored_levels {F X} (self : PoseSearch F) (niter : Z) (init_poses : option X)
  : list Z :=
  match init_poses with
  | None => [base_healpy self - 1]%Z
  | Some _ => []
  end ++ range (base_healpy self) (niter + 1).

(* ================================================================= *)
(** ** [rot_2d] *)

(** [torch.zeros(s)] *)
Definition zeros {F} `{Arith F} (s : list nat) : tensor F :=
  Tensor s (replicate (numel s) fzero).

(** [t[i, j] = x] for integer indices; an index out of range raises. *)
Definition tensor_set {X} (t : tensor X) (idx : list nat) (x : X) : result (tensor X) :=
  match ravel (shape t) idx with
  | Some off => ret (Tensor (shape t) (<[off := x]> (data t)))
  | None => raise IndexError
  end.

Section rot_2d.
Context {F : Type} `{Scalar F} (fcos fsin : F → F).

(** [fcos] and [fsin] stand for [np.cos] and [np.sin]. *)
Definition rot_2d (angle : F) (outD : nat) : result (tensor F) :=
  let rot := zeros [outD; outD] in
  let* rot := tensor_set rot [0; 0] (fcos angle) in
  let* rot := tensor_set rot [0; 1] (fneg (fsin angle)) in
  let* rot := tensor_set rot [1; 0] (fsin angle) in
  let* rot := tensor_set rot [1; 1] (fcos angle) in
  ret rot.

End rot_2d.

(** The entries of the matrix of the in-plane rotation by [angle]
    within an [outD] x [outD] matrix of zeros. *)
Definition rot_2d_entry (angle : R) (idx : list nat) : R :=
  match idx with
  | [0; 0] => cos angle
  | [0; 1] => (- sin angle)%R
  | [1; 0] => sin angle
  | [1; 1] => cos angle
  | _ => 0%R
  end.

(* ================================================================= *)
(** ** [mask_images] *)

(** [row[mask]] for a boolean mask of the row's length. *)
Fixpoint select_row {X} (mask : list bool) (row : list X) : list X :=
  match mask, row with
  | true :: mask', x :: row' => x :: select_row mask' row'
  | false :: mask', _ :: row' => select_row mask' row'
  | _, _ => []
  end.

(** [images.view(B, -1)[:, mask]] with [B = images.size(0)]; [mask] is
    [self.lattice.get_circular_mask(L)], a boolean vector.  Indexing
    with a mask of another length than the rows raises. *)
Definition mask_images {X} (images : tensor X) (mask : list bool) : result (tensor X) :=
  let* B := shape0 images in
  let* (M, rows) := view_rows images B in
  if negb (length mask =? M) then raise IndexError
  else ret (Tensor [B; count_occ bool_dec mask true] (mjoin (select_row mask <$> rows))).

(* ================================================================= *)
(** ** Reading [interpolate] at the borders *)

(** An integer that indexes an axis of extent [n], from the front or,
    when negative, from the end. *)
Definition in_reach (n : nat) (i : Z) : Prop := (- Z.of_nat n ≤ i < Z.of_nat n)%Z.

(** Floor and ceiling of the row coordinate [y] and of the column
    coordinate [x] index an image of [HH] rows and [WW] columns. *)
Definition reachable {F} `{Arith F} (HH WW : nat) (y x : F) : Prop :=
  in_reach HH (ffloor y) ∧ in_reach HH (fceil y) ∧
  in_reach WW (ffloor x) ∧ in_reach WW (fceil x).

(** The position an index in reach stands for. *)
Definition wrap (n : nat) (i : Z) : nat := Z.to_nat (i mod Z.of_nat n).

(** The bilinear combination [interpolate] computes for the point at row
    [y] and column [x] of the image [img[bi]], with the neighbours read
    at the wrapped positions. *)
Definition bilinear_wrapped {F} `{Arith F} (img : tensor F) (HH WW : nat)
    (bi : list nat) (y x : F) : option F :=
  let fy := fsub y (of_int (ffloor y)) in
  let fx := fsub x (of_int (ffloor x)) in
  v_ff ← tensor_get img (bi ++ [wrap HH (ffloor y); wrap WW (ffloor x)]);
  v_fc ← tensor_get img (bi ++ [wrap HH (ffloor y); wrap WW (fceil x)]);
  v_cf ← tensor_get img (bi ++ [wrap HH (fceil y); wrap WW (ffloor x)]);
  v_cc ← tensor_get img (bi ++ [wrap HH (fceil y); wrap WW (fceil x)]);
  Some (fadd (fadd (fadd (fmul (fmul v_ff (fsub fone fy)) (fsub fone fx))
                         (fmul (fmul v_fc (fsub fone fy)) fx))
                   (fmul (fmul v_cf fy) (fsub fone fx)))
             (fmul (fmul v_cc fy) fx)).

(* ================================================================= *)
(** ** Reading the whole of [eval_grid] *)

(** The arguments of [eval_grid] as documented: [images] is B x T x Npix,
    and the render model returned the N * Q * Npix values of Q candidate
    images per batch entry, where N is 1 (base grid) or B (incremental
    grid). *)
Definition outputs_documented {X} (images : tensor X) (model_out : result (tensor X))
    (B T N Q P : nat) : Prop :=
  wf_tensor images ∧ shape images = [B; T; P] ∧ (N = 1 ∨ N = B) ∧
  ∃ raw, model_out = inr raw ∧ length (data raw) = N * Q * P.

Definition tilt_outputs_documented {X}
    (tilt : option (tensor X * result (tensor X) * lattice_view X)) (B T N Q P : nat)
  : Prop :=
  match tilt with
  | None => True
  | Some (images_tilt, model_out_tilt, _) =>
      outputs_documented images_tilt model_out_tilt B T N Q P
  end.

(** The tilt pair of [eval_grid_full] from the predictions on: what
    [eval_grid] takes. *)
Definition tilt_predicted {X} `{Scalar X}
    (tilt : option (tensor X * result (tensor X) * lattice_view X)) (NQ YX : nat)
    (inplane : option (lattice_view X)) (tilt' : option (tensor X * tensor X)) : Prop :=
  match tilt, tilt' with
  | None, None => True
  | Some (images_tilt, model_out_tilt, lv_tilt), Some (images_tilt', y_hat_tilt) =>
      images_tilt' = images_tilt ∧
      predict model_out_tilt NQ YX
              (match inplane with Some _ => Some lv_tilt | None => None end)
      = inr y_hat_tilt
  | _, _ => False
  end.

(* ================================================================= *)
(** ** More small inputs *)

(** Two images with two candidate rows of three entries each. *)
Definition loss43 : tensor Z := Tensor [4; 3] [5; 1; 4; 2; 9; 0; 3; 3; 7; 8; 6; 1]%Z.

(** The two corners of a 2 x 2 image, and one image of two masked
    pixels. *)
Definition corner_mask : list bool := [true; false; false; true].
Definition two_pixels : tensor float := Tensor [1; 2] [1; 2]%float.
Definition one_full_image : tensor float := Tensor [1; 2; 2] [1; 2; 3; 4]%float.

(** Over the reals: a 2 x 2 image, the two points (0, 0) and (1, 1), and
    one image of two masked pixels. *)
Definition real_image : tensor R := Tensor [1; 2; 2] [1%R; 2%R; 3%R; 4%R].
Definition diagonal_points : tensor R := Tensor [2; 2] [0%R; 0%R; 1%R; 1%R].
Definition real_pixels : tensor R := Tensor [1; 2] [0%R; 2%R].

(** One image of two pixels under no translation at all. *)
Definition no_translation : tensor float := Tensor [1; 0; 2] [].

(** A warm-start set for two images and three kept poses. *)
Definition toy_poses : tensor nat := Tensor [2; 3; 2] [0; 1; 2; 3; 1; 5; 3; 11; 2; 7; 0; 0].

(* ================================================================= *)
(** ** Facts about shapes and offsets *)

Lemma numel_cons n s : numel (n :: s) = n * numel s.
Proof. reflexivity. Qed.

Lemma numel_pos_extent s n : 0 < numel s → n ∈ s → 0 < n.
Proof.
  induction s as [|m s IH]; intros Hpos Hin.
  - by apply elem_of_nil in Hin.
  - rewrite numel_cons in Hpos. apply elem_of_cons in Hin as [->|Hin].
    + destruct m; lia.
    + apply IH; [|done]. destruct (numel s); lia.
Qed.

Lemma unravel_axes s flat :
  0 < numel s ∨ flat = [] →
  unravel s flat = inr (axes s flat, (λ f, f / numel s) <$> flat).
Proof.
  induction s as [|n s IH]; intros Hok.
  - unfold unravel, ret. simpl foldr. simpl axes. do 2 f_equal.
    rewrite <-(list_fmap_id flat) at 1. apply list_fmap_ext. intros _ f _.
    change (numel []) with 1. by rewrite Nat.div_1_r.
  - cbn [unravel foldr]. fold (unravel s flat). rewrite IH; last first.
    { destruct Hok as [Hpos| ->]; [|by right]. left.
      rewrite numel_cons in Hpos. destruct (numel s); lia. }
    cbn. case_decide as Hz.
    + exfalso. destruct Hz as [-> Hne]. destruct Hok as [Hpos| ->]; [rewrite numel_cons in Hpos; lia|].
      by apply Hne.
    + unfold ret. f_equal. f_equal.
      * f_equal. rewrite <-list_fmap_compose. done.
      * rewrite <-list_fmap_compose. apply list_fmap_ext. intros _ f _.
        unfold compose. rewrite Nat.Div0.div_div, numel_cons. f_equal. lia.
Qed.

Lemma length_axes s flat : length (axes s flat) = length s.
Proof. induction s; cbn; auto. Qed.

Lemma axes_lookup s flat d a :
  axes s flat !! d = Some a →
  ∃ n, s !! d = Some n ∧ a = (λ f, (f / numel (drop (S d) s)) mod n) <$> flat.
Proof.
  revert d. induction s as [|n s IH]; intros [|d] Hd; cbn in *; try done.
  - injection Hd as <-. exists n. by rewrite drop_0.
  - by apply IH.
Qed.

(** The column [j] of the index arrays is the multi-index of [flat[j]]. *)
Lemma axes_column s flat j f :
  flat !! j = Some f →
  mapM (λ a : list nat, a !! j) (axes s flat) = Some (digits s f).
Proof.
  intros Hj. induction s as [|n s IH]; [done|].
  cbn. rewrite list_lookup_fmap, Hj. cbn. rewrite IH. done.
Qed.

Lemma digits_mod s f : 0 < numel s → digits s (f mod numel s) = digits s f.
Proof.
  revert f. induction s as [|n s IH]; intros f Hpos; [done|].
  rewrite numel_cons in Hpos.
  assert (0 < n ∧ 0 < numel s) as [Hn Hs] by (destruct n, (numel s); lia).
  cbn [digits]. f_equal.
  - rewrite numel_cons.
    rewrite (Nat.mul_comm n), Nat.Div0.mod_mul_r.
    rewrite (Nat.mul_comm (numel s)), Nat.div_add by lia.
    rewrite Nat.div_small by (apply Nat.mod_upper_bound; lia).
    cbn. by rewrite Nat.Div0.mod_mod.
  - rewrite <-(IH (f mod numel (n :: s))), <-(IH f) by done. f_equal.
    rewrite numel_cons, (Nat.mul_comm n), Nat.Div0.mod_mul_r.
    rewrite (Nat.mul_comm (numel s)), Nat.Div0.mod_add.
    by rewrite Nat.Div0.mod_mod.
Qed.

(** Flattening inverts un-flattening. *)
Lemma ravel_digits s f : f < numel s → ravel s (digits s f) = Some f.
Proof.
  revert f. induction s as [|n s IH]; intros f Hf.
  - change (numel []) with 1 in Hf. cbn. f_equal. lia.
  - rewrite numel_cons in Hf.
    assert (0 < numel s) as Hs by (destruct (numel s); lia).
    assert (f / numel s < n) as Hq.
    { apply Nat.Div0.div_lt_upper_bound. lia. }
    cbn [digits ravel]. rewrite (Nat.mod_small _ n) by done.
    rewrite decide_True by done.
    rewrite <-digits_mod by done.
    rewrite IH by (apply Nat.mod_upper_bound; lia). cbn. f_equal.
    pose proof (Nat.div_mod_eq f (numel s)). lia.
Qed.

(** Un-flattening inverts flattening. *)
Lemma digits_ravel s idx f : ravel s idx = Some f → digits s f = idx ∧ f < numel s.
Proof.
  revert idx f. induction s as [|n s IH]; intros [|i idx] f Hr; cbn in Hr; try done.
  - injection Hr as <-. change (numel []) with 1. cbn. split; [done|lia].
  - case_decide as Hi; [|done].
    destruct (ravel s idx) as [off|] eqn:Hoff; [|done]. cbn in Hr. injection Hr as <-.
    destruct (IH _ _ Hoff) as [Hd Hlt].
    rewrite numel_cons. split; [|nia].
    cbn [digits]. f_equal.
    + rewrite Nat.div_add_l by lia. rewrite (Nat.div_small off) by done.
      rewrite Nat.add_0_r. by apply Nat.mod_small.
    + rewrite <-digits_mod by lia.
      rewrite Nat.add_comm, Nat.Div0.mod_add, Nat.mod_small by done. done.
Qed.

Lemma list_comp_ok {X Y} (f : X → result Y) (g : X → Y) (l : list X) :
  Forall (λ x, f x = inr (g x)) l → list_comp f l = inr (g <$> l).
Proof.
  induction 1 as [|x l Hx _ IH]; [done|].
  cbn. rewrite Hx. cbn. rewrite IH. done.
Qed.

Lemma forallb_Forall_true {X} (f : X → bool) (l : list X) :
  Forall (λ x, f x = true) l → forallb f l = true.
Proof. induction 1 as [|x l Hx _ IH]; [done|]. cbn. by rewrite Hx, IH. Qed.

Section topk_facts.
Context {A : Type} (leb : A → A → bool).
Hypothesis leb_total : ∀ x y, leb x y = true ∨ leb y x = true.
Hypothesis leb_trans : ∀ x y z, leb x y = true → leb y z = true → leb x z = true.

#[local] Instance topk_le_total : Total (topk_le leb).
Proof using leb_total.
  intros [i x] [j y]. unfold topk_le. cbn.
  destruct (leb x y) eqn:Hxy, (leb y x) eqn:Hyx.
  - destruct (decide (i ≤ j)); [left|right]; split; auto with lia.
  - left. split; [done|]. intros; discriminate.
  - right. split; [done|]. intros; discriminate.
  - destruct (leb_total x y); congruence.
Qed.

#[local] Instance topk_le_trans : Transitive (topk_le leb).
Proof using leb_trans.
  intros [i x] [j y] [l z]. unfold topk_le. cbn. intros [Hxy Hij] [Hyz Hjl].
  split; [by eauto|]. intros Hzx.
  assert (i ≤ j) by eauto. assert (j ≤ l) by eauto. lia.
Qed.

Lemma enumerate_fst (row : list A) : (enumerate row).*1 = seq 0 (length row).
Proof. unfold enumerate. apply fst_zip. by rewrite length_seq. Qed.

Lemma enumerate_snd (row : list A) : (enumerate row).*2 = row.
Proof. unfold enumerate. apply snd_zip. by rewrite length_seq. Qed.

Lemma enumerate_elem (row : list A) i x : (i, x) ∈ enumerate row → row !! i = Some x.
Proof.
  unfold enumerate. intros Hin.
  apply list_elem_of_lookup in Hin as [p Hp].
  apply lookup_zip_Some in Hp as [Hi Hx].
  apply lookup_seq in Hi as [-> _]. done.
Qed.

Lemma Forall2_fst_snd (P : nat → A → Prop) (l : list (nat * A)) :
  Forall (λ p, P p.1 p.2) l → Forall2 P l.*1 l.*2.
Proof. induction 1; cbn; constructor; auto. Qed.

(** What [topk] returns on a row with at least [k] entries. *)
Lemma topk_spec (k : nat) (row : list A) :
  k ≤ length row →
  ∃ vals idxs,
    topk leb k row = inr (vals, idxs) ∧
    length vals = k ∧ length idxs = k ∧
    Forall2 (λ i v, row !! i = Some v) idxs vals ∧
    NoDup idxs ∧
    k_smallest leb vals row.
Proof using leb_total leb_trans.
  intros Hk. unfold topk. rewrite decide_True by done.
  set (P := merge_sort (topk_le leb) (enumerate row)).
  assert (P ≡ₚ enumerate row) as HP by apply merge_sort_Permutation.
  assert (length P = length row) as HlenP.
  { rewrite HP. unfold enumerate. rewrite length_zip, length_seq. lia. }
  eexists _, _. split; [done|].
  split; [rewrite length_take, length_fmap; lia|].
  split; [rewrite length_take, length_fmap; lia|].
  split.
  { apply Forall2_take, Forall2_fst_snd, Forall_forall.
    intros [i x] Hin. cbn. apply enumerate_elem. by rewrite <-HP. }
  split.
  { apply (sublist_NoDup _ P.*1); [|apply sublist_take].
    rewrite HP, enumerate_fst. apply NoDup_seq. }
  assert (StronglySorted (λ x y, leb x y = true) P.*2) as HS.
  { eapply StronglySorted_fmap; [|apply (StronglySorted_merge_sort (topk_le leb)); apply _].
    intros p q [Hpq _]. done. }
  rewrite <-(take_drop k P.*2) in HS.
  split.
  - apply StronglySorted_Sorted. by eapply StronglySorted_app_1_l.
  - exists (drop k P.*2). split.
    + by rewrite take_drop, HP, enumerate_snd.
    + intros x y Hx Hy.
      apply (StronglySorted_app_1_elem_of (λ x y, leb x y = true) _ _ x y HS Hx Hy).
Qed.

End topk_facts.

Lemma view_rows_ok {A} (t : tensor A) (B M : nat) :
  0 < B → length (data t) = B * M →
  view_rows t B = inr (M, (λ i, take M (drop (i * M) (data t))) <$> seq 0 B).
Proof.
  intros HB Hlen. unfold view_rows. rewrite Hlen.
  rewrite decide_False by lia.
  rewrite (Nat.mul_comm B M), Nat.Div0.mod_mul, Nat.div_mul by lia.
  by rewrite decide_True.
Qed.

Lemma view_rows_length {A} (t : tensor A) (B M : nat) row :
  length (data t) = B * M →
  row ∈ (λ i, take M (drop (i * M) (data t))) <$> seq 0 B → length row = M.
Proof.
  intros Hlen (i & -> & Hi)%list_elem_of_fmap.
  apply elem_of_seq in Hi. rewrite length_take, length_drop. nia.
Qed.

Section keep_matrix_facts.
Context {A : Type} (leb : A → A → bool).
Hypothesis leb_total : ∀ x y, leb x y = true ∨ leb y x = true.
Hypothesis leb_trans : ∀ x y z, leb x y = true → leb y z = true → leb x z = true.

Lemma topk_top_of k row : k ≤ length row → topk leb k row = inr (top_of leb k row).
Proof. intros. unfold topk. by rewrite decide_True. Qed.

Lemma keep_matrix_unfold (loss : tensor A) (B M k : nat) :
  0 < B → length (data loss) = B * M → k ≤ M →
  keep_matrix leb loss B k =
    let* (keep_idx, flat_idx) := unravel (shape loss) (flat_of leb k M (rows_of loss B M)) in
    let* _ := assert_ (forallb (λ f, f =? 0) flat_idx) in
    ret keep_idx.
Proof.
  intros HB Hlen Hk. unfold keep_matrix.
  rewrite (view_rows_ok _ _ M) by done. cbn [rbind].
  rewrite (list_comp_ok _ (top_of leb k)); [done|].
  apply Forall_forall. intros row Hrow. apply topk_top_of.
  by rewrite (view_rows_length loss B M row).
Qed.

Lemma rows_of_lookup (loss : tensor A) (B M i : nat) :
  i < B → rows_of loss B M !! i = Some (image_row loss M i).
Proof.
  intros Hi. unfold rows_of. rewrite list_lookup_fmap, lookup_seq_lt by done. done.
Qed.

Lemma image_row_length (loss : tensor A) (B M i : nat) :
  length (data loss) = B * M → i < B → length (image_row loss M i) = M.
Proof. intros Hlen Hi. unfold image_row. rewrite length_take, length_drop. nia. Qed.

Lemma top_of_idx_length (k : nat) (row : list A) :
  k ≤ length row → length (top_of leb k row).2 = k.
Proof using leb_total leb_trans.
  intros Hk. destruct (topk_spec leb leb_total leb_trans k row Hk)
    as (vals & idxs & Htop & _ & Hlen & _).
  rewrite topk_top_of in Htop by done. injection Htop as <- <-. done.
Qed.

Lemma top_of_idx_bound (k : nat) (row : list A) j x :
  k ≤ length row → (top_of leb k row).2 !! j = Some x → x < length row.
Proof using leb_total leb_trans.
  intros Hk Hj. destruct (topk_spec leb leb_total leb_trans k row Hk)
    as (vals & idxs & Htop & _ & _ & HF & _).
  rewrite topk_top_of in Htop by done. injection Htop as <- <-.
  destruct (Forall2_lookup_l _ _ _ _ _ HF Hj) as (v & _ & Hv).
  by apply lookup_lt_Some in Hv.
Qed.

Lemma blocks_of_lookup (loss : tensor A) (B M k i : nat) :
  i < B →
  blocks_of leb k M (rows_of loss B M) !! i
  = Some ((λ j, j + i * M) <$> (top_of leb k (image_row loss M i)).2).
Proof.
  intros Hi. unfold blocks_of.
  rewrite list_lookup_imap, !list_lookup_fmap, rows_of_lookup by done. done.
Qed.

Lemma blocks_of_length (loss : tensor A) (B M k : nat) :
  length (blocks_of leb k M (rows_of loss B M)) = B.
Proof.
  unfold blocks_of, rows_of. by rewrite length_imap, !length_fmap, length_seq.
Qed.

Lemma blocks_of_same_length (loss : tensor A) (B M k : nat) :
  length (data loss) = B * M → k ≤ M →
  Forall (λ l, length l = k) (blocks_of leb k M (rows_of loss B M)).
Proof using leb_total leb_trans.
  intros Hlen Hk. apply Forall_lookup. intros i l Hl.
  assert (i < B) as Hi.
  { apply lookup_lt_Some in Hl. by rewrite blocks_of_length in Hl. }
  rewrite blocks_of_lookup in Hl by done. injection Hl as <-.
  rewrite length_fmap. apply top_of_idx_length.
  by rewrite (image_row_length loss B).
Qed.

(** Entry [i * k + j] of the flat indices: the j-th smallest of row [i],
    shifted by the row's offset. *)
Lemma flat_of_lookup (loss : tensor A) (B M k i j x : nat) :
  length (data loss) = B * M → k ≤ M → i < B → j < k →
  (top_of leb k (image_row loss M i)).2 !! j = Some x →
  flat_of leb k M (rows_of loss B M) !! (i * k + j) = Some (x + i * M).
Proof using leb_total leb_trans.
  intros Hlen Hk Hi Hj Hx. unfold flat_of. fold (blocks_of leb k M (rows_of loss B M)).
  apply (join_lookup_Some_same_length' k); [by eapply blocks_of_same_length|done|].
  eexists. split; [by apply blocks_of_lookup|].
  by rewrite list_lookup_fmap, Hx.
Qed.

Lemma flat_of_length (loss : tensor A) (B M k : nat) :
  length (data loss) = B * M → k ≤ M →
  length (flat_of leb k M (rows_of loss B M)) = B * k.
Proof using leb_total leb_trans.
  intros Hlen Hk. unfold flat_of. fold (blocks_of leb k M (rows_of loss B M)).
  rewrite length_join, (sum_list_fmap_same k), blocks_of_length; [done|].
  by apply blocks_of_same_length.
Qed.

(** Every position of the flat indices has the form [i * k + j]. *)
Lemma flat_of_elem (loss : tensor A) (B M k p f : nat) :
  length (data loss) = B * M → k ≤ M →
  flat_of leb k M (rows_of loss B M) !! p = Some f →
  ∃ i j x, p = i * k + j ∧ i < B ∧ j < k ∧ f = x + i * M ∧ x < M ∧
           (top_of leb k (image_row loss M i)).2 !! j = Some x.
Proof using leb_total leb_trans.
  intros Hlen Hk Hp. unfold flat_of in Hp. fold (blocks_of leb k M (rows_of loss B M)) in Hp.
  apply (join_lookup_Some_same_length k) in Hp; [|by eapply blocks_of_same_length].
  destruct Hp as (i & l & j & Hl & Hj & ->).
  assert (i < B) as Hi.
  { apply lookup_lt_Some in Hl. by rewrite blocks_of_length in Hl. }
  rewrite blocks_of_lookup in Hl by done. injection Hl as <-.
  apply list_lookup_fmap_Some in Hj as (x & -> & Hx).
  change (take k (sorted_pairs leb (image_row loss M i)).*1)
    with (top_of leb k (image_row loss M i)).2 in Hx.
  assert (k ≤ length (image_row loss M i)) as Hk'.
  { by rewrite (image_row_length loss B). }
  exists i, j, x. split_and!; try done.
  - apply lookup_lt_Some in Hx. by rewrite top_of_idx_length in Hx.
  - apply top_of_idx_bound in Hx; [|done]. by rewrite (image_row_length loss B) in Hx.
Qed.

Lemma flat_of_bound (loss : tensor A) (B M k : nat) :
  length (data loss) = B * M → k ≤ M →
  Forall (λ f, f < B * M) (flat_of leb k M (rows_of loss B M)).
Proof using leb_total leb_trans.
  intros Hlen Hk. apply Forall_lookup. intros p f Hp.
  destruct (flat_of_elem _ _ _ _ _ _ Hlen Hk Hp) as (i & j & x & _ & Hi & _ & -> & Hx & _).
  nia.
Qed.

End keep_matrix_facts.

Section keep_matrix_correct.
Context {A : Type} (leb : A → A → bool).
Hypothesis leb_total : ∀ x y, leb x y = true ∨ leb y x = true.
Hypothesis leb_trans : ∀ x y z, leb x y = true → leb y z = true → leb x z = true.

Context (loss : tensor A) (B : nat) (rest : list nat) (k : nat).
Hypothesis Hwf : wf_tensor loss.
Hypothesis Hshape : shape loss = B :: rest.
Hypothesis Hk : k ≤ numel rest.

Lemma loss_length : length (data loss) = B * numel rest.
Proof using Hwf Hshape. unfold wf_tensor in Hwf. by rewrite Hwf, Hshape, numel_cons. Qed.

Lemma loss_numel : numel (shape loss) = B * numel rest.
Proof using Hshape. by rewrite Hshape, numel_cons. Qed.

(** The pruner returns the un-flattened flat indices. *)
Lemma keep_matrix_kept : 0 < B → keep_matrix leb loss B k = inr (kept leb loss B rest k).
Proof using leb_total leb_trans Hwf Hshape Hk.
  intros HB. pose proof loss_length as Hlen.
  rewrite (keep_matrix_unfold leb loss B (numel rest) k) by done.
  pose proof (flat_of_bound leb leb_total leb_trans loss B _ k Hlen Hk) as Hbound.
  rewrite unravel_axes; last first.
  { destruct (flat_of leb k _ (rows_of loss B _)) as [|f ?]; [by right|left].
    apply Forall_cons in Hbound as [Hf _]. rewrite loss_numel. lia. }
  cbn [rbind]. rewrite loss_numel.
  replace (forallb _ _) with true; [done|].
  symmetry. apply forallb_Forall_true, Forall_fmap, Forall_impl with (1 := Hbound).
  intros f Hf. cbn. rewrite Nat.div_small by done. done.
Qed.

Lemma kept_length : length (kept leb loss B rest k) = length (shape loss).
Proof. apply length_axes. Qed.

Lemma kept_all_length : Forall (λ a, length a = B * k) (kept leb loss B rest k).
Proof using leb_total leb_trans Hwf Hshape Hk.
  apply Forall_lookup. intros d a (n & _ & ->)%axes_lookup.
  rewrite length_fmap. apply flat_of_length; [done..|apply loss_length|done].
Qed.

(** Every returned index is below its axis' extent. *)
Lemma kept_in_range d a n j x :
  (kept leb loss B rest k) !! d = Some a → shape loss !! d = Some n → a !! j = Some x → x < n.
Proof using leb_total leb_trans Hwf Hshape Hk.
  intros (n' & Hn' & ->)%axes_lookup Hn Hx.
  assert (n' = n) as -> by congruence.
  apply list_lookup_fmap_Some in Hx as (f & -> & Hf).
  destruct (flat_of_elem leb leb_total leb_trans loss B _ k _ _ loss_length Hk Hf)
    as (i & j' & y & _ & Hi & _ & -> & Hy & _).
  apply Nat.mod_upper_bound.
  assert (0 < n); [|lia]. apply (numel_pos_extent (shape loss)).
  - rewrite loss_numel. nia.
  - by eapply list_elem_of_lookup_2.
Qed.

Lemma top_idx_lookup i j :
  i < B → j < k →
  ∃ x, (top_of leb k (image_row loss (numel rest) i)).2 !! j = Some x ∧ x < numel rest.
Proof using leb_total leb_trans Hwf Hshape Hk.
  intros Hi Hj. pose proof (image_row_length loss B _ i loss_length Hi) as Hrow.
  assert (j < length (top_of leb k (image_row loss (numel rest) i)).2) as Hlt.
  { rewrite top_of_idx_length; [done..|]. by rewrite Hrow. }
  apply lookup_lt_is_Some in Hlt as [x Hx]. exists x. split; [done|].
  apply top_of_idx_bound in Hx; try done; by rewrite Hrow in *.
Qed.

(** The batch-axis indices of the i-th block are all i. *)
Lemma kept_batch i j :
  i < B → j < k → ∃ a0, (kept leb loss B rest k) !! 0 = Some a0 ∧ a0 !! (i * k + j) = Some i.
Proof using leb_total leb_trans Hwf Hshape Hk.
  intros Hi Hj. unfold kept. rewrite Hshape. cbn [axes]. eexists. split; [done|].
  destruct (top_idx_lookup i j Hi Hj) as (x & Hx & HxM).
  rewrite list_lookup_fmap.
  rewrite (flat_of_lookup leb leb_total leb_trans loss B _ k i j x)
    by (done || apply loss_length).
  cbn. f_equal.
  rewrite Nat.div_add by lia. rewrite (Nat.div_small x) by done.
  by apply Nat.mod_small.
Qed.

(** Gathering at the returned multi-indices gives, image by image, the k
    smallest values in non-decreasing order. *)
Lemma kept_gather i :
  i < B →
  ∃ vals, length vals = k ∧
    (∀ j, j < k → gather loss (kept leb loss B rest k) (i * k + j) = vals !! j) ∧
    k_smallest leb vals (image_values loss i).
Proof using leb_total leb_trans Hwf Hshape Hk.
  intros Hi. pose proof loss_length as Hlen. set (M := numel rest) in *.
  pose proof (image_row_length loss B M i Hlen Hi) as Hrowlen.
  assert (k ≤ length (image_row loss M i)) as Hk' by by rewrite Hrowlen.
  destruct (topk_spec leb leb_total leb_trans k _ Hk')
    as (vals & idxs & Htop & Hlv & Hli & HF & _ & Hsmall).
  rewrite topk_top_of in Htop by done.
  exists vals. split; [done|]. split.
  - intros j Hj.
    assert (j < length idxs) as Hlt by lia.
    apply lookup_lt_is_Some in Hlt as [x Hx].
    destruct (Forall2_lookup_l _ _ _ _ _ HF Hx) as (v & Hv & Hrow).
    rewrite Hv. unfold gather, kept.
    assert ((top_of leb k (image_row loss M i)).2 !! j = Some x) as Hx'.
    { injection Htop as _ <-. done. }
    rewrite (axes_column _ _ _ (x + i * M)); last first.
    { by apply (flat_of_lookup leb leb_total leb_trans loss B M k i j x). }
    cbn. unfold tensor_get.
    assert (x < M) as HxM.
    { apply lookup_lt_Some in Hrow. by rewrite Hrowlen in Hrow. }
    rewrite ravel_digits by (rewrite loss_numel; fold M; nia). cbn.
    unfold image_row in Hrow. rewrite lookup_take_lt, lookup_drop in Hrow by done.
    by rewrite Nat.add_comm.
  - unfold image_values. rewrite Hshape. done.
Qed.

End keep_matrix_correct.

Section keep_matrix_claim.
Context {A : Type} (leb : A → A → bool).
Hypothesis leb_total : ∀ x y, leb x y = true ∨ leb y x = true.
Hypothesis leb_trans : ∀ x y z, leb x y = true → leb y z = true → leb x z = true.

(** C1 (amended: non-empty batch).  For a loss tensor of shape B :: rest
    with B >= 1 and max_poses at most the product of the remaining
    extents, [keep_matrix] returns one index array per axis, each of length
    B * max_poses; every index is below its axis' extent; the batch-axis
    indices of the i-th block are all i; and gathering the tensor at the
    returned multi-indices gives, per image, its max_poses smallest values
    in non-decreasing order. *)
Theorem keep_matrix_topk (loss : tensor A) (B : nat) (rest : list nat) (max_poses : nat) :
  wf_tensor loss → shape loss = B :: rest → 0 < B → max_poses ≤ numel rest →
  ∃ keep_idx,
    keep_matrix leb loss B max_poses = inr keep_idx ∧
    length keep_idx = length (shape loss) ∧
    Forall (λ a, length a = B * max_poses) keep_idx ∧
    (∀ d a n j x,
        keep_idx !! d = Some a → shape loss !! d = Some n → a !! j = Some x → x < n) ∧
    (∀ i j, i < B → j < max_poses →
        ∃ a0, keep_idx !! 0 = Some a0 ∧ a0 !! (i * max_poses + j) = Some i) ∧
    (∀ i, i < B →
        ∃ vals, length vals = max_poses ∧
          (∀ j, j < max_poses → gather loss keep_idx (i * max_poses + j) = vals !! j) ∧
          k_smallest leb vals (image_values loss i)).
Proof using leb_total leb_trans.
  intros Hwf Hshape HB Hk.
  exists (kept leb loss B rest max_poses). split_and!.
  - by apply keep_matrix_kept.
  - apply kept_length.
  - by apply kept_all_length.
  - intros d a n j x. by apply kept_in_range.
  - intros i j. by apply kept_batch.
  - intros i. by apply kept_gather.
Qed.

End keep_matrix_claim.

(* ================================================================= *)
(** ** The resolution schedule *)

Lemma getL_le_Lmax (Lmin Lmax iter_ niter : Z) : (getL Lmin Lmax iter_ niter ≤ Lmax)%Z.
Proof. unfold getL. lia. Qed.

Lemma getL_mono (Lmin Lmax i j niter niter' : Z) :
  (0 < Lmin)%Z → (0 ≤ i)%Z → (i ≤ j)%Z →
  (getL Lmin Lmax i niter ≤ getL Lmin Lmax j niter')%Z.
Proof.
  intros HL Hi Hij. unfold getL.
  assert (2 ^ i ≤ 2 ^ j)%Z by (apply Z.pow_le_mono_r; lia).
  apply Z.min_le_compat_r. nia.
Qed.

(** C4.  For a non-negative iteration index the frequency radius is
    min(Lmin * 2^i, Lmax) whatever niter is; it never exceeds Lmax and,
    for a positive Lmin, it does not decrease with i. *)
Theorem getL_schedule (Lmin Lmax i niter : Z) :
  (0 ≤ i)%Z →
  getL Lmin Lmax i niter = Z.min (Lmin * 2 ^ i) Lmax ∧
  (getL Lmin Lmax i niter ≤ Lmax)%Z ∧
  ((0 < Lmin)%Z → ∀ j niter', (i ≤ j)%Z →
     (getL Lmin Lmax i niter ≤ getL Lmin Lmax j niter')%Z).
Proof.
  intros Hi. split; [done|]. split; [apply getL_le_Lmax|].
  intros HL j niter' Hij. by apply getL_mono.
Qed.

(* ================================================================= *)
(** ** The memo tables *)

Section cache_facts.
Context {F : Type} `{Collaborators F} (self : PoseSearch F).

Lemma get_neighbor_so3_hit quat s2i s1i res (st : state F) v :
  so3_neighbor_cache st !! (s2i, s1i, res) = Some v →
  get_neighbor_so3 quat s2i s1i res st = (inr v, st).
Proof.
  intros Hv. unfold get_neighbor_so3.
  rewrite decide_True by (apply elem_of_dom; eauto).
  rewrite Hv. by destruct st.
Qed.

Lemma get_neighbor_so3_miss quat s2i s1i res (st : state F) :
  so3_neighbor_cache st !! (s2i, s1i, res) = None →
  get_neighbor_so3 quat s2i s1i res st =
    (inr (so3_get_neighbor quat s2i s1i res),
     State (training st)
           (<[(s2i, s1i, res) := so3_get_neighbor quat s2i s1i res]> (so3_neighbor_cache st))
           (shift_neighbor_cache st) (eval_log st)).
Proof.
  intros Hv. unfold get_neighbor_so3.
  rewrite decide_False by (by apply not_elem_of_dom).
  by rewrite lookup_insert_eq.
Qed.

Lemma get_neighbor_shift_hit x y res (st : state F) v :
  shift_neighbor_cache st !! (x, y, res) = Some v →
  get_neighbor_shift self x y res st = (inr v, st).
Proof.
  intros Hv. unfold get_neighbor_shift.
  rewrite decide_True by (apply elem_of_dom; eauto).
  rewrite Hv. by destruct st.
Qed.

Lemma get_neighbor_shift_miss x y res (st : state F) :
  shift_neighbor_cache st !! (x, y, res) = None →
  get_neighbor_shift self x y res st =
    (inr (shift_get_neighbor x y (res - 1) (t_extent self) (t_ngrid self)),
     State (training st) (so3_neighbor_cache st)
           (<[(x, y, res) := shift_get_neighbor x y (res - 1) (t_extent self) (t_ngrid self)]>
              (shift_neighbor_cache st))
           (eval_log st)).
Proof.
  intros Hv. unfold get_neighbor_shift.
  rewrite decide_False by (by apply not_elem_of_dom).
  by rewrite lookup_insert_eq.
Qed.

(** What the rotation table holds after a sequence of queries. *)
Lemma run_calls_so3_cache (calls : list (call F)) (b : bool) key :
  so3_neighbor_cache (run_calls self calls (new_state b)) !! key
  = (λ quat, so3_get_neighbor quat key.1.1 key.1.2 key.2) <$> first_quat calls key.
Proof.
  induction calls as [|c calls IH] using rev_ind; [done|].
  unfold run_calls in *. rewrite foldl_app. cbn [foldl].
  set (st := foldl (do_call self) (new_state b) calls) in *.
  unfold first_quat in *. rewrite omap_app. cbn [omap].
  destruct c as [quat s2i s1i res|x y res]; cbn [do_call].
  - destruct (so3_neighbor_cache st !! (s2i, s1i, res)) as [v|] eqn:Hc.
    + rewrite (get_neighbor_so3_hit _ _ _ _ _ v) by done. cbn. rewrite IH.
      destruct (omap _ calls) as [|q0 qs] eqn:Ho; [|done].
      case_decide as Hk; [|done]. subst key. by rewrite IH in Hc.
    + rewrite get_neighbor_so3_miss by done. cbn.
      case_decide as Hk.
      * subst key. rewrite lookup_insert_eq. rewrite IH in Hc.
        destruct (omap _ calls) as [|q0 qs]; [done|]. done.
      * rewrite lookup_insert_ne by done. rewrite IH. by rewrite app_nil_r.
  - rewrite app_nil_r.
    destruct (shift_neighbor_cache st !! (x, y, res)) as [v|] eqn:Hc.
    + by rewrite (get_neighbor_shift_hit _ _ _ _ v).
    + by rewrite get_neighbor_shift_miss.
Qed.

Lemma cache_ok_new (b : bool) : cache_ok self (new_state b).
Proof. split; intros *; cbn; by rewrite lookup_empty. Qed.

Lemma get_neighbor_so3_ok quat s2i s1i res (st : state F) :
  cache_ok self st →
  ∃ quat0 st',
    get_neighbor_so3 quat s2i s1i res st = (inr (so3_get_neighbor quat0 s2i s1i res), st') ∧
    cache_ok self st' ∧ training st' = training st ∧ eval_log st' = eval_log st.
Proof.
  intros [Hso3 Hshift].
  destruct (so3_neighbor_cache st !! (s2i, s1i, res)) as [v|] eqn:Hc.
  - destruct (Hso3 _ _ _ _ Hc) as [quat0 ->].
    exists quat0, st. by rewrite (get_neighbor_so3_hit _ _ _ _ _ _ Hc).
  - exists quat. eexists. rewrite get_neighbor_so3_miss by done.
    split; [done|]. split; [|done]. split; [|done].
    cbn. intros s2i' s1i' res' v.
    destruct (decide ((s2i, s1i, res) = (s2i', s1i', res'))) as [[= <- <- <-]|Hne].
    + rewrite lookup_insert_eq. intros [= <-]. eauto.
    + rewrite lookup_insert_ne by done. apply Hso3.
Qed.

Lemma get_neighbor_shift_ok x y res (st : state F) :
  cache_ok self st →
  ∃ st',
    get_neighbor_shift self x y res st
      = (inr (shift_get_neighbor x y (res - 1) (t_extent self) (t_ngrid self)), st') ∧
    cache_ok self st' ∧ training st' = training st ∧ eval_log st' = eval_log st.
Proof.
  intros [Hso3 Hshift].
  destruct (shift_neighbor_cache st !! (x, y, res)) as [v|] eqn:Hc.
  - rewrite (Hshift _ _ _ _ Hc) in Hc.
    exists st. by rewrite (get_neighbor_shift_hit _ _ _ _ _ Hc).
  - eexists. rewrite get_neighbor_shift_miss by done.
    split; [done|]. split; [|done]. split; [done|].
    cbn. intros x' y' res' v.
    destruct (decide ((x, y, res) = (x', y', res'))) as [[= <- <- <-]|Hne].
    + rewrite lookup_insert_eq. by intros [= <-].
    + rewrite lookup_insert_ne by done. apply Hshift.
Qed.

Lemma cache_ok_run_calls (calls : list (call F)) (st : state F) :
  cache_ok self st → cache_ok self (run_calls self calls st).
Proof.
  revert st. induction calls as [|c calls IH]; intros st Hok; [done|].
  cbn. apply IH. destruct c as [quat s2i s1i res|x y res]; cbn.
  - destruct (get_neighbor_so3_ok quat s2i s1i res st Hok) as (? & ? & -> & ? & _). done.
  - destruct (get_neighbor_shift_ok x y res st Hok) as (? & -> & ? & _). done.
Qed.

(** A second query with the same key is served from the table. *)
Lemma get_neighbor_so3_again quat quat' s2i s1i res (st : state F) :
  let r := get_neighbor_so3 quat s2i s1i res st in
  get_neighbor_so3 quat' s2i s1i res r.2 = r.
Proof.
  destruct (so3_neighbor_cache st !! (s2i, s1i, res)) as [v|] eqn:Hc; cbn zeta.
  - rewrite (get_neighbor_so3_hit quat _ _ _ _ _ Hc). cbn.
    by rewrite (get_neighbor_so3_hit quat' _ _ _ _ _ Hc).
  - rewrite (get_neighbor_so3_miss quat s2i s1i res st) by done. cbn [snd].
    rewrite (get_neighbor_so3_hit quat' _ _ _ _ (so3_get_neighbor quat s2i s1i res));
      [done|]. cbn. by rewrite lookup_insert_eq.
Qed.

Lemma get_neighbor_shift_again x y res (st : state F) :
  let r := get_neighbor_shift self x y res st in
  get_neighbor_shift self x y res r.2 = r.
Proof.
  destruct (shift_neighbor_cache st !! (x, y, res)) as [v|] eqn:Hc; cbn zeta.
  - rewrite (get_neighbor_shift_hit _ _ _ _ _ Hc). cbn.
    by rewrite (get_neighbor_shift_hit _ _ _ _ _ Hc).
  - rewrite (get_neighbor_shift_miss x y res st) by done. cbn [snd].
    rewrite (get_neighbor_shift_hit _ _ _ _
               (shift_get_neighbor x y (res - 1) (t_extent self) (t_ngrid self)));
      [done|]. cbn. by rewrite lookup_insert_eq.
Qed.

(** C9 (amended: the rotation table is keyed by the cell alone).  After
    any sequence of queries on a new object, a translation query returns
    what [shift_grid.get_neighbor] computes for the cell; a rotation query
    returns what [so3_grid.get_neighbor] computes for the cell and the
    quaternion of the first query with that key (its own quaternion when
    there was none); and a repeated query with the same key returns the
    same value and leaves the tables as they are. *)
Theorem memoised_neighbors (calls : list (call F)) (b : bool) :
  let st := run_calls self calls (new_state b) in
  (∀ x y res,
     (get_neighbor_shift self x y res st).1
     = inr (shift_get_neighbor x y (res - 1) (t_extent self) (t_ngrid self))) ∧
  (∀ quat s2i s1i res,
     (get_neighbor_so3 quat s2i s1i res st).1
     = inr (so3_get_neighbor (default quat (first_quat calls (s2i, s1i, res))) s2i s1i res)) ∧
  (∀ quat quat' s2i s1i res,
     let r := get_neighbor_so3 quat s2i s1i res st in
     get_neighbor_so3 quat' s2i s1i res r.2 = r) ∧
  (∀ x y res,
     let r := get_neighbor_shift self x y res st in
     get_neighbor_shift self x y res r.2 = r).
Proof.
  intros st.
  assert (cache_ok self st) as Hok by apply cache_ok_run_calls, cache_ok_new.
  split; [|split; [|split]].
  - intros x y res. by destruct (get_neighbor_shift_ok x y res st Hok) as (? & -> & _).
  - intros quat s2i s1i res.
    pose proof (run_calls_so3_cache calls b (s2i, s1i, res)) as Hc. fold st in Hc.
    destruct (first_quat calls (s2i, s1i, res)) as [quat0|]; cbn in Hc |- *.
    + by rewrite (get_neighbor_so3_hit _ _ _ _ _ _ Hc).
    + by rewrite get_neighbor_so3_miss.
  - intros. apply get_neighbor_so3_again.
  - intros. apply get_neighbor_shift_again.
Qed.

End cache_facts.

(* ================================================================= *)
(** ** What a call leaves alone *)

Section frame.
Context {F : Type} `{Collaborators F} (leb : F → F → bool) (self : PoseSearch F).

Lemma keeps_mode_ret {A} (a : A) : keeps_mode (F:=F) (mret a).
Proof. done. Qed.

Lemma keeps_mode_lift {A} (r : result A) : keeps_mode (F:=F) (lift r).
Proof. done. Qed.

Lemma keeps_mode_bind {A B} (m : M F A) (k : A → M F B) :
  keeps_mode m → (∀ a, keeps_mode (k a)) → keeps_mode (mbind m k).
Proof.
  intros Hm Hk st. unfold mbind. specialize (Hm st).
  destruct (m st) as [[e|a] st']; cbn in *; [done|].
  by rewrite Hk.
Qed.

Lemma keeps_mode_list_compM {X Y} (f : X → M F Y) (l : list X) :
  (∀ x, keeps_mode (f x)) → keeps_mode (list_compM f l).
Proof.
  intros Hf. induction l as [|x l IH]; cbn; [apply keeps_mode_ret|].
  apply keeps_mode_bind; [done|]. intros y.
  apply keeps_mode_bind; [done|]. intros ys. apply keeps_mode_ret.
Qed.

Lemma keeps_mode_so3 quat s2i s1i res : keeps_mode (get_neighbor_so3 quat s2i s1i res).
Proof. intros st. unfold get_neighbor_so3. by repeat case_match. Qed.

Lemma keeps_mode_shift x y res : keeps_mode (get_neighbor_shift self x y res).
Proof. intros st. unfold get_neighbor_shift. by repeat case_match. Qed.

Lemma keeps_mode_eval req : keeps_mode (eval_grid_call req).
Proof. done. Qed.

Lemma keeps_mode_assert : keeps_mode (F:=F) assert_not_training.
Proof. done. Qed.

Ltac keeps_mode_tac :=
  repeat first
    [ apply keeps_mode_ret | apply keeps_mode_lift | apply keeps_mode_so3
    | apply keeps_mode_shift | apply keeps_mode_eval | apply keeps_mode_assert
    | apply keeps_mode_list_compM; intros ?
    | apply keeps_mode_bind; [|intros ?]
    | match goal with |- keeps_mode (match ?x with _ => _ end) => destruct x end
    | match goal with |- keeps_mode (let '(_, _) := ?x in _) => destruct x end ].

Lemma keeps_mode_subdivide quat q_ind t_ind cur_res :
  keeps_mode (subdivide self quat q_ind t_ind cur_res).
Proof. unfold subdivide. keeps_mode_tac. Qed.

Lemma keeps_mode_loop_body B niter v iter_ : keeps_mode (loop_body leb self B niter v iter_).
Proof. unfold loop_body. keeps_mode_tac; try apply keeps_mode_subdivide; keeps_mode_tac. Qed.

Lemma keeps_mode_loop B niter v iters : keeps_mode (loop leb self B niter v iters).
Proof.
  revert v. induction iters as [|i iters IH]; intros v; cbn; [apply keeps_mode_ret|].
  apply keeps_mode_bind; [apply keeps_mode_loop_body|done].
Qed.

Lemma keeps_mode_opt_theta_trans B niter init_poses :
  keeps_mode (opt_theta_trans leb self B niter init_poses).
Proof.
  unfold opt_theta_trans. keeps_mode_tac; try apply keeps_mode_loop; keeps_mode_tac.
Qed.

(** C10.  With the model in training mode the driver stops at its
    assertion: nothing is scored and no table is filled; and no call of
    the driver, whatever its arguments, changes the model's mode. *)
Theorem opt_theta_trans_requires_eval_mode
    (B : nat) (niter : Z) (init_poses : option (tensor nat)) (st : state F) :
  training st = true →
  opt_theta_trans leb self B niter init_poses st = (inl AssertionError, st) ∧
  (∀ B' niter' init_poses' st',
     training (opt_theta_trans leb self B' niter' init_poses' st').2 = training st').
Proof.
  intros Htr. split.
  - unfold opt_theta_trans, mbind, assert_not_training. by rewrite Htr.
  - intros. apply keeps_mode_opt_theta_trans.
Qed.

End frame.

(* ================================================================= *)
(** ** Facts about the array helpers *)

Section array_facts.
Context {X : Type}.
Implicit Types t : tensor X.

Lemma tensor_row_ok t n s i :
  shape t = n :: s → i < n →
  tensor_row t i = inr (Tensor s (take (numel s) (drop (i * numel s) (data t)))).
Proof. intros Hs Hi. unfold tensor_row. rewrite Hs. by rewrite decide_True. Qed.

Lemma tensor_get_is_Some t idx :
  wf_tensor t → is_Some (ravel (shape t) idx) → is_Some (tensor_get t idx).
Proof.
  intros Hwf [off Hoff]. unfold tensor_get. rewrite Hoff. cbn.
  apply lookup_lt_is_Some. rewrite Hwf. by apply digits_ravel in Hoff as [_ ?].
Qed.

Lemma ravel2 n m i j : i < n → j < m → ravel [n; m] [i; j] = Some (i * m + j).
Proof.
  intros Hi Hj. cbn. rewrite !decide_True by done. cbn.
  change (numel [m]) with (m * 1). change (numel []) with 1. f_equal. lia.
Qed.

Lemma tensor_item2_ok t n m i j :
  shape t = [n; m] → wf_tensor t → i < n → j < m →
  ∃ x, tensor_get t [i; j] = Some x ∧ tensor_item2 t i j = inr x.
Proof.
  intros Hs Hwf Hi Hj.
  destruct (tensor_get_is_Some t [i; j] Hwf) as [x Hx].
  { rewrite Hs, ravel2 by done. eauto. }
  exists x. split; [done|]. unfold tensor_item2. rewrite Hs. cbn. by rewrite Hx.
Qed.

(** Stacking arrays of one shape. *)
Lemma np_array_ok (l : list (tensor X)) s :
  l ≠ [] → Forall (λ t, shape t = s ∧ wf_tensor t) l →
  np_array l = inr (Tensor (length l :: s) (mjoin (data <$> l))) ∧
  wf_tensor (Tensor (length l :: s) (mjoin (data <$> l))).
Proof.
  intros Hne Hall. split.
  - destruct l as [|t l]; [done|]. unfold np_array.
    apply Forall_cons in Hall as [[Ht _] Hall].
    rewrite forallb_Forall_true; [by rewrite Ht|].
    apply Forall_impl with (1 := Hall). intros u [Hu _].
    apply bool_decide_eq_true. congruence.
  - unfold wf_tensor. cbn. rewrite numel_cons, length_join.
    rewrite (sum_list_fmap_same (numel s)), length_fmap; [done|].
    apply Forall_fmap, Forall_impl with (1 := Hall). intros u [Hu Hwf]. cbn.
    by rewrite Hwf, Hu.
Qed.

(** An entry of a stack is an entry of one of its layers. *)
Lemma tensor_get_stack (l : list (tensor X)) s i t idx :
  Forall (λ t, shape t = s ∧ wf_tensor t) l → l !! i = Some t →
  tensor_get (Tensor (length l :: s) (mjoin (data <$> l))) (i :: idx) = tensor_get t idx.
Proof.
  intros Hall Hi.
  assert (shape t = s ∧ wf_tensor t) as [Hs Hwf].
  { by apply (Forall_lookup_1 _ _ _ _ Hall Hi). }
  unfold tensor_get. cbn. rewrite decide_True by by eapply lookup_lt_Some.
  rewrite Hs. destruct (ravel s idx) as [off|] eqn:Hoff; [|done]. cbn.
  apply digits_ravel in Hoff as [_ Hlt].
  assert (is_Some (data t !! off)) as [x Hx].
  { apply lookup_lt_is_Some. by rewrite Hwf, Hs. }
  rewrite Hx. apply (join_lookup_Some_same_length' (numel s)); [|done|].
  - apply Forall_fmap, Forall_impl with (1 := Hall). intros u [Hu Hwfu]. cbn.
    by rewrite Hwfu, Hu.
  - exists (data t). split; [|done]. by rewrite list_lookup_fmap, Hi.
Qed.

Lemma view_cols_ok t c n :
  0 < c → length (data t) = n * c → view_cols t c = inr (Tensor [n; c] (data t)).
Proof.
  intros Hc Hlen. unfold view_cols. rewrite Hlen.
  rewrite Nat.Div0.mod_mul, Nat.div_mul by lia. by rewrite decide_True.
Qed.

Lemma reshape_cols_ok t c n :
  0 < c → length (data t) = n * c → reshape_cols t c = inr (Tensor [n; c] (data t)).
Proof.
  intros Hc Hlen. unfold reshape_cols. rewrite Hlen.
  rewrite Nat.Div0.mod_mul, Nat.div_mul by lia. by rewrite decide_True.
Qed.

End array_facts.

(* ================================================================= *)
(** ** Stepping through stateful code *)

Section steps.
Context {F : Type}.

Lemma mbind_inr {A B} (m : M F A) (k : A → M F B) st a st' :
  m st = (inr a, st') → mbind m k st = k a st'.
Proof. intros Hm. unfold mbind. by rewrite Hm. Qed.

Lemma mbind_mret {A B} (a : A) (k : A → M F B) st : mbind (mret a) k st = k a st.
Proof. done. Qed.

Lemma mbind_lift_inr {A B} (r : result A) (k : A → M F B) st a :
  r = inr a → mbind (lift r) k st = k a st.
Proof. by intros ->. Qed.

(** A returning bind: both halves returned. *)
Lemma mbind_inv {A B} (m : M F A) (k : A → M F B) st b st1 :
  mbind m k st = (inr b, st1) →
  ∃ a st', m st = (inr a, st') ∧ k a st' = (inr b, st1).
Proof.
  unfold mbind. destruct (m st) as [[e|a] st']; [done|]. eauto.
Qed.

Lemma lift_inv {A} (r : result A) (st : state F) a st1 :
  lift r st = (inr a, st1) → r = inr a ∧ st1 = st.
Proof. unfold lift. by intros [= -> ->]. Qed.

Lemma assert_inv (c : bool) u : assert_ c = inr u → c = true.
Proof. by destruct c. Qed.

(** A comprehension whose body returns on every element, under an
    invariant of the state. *)
Lemma list_compM_ok {X Y} (I : state F → Prop) (P : X → Y → Prop)
    (f : X → M F Y) (l : list X) st :
  I st →
  (∀ x st, x ∈ l → I st → ∃ y st', f x st = (inr y, st') ∧ I st' ∧ P x y) →
  ∃ ys st', list_compM f l st = (inr ys, st') ∧ I st' ∧ Forall2 P l ys.
Proof.
  revert st. induction l as [|x l IH]; intros st HI Hf.
  - exists [], st. by split_and!.
  - destruct (Hf x st) as (y & st1 & Hy & HI1 & HP); [by left|done|].
    destruct (IH st1) as (ys & st2 & Hys & HI2 & HPs); [done|..].
    { intros x' st' Hx'. apply Hf. by right. }
    exists (y :: ys), st2. split_and!; [|done|by constructor].
    cbn. rewrite (mbind_inr _ _ _ _ _ Hy), (mbind_inr _ _ _ _ _ Hys). done.
Qed.

End steps.

Ltac inv_bind H H1 :=
  let a := fresh "a" in let st := fresh "st" in
  apply mbind_inv in H as (a & st & H1 & H);
  first [ apply lift_inv in H1 as [H1 ->] | idtac ].

Ltac inv_assert H :=
  let H1 := fresh "Hshape" in
  inv_bind H H1; apply assert_inv, bool_decide_eq_true in H1.

Section subdivide_facts.
Context {F : Type} `{Collaborators F} (self : PoseSearch F).

(** Whatever the grid modules return, a returning [subdivide] has passed
    its assertions: the shapes are the documented ones. *)
Lemma subdivide_shapes (quat : tensor F) (q_ind t_ind : tensor Z) (cur_res : Z)
    (st st1 : state F) quat' q_ind' t_ind' rot trans :
  subdivide self quat q_ind t_ind cur_res st = (inr (quat', q_ind', t_ind', rot, trans), st1) →
  ∃ N, shape quat = [N; 4] ∧ shape q_ind = [N; 2] ∧ shape t_ind = [N; 2] ∧
       shape quat' = [N; 8; 4] ∧ shape q_ind' = [N; 8; 2] ∧ shape t_ind' = [N; 4; 2] ∧
       shape rot = [N * 8; 3; 3] ∧ shape trans = [N * 4; 2].
Proof.
  unfold subdivide. intros Hrun.
  inv_bind Hrun HN. rename a into N. exists N.
  do 3 inv_assert Hrun.
  do 8 (let H1 := fresh "Hstep" in inv_bind Hrun H1).
  do 5 inv_assert Hrun.
  injection Hrun as <- <- <- <- <- <-. by split_and!.
Qed.

Lemma child_pairs_Some (ind : tensor Z) c a b :
  tensor_get ind [c; 0] = Some a → tensor_get ind [c; 1] = Some b →
  child_pairs ind c = Some (a, b).
Proof. intros Ha Hb. unfold child_pairs. by rewrite Ha, Hb. Qed.

Section contract.
Context (valid_rot valid_shift : Z → Z → Z → Prop).
Context (contract : grid_contract self valid_rot valid_shift).
Context (quat : tensor F) (q_ind t_ind : tensor Z) (cur_res : Z) (N : nat).
Hypothesis Hquat : shape quat = [N; 4].
Hypothesis Hq_ind : shape q_ind = [N; 2] ∧ wf_tensor q_ind.
Hypothesis Ht_ind : shape t_ind = [N; 2] ∧ wf_tensor t_ind.
Hypothesis Hvalid_rot : ∀ i s2i s1i,
  child_pairs q_ind i = Some (s2i, s1i) → valid_rot cur_res s2i s1i.
Hypothesis Hvalid_shift : ∀ i x y,
  child_pairs t_ind i = Some (x, y) → valid_shift cur_res x y.

Lemma so3_body_ok i st :
  i < N → cache_ok self st →
  ∃ y st',
    (let! quat_i := lift (tensor_row quat i) in
     let! s2i := lift (tensor_item2 q_ind i 0) in
     let! s1i := lift (tensor_item2 q_ind i 1) in
     get_neighbor_so3 quat_i s2i s1i cur_res) st = (inr y, st') ∧
    cache_ok self st' ∧ so3_children_ok valid_rot cur_res y.
Proof using contract Hquat Hq_ind Hvalid_rot.
  intros Hi Hok. destruct Hq_ind as [Hs Hwf].
  destruct (tensor_item2_ok q_ind N 2 i 0) as (s2i & Hg0 & Hi0); [done..|lia|].
  destruct (tensor_item2_ok q_ind N 2 i 1) as (s1i & Hg1 & Hi1); [done..|lia|].
  rewrite (mbind_lift_inr _ _ _ _ (tensor_row_ok quat N [4] i Hquat Hi)).
  rewrite (mbind_lift_inr _ _ _ _ Hi0), (mbind_lift_inr _ _ _ _ Hi1).
  assert (valid_rot cur_res s2i s1i) as Hv.
  { apply (Hvalid_rot i). by apply child_pairs_Some. }
  edestruct (get_neighbor_so3_ok self) as (quat0 & st' & -> & Hok' & _); [done|].
  exists (so3_get_neighbor quat0 s2i s1i cur_res), st'. split; [done|]. split; [done|].
  pose proof (so3_children_shape _ _ _ contract quat0 _ _ _ Hv) as Hsh.
  pose proof (so3_children_valid _ _ _ contract quat0 s2i s1i cur_res) as Hch.
  destruct (so3_get_neighbor quat0 s2i s1i cur_res) as [q ind].
  destruct Hsh as (? & ? & ? & ?). split_and!; try done.
  intros c a b Hc. by eapply Hch.
Qed.

Lemma shift_body_ok i st :
  i < N → cache_ok self st →
  ∃ y st',
    (let! xx := lift (tensor_item2 t_ind i 0) in
     let! yy := lift (tensor_item2 t_ind i 1) in
     get_neighbor_shift self xx yy cur_res) st = (inr y, st') ∧
    cache_ok self st' ∧ shift_children_ok valid_shift cur_res y.
Proof using contract Ht_ind Hvalid_shift.
  intros Hi Hok. destruct Ht_ind as [Hs Hwf].
  destruct (tensor_item2_ok t_ind N 2 i 0) as (x & Hg0 & Hi0); [done..|lia|].
  destruct (tensor_item2_ok t_ind N 2 i 1) as (y & Hg1 & Hi1); [done..|lia|].
  rewrite (mbind_lift_inr _ _ _ _ Hi0), (mbind_lift_inr _ _ _ _ Hi1).
  assert (valid_shift cur_res x y) as Hv.
  { apply (Hvalid_shift i). by apply child_pairs_Some. }
  edestruct (get_neighbor_shift_ok self) as (st' & -> & Hok' & _); [done|].
  eexists _, st'. split; [done|]. split; [done|].
  pose proof (shift_children_shape _ _ _ contract _ _ _ Hv) as Hsh.
  pose proof (shift_children_valid _ _ _ contract x y cur_res) as Hch.
  destruct (shift_get_neighbor x y (cur_res - 1) (t_extent self) (t_ngrid self)) as [t ind].
  destruct Hsh as (? & ? & ? & ?). split_and!; try done.
  intros c a b Hc. by eapply Hch.
Qed.

Lemma assert_shape_ok (s : list nat) : assert_ (shape_eqb s s) = inr tt.
Proof. unfold shape_eqb. by rewrite bool_decide_eq_true_2. Qed.

Lemma subdivide_ok (st : state F) :
  0 < N → cache_ok self st →
  ∃ quat' q_ind' t_ind' rot trans st',
    subdivide self quat q_ind t_ind cur_res st
      = (inr (quat', q_ind', t_ind', rot, trans), st') ∧
    cache_ok self st' ∧
    (shape quat' = [N; 8; 4] ∧ wf_tensor quat') ∧
    (shape q_ind' = [N; 8; 2] ∧ wf_tensor q_ind') ∧
    (shape t_ind' = [N; 4; 2] ∧ wf_tensor t_ind') ∧
    (shape rot = [N * 8; 3; 3] ∧ wf_tensor rot) ∧
    (shape trans = [N * 4; 2] ∧ wf_tensor trans) ∧
    (∀ i c a b, tensor_get q_ind' [i; c; 0] = Some a → tensor_get q_ind' [i; c; 1] = Some b →
                valid_rot (cur_res + 1)%Z a b) ∧
    (∀ i c a b, tensor_get t_ind' [i; c; 0] = Some a → tensor_get t_ind' [i; c; 1] = Some b →
                valid_shift (cur_res + 1)%Z a b).
Proof using contract Hquat Hq_ind Ht_ind Hvalid_rot Hvalid_shift.
  intros HN Hok. unfold subdivide.
  rewrite (mbind_lift_inr _ _ _ N) by (unfold shape0; by rewrite Hquat).
  destruct Hq_ind as [Hqs Hqwf], Ht_ind as [Hts Htwf].
  rewrite Hquat, Hqs, Hts.
  rewrite !(mbind_lift_inr _ _ _ tt) by apply assert_shape_ok.
  (* rotation children *)
  match goal with |- context [list_compM ?f (seq 0 N)] =>
    destruct (list_compM_ok (cache_ok self) (λ _ y, so3_children_ok valid_rot cur_res y) f (seq 0 N) st Hok)
      as (ys & st1 & Hys & Hok1 & HPs) end.
  { intros i st0 Hi%elem_of_seq Hok0. apply so3_body_ok; [lia|done]. }
  rewrite (mbind_inr _ _ _ _ _ Hys).
  unfold children in *.
  assert (length ys = N) as Hlen.
  { apply Forall2_length in HPs. by rewrite length_seq in HPs. }
  assert (Forall (so3_children_ok valid_rot cur_res) ys) as Hall.
  { clear -HPs. induction HPs; constructor; auto. }
  assert (ys ≠ []) as Hne by (intros ->; cbn in Hlen; lia).
  destruct (np_array_ok (fst <$> ys) [8; 4]) as [Hquat' Hwfq'].
  { by destruct ys. }
  { apply Forall_fmap, Forall_impl with (1 := Hall). by intros y (? & _). }
  destruct (np_array_ok (snd <$> ys) [8; 2]) as [Hqind' Hwfi'].
  { by destruct ys. }
  { apply Forall_fmap, Forall_impl with (1 := Hall). by intros y (_ & ? & _). }
  rewrite length_fmap, Hlen in Hquat'. rewrite length_fmap, Hlen in Hwfq'.
  rewrite length_fmap, Hlen in Hqind'. rewrite length_fmap, Hlen in Hwfi'.
  rewrite (mbind_lift_inr _ _ _ _ Hquat'), (mbind_lift_inr _ _ _ _ Hqind').
  set (quat' := Tensor [N; 8; 4] _) in *. set (q_ind' := Tensor [N; 8; 2] _) in *.
  assert (length (data quat') = N * 8 * 4) as Hlq.
  { etrans; [exact Hwfq'|]. cbn. unfold numel. cbn. lia. }
  rewrite (mbind_lift_inr _ _ _ _ (view_cols_ok quat' 4 (N * 8) ltac:(lia) Hlq)).
  destruct (to_SO3_shape _ _ _ contract (Tensor [N * 8; 4] (data quat')) (N * 8))
    as [Hrot Hwfrot]; [done| |].
  { unfold wf_tensor. change (length (data quat') = numel [N * 8; 4]).
    rewrite Hlq. unfold numel. cbn. lia. }
  (* translation children *)
  match goal with |- context [list_compM ?f (seq 0 N)] =>
    destruct (list_compM_ok (cache_ok self) (λ _ y, shift_children_ok valid_shift cur_res y) f (seq 0 N) st1 Hok1)
      as (zs & st2 & Hzs & Hok2 & HQs) end.
  { intros i st0 Hi%elem_of_seq Hok0. apply shift_body_ok; [lia|done]. }
  rewrite (mbind_inr _ _ _ _ _ Hzs).
  unfold children in *.
  assert (length zs = N) as Hlenz.
  { apply Forall2_length in HQs. by rewrite length_seq in HQs. }
  assert (Forall (shift_children_ok valid_shift cur_res) zs) as Hallz.
  { clear -HQs. induction HQs; constructor; auto. }
  assert (zs ≠ []) as Hnez by (intros ->; cbn in Hlenz; lia).
  destruct (np_array_ok (fst <$> zs) [4; 2]) as [Htrans0 Hwft0].
  { by destruct zs. }
  { apply Forall_fmap, Forall_impl with (1 := Hallz). by intros y (? & _). }
  destruct (np_array_ok (snd <$> zs) [4; 2]) as [Htind' Hwfti'].
  { by destruct zs. }
  { apply Forall_fmap, Forall_impl with (1 := Hallz). by intros y (_ & ? & _). }
  rewrite length_fmap, Hlenz in Htrans0. rewrite length_fmap, Hlenz in Hwft0.
  rewrite length_fmap, Hlenz in Htind'. rewrite length_fmap, Hlenz in Hwfti'.
  rewrite (mbind_lift_inr _ _ _ _ Htrans0).
  set (trans0 := Tensor [N; 4; 2] _) in *. set (t_ind' := Tensor [N; 4; 2] (mjoin (data <$> zs.*2))) in *.
  assert (length (data trans0) = N * 4 * 2) as Hlt.
  { etrans; [exact Hwft0|]. cbn. unfold numel. cbn. lia. }
  rewrite (mbind_lift_inr _ _ _ _ (reshape_cols_ok trans0 2 (N * 4) ltac:(lia) Hlt)).
  rewrite (mbind_lift_inr _ _ _ _ Htind').
  cbn [shape]. rewrite Hrot.
  rewrite !(mbind_lift_inr _ _ _ tt) by apply assert_shape_ok.
  eexists _, _, _, _, _, _. split; [done|]. split; [done|].
  split_and!; try done.
  - intros i c a b Ha Hb.
    assert (is_Some (ys.*2 !! i)) as [ind Hind].
    { apply lookup_lt_is_Some. rewrite length_fmap, Hlen.
      unfold tensor_get in Ha. cbn in Ha. case_decide; [done|]. done. }
    subst q_ind'. rewrite <-Hlen, <-(length_fmap snd ys) in Ha, Hb.
    assert (Forall (λ t, shape t = [8; 2] ∧ wf_tensor t) ys.*2) as Hall2.
    { apply Forall_fmap, Forall_impl with (1 := Hall). by intros y (_ & ? & _). }
    rewrite (tensor_get_stack _ _ _ _ [c; 0] Hall2 Hind) in Ha.
    rewrite (tensor_get_stack _ _ _ _ [c; 1] Hall2 Hind) in Hb.
    apply list_lookup_fmap_Some in Hind as (y & -> & Hy).
    apply (Forall_lookup_1 _ _ _ _ Hall) in Hy as (_ & _ & Hv).
    apply (Hv c). by apply child_pairs_Some.
  - intros i c a b Ha Hb.
    assert (is_Some (zs.*2 !! i)) as [ind Hind].
    { apply lookup_lt_is_Some. rewrite length_fmap, Hlenz.
      unfold tensor_get in Ha. cbn in Ha. case_decide; [done|]. done. }
    subst t_ind'. rewrite <-Hlenz, <-(length_fmap snd zs) in Ha, Hb.
    assert (Forall (λ t, shape t = [4; 2] ∧ wf_tensor t) zs.*2) as Hall2.
    { apply Forall_fmap, Forall_impl with (1 := Hallz). by intros y (_ & ? & _). }
    rewrite (tensor_get_stack _ _ _ _ [c; 0] Hall2 Hind) in Ha.
    rewrite (tensor_get_stack _ _ _ _ [c; 1] Hall2 Hind) in Hb.
    apply list_lookup_fmap_Some in Hind as (y & -> & Hy).
    apply (Forall_lookup_1 _ _ _ _ Hallz) in Hy as (_ & _ & Hv).
    apply (Hv c). by apply child_pairs_Some.
Qed.

End contract.

(* ----------------------------------------------------------------- *)
(** What a failing [subdivide] raises. *)

Lemma raises_only_mret {A} (P : exn → Prop) (a : A) : raises_only (F := F) P (mret a).
Proof. intros st e st'. discriminate. Qed.

Lemma raises_only_lift {A} (P : exn → Prop) (r : result A) :
  (∀ e, r = inl e → P e) → raises_only (F := F) P (lift r).
Proof. intros Hr st e st'. unfold lift. intros [= -> _]. by apply Hr. Qed.

Lemma raises_only_bind {A B} (P : exn → Prop) (m : M F A) (k : A → M F B) :
  raises_only P m → (∀ a, raises_only P (k a)) → raises_only P (mbind m k).
Proof.
  intros Hm Hk st e st'. unfold mbind.
  destruct (m st) as [[e0|a] st0] eqn:Hrun.
  - intros [= -> ->]. by apply (Hm _ _ _ Hrun).
  - apply Hk.
Qed.

Lemma raises_only_list_compM {X Y} (P : exn → Prop) (f : X → M F Y) (l : list X) :
  (∀ x, raises_only P (f x)) → raises_only P (list_compM f l).
Proof.
  intros Hf. induction l as [|x l IH]; cbn [list_compM]; [apply raises_only_mret|].
  apply raises_only_bind; [apply Hf|]. intros y.
  apply raises_only_bind; [apply IH|]. intros ys. apply raises_only_mret.
Qed.

Lemma get_neighbor_so3_raises (quat : tensor F) s2i s1i res :
  raises_only subdivide_error (get_neighbor_so3 quat s2i s1i res).
Proof.
  intros st e st'. unfold get_neighbor_so3. cbv zeta.
  destruct (_ !! _); intros [= <- _]. right. by left.
Qed.

Lemma get_neighbor_shift_raises x y res :
  raises_only subdivide_error (get_neighbor_shift self x y res).
Proof.
  intros st e st'. unfold get_neighbor_shift. cbv zeta.
  destruct (_ !! _); intros [= <- _]. right. by left.
Qed.

Lemma shape0_raises {X} (t : tensor X) e : shape0 t = inl e → subdivide_error e.
Proof. unfold shape0. destruct (shape t); intros [= <-]. right. by left. Qed.

Lemma assert_raises c e : assert_ c = inl e → subdivide_error e.
Proof. destruct c; intros [= <-]. by left. Qed.

Lemma tensor_row_raises {X} (t : tensor X) i e : tensor_row t i = inl e → subdivide_error e.
Proof.
  unfold tensor_row. destruct (shape t); [|case_decide]; intros [= <-]; right; by left.
Qed.

Lemma tensor_item2_raises {X} (t : tensor X) i j e :
  tensor_item2 t i j = inl e → subdivide_error e.
Proof.
  unfold tensor_item2. case_decide; [destruct (tensor_get _ _)|]; intros [= <-];
    right; by left.
Qed.

Lemma np_array_raises {X} (l : list (tensor X)) e : np_array l = inl e → subdivide_error e.
Proof.
  unfold np_array. destruct l; [done|]. destruct (forallb _ _); intros [= <-].
  right. right. by left.
Qed.

Lemma view_cols_raises {X} (t : tensor X) c e : view_cols t c = inl e → subdivide_error e.
Proof.
  unfold view_cols. cbv zeta. case_decide; intros [= <-]. right. right. right. by eexists.
Qed.

Lemma reshape_cols_raises {X} (t : tensor X) c e :
  reshape_cols t c = inl e → subdivide_error e.
Proof.
  unfold reshape_cols. cbv zeta. case_decide; intros [= <-]. right. right. by left.
Qed.

Lemma subdivide_raises (quat : tensor F) (q_ind t_ind : tensor Z) (cur_res : Z) :
  raises_only subdivide_error (subdivide self quat q_ind t_ind cur_res).
Proof.
  unfold subdivide.
  repeat first
    [ apply raises_only_mret
    | apply raises_only_list_compM; intros ?
    | apply get_neighbor_so3_raises
    | apply get_neighbor_shift_raises
    | apply raises_only_lift; intros ?;
      first [ apply shape0_raises | apply assert_raises | apply tensor_row_raises
            | apply tensor_item2_raises | apply np_array_raises | apply view_cols_raises
            | apply reshape_cols_raises ]
    | apply raises_only_bind; [|intros ?] ].
Qed.

(** C2 (amended: at least one candidate, and not every failure is an
    assertion's).  For N >= 1 candidates with valid grid indices at
    resolution r, and grid modules that keep their contract, [subdivide]
    returns N x 8 x 4 child quaternions, N x 8 x 2 rotation child indices,
    N x 4 x 2 translation child indices, N*8 rotation matrices and N*4
    translations, every child index valid at r+1.  Whatever the grid
    modules return, a call that returns has passed the shape assertions
    and has these shapes for one N; and a call that does not return has
    raised an AssertionError, an IndexError, a ValueError ([np.array]) or
    a RuntimeError ([view]). *)
Theorem subdivide_fan_out (valid_rot valid_shift : Z → Z → Z → Prop)
    (quat : tensor F) (q_ind t_ind : tensor Z) (cur_res : Z) (N : nat) (st : state F) :
  grid_contract self valid_rot valid_shift →
  cache_ok self st →
  0 < N →
  shape quat = [N; 4] →
  shape q_ind = [N; 2] ∧ wf_tensor q_ind →
  shape t_ind = [N; 2] ∧ wf_tensor t_ind →
  (∀ i s2i s1i, child_pairs q_ind i = Some (s2i, s1i) → valid_rot cur_res s2i s1i) →
  (∀ i x y, child_pairs t_ind i = Some (x, y) → valid_shift cur_res x y) →
  (∃ quat' q_ind' t_ind' rot trans st',
     subdivide self quat q_ind t_ind cur_res st
       = (inr (quat', q_ind', t_ind', rot, trans), st') ∧
     cache_ok self st' ∧
     (shape quat' = [N; 8; 4] ∧ wf_tensor quat') ∧
     (shape q_ind' = [N; 8; 2] ∧ wf_tensor q_ind') ∧
     (shape t_ind' = [N; 4; 2] ∧ wf_tensor t_ind') ∧
     (shape rot = [N * 8; 3; 3] ∧ wf_tensor rot) ∧
     (shape trans = [N * 4; 2] ∧ wf_tensor trans) ∧
     (∀ i c a b,
        tensor_get q_ind' [i; c; 0] = Some a → tensor_get q_ind' [i; c; 1] = Some b →
        valid_rot (cur_res + 1)%Z a b) ∧
     (∀ i c a b,
        tensor_get t_ind' [i; c; 0] = Some a → tensor_get t_ind' [i; c; 1] = Some b →
        valid_shift (cur_res + 1)%Z a b)) ∧
  (∀ quat0 q_ind0 t_ind0 res0 st0 st1 quat' q_ind' t_ind' rot trans,
     subdivide self quat0 q_ind0 t_ind0 res0 st0
       = (inr (quat', q_ind', t_ind', rot, trans), st1) →
     ∃ N0, shape quat0 = [N0; 4] ∧ shape q_ind0 = [N0; 2] ∧ shape t_ind0 = [N0; 2] ∧
           shape quat' = [N0; 8; 4] ∧ shape q_ind' = [N0; 8; 2] ∧
           shape t_ind' = [N0; 4; 2] ∧ shape rot = [N0 * 8; 3; 3] ∧
           shape trans = [N0 * 4; 2]) ∧
  (∀ quat0 q_ind0 t_ind0 res0 st0 st1 e,
     subdivide self quat0 q_ind0 t_ind0 res0 st0 = (inl e, st1) →
     subdivide_error e).
Proof.
  intros Hc Hok HN Hq Hqi Hti Hvr Hvs. split; [|split].
  - by eapply subdivide_ok.
  - intros *. apply subdivide_shapes.
  - intros *. apply subdivide_raises.
Qed.

End subdivide_facts.

(* ================================================================= *)
(** ** Indexing by index arrays *)

Section index_facts.
Context {X : Type}.

Lemma take_drop_join (ls : list (list X)) n i l :
  Forall (λ l, length l = n) ls → ls !! i = Some l →
  take n (drop (i * n) (mjoin ls)) = l.
Proof.
  intros Hall. revert i. induction Hall as [|l0 ls Hl0 Hall IH]; intros i Hi; [done|].
  cbn [mjoin list_join]. destruct i as [|i]; cbn in Hi.
  - injection Hi as ->. rewrite drop_0. by apply take_app_length'.
  - replace (S i * n) with (length l0 + i * n) by lia.
    rewrite drop_app_add. by apply IH.
Qed.

(** [t[idx]] with indices in range: one row of [t] per index. *)
Lemma index_rows_ok (t : tensor X) n s idx :
  shape t = n :: s → wf_tensor t → Forall (λ i, i < n) idx →
  ∃ r, index_rows t idx = inr r ∧ shape r = length idx :: s ∧ wf_tensor r ∧
       ∀ j i, idx !! j = Some i → tensor_row r j = tensor_row t i.
Proof.
  intros Hs Hwf Hidx. unfold index_rows.
  set (row := λ i, Tensor s (take (numel s) (drop (i * numel s) (data t)))).
  rewrite (list_comp_ok _ row); last first.
  { apply Forall_impl with (1 := Hidx). intros i Hi. by apply tensor_row_ok with n. }
  cbn [rbind]. rewrite Hs. cbn [tail].
  assert (Forall (λ l, length l = numel s) (data <$> (row <$> idx))) as Hlen.
  { apply Forall_fmap, Forall_fmap, Forall_impl with (1 := Hidx). intros i Hi. cbn.
    rewrite length_take, length_drop. unfold wf_tensor in Hwf.
    rewrite Hs, numel_cons in Hwf. nia. }
  eexists. split; [done|]. split; [done|]. split.
  - unfold wf_tensor. cbn. rewrite numel_cons, length_join.
    by rewrite (sum_list_fmap_same (numel s)), !length_fmap.
  - intros j i Hj.
    assert (i < n) as Hi by (by apply (Forall_lookup_1 _ _ _ _ Hidx Hj)).
    rewrite (tensor_row_ok t n s i) by done.
    erewrite tensor_row_ok; [|done|by eapply lookup_lt_Some]. f_equal. cbn.
    f_equal. apply take_drop_join; [done|].
    by rewrite !list_lookup_fmap, Hj.
Qed.

End index_facts.

(* ================================================================= *)
(** ** The warm-start pairs *)

Lemma ravel3 n m p i j c :
  i < n → j < m → c < p → ravel [n; m; p] [i; j; c] = Some ((i * m + j) * p + c).
Proof.
  intros Hi Hj Hc. cbn. rewrite !decide_True by done. cbn.
  change (numel [m; p]) with (m * (p * 1)). change (numel [p]) with (p * 1).
  change (numel []) with 1. f_equal. lia.
Qed.

Lemma pose_pairs_ok (B K : nat) (keepT keepQ : list nat) :
  length keepT = B * K → length keepQ = B * K →
  ∃ p, pose_pairs B K keepT keepQ = inr p ∧ shape p = [B; K; 2] ∧ wf_tensor p ∧
       ∀ b k, b < B → k < K →
         tensor_get p [b; k; 0] = keepT !! (b * K + k) ∧
         tensor_get p [b; k; 1] = keepQ !! (b * K + k).
Proof.
  intros HT HQ. unfold pose_pairs.
  rewrite decide_True by (rewrite length_app; lia).
  set (pair := λ i, [nth i (keepT ++ keepQ) 0; nth (B * K + i) (keepT ++ keepQ) 0]).
  assert (Forall (λ l, length l = 2) (pair <$> seq 0 (B * K))) as Hlen.
  { apply Forall_fmap, Forall_forall. done. }
  eexists. split; [done|]. split; [done|]. split.
  { unfold wf_tensor. cbn. rewrite length_join, (sum_list_fmap_same 2) by done.
    rewrite length_fmap, length_seq. unfold numel. cbn. lia. }
  intros b k Hb Hk. unfold tensor_get. cbn [shape data].
  assert (b * K + k < B * K) as Hlt by nia.
  assert (∀ c x, c < 2 → pair (b * K + k) !! c = Some x →
            mjoin (pair <$> seq 0 (B * K)) !! ((b * K + k) * 2 + c) = Some x) as Hget.
  { intros c x Hc Hx. apply (join_lookup_Some_same_length' 2); [done..|].
    exists (pair (b * K + k)). split; [|done].
    by rewrite list_lookup_fmap, lookup_seq_lt. }
  rewrite !ravel3 by lia.
  change (Some ?o ≫= ?f) with (f o). cbn beta. split.
  - rewrite (Hget 0 (nth (b * K + k) (keepT ++ keepQ) 0)) by (done || lia).
    destruct (lookup_lt_is_Some_2 keepT (b * K + k)) as [y Hy]; [lia|].
    rewrite Hy. f_equal. apply nth_lookup_Some.
    by rewrite lookup_app_l by lia.
  - rewrite (Hget 1 (nth (B * K + (b * K + k)) (keepT ++ keepQ) 0)) by (done || lia).
    destruct (lookup_lt_is_Some_2 keepQ (b * K + k)) as [y Hy]; [lia|].
    rewrite Hy. f_equal. apply nth_lookup_Some.
    rewrite lookup_app_r by lia. rewrite <-Hy. f_equal. lia.
Qed.

(** An entry of image [b] is one of the image's values. *)
Lemma tensor_get_image {A} (loss : tensor A) B rest b idx v :
  shape loss = B :: rest → tensor_get loss (b :: idx) = Some v →
  v ∈ image_values loss b.
Proof.
  intros Hs. unfold tensor_get, image_values. rewrite Hs. cbn [ravel tail].
  case_decide as Hb; [|done].
  destruct (ravel rest idx) as [off|] eqn:Hoff; [|done]. cbn. intros Hv.
  apply digits_ravel in Hoff as [_ Hlt].
  apply elem_of_take. exists off. split; [|done]. by rewrite lookup_drop.
Qed.

(* ================================================================= *)
(** ** The driver without iterations *)

Section driver_facts.
Context {F : Type} `{Collaborators F} (leb : F → F → bool) (self : PoseSearch F).
Hypothesis leb_total : ∀ x y, leb x y = true ∨ leb y x = true.
Hypothesis leb_trans : ∀ x y z, leb x y = true → leb y z = true → leb x z = true.

(** The lowest-loss candidate of every image, read off the pruner's
    result for max_poses = 1. *)
Lemma kept_argmin (loss : tensor F) (B T Q : nat) b :
  wf_tensor loss → shape loss = [B; T; Q] → 0 < T * Q → b < B →
  ∃ bestBN bestT bestQ t q v,
    kept leb loss B [T; Q] 1 = [bestBN; bestT; bestQ] ∧
    length bestBN = B ∧ length bestT = B ∧ length bestQ = B ∧
    Forall (λ i, i < T) bestT ∧ Forall (λ i, i < Q) bestQ ∧
    bestT !! b = Some t ∧ bestQ !! b = Some q ∧
    tensor_get loss [b; t; q] = Some v ∧
    ∀ t' q' v', tensor_get loss [b; t'; q'] = Some v' → leb v v' = true.
Proof using leb_total leb_trans.
  intros Hwf Hshape HTQ Hb.
  assert (1 ≤ numel [T; Q]) as Hk by (unfold numel; cbn; lia).
  pose proof (kept_all_length leb leb_total leb_trans loss B [T; Q] 1 Hwf Hshape Hk) as Hlen.
  pose proof (kept_in_range leb leb_total leb_trans loss B [T; Q] 1 Hwf Hshape Hk) as Hrange.
  destruct (kept_batch leb leb_total leb_trans loss B [T; Q] 1 Hwf Hshape Hk b 0)
    as (a0 & Ha0 & Hbn); [done|lia|].
  destruct (kept_gather leb leb_total leb_trans loss B [T; Q] 1 Hwf Hshape Hk b Hb)
    as (vals & Hlv & Hg & Hsmall).
  specialize (Hg 0 ltac:(lia)).
  destruct vals as [|v [|? ?]]; try done. cbn in Hg.
  assert (∃ bestBN bestT bestQ, kept leb loss B [T; Q] 1 = [bestBN; bestT; bestQ])
    as (bestBN & bestT & bestQ & Hkept).
  { unfold kept. rewrite Hshape. cbn [axes]. eauto. }
  rewrite Hkept in Hlen, Hrange, Ha0, Hg. injection Ha0 as <-.
  apply Forall_cons in Hlen as [HlB Hlen]. apply Forall_cons in Hlen as [HlT Hlen].
  apply Forall_cons in Hlen as [HlQ _]. rewrite Nat.mul_1_r in HlB, HlT, HlQ.
  rewrite Nat.mul_1_r, Nat.add_0_r in Hbn, Hg.
  destruct (lookup_lt_is_Some_2 bestT b) as [t Ht]; [lia|].
  destruct (lookup_lt_is_Some_2 bestQ b) as [q Hq]; [lia|].
  unfold gather in Hg. cbn in Hg. rewrite Hbn, Ht, Hq in Hg. cbn in Hg.
  exists bestBN, bestT, bestQ, t, q, v. split_and!; try done.
  - apply Forall_lookup. intros j x Hx.
    apply (Hrange 1 bestT T j x); [done|by rewrite Hshape|done].
  - apply Forall_lookup. intros j x Hx.
    apply (Hrange 2 bestQ Q j x); [done|by rewrite Hshape|done].
  - intros t' q' v' Hv'.
    apply (tensor_get_image loss B [T; Q]) in Hv'; [|done].
    destruct Hsmall as (_ & rest & Hperm & Hdom).
    rewrite <-Hperm in Hv'. cbn in Hv'. apply elem_of_cons in Hv' as [->|Hin].
    + by destruct (leb_total v v).
    + apply Hdom; [by left|done].
Qed.

(** The three index arrays of a pruning step on a B x T x Q loss. *)
Lemma kept3 (loss : tensor F) (B T Q K : nat) :
  wf_tensor loss → shape loss = [B; T; Q] → K ≤ T * Q →
  ∃ keepB keepT keepQ,
    kept leb loss B [T; Q] K = [keepB; keepT; keepQ] ∧
    length keepB = B * K ∧ length keepT = B * K ∧ length keepQ = B * K ∧
    Forall (λ i, i < T) keepT ∧ Forall (λ i, i < Q) keepQ.
Proof using leb_total leb_trans.
  intros Hwf Hshape HK.
  assert (K ≤ numel [T; Q]) as Hk by (unfold numel; cbn; lia).
  pose proof (kept_all_length leb leb_total leb_trans loss B [T; Q] K Hwf Hshape Hk) as Hlen.
  pose proof (kept_in_range leb leb_total leb_trans loss B [T; Q] K Hwf Hshape Hk) as Hrange.
  assert (∃ keepB keepT keepQ, kept leb loss B [T; Q] K = [keepB; keepT; keepQ])
    as (keepB & keepT & keepQ & Hkept).
  { unfold kept. rewrite Hshape. cbn [axes]. eauto. }
  rewrite Hkept in Hlen, Hrange.
  apply Forall_cons in Hlen as [HlB Hlen]. apply Forall_cons in Hlen as [HlT Hlen].
  apply Forall_cons in Hlen as [HlQ _].
  exists keepB, keepT, keepQ. split_and!; try done.
  - apply Forall_lookup. intros j x Hx.
    apply (Hrange 1 keepT T j x); [done|by rewrite Hshape|done].
  - apply Forall_lookup. intros j x Hx.
    apply (Hrange 2 keepQ Q j x); [done|by rewrite Hshape|done].
Qed.

(** C5 (amended: a base level of at least 1, a non-empty batch and a
    base grid with at least nkeptposes and at least one candidate).  With
    niter = 0 and no initial poses the driver scores the base grid once,
    subdivides nothing, and returns one rotation matrix and one
    translation per image: the rows of the base rotation and shift sets at
    the image's lowest-loss candidate.  The warm-start set has shape
    B x nkeptposes x 2 and holds the (translation index, rotation index)
    pairs of the first pruning step. *)
Theorem opt_theta_trans_no_iterations
    (B T Q : nat) (loss : tensor F) (st : state F) :
  training st = false →
  (1 ≤ base_healpy self)%Z →
  0 < B →
  score (base_request self 0) = inr loss →
  shape loss = [B; T; Q] ∧ wf_tensor loss →
  nkeptposes self ≤ T * Q →
  0 < T * Q →
  shape (so3_base_quat self) = [Q; 4] ∧ wf_tensor (so3_base_quat self) →
  shape (so3_base_rot self) = [Q; 3; 3] ∧ wf_tensor (so3_base_rot self) →
  shape (base_shifts self) = [T; 2] ∧ wf_tensor (base_shifts self) →
  ∃ best_rot best_trans new_init_poses keepB keepT keepQ,
    opt_theta_trans leb self B 0 None st
      = (inr (best_rot, best_trans, new_init_poses),
         State (training st) (so3_neighbor_cache st) (shift_neighbor_cache st)
               (base_request self 0 :: eval_log st)) ∧
    shape best_rot = [B; 3; 3] ∧ shape best_trans = [B; 2] ∧
    (∀ b, b < B →
       ∃ t q v, t < T ∧ q < Q ∧
         tensor_get loss [b; t; q] = Some v ∧
         (∀ t' q' v', tensor_get loss [b; t'; q'] = Some v' → leb v v' = true) ∧
         tensor_row best_rot b = tensor_row (so3_base_rot self) q ∧
         tensor_row best_trans b = tensor_row (base_shifts self) t) ∧
    keep_matrix leb loss B (nkeptposes self) = inr [keepB; keepT; keepQ] ∧
    shape new_init_poses = [B; nkeptposes self; 2] ∧
    (∀ b k, b < B → k < nkeptposes self →
       tensor_get new_init_poses [b; k; 0] = keepT !! (b * nkeptposes self + k) ∧
       tensor_get new_init_poses [b; k; 1] = keepQ !! (b * nkeptposes self + k)).
Proof using leb_total leb_trans.
  intros Htr Hhp HB Hscore [Hshape Hwf] HK HTQ [Hqs Hqwf] [Hrs Hrwf] [Hss Hswf].
  set (K := nkeptposes self) in *.
  assert (K ≤ numel [T; Q] ∧ 1 ≤ numel [T; Q]) as [HK' H1'] by (unfold numel; cbn; lia).
  destruct (kept3 loss B T Q K Hwf Hshape HK)
    as (keepB & keepT & keepQ & Hkept & HlB & HlT & HlQ & HrT & HrQ).
  destruct (kept3 loss B T Q 1 Hwf Hshape ltac:(lia))
    as (bestBN & bestT & bestQ & Hbest & HbB & HbT & HbQ & HbrT & HbrQ).
  rewrite Nat.mul_1_r in HbB, HbT, HbQ.
  pose proof (keep_matrix_kept leb leb_total leb_trans loss B [T; Q] K Hwf Hshape HK' HB)
    as Hkeep. rewrite Hkept in Hkeep.
  pose proof (keep_matrix_kept leb leb_total leb_trans loss B [T; Q] 1 Hwf Hshape H1' HB)
    as Hkeep1. rewrite Hbest in Hkeep1.
  destruct (pose_pairs_ok B K keepT keepQ HlT HlQ) as (p & Hp & Hps & _ & Hpget).
  destruct (index_rows_ok (so3_base_quat self) Q [4] keepQ Hqs Hqwf HrQ)
    as (quat & Hquat & _).
  destruct (index_rows_ok (base_shifts self) T [2] keepT Hss Hswf HrT)
    as (trans & Htrans & _).
  destruct (index_rows_ok (so3_base_rot self) Q [3; 3] bestQ Hrs Hrwf HbrQ)
    as (best_rot & Hbest_rot & Hbrs & _ & Hbrrow).
  destruct (index_rows_ok (base_shifts self) T [2] bestT Hss Hswf HbrT)
    as (best_trans & Hbest_trans & Hbts & _ & Hbtrow).
  exists best_rot, best_trans, p, keepB, keepT, keepQ.
  split; [|split_and!; try done].
  - unfold opt_theta_trans.
    rewrite (mbind_inr _ _ _ tt st) by (unfold assert_not_training; by rewrite Htr).
    fold K. fold (base_request self 0).
    set (st' := State (training st) (so3_neighbor_cache st) (shift_neighbor_cache st)
                      (base_request self 0 :: eval_log st)).
    rewrite (mbind_inr _ _ _ (keepB, keepT, keepQ, Some loss) st'); last first.
    { rewrite (mbind_inr _ _ _ loss st') by (unfold eval_grid_call; by rewrite Hscore).
      rewrite (mbind_lift_inr _ _ _ _ Hkeep).
      by rewrite (mbind_lift_inr _ _ _ (keepB, keepT, keepQ)). }
    rewrite (mbind_lift_inr _ _ _ _ Hp), (mbind_lift_inr _ _ _ _ Hquat).
    rewrite (mbind_lift_inr _ _ _ _ Htrans).
    unfold range. rewrite seqZ_nil by lia. cbn [loop].
    rewrite mbind_mret. cbn [l_loss bound].
    rewrite (mbind_lift_inr _ _ _ loss) by done.
    rewrite (mbind_lift_inr _ _ _ _ Hkeep1).
    rewrite (mbind_lift_inr _ _ _ (bestBN, bestT, bestQ)) by done.
    rewrite (mbind_lift_inr _ _ _ tt) by (by rewrite HbB, Nat.eqb_refl).
    rewrite decide_True by done.
    rewrite (mbind_inr _ _ _ (best_rot, best_trans) st'); [done|].
    rewrite (mbind_lift_inr _ _ _ _ Hbest_rot).
    by rewrite (mbind_lift_inr _ _ _ _ Hbest_trans).
  - by rewrite Hbrs, HbQ.
  - by rewrite Hbts, HbT.
  - intros b Hb.
    destruct (kept_argmin loss B T Q b Hwf Hshape HTQ Hb)
      as (bestBN' & bestT' & bestQ' & t & q & v & Hbest' & _ & _ & _ & HrT' & HrQ'
          & Ht & Hq & Hv & Hmin).
    rewrite Hbest in Hbest'. injection Hbest' as <- <- <-.
    exists t, q, v. split_and!; try done.
    + by apply (Forall_lookup_1 _ _ _ _ HbrT Ht).
    + by apply (Forall_lookup_1 _ _ _ _ HbrQ Hq).
    + by apply Hbrrow.
    + by apply Hbtrow.
Qed.

End driver_facts.

(* ================================================================= *)
(** ** Reading the results of tensor operations *)

Lemma rbind_inv {A B} (m : result A) (k : A → result B) b :
  rbind m k = inr b → ∃ a, m = inr a ∧ k a = inr b.
Proof. destruct m as [e|a]; [done|]. cbn. eauto. Qed.

Lemma digits_valid s off : off < numel s → valid_index (digits s off) s.
Proof.
  revert off. induction s as [|n s IH]; intros off Hoff; [constructor|].
  rewrite numel_cons in Hoff. cbn [digits].
  assert (0 < n ∧ 0 < numel s) as [Hn Hs] by (destruct n, (numel s); lia).
  constructor.
  - apply Nat.mod_upper_bound. lia.
  - rewrite <-digits_mod by done. apply IH. apply Nat.mod_upper_bound. lia.
Qed.

Lemma ravel_valid s idx : valid_index idx s → is_Some (ravel s idx).
Proof.
  induction 1 as [|i n idx s Hi _ IH]; [by eexists|].
  cbn. rewrite decide_True by done. destruct IH as [off ->]. by eexists.
Qed.

Lemma tensor_get_valid {X} (t : tensor X) idx :
  wf_tensor t → valid_index idx (shape t) → is_Some (tensor_get t idx).
Proof. intros Hwf Hv. apply tensor_get_is_Some; [done|]. by apply ravel_valid. Qed.

(** A tensor given entry by entry. *)
Lemma tabulate_inv {X} (s : list nat) (g : list nat → option X) t :
  tabulate s g = inr t →
  shape t = s ∧ wf_tensor t ∧ ∀ idx, valid_index idx s → tensor_get t idx = g idx.
Proof.
  unfold tabulate. destruct (mapM _ _) as [d|] eqn:Hd; [|done]. intros [= <-].
  apply mapM_Some in Hd. split; [done|]. split.
  { unfold wf_tensor. cbn. apply Forall2_length in Hd. by rewrite length_seq in Hd. }
  intros idx Hv. destruct (ravel_valid s idx Hv) as [off Hoff].
  unfold tensor_get. cbn [shape data]. rewrite Hoff. cbn.
  destruct (digits_ravel _ _ _ Hoff) as [<- Hlt].
  destruct (Forall2_lookup_l _ _ _ off off Hd) as (y & Hy & Hg).
  { by apply lookup_seq_lt. }
  by rewrite Hy, Hg.
Qed.

Lemma tabulate_ok {X} (s : list nat) (g : list nat → option X) :
  (∀ idx, valid_index idx s → is_Some (g idx)) →
  ∃ t, tabulate s g = inr t.
Proof.
  intros Hg. unfold tabulate.
  destruct (mapM _ _) as [d|] eqn:Hd; [by eexists|]. exfalso.
  apply mapM_None in Hd. apply Exists_exists in Hd as (off & Hin & Hnone).
  apply elem_of_seq in Hin. destruct (Hg (digits s off)) as [y Hy].
  { apply digits_valid. lia. }
  congruence.
Qed.

Lemma tensor_get_map1 {X} (f : X → X) (t : tensor X) idx :
  tensor_get (map1 f t) idx = f <$> tensor_get t idx.
Proof.
  unfold tensor_get, map1. cbn [shape data].
  destruct (ravel (shape t) idx) as [off|]; [|done]. cbn. by rewrite list_lookup_fmap.
Qed.

Lemma map1_wf {X} (f : X → X) (t : tensor X) : wf_tensor t → wf_tensor (map1 f t).
Proof. unfold wf_tensor, map1. cbn. by rewrite length_fmap. Qed.

(** Broadcast positions. *)
Lemma bfix_lt n i : i < n → bfix n i = i.
Proof. intros Hi. unfold bfix. case_decide; lia. Qed.

Lemma bidx_same_length s idx :
  length idx = length s → bidx s idx = zip_with bfix s idx.
Proof. intros Hl. unfold bidx. by rewrite Hl, Nat.sub_diag, drop_0. Qed.

Lemma bidx_valid s idx : valid_index idx s → bidx s idx = idx.
Proof.
  intros Hv. rewrite bidx_same_length by (by apply Forall2_length in Hv).
  induction Hv as [|i n idx s Hi _ IH]; [done|]. cbn. by rewrite bfix_lt, IH.
Qed.

Lemma numel_app s1 s2 : numel (s1 ++ s2) = numel s1 * numel s2.
Proof.
  induction s1 as [|n s1 IH]; cbn [app].
  - change (numel []) with 1. lia.
  - rewrite !numel_cons, IH. lia.
Qed.

Lemma ravel_app s1 s2 i1 i2 :
  length i1 = length s1 →
  ravel (s1 ++ s2) (i1 ++ i2)
  = (o1 ← ravel s1 i1; o2 ← ravel s2 i2; Some (o1 * numel s2 + o2)).
Proof.
  revert i1. induction s1 as [|n s1 IH]; intros [|i i1] Hlen; try done.
  - cbn. destruct (ravel s2 i2); [|done]. done.
  - cbn [app ravel]. case_decide; [|done].
    rewrite IH by (cbn in Hlen; lia).
    destruct (ravel s1 i1) as [o1|]; [|done]. cbn.
    destruct (ravel s2 i2) as [o2|]; [|done]. cbn. f_equal.
    rewrite numel_app. lia.
Qed.

Lemma valid_index_app_inv idx s1 s2 :
  valid_index idx (s1 ++ s2) →
  ∃ i1 i2, idx = i1 ++ i2 ∧ valid_index i1 s1 ∧ valid_index i2 s2.
Proof. intros (i1 & i2 & H1 & H2 & ->)%Forall2_app_inv_r. eauto. Qed.

Lemma valid_index2 i j n m : i < n → j < m → valid_index [i; j] [n; m].
Proof. intros Hi Hj. constructor; [done|]. constructor; [done|]. constructor. Qed.

Lemma valid_index1 i n : i < n → valid_index [i] [n].
Proof. intros Hi. constructor; [done|]. constructor. Qed.

Lemma valid_index1_inv idx n : valid_index idx [n] → ∃ i, idx = [i] ∧ i < n.
Proof.
  intros Hv. inversion Hv as [|i ? idx' ? Hi Hnil]; subst. inversion Hnil; subst. eauto.
Qed.

(* ================================================================= *)
(** ** Operations entry by entry *)

Lemma tensor_is_entry {X} (d : X) (t : tensor X) :
  wf_tensor t → tensor_is t (shape t) (entry d t).
Proof.
  intros Hwf. split; [done|]. split; [done|]. intros idx Hv.
  unfold entry. by destruct (tensor_get_valid t idx Hwf Hv) as [x ->].
Qed.

Lemma tensor_is_ext {X} (t : tensor X) s f g :
  tensor_is t s f → (∀ idx, valid_index idx s → f idx = g idx) → tensor_is t s g.
Proof.
  intros (Hs & Hwf & Hget) Hfg. split; [done|]. split; [done|].
  intros idx Hv. by rewrite Hget, Hfg.
Qed.

Lemma tensor_is_get {X} (t : tensor X) s f idx :
  tensor_is t s f → valid_index idx s → tensor_get t idx = Some (f idx).
Proof. intros (_ & _ & Hget). apply Hget. Qed.

Lemma tabulate_is {X} (s : list nat) (g : list nat → option X) f :
  (∀ idx, valid_index idx s → g idx = Some (f idx)) →
  ∃ r, tabulate s g = inr r ∧ tensor_is r s f.
Proof.
  intros Hg. destruct (tabulate_ok s g) as [r Hr].
  { intros idx Hv. rewrite Hg by done. by eexists. }
  exists r. split; [done|]. apply tabulate_inv in Hr as (Hs & Hwf & Hget).
  split; [done|]. split; [done|]. intros idx Hv. by rewrite Hget, Hg.
Qed.

Lemma map1_is {X} (h : X → X) (t : tensor X) s f :
  tensor_is t s f → tensor_is (map1 h t) s (λ idx, h (f idx)).
Proof.
  intros (Hs & Hwf & Hget). split; [done|]. split; [by apply map1_wf|].
  intros idx Hv. by rewrite tensor_get_map1, Hget.
Qed.

(** The same data under another shape. *)
Lemma reshape_is {X} (t : tensor X) s1 f s2 (φ : list nat → list nat) :
  tensor_is t s1 f → numel s2 = numel s1 →
  (∀ idx, valid_index idx s2 → valid_index (φ idx) s1 ∧ ravel s1 (φ idx) = ravel s2 idx) →
  tensor_is (Tensor s2 (data t)) s2 (λ idx, f (φ idx)).
Proof.
  intros (Hs & Hwf & Hget) Hn Hφ. split; [done|]. split.
  { unfold wf_tensor in *. cbn. by rewrite Hwf, Hs. }
  intros idx Hv. destruct (Hφ idx Hv) as [Hv1 Hr]. rewrite <-Hget by done.
  unfold tensor_get. cbn [shape data]. by rewrite Hs, Hr.
Qed.

Lemma mapM_seq_total {X} (g : nat → option X) (f : nat → X) n :
  (∀ p, p < n → g p = Some (f p)) → mapM g (seq 0 n) = Some (f <$> seq 0 n).
Proof.
  intros Hg. apply mapM_Some. apply Forall2_fmap_r, Forall_Forall2_diag.
  apply Forall_forall. intros p Hp%elem_of_seq. apply Hg. lia.
Qed.

(** Broadcasting of two shapes of one rank. *)
Lemma broadcast_rev_compat r1 r2 :
  Forall2 compat r1 r2 → broadcast_rev r1 r2 = inr (zip_with bext r1 r2).
Proof.
  induction 1 as [|a b r1 r2 Hab _ IH]; [done|].
  cbn [broadcast_rev zip_with]. rewrite IH. cbn [rbind]. unfold bext, ret.
  destruct Hab as [->|[->| ->]]; repeat case_decide; try done; congruence.
Qed.

Lemma zip_with_reverse {X Y Z} (f : X → Y → Z) l1 l2 :
  length l1 = length l2 →
  zip_with f (reverse l1) (reverse l2) = reverse (zip_with f l1 l2).
Proof.
  revert l2. induction l1 as [|x l1 IH]; intros [|y l2] Hlen; try done.
  cbn [zip_with]. rewrite !reverse_cons.
  rewrite zip_with_app by (rewrite !length_reverse; cbn in Hlen; lia).
  rewrite IH by (cbn in Hlen; lia). done.
Qed.

Lemma broadcast_shapes_compat s1 s2 :
  Forall2 compat s1 s2 → broadcast_shapes s1 s2 = inr (zip_with bext s1 s2).
Proof.
  intros Hc. unfold broadcast_shapes.
  rewrite broadcast_rev_compat by (by apply Forall2_reverse).
  cbn. unfold ret. f_equal.
  rewrite zip_with_reverse by (by apply Forall2_length in Hc).
  by rewrite reverse_involutive.
Qed.

Lemma bfix_valid s1 s2 idx :
  Forall2 compat s1 s2 → valid_index idx (zip_with bext s1 s2) →
  valid_index (zip_with bfix s1 idx) s1 ∧ valid_index (zip_with bfix s2 idx) s2.
Proof.
  intros Hc. revert idx. induction Hc as [|a b s1 s2 Hab _ IH]; intros idx Hv.
  { inversion Hv; subst. split; constructor. }
  cbn [zip_with] in Hv. inversion Hv as [|i ? idx' ? Hi Hv']; subst.
  destruct (IH _ Hv') as [IH1 IH2]. cbn [zip_with].
  split; (constructor; [|done]); unfold bext, bfix in *;
    destruct Hab as [->|[->| ->]]; repeat case_decide; lia.
Qed.

Lemma binop_is {X} (op : X → X → X) (a b : tensor X) s1 s2 fa fb :
  tensor_is a s1 fa → tensor_is b s2 fb → Forall2 compat s1 s2 →
  ∃ r, binop op a b = inr r ∧
    tensor_is r (zip_with bext s1 s2)
      (λ idx, op (fa (zip_with bfix s1 idx)) (fb (zip_with bfix s2 idx))).
Proof.
  intros (Hs1 & Hwf1 & Hg1) (Hs2 & Hwf2 & Hg2) Hc. unfold binop.
  rewrite Hs1, Hs2, broadcast_shapes_compat by done. cbn [rbind].
  apply tabulate_is. intros idx Hv.
  destruct (bfix_valid _ _ _ Hc Hv) as [Hv1 Hv2].
  pose proof (Forall2_length _ _ _ Hc) as Hlen.
  pose proof (Forall2_length _ _ _ Hv) as Hlen'.
  rewrite length_zip_with in Hlen'.
  rewrite !bidx_same_length by lia. by rewrite Hg1, Hg2.
Qed.

Lemma reduce_last_is {X} (h : list X → X) (t : tensor X) s n f :
  tensor_is t (s ++ [n]) f →
  ∃ r, reduce_last h false t = inr r ∧
    tensor_is r s (λ idx, h ((λ p, f (idx ++ [p])) <$> seq 0 n)).
Proof.
  intros (Hs & Hwf & Hget). unfold reduce_last.
  rewrite Hs, reverse_snoc, reverse_involutive.
  match goal with |- context [tabulate _ ?g] => 
    destruct (tabulate_is s g (λ idx, h ((λ p, f (idx ++ [p])) <$> seq 0 n))) as (r & Hr & His)
  end.
  { intros idx Hv.
    rewrite (mapM_seq_total _ (λ p, f (idx ++ [p]))); [done|].
    intros p Hp. apply Hget. apply Forall2_app; [done|]. by apply valid_index1. }
  exists r. rewrite Hr. done.
Qed.

Lemma reduce_last_keep_is {X} (h : list X → X) (t : tensor X) s n f :
  tensor_is t (s ++ [n]) f →
  ∃ r, reduce_last h true t = inr r ∧
    tensor_is r (s ++ [1]) (λ idx, h ((λ p, f (take (length s) idx ++ [p])) <$> seq 0 n)).
Proof.
  intros Ht. destruct (reduce_last_is h t s n f Ht) as (r & Hr & Hs & Hwf & Hget).
  pose proof Ht as (Hsh & _ & _).
  unfold reduce_last in *. rewrite Hsh, reverse_snoc, reverse_involutive in *.
  destruct (tabulate _ _) as [e|r'] eqn:Htab; [done|]. injection Hr as ->.
  eexists. split; [done|]. split; [done|]. split.
  { unfold wf_tensor in *. cbn. rewrite Hwf, Hs, numel_app. change (numel [1]) with 1. lia. }
  intros idx (i1 & i2 & -> & Hv1 & (z & -> & Hz)%valid_index1_inv)%valid_index_app_inv.
  assert (z = 0) as -> by lia.
  rewrite take_app_length' by (by apply Forall2_length in Hv1).
  rewrite <-Hget by done. unfold tensor_get. cbn [shape data]. rewrite Hs. f_equal.
  rewrite ravel_app by (by apply Forall2_length in Hv1).
  destruct (ravel s i1) as [off|]; [|done]. cbn. rewrite decide_True by lia. cbn.
  f_equal. change (numel [1]) with 1. lia.
Qed.

(* ================================================================= *)
(** ** [interpolate] is bilinear *)

Lemma py_index_nonneg n i :
  (0 ≤ i < Z.of_nat n)%Z → py_index n i = Some (Z.to_nat i).
Proof. intros Hi. unfold py_index. by rewrite decide_True. Qed.

Lemma Qfloor_in_range n (y : Q) :
  (0 <= y)%Q → (y <= inject_Z (Z.of_nat n - 1))%Q →
  (0 ≤ Qfloor y < Z.of_nat n)%Z ∧ (0 ≤ Qceiling y < Z.of_nat n)%Z.
Proof.
  intros H0 H1.
  pose proof (Qfloor_resp_le _ _ H0) as Ha. pose proof (Qfloor_resp_le _ _ H1) as Hb.
  pose proof (Qceiling_resp_le _ _ H0) as Hc. pose proof (Qceiling_resp_le _ _ H1) as Hd.
  rewrite Qfloor_Z in Hb. rewrite Qceiling_Z in Hd.
  change (Qfloor 0) with 0%Z in Ha. change (Qceiling 0) with 0%Z in Hc. lia.
Qed.

Lemma take_drop_app_length {X} (l1 l2 : list X) n :
  length l1 = n → take n (l1 ++ l2) = l1 ∧ drop n (l1 ++ l2) = l2.
Proof. intros <-. by rewrite take_app_length, drop_app_length. Qed.

Section interpolate_facts.
Context (img coords : tensor Q) (bs : list nat) (HH WW n : nat).
Hypothesis Hwf : wf_tensor img.
Hypothesis Hs : shape img = bs ++ [HH; WW].
Hypothesis Hcwf : wf_tensor coords.
Hypothesis Hcs : shape coords = [n; 2].

Lemma coords_get k j : k < n → j < 2 → is_Some (tensor_get coords [k; j]).
Proof using Hcwf Hcs.
  intros Hk Hj. apply tensor_get_valid; [done|]. rewrite Hcs.
  by apply valid_index2.
Qed.

Lemma pixel_get bi r c :
  valid_index bi bs → r < HH → c < WW → is_Some (tensor_get img (bi ++ [r; c])).
Proof using Hwf Hs.
  intros Hbi Hr Hc. apply tensor_get_valid; [done|]. rewrite Hs.
  apply Forall2_app; [done|]. by apply valid_index2.
Qed.

Lemma bilinear_ok bi x y :
  valid_index bi bs → in_bounds HH WW y x →
  bilinear HH WW (λ r c, tensor_get img (bi ++ [r; c])) y x = bilinear_value img bi y x
  ∧ is_Some (bilinear_value img bi y x).
Proof using Hwf Hs.
  intros Hbi (Hy0 & Hy1 & Hx0 & Hx1).
  destruct (Qfloor_in_range _ _ Hy0 Hy1) as [Hyf Hyc].
  destruct (Qfloor_in_range _ _ Hx0 Hx1) as [Hxf Hxc].
  unfold bilinear, bilinear_value. cbn [ffloor fceil Q_arith].
  rewrite !py_index_nonneg by done.
  destruct (pixel_get bi (Z.to_nat (Qfloor y)) (Z.to_nat (Qfloor x))) as [v1 E1]; [done|lia|lia|].
  destruct (pixel_get bi (Z.to_nat (Qfloor y)) (Z.to_nat (Qceiling x))) as [v2 E2]; [done|lia|lia|].
  destruct (pixel_get bi (Z.to_nat (Qceiling y)) (Z.to_nat (Qfloor x))) as [v3 E3]; [done|lia|lia|].
  destruct (pixel_get bi (Z.to_nat (Qceiling y)) (Z.to_nat (Qceiling x))) as [v4 E4]; [done|lia|lia|].
  simpl. rewrite E1, E2, E3, E4. simpl. split; [done|by eexists].
Qed.

End interpolate_facts.

(** C8 (amended).  For an image tensor of shape [bs ++ [HH; WW]] and [n]
    coordinate pairs [(x, y)], column coordinate first, all within the image
    bounds, [interpolate] returns a tensor of shape [bs ++ [n]]: one value
    per image and pair, the bilinear combination of the four neighbours
    [img[floor y, floor x]], [img[floor y, ceil x]], [img[ceil y, floor x]]
    and [img[ceil y, ceil x]], the row being taken from the second
    component of the pair. *)
Theorem interpolate_bilinear (img coords : tensor Q) (bs : list nat) (HH WW n : nat) :
  wf_tensor img → shape img = bs ++ [HH; WW] →
  wf_tensor coords → shape coords = [n; 2] →
  (∀ k x y, tensor_get coords [k; 0] = Some x → tensor_get coords [k; 1] = Some y →
            in_bounds HH WW y x) →
  ∃ res, interpolate img coords = inr res ∧ shape res = bs ++ [n] ∧ wf_tensor res ∧
    ∀ bi k, valid_index bi bs → k < n →
      ∃ x y v, tensor_get coords [k; 0] = Some x ∧ tensor_get coords [k; 1] = Some y ∧
        bilinear_value img bi y x = Some v ∧ tensor_get res (bi ++ [k]) = Some v.
Proof.
  intros Hwf Hs Hcwf Hcs Hin.
  unfold interpolate, shape0. rewrite Hcs, Hs, reverse_app. cbn [length Nat.eqb assert_ rbind last].
  rewrite bool_decide_eq_true_2 by done. cbn [assert_ rbind ret reverse rev_append app].
  change (rev_append (reverse bs) []) with (reverse (reverse bs)).
  rewrite reverse_involutive.
  match goal with |- context [tabulate _ ?g] => set (body := g) end.
  assert (∀ bi k, valid_index bi bs → k < n →
            ∃ x y v, tensor_get coords [k; 0] = Some x ∧ tensor_get coords [k; 1] = Some y ∧
              bilinear_value img bi y x = Some v ∧ body (bi ++ [k]) = Some v) as Hbody.
  { intros bi k Hbi Hk.
    destruct (coords_get coords n Hcwf Hcs k 0) as [x Hx]; [done|lia|].
    destruct (coords_get coords n Hcwf Hcs k 1) as [y Hy]; [done|lia|].
    destruct (bilinear_ok img bs HH WW Hwf Hs bi x y Hbi (Hin k x y Hx Hy)) as [Hb [v Hv]].
    exists x, y, v. split_and!; [done..|].
    unfold body.
    destruct (take_drop_app_length bi [k] (length bs)) as [-> ->].
    { by apply Forall2_length in Hbi. }
    rewrite Hy, Hx. simpl. by rewrite Hb. }
  destruct (tabulate_ok (bs ++ [n]) body) as [res Hres].
  { intros idx (bi & ik & -> & Hbi & Hik)%valid_index_app_inv.
    destruct ik as [|k [|??]]; inversion Hik as [|???? Hk Hnil]; subst; [|inversion Hnil].
    destruct (Hbody bi k Hbi Hk) as (x & y & v & _ & _ & _ & ->). by eexists. }
  exists res. split; [done|].
  apply tabulate_inv in Hres as (Hsh & Hrwf & Hget). split_and!; [done..|].
  intros bi k Hbi Hk. destruct (Hbody bi k Hbi Hk) as (x & y & v & Hx & Hy & Hv & Hb).
  exists x, y, v. split_and!; [done..|]. rewrite Hget; [done|].
  apply Forall2_app; [done|]. by apply valid_index1.
Qed.

(* ================================================================= *)
(** ** The loss dispatch of [eval_grid] *)

Create HintDb supported discriminated.

Lemma supported_ret {A} (a : A) : supported (ret a).
Proof. intros msg. discriminate. Qed.

Lemma supported_inr {A} (a : A) : supported (inr a : result A).
Proof. intros msg. discriminate. Qed.

Lemma supported_runtime {A} m : supported (raise (RuntimeError m) : result A).
Proof. intros msg. discriminate. Qed.

Lemma supported_index {A} : supported (raise IndexError : result A).
Proof. intros msg. discriminate. Qed.

Lemma supported_value {A} : supported (raise ValueError : result A).
Proof. intros msg. discriminate. Qed.

Lemma supported_bind {A B} (m : result A) (k : A → result B) :
  supported m → (∀ a, supported (k a)) → supported (rbind m k).
Proof.
  intros Hm Hk msg. destruct m as [e|a]; cbn.
  - intros [= ->]. by apply (Hm msg).
  - apply Hk.
Qed.

#[local] Hint Resolve supported_ret supported_inr supported_runtime supported_index
  supported_value : supported.

Ltac supported_tac :=
  repeat first
    [ solve [auto with supported]
    | progress intros
    | apply supported_bind
    | case_decide
    | case_bool_decide ].

Lemma supported_tabulate {X} s (g : list nat → option X) : supported (tabulate s g).
Proof. unfold tabulate. destruct (mapM _ _); auto with supported. Qed.
#[local] Hint Resolve supported_tabulate : supported.

Lemma supported_broadcast_rev r1 r2 : supported (broadcast_rev r1 r2).
Proof.
  revert r2. induction r1 as [|a r1 IH]; intros [|b r2]; cbn [broadcast_rev];
    auto with supported.
  apply supported_bind; [apply IH|]. supported_tac.
Qed.
#[local] Hint Resolve supported_broadcast_rev : supported.

Lemma supported_broadcast_shapes s1 s2 : supported (broadcast_shapes s1 s2).
Proof. unfold broadcast_shapes. supported_tac. Qed.
#[local] Hint Resolve supported_broadcast_shapes : supported.

Lemma supported_binop {X} (f : X → X → X) a b : supported (binop f a b).
Proof. unfold binop. supported_tac. Qed.
#[local] Hint Resolve supported_binop : supported.

Lemma supported_binop_inplace {X} (f : X → X → X) a b : supported (binop_inplace f a b).
Proof. unfold binop_inplace. supported_tac. Qed.

Lemma supported_reduce_last {X} (h : list X → X) keepdim t :
  supported (reduce_last h keepdim t).
Proof. unfold reduce_last. destruct (reverse _); supported_tac. Qed.

Lemma supported_unsqueeze {X} (t : tensor X) d : supported (unsqueeze t d).
Proof. unfold unsqueeze. supported_tac. Qed.

Lemma supported_view_infer {X} (t : tensor X) pre post : supported (view_infer t pre post).
Proof. unfold view_infer. cbv zeta. supported_tac. Qed.

Lemma supported_transpose_last2 {X} (t : tensor X) : supported (transpose_last2 t).
Proof. unfold transpose_last2. supported_tac. Qed.

Lemma supported_shape0 {X} (t : tensor X) : supported (shape0 t).
Proof. unfold shape0. destruct (shape t); auto with supported. Qed.

Lemma supported_matmul `{Scalar F} (a b : tensor F) : supported (matmul a b).
Proof.
  unfold matmul.
  destruct (reverse (shape a)) as [|m [|n ra]]; auto with supported;
    destruct (reverse (shape b)) as [|k [|m' rb]]; auto with supported.
  supported_tac.
Qed.

#[local] Hint Resolve supported_binop_inplace supported_reduce_last supported_unsqueeze
  supported_view_infer supported_transpose_last2 supported_shape0 supported_matmul
  : supported.

Section dispatch.
Context {F : Type} `{Scalar F}.

Lemma unsqueeze_ok (t : tensor F) d :
  d ≤ length (shape t) → ∃ t', unsqueeze t d = inr t'.
Proof. intros Hd. unfold unsqueeze. rewrite decide_True by done. by eexists. Qed.

Lemma compute_err_known loss_fn (images y_hat : tensor F) :
  loss_fn ∈ known_losses → supported (compute_err loss_fn images y_hat).
Proof.
  intros Hin. unfold compute_err. apply supported_bind; [auto with supported|].
  intros im.
  destruct (String.eqb_spec loss_fn "mse"); [supported_tac|].
  destruct (String.eqb_spec loss_fn "msf").
  { destruct (shape im) as [|B [|T [|x [|Npix [|??]]]]]; supported_tac. }
  destruct (String.eqb_spec loss_fn "cor"); [supported_tac|].
  exfalso. unfold known_losses in Hin.
  rewrite !elem_of_cons, elem_of_nil in Hin. by destruct Hin as [|[|[|]]].
Qed.

Lemma compute_err_unknown loss_fn (images y_hat : tensor F) :
  2 ≤ length (shape images) → loss_fn ∉ known_losses →
  compute_err loss_fn images y_hat = inl (NotImplementedError ("Unknown loss_fn: " +:+ loss_fn)).
Proof.
  intros Hrank Hnot. unfold compute_err.
  destruct (unsqueeze_ok images 2 Hrank) as [im ->]. cbn [rbind].
  unfold known_losses in Hnot.
  destruct (String.eqb_spec loss_fn "mse"); [set_solver|].
  destruct (String.eqb_spec loss_fn "msf"); [set_solver|].
  destruct (String.eqb_spec loss_fn "cor"); [set_solver|]. done.
Qed.

Lemma supported_assert c : supported (assert_ c).
Proof. destruct c; intros msg; discriminate. Qed.

Lemma supported_view (t : tensor F) s : supported (view t s).
Proof. unfold view. supported_tac. Qed.

Lemma supported_list_comp {X Y} (f : X → result Y) l :
  (∀ x, supported (f x)) → supported (list_comp f l).
Proof.
  intros Hf. induction l as [|x l IH]; cbn [list_comp]; [auto with supported|].
  apply supported_bind; [apply Hf|]. intros y.
  apply supported_bind; [apply IH|]. auto with supported.
Qed.

Lemma supported_tensor_row (t : tensor F) i : supported (tensor_row t i).
Proof. unfold tensor_row. destruct (shape t); supported_tac. Qed.

Lemma supported_tensor_iter (t : tensor F) : supported (tensor_iter t).
Proof.
  unfold tensor_iter. apply supported_bind; [auto with supported|].
  intros n. apply supported_list_comp. apply supported_tensor_row.
Qed.

Lemma supported_scatter_mask BNQ D mask (squeezed : tensor F) :
  supported (scatter_mask BNQ D mask squeezed).
Proof.
  unfold scatter_mask. cbv zeta.
  destruct (negb _); [auto with supported|].
  destruct (negb _); [auto with supported|].
  apply supported_bind; [auto with supported|]. intros value.
  apply supported_bind; [apply supported_tensor_iter|]. auto with supported.
Qed.

Lemma supported_interpolate (img coords : tensor F) : supported (interpolate img coords).
Proof.
  unfold interpolate.
  apply supported_bind; [apply supported_assert|]. intros _.
  apply supported_bind; [apply supported_assert|]. intros _.
  apply supported_bind; [auto with supported|]. intros n.
  destruct (reverse (shape img)) as [|WW [|HH rb]]; auto with supported.
Qed.

Lemma supported_rotate_one (squeezed full_images interp_coords : tensor F) :
  supported (rotate_one squeezed full_images interp_coords).
Proof.
  unfold rotate_one.
  apply supported_bind; [apply supported_interpolate|]. intros interpolated.
  apply supported_bind; [apply supported_assert|]. intros _.
  supported_tac.
Qed.

Lemma supported_rotate_images (images : tensor F) lv : supported (rotate_images images lv).
Proof.
  unfold rotate_images.
  destruct (shape images) as [|B [|d1 [|NQ [|YX [|??]]]]]; auto with supported.
  cbv zeta.
  apply supported_bind; [apply supported_view|]. intros squeezed.
  apply supported_bind; [apply supported_scatter_mask|]. intros full_images.
  apply supported_bind; [apply supported_list_comp; intros; apply supported_rotate_one|].
  intros per_angle.
  apply supported_bind; [auto with supported|]. intros res. apply supported_view.
Qed.

Lemma supported_predict (model_out : result (tensor F)) NQ YX inplane :
  supported model_out → supported (predict model_out NQ YX inplane).
Proof.
  intros Hm. unfold predict. apply supported_bind; [done|]. intros y_hat.
  apply supported_bind; [auto with supported|]. intros y_hat'.
  destruct inplane; [apply supported_rotate_images|auto with supported].
Qed.

Lemma compute_err_full_known loss_fn (images : tensor F) model_out NQ YX inplane :
  loss_fn ∈ known_losses → supported model_out →
  supported (compute_err_full loss_fn images model_out NQ YX inplane).
Proof.
  intros Hin Hm. unfold compute_err_full.
  apply supported_bind; [by apply supported_predict|].
  intros y_hat. by apply compute_err_known.
Qed.

Lemma predict_supported (model_out : result (tensor F)) NQ YX inplane y_hat :
  predict model_out NQ YX inplane = inr y_hat → supported model_out.
Proof. destruct model_out; [discriminate|]. intros _. apply supported_inr. Qed.

End dispatch.

(** C6 (amended: where the dispatch is reached).  [eval_grid] as a whole,
    from the output of the render model on.  On images of rank at least 2
    (B x T x Npix) for which the candidate images of lines 88-105 are
    produced (and with a render model that does not raise
    [NotImplementedError] itself for the tilt pair), the call raises [NotImplementedError] if and only if the configured
    [loss_fn] is not one of "mse", "msf" and "cor", and then the error
    names the unknown loss function.  For another name the call returns
    no loss at all, whatever its arguments.  When the candidate images
    are not produced, the exception of that earlier step is what the call
    raises, for every [loss_fn], known or not. *)
Theorem eval_grid_loss_dispatch {F : Type} `{Scalar F} (loss_fn : string)
    (images : tensor F) (model_out : result (tensor F)) (NQ YX : nat)
    (inplane : option (lattice_view F))
    (tilt : option (tensor F * result (tensor F) * lattice_view F)) :
  (∀ y_hat, 2 ≤ length (shape images) →
     predict model_out NQ YX inplane = inr y_hat → tilt_supported tilt →
     ((∃ msg, eval_grid_full loss_fn images model_out NQ YX inplane tilt
              = inl (NotImplementedError msg))
        ↔ loss_fn ∉ known_losses) ∧
     (loss_fn ∉ known_losses →
        eval_grid_full loss_fn images model_out NQ YX inplane tilt
        = inl (NotImplementedError ("Unknown loss_fn: " +:+ loss_fn)))) ∧
  (loss_fn ∉ known_losses →
     ∀ err, eval_grid_full loss_fn images model_out NQ YX inplane tilt ≠ inr err) ∧
  (∀ e, 1 ≤ length (shape images) →
     predict model_out NQ YX inplane = inl e →
     eval_grid_full loss_fn images model_out NQ YX inplane tilt = inl e).
Proof.
  split; [|split].
  - intros y_hat Hrank Hpred Htilt.
    assert (loss_fn ∉ known_losses →
            eval_grid_full loss_fn images model_out NQ YX inplane tilt
            = inl (NotImplementedError ("Unknown loss_fn: " +:+ loss_fn))) as Hunknown.
    { intros Hnot. unfold eval_grid_full, compute_err_full, shape0.
      destruct (shape images) as [|B s] eqn:Hs; [cbn in Hrank; lia|]. cbn [rbind].
      rewrite Hpred. cbn [rbind].
      rewrite compute_err_unknown; [done| |done]. rewrite Hs. cbn. cbn in Hrank. lia. }
    split; [|done]. split; [|by eexists; apply Hunknown].
    intros [msg Hmsg] Hin. revert msg Hmsg.
    change (supported (eval_grid_full loss_fn images model_out NQ YX inplane tilt)).
    unfold eval_grid_full. apply supported_bind; [auto with supported|]. intros _.
    apply supported_bind.
    { apply compute_err_full_known; [done|]. by eapply predict_supported. }
    intros err. destruct tilt as [[[it mt] lt]|]; [|auto with supported].
    apply supported_bind; [by apply compute_err_full_known|]. auto with supported.
  - intros Hnot err. unfold eval_grid_full, compute_err_full.
    destruct (shape0 images) as [e|B]; [discriminate|]. cbn [rbind].
    destruct (predict model_out NQ YX inplane) as [e|y_hat]; [discriminate|]. cbn [rbind].
    unfold compute_err.
    destruct (unsqueeze images 2) as [e|im]; [discriminate|]. cbn [rbind].
    unfold known_losses in Hnot.
    destruct (String.eqb_spec loss_fn "mse"); [set_solver|].
    destruct (String.eqb_spec loss_fn "msf"); [set_solver|].
    destruct (String.eqb_spec loss_fn "cor"); [set_solver|]. discriminate.
  - intros e Hrank Hpred. unfold eval_grid_full, compute_err_full, shape0.
    destruct (shape images) as [|B s]; [cbn in Hrank; lia|]. cbn [rbind].
    by rewrite Hpred.
Qed.

(* ================================================================= *)
(** ** Tensors of rank 3 and 4 *)

Ltac inv_valid H :=
  repeat match type of H with
  | Forall2 _ _ (_ :: _) =>
      let i := fresh "i" in let Hi := fresh "Hi" in let H' := fresh "Hv" in
      inversion H as [|i ? ? ? Hi H']; subst; clear H; rename H' into H
  | Forall2 _ _ [] => inversion H; subst; clear H
  end.

Lemma valid_index3 i j k a b c : i < a → j < b → k < c → valid_index [i; j; k] [a; b; c].
Proof. intros. constructor; [done|]. by apply valid_index2. Qed.

Lemma valid_index4 i j k l a b c d :
  i < a → j < b → k < c → l < d → valid_index [i; j; k; l] [a; b; c; d].
Proof. intros. constructor; [done|]. by apply valid_index3. Qed.

Lemma ravel4 a b c d i j k l :
  i < a → j < b → k < c → l < d →
  ravel [a; b; c; d] [i; j; k; l] = Some (((i * b + j) * c + k) * d + l).
Proof.
  intros Hi Hj Hk Hl. cbn. rewrite !decide_True by done. cbn.
  change (numel [b; c; d]) with (b * (c * (d * 1))).
  change (numel [c; d]) with (c * (d * 1)). change (numel [d]) with (d * 1).
  change (numel []) with 1. f_equal. lia.
Qed.

Lemma numel3 a b c : numel [a; b; c] = a * b * c.
Proof. change (numel [a; b; c]) with (a * (b * (c * 1))). lia. Qed.

Lemma numel4 a b c d : numel [a; b; c; d] = a * b * c * d.
Proof. change (numel [a; b; c; d]) with (a * (b * (c * (d * 1)))). lia. Qed.

Lemma tensor_is_data {X} (t : tensor X) s f :
  tensor_is t s f → tensor_is (Tensor s (data t)) s f.
Proof. intros (Hs & Hwf & Hget). destruct t as [s' d]. cbn in Hs. by subst. Qed.

Lemma tensor_is_length {X} (t : tensor X) s f :
  tensor_is t s f → length (data t) = numel s.
Proof. intros (Hs & Hwf & _). unfold wf_tensor in Hwf. by rewrite Hwf, Hs. Qed.

(** [t.unsqueeze(2)] of a rank-3 tensor. *)
Lemma unsqueeze2_is {X} (t : tensor X) B T P f :
  tensor_is t [B; T; P] f →
  ∃ r, unsqueeze t 2 = inr r ∧ data r = data t ∧
    tensor_is r [B; T; 1; P]
      (λ idx, match idx with [b; t; _; p] => f [b; t; p] | _ => f idx end).
Proof.
  intros Ht. pose proof Ht as (Hs & Hwf & Hget). unfold unsqueeze.
  rewrite Hs. cbn [length take drop app]. rewrite decide_True by lia.
  eexists. split; [done|]. split; [done|]. split; [done|]. split.
  { unfold wf_tensor in *. cbn. rewrite Hwf, Hs, numel3, numel4. lia. }
  intros idx Hv. inv_valid Hv. rewrite <-Hget by (by apply valid_index3).
  unfold tensor_get. cbn [shape data]. rewrite Hs.
  assert (i1 = 0) as -> by lia.
  rewrite ravel3, ravel4 by lia. do 2 f_equal. lia.
Qed.

(** [t.view(pre, -1, post)] when the extents divide. *)
Lemma view_infer_eq {X} (t : tensor X) pre post m :
  length (data t) = numel pre * m * numel post → numel pre * numel post ≠ 0 →
  view_infer t pre post = inr (Tensor (pre ++ m :: post) (data t)).
Proof.
  intros Hlen Hk. unfold view_infer. cbv zeta. rewrite decide_False by done.
  assert (length (data t) = m * (numel pre * numel post)) as -> by lia.
  rewrite Nat.Div0.mod_mul, decide_True by done. by rewrite Nat.div_mul.
Qed.

(** [t.transpose(-1, -2)] of a rank-3 tensor. *)
Lemma transpose3_is {X} (t : tensor X) a b c f :
  tensor_is t [a; b; c] f →
  ∃ r, transpose_last2 t = inr r ∧
    tensor_is r [a; c; b] (λ idx, match idx with [i; k; j] => f [i; j; k] | _ => f idx end).
Proof.
  intros (Hs & Hwf & Hget). unfold transpose_last2. rewrite Hs.
  rewrite decide_True by (cbn; lia). apply tabulate_is.
  intros idx Hv. inv_valid Hv. cbn. by rewrite Hget by (by apply valid_index3).
Qed.

Section matmul3.
Context {F : Type} `{Scalar F}.

(** [a @ b] of two rank-3 tensors. *)
Lemma matmul3_is (a b : tensor F) B N n m k fa fb :
  tensor_is a [B; n; m] fa → tensor_is b [N; m; k] fb → compat B N →
  ∃ r, matmul a b = inr r ∧
    tensor_is r [bext B N; n; k]
      (λ idx, match idx with
              | [bb; i; kk] =>
                  fsum ((λ j, fmul (fa [bfix B bb; i; j]) (fb [bfix N bb; j; kk])) <$> seq 0 m)
              | _ => fzero
              end).
Proof.
  intros (Hsa & Hwfa & Hga) (Hsb & Hwfb & Hgb) Hc. unfold matmul. rewrite Hsa, Hsb.
  cbn [reverse rev_append]. rewrite decide_True by done. cbn [reverse rev_append].
  rewrite broadcast_shapes_compat by (by constructor). cbn [rbind zip_with app length].
  apply tabulate_is. intros idx Hv. inv_valid Hv. cbn [take drop app].
  rewrite !bidx_same_length by done. cbn [zip_with app].
  rewrite (mapM_seq_total _ (λ j, fmul (fa [bfix B i; i0; j]) (fb [bfix N i; j; i1]))); [done|].
  intros p Hp.
  assert (bfix B i < B ∧ bfix N i < N) as [HB HN].
  { unfold bext, bfix, compat in *. repeat case_decide; lia. }
  rewrite Hga by (by apply valid_index3). rewrite Hgb by (by apply valid_index3). done.
Qed.

End matmul3.

(* ================================================================= *)
(** ** The losses entry by entry *)

Lemma fmap_seq_ext {X} (f g : nat → X) n :
  (∀ p, p < n → f p = g p) → f <$> seq 0 n = g <$> seq 0 n.
Proof.
  intros Hfg. apply list_eq. intros i. rewrite !list_lookup_fmap.
  destruct (seq 0 n !! i) as [p|] eqn:Hp; [|done]. cbn.
  apply lookup_seq in Hp as [-> Hi]. by rewrite Hfg.
Qed.

Lemma bext_same a : bext a a = a.
Proof. unfold bext. by case_decide. Qed.

Lemma bext_1_r a : bext a 1 = a.
Proof. unfold bext. by case_decide. Qed.

Lemma bext_batch B N : N = 1 ∨ N = B → bext B N = B.
Proof. intros [->| ->]; [apply bext_1_r|apply bext_same]. Qed.

Lemma compat_batch B N : N = 1 ∨ N = B → compat B N.
Proof. unfold compat. lia. Qed.

Lemma bfix_batch B N b : N = 1 ∨ N = B → b < B → bfix N b < N.
Proof. intros HN Hb. unfold bfix. case_decide; lia. Qed.

Section losses.
Context {F : Type} `{Scalar F}.
Context (images y_hat : tensor F) (B T N Q P : nat) (fi fy : list nat → F).
Hypothesis Hi : tensor_is images [B; T; P] fi.
Hypothesis Hy : tensor_is y_hat [N; 1; Q; P] fy.
Hypothesis HN : N = 1 ∨ N = B.

Lemma broadcast_images_y_hat :
  Forall2 compat [B; T; 1; P] [N; 1; Q; P] ∧
  zip_with bext [B; T; 1; P] [N; 1; Q; P] = [B; T; Q; P].
Proof using HN.
  split.
  - repeat (constructor; [unfold compat; lia|]). constructor.
  - cbn. by rewrite bext_batch, bext_1_r, bext_same.
Qed.

Lemma compute_err_mse_is :
  ∃ e, compute_err "mse" images y_hat = inr e ∧
    tensor_is e [B; T; Q]
      (λ idx, match idx with
              | [b; t; q] =>
                  fsum ((λ p, let d := fsub (fi [b; t; p]) (fy [bfix N b; 0; q; p]) in
                              fmul d d) <$> seq 0 P)
              | _ => fzero
              end).
Proof using Hi Hy HN.
  unfold compute_err.
  destruct (unsqueeze2_is _ _ _ _ _ Hi) as (im & -> & _ & Him). cbn [rbind String.eqb Ascii.eqb Bool.eqb].
  destruct broadcast_images_y_hat as [Hc Hz].
  destruct (binop_is fsub im y_hat _ _ _ _ Him Hy Hc) as (d & -> & Hd). cbn [rbind].
  rewrite Hz in Hd.
  apply (map1_is (λ x, fmul x x)) in Hd.
  destruct (reduce_last_is fsum _ [B; T; Q] P _ Hd) as (e & -> & He).
  exists e. split; [done|]. eapply tensor_is_ext; [exact He|].
  intros idx Hv. inv_valid Hv. cbn [app]. f_equal. apply fmap_seq_ext. intros p Hp.
  cbn [zip_with]. rewrite !(bfix_lt B), !(bfix_lt T), !(bfix_lt Q), !(bfix_lt P) by done.
  done.
Qed.

Lemma bfix_idem n i : bfix n (bfix n i) = bfix n i.
Proof using Type. unfold bfix. by case_decide. Qed.

Lemma compute_err_msf_is :
  0 < B → 0 < T → 0 < P →
  ∃ e, compute_err "msf" images y_hat = inr e ∧
    tensor_is e [B; T; Q]
      (λ idx, match idx with
              | [b; t; q] =>
                  fadd (fneg (fsum ((λ p, fmul (fi [b; t; p]) (fy [bfix N b; 0; q; p]))
                                    <$> seq 0 P)))
                       (fdiv (fsum ((λ p, fmul (fy [bfix N b; 0; q; p]) (fy [bfix N b; 0; q; p]))
                                    <$> seq 0 P))
                             (of_int 2))
              | _ => fzero
              end).
Proof using Hi Hy HN.
  intros HB HT HP. unfold compute_err.
  destruct (unsqueeze2_is _ _ _ _ _ Hi) as (im & -> & Hdata & Him).
  cbn [rbind String.eqb Ascii.eqb Bool.eqb].
  pose proof Him as (-> & _ & _). pose proof Hy as (Hys & _ & _).
  (* images.view(B, -1, Npix) *)
  rewrite (view_infer_eq im [B] [P] T); cycle 1.
  { rewrite (tensor_is_length _ _ _ Him), numel4. change (numel [B]) with (B * 1).
    change (numel [P]) with (P * 1). lia. }
  { change (numel [B]) with (B * 1). change (numel [P]) with (P * 1). lia. }
  cbn [rbind app]. rewrite Hdata.
  pose proof (tensor_is_data _ _ _ Hi) as Ha.
  unfold shape0. rewrite Hys. cbn [rbind ret].
  (* y_hat.view(N, -1, Npix) *)
  rewrite (view_infer_eq y_hat [N] [P] Q); cycle 1.
  { rewrite (tensor_is_length _ _ _ Hy), numel4. change (numel [N]) with (N * 1).
    change (numel [P]) with (P * 1). lia. }
  { change (numel [N]) with (N * 1). change (numel [P]) with (P * 1). lia. }
  cbn [rbind app].
  assert (tensor_is (Tensor [N; Q; P] (data y_hat)) [N; Q; P]
            (λ idx, fy (match idx with [n; q; p] => [n; 0; q; p] | _ => idx end))) as Hb.
  { eapply reshape_is; [exact Hy|by rewrite numel3, numel4; lia|].
    intros idx Hv. inv_valid Hv. split; [apply valid_index4; lia|].
    rewrite ravel3, ravel4 by lia. f_equal. lia. }
  destruct (transpose3_is _ _ _ _ _ Hb) as (bt & -> & Hbt). cbn [rbind].
  destruct (matmul3_is _ _ _ _ _ _ _ _ _ Ha Hbt (compat_batch _ _ HN)) as (ab & -> & Hab).
  cbn [rbind]. rewrite bext_batch in Hab by done.
  (* .view(B, T, -1) *)
  rewrite (view_infer_eq ab [B; T] [] Q); cycle 1.
  { rewrite (tensor_is_length _ _ _ Hab), numel3. change (numel [B; T]) with (B * (T * 1)).
    change (numel []) with 1. lia. }
  { change (numel [B; T]) with (B * (T * 1)). change (numel []) with 1. lia. }
  cbn [rbind app]. pose proof (tensor_is_data _ _ _ Hab) as Hdots.
  (* norm *)
  assert (Forall2 compat [N; 1; Q; P] [N; 1; Q; P]) as Hcy.
  { repeat (constructor; [by left|]). constructor. }
  destruct (binop_is fmul y_hat y_hat _ _ _ _ Hy Hy Hcy) as (yy & -> & Hyy). cbn [rbind].
  cbn [zip_with] in Hyy. rewrite !bext_same in Hyy.
  destruct (reduce_last_is fsum _ [N; 1; Q] P _ Hyy) as (n & -> & Hn). cbn [rbind].
  apply (map1_is (λ x, fdiv x (of_int 2))) in Hn.
  apply (map1_is fneg) in Hdots.
  assert (Forall2 compat [B; T; Q] [N; 1; Q]) as Hc3.
  { repeat (constructor; [unfold compat; lia|]). constructor. }
  destruct (binop_is fadd _ _ _ _ _ _ Hdots Hn Hc3) as (e & -> & He).
  exists e. split; [done|].
  cbn [zip_with] in He. rewrite bext_batch, bext_1_r, bext_same in He by done.
  eapply tensor_is_ext; [exact He|].
  intros idx Hv. inv_valid Hv. cbn [zip_with app].
  rewrite !(bfix_lt B i), !(bfix_lt T i0), !(bfix_lt Q i1), bfix_idem by done. f_equal.
  f_equal. f_equal. apply fmap_seq_ext. intros p Hp. by rewrite (bfix_lt P p).
Qed.

Lemma compute_err_cor_is :
  ∃ e, compute_err "cor" images y_hat = inr e ∧
    tensor_is e [B; T; Q]
      (λ idx, match idx with
              | [b; t; q] =>
                  fdiv (fneg (fsum ((λ p, fmul (fi [b; t; p]) (fy [bfix N b; 0; q; p]))
                                    <$> seq 0 P)))
                       (fstd ((λ p, fy [bfix N b; 0; q; p]) <$> seq 0 P))
              | _ => fzero
              end).
Proof using Hi Hy HN.
  unfold compute_err.
  destruct (unsqueeze2_is _ _ _ _ _ Hi) as (im & -> & _ & Him).
  cbn [rbind String.eqb Ascii.eqb Bool.eqb].
  destruct broadcast_images_y_hat as [Hc Hz].
  destruct (binop_is fmul im y_hat _ _ _ _ Him Hy Hc) as (pr & -> & Hpr). cbn [rbind].
  rewrite Hz in Hpr.
  destruct (reduce_last_is fsum _ [B; T; Q] P _ Hpr) as (s & -> & Hs). cbn [rbind].
  destruct (reduce_last_is fstd _ [N; 1; Q] P _ Hy) as (sd & -> & Hsd). cbn [rbind].
  apply (map1_is fneg) in Hs.
  assert (Forall2 compat [B; T; Q] [N; 1; Q]) as Hc3.
  { repeat (constructor; [unfold compat; lia|]). constructor. }
  destruct (binop_is fdiv _ _ _ _ _ _ Hs Hsd Hc3) as (e & -> & He).
  exists e. split; [done|].
  cbn [zip_with] in He. rewrite bext_batch, bext_1_r, bext_same in He by done.
  eapply tensor_is_ext; [exact He|].
  intros idx Hv. inv_valid Hv. cbn [zip_with app].
  rewrite !(bfix_lt B i), !(bfix_lt T i0), !(bfix_lt Q i1) by done. f_equal.
  f_equal. f_equal. apply fmap_seq_ext. intros p Hp. by rewrite (bfix_lt P p).
Qed.

End losses.

(* ================================================================= *)
(** ** [msf] against [mse] *)

Lemma foldl_Rplus (a : R) (l : list R) : foldl Rplus a l = (a + foldr Rplus 0 l)%R.
Proof.
  revert a. induction l as [|x l IH]; intros a; cbn.
  - lra.
  - rewrite IH. lra.
Qed.

Lemma fsum_R_nil : fsum ([] : list R) = 0%R.
Proof. done. Qed.

Lemma fsum_R_cons (x : R) (l : list R) : fsum (x :: l) = (x + fsum l)%R.
Proof.
  unfold fsum. cbn [foldl fadd fzero R_arith]. rewrite !foldl_Rplus. lra.
Qed.

(** sum (x - y)^2 = sum x^2 - 2 sum x y + sum y^2 *)
Lemma fsum_square_diff (x y : nat → R) (l : list nat) :
  fsum ((λ p, fmul (fsub (x p) (y p)) (fsub (x p) (y p))) <$> l)
  = (fsum ((λ p, fmul (x p) (x p)) <$> l)
     - 2 * fsum ((λ p, fmul (x p) (y p)) <$> l)
     + fsum ((λ p, fmul (y p) (y p)) <$> l))%R.
Proof.
  induction l as [|p l IH]; cbn [fmap list_fmap].
  - rewrite !fsum_R_nil. lra.
  - rewrite !fsum_R_cons, IH. cbn [fsub fmul R_arith]. lra.
Qed.

Section msf_mse.
Context (images y_hat : tensor R) (B T N Q P : nat).
Hypothesis Hdoc : documented_shapes images y_hat B T N Q P.
Hypothesis HB : 0 < B.
Hypothesis HT : 0 < T.
Hypothesis HP : 0 < P.

Lemma images_is : tensor_is images [B; T; P] (entry 0%R images).
Proof using Hdoc. destruct Hdoc as (Hwf & <- & _). by apply tensor_is_entry. Qed.

Lemma y_hat_is : tensor_is y_hat [N; 1; Q; P] (entry 0%R y_hat).
Proof using Hdoc. destruct Hdoc as (_ & _ & Hwf & <- & _). by apply tensor_is_entry. Qed.

Lemma row_energy_is :
  ∃ nrm, row_energy images = inr nrm ∧
    tensor_is nrm [B; T]
      (λ idx, fsum ((λ p, let x := entry 0%R images (idx ++ [p]) in fmul x x) <$> seq 0 P)).
Proof using Hdoc.
  unfold row_energy. pose proof (map1_is (λ x, fmul x x) _ _ _ images_is) as Hsq.
  apply (reduce_last_is fsum _ [B; T] P _ Hsq).
Qed.

(** Both losses return, and entry by entry msf = mse / 2 - energy / 2. *)
Lemma msf_mse_is :
  ∃ e_mse e_msf nrm (m f c : list nat → R),
    compute_err "mse" images y_hat = inr e_mse ∧
    compute_err "msf" images y_hat = inr e_msf ∧
    row_energy images = inr nrm ∧
    tensor_is e_mse [B; T; Q] m ∧ tensor_is e_msf [B; T; Q] f ∧ tensor_is nrm [B; T] c ∧
    ∀ b t q, b < B → t < T → q < Q →
      f [b; t; q] = (m [b; t; q] / 2 - c [b; t] / 2)%R.
Proof using All.
  pose proof Hdoc as (_ & _ & _ & _ & HN).
  destruct (compute_err_mse_is _ _ B T N Q P _ _ images_is y_hat_is HN) as (e1 & He1 & H1).
  destruct (compute_err_msf_is _ _ B T N Q P _ _ images_is y_hat_is HN HB HT HP)
    as (e2 & He2 & H2).
  destruct row_energy_is as (nrm & Hnrm & H3).
  eexists e1, e2, nrm, _, _, _. split_and!; [done..|].
  intros b t q Hb Ht Hq.
  cbn [app]. cbv zeta. rewrite fsum_square_diff. cbn [fadd fneg fdiv of_int R_arith R_scalar]. lra.
Qed.

End msf_mse.

(** [a op b] on two tensors of one shape. *)
Lemma binop_same_is {X} (op : X → X → X) (a b : tensor X) s fa fb :
  tensor_is a s fa → tensor_is b s fb →
  ∃ r, binop op a b = inr r ∧ tensor_is r s (λ idx, op (fa idx) (fb idx)).
Proof.
  intros Ha Hb.
  assert (Forall2 compat s s ∧ zip_with bext s s = s) as [Hc Hz].
  { clear. induction s as [|n s [IH1 IH2]]; [by split; [constructor|]|].
    split; [constructor; [by left|done]|]. cbn [zip_with]. by rewrite bext_same, IH2. }
  destruct (binop_is op a b s s fa fb Ha Hb Hc) as (r & Hr & His).
  rewrite Hz in His. exists r. split; [done|]. eapply tensor_is_ext; [exact His|].
  intros idx Hv. pose proof (bidx_valid s idx Hv) as Hb'.
  rewrite bidx_same_length in Hb' by (by apply Forall2_length in Hv).
  cbv beta. by rewrite !Hb'.
Qed.

(** [err += err_tilt] *)
Lemma binop_inplace_is {X} (op : X → X → X) (a b : tensor X) s fa fb :
  tensor_is a s fa → tensor_is b s fb →
  ∃ r, binop_inplace op a b = inr r ∧ tensor_is r s (λ idx, op (fa idx) (fb idx)).
Proof.
  intros Ha Hb. unfold binop_inplace.
  destruct (binop_same_is op a b s fa fb Ha Hb) as (r & -> & Hr). cbn [rbind].
  pose proof Hr as (Hrs & _ & _). pose proof Ha as (Has & _ & _).
  rewrite bool_decide_eq_true_2 by congruence. by exists r.
Qed.

(** [eval_grid] and the observed energy, with or without a tilt pair. *)
Lemma eval_grid_msf_mse_is (images y_hat : tensor R) tilt (B T N Q P : nat) :
  documented_shapes images y_hat B T N Q P → tilt_documented tilt B T N Q P →
  0 < B → 0 < T → 0 < P →
  ∃ e_mse e_msf nrm (m f c : list nat → R),
    eval_grid "mse" images y_hat tilt = inr e_mse ∧
    eval_grid "msf" images y_hat tilt = inr e_msf ∧
    energy images tilt = inr nrm ∧
    tensor_is e_mse [B; T; Q] m ∧ tensor_is e_msf [B; T; Q] f ∧ tensor_is nrm [B; T] c ∧
    ∀ b t q, b < B → t < T → q < Q →
      f [b; t; q] = (m [b; t; q] / 2 - c [b; t] / 2)%R.
Proof.
  intros Hdoc Htilt HB HT HP.
  destruct (msf_mse_is images y_hat B T N Q P Hdoc HB HT HP)
    as (e1 & e2 & nrm & m & f & c & He1 & He2 & Hn & H1 & H2 & H3 & Hrel).
  unfold eval_grid, energy. rewrite He1, He2, Hn. cbn [rbind].
  destruct tilt as [[it yt]|]; [|by eexists e1, e2, nrm, m, f, c].
  destruct (msf_mse_is it yt B T N Q P Htilt HB HT HP)
    as (e1' & e2' & nrm' & m' & f' & c' & He1' & He2' & Hn' & H1' & H2' & H3' & Hrel').
  rewrite He1', He2', Hn'. cbn [rbind].
  destruct (binop_inplace_is fadd e1 e1' _ _ _ H1 H1') as (r1 & -> & Hr1).
  destruct (binop_inplace_is fadd e2 e2' _ _ _ H2 H2') as (r2 & -> & Hr2).
  destruct (binop_same_is fadd nrm nrm' _ _ _ H3 H3') as (r3 & -> & Hr3).
  eexists r1, r2, r3, _, _, _. split_and!; [done..|].
  intros b t q Hb Ht Hq. cbv beta. rewrite Hrel, Hrel' by done.
  cbn [fadd R_arith]. lra.
Qed.

(** C3 (amended: over the real numbers, and row by row).  On inputs of
    the documented shapes (images B x T x Npix with B, T, Npix > 0,
    predictions N x 1 x Q x Npix with N = 1 or N = B, and the same for a
    tilt pair), [eval_grid] returns a B x T x Q loss under "mse" and under
    "msf"; for every observed-image row (b, t) the msf loss of every
    candidate is half its mse loss minus half the squared norm of the
    observed row, which does not depend on the candidate, so that the two
    losses order the candidates of the row alike.  Between candidates of
    two rows of one image the msf losses differ by half the difference of
    the mse losses minus half the difference of the rows' squared norms:
    the two losses order them alike where the rows have one squared norm. *)
Theorem msf_ranks_like_mse (images y_hat : tensor R) (tilt : option (tensor R * tensor R))
    (B T N Q P : nat) :
  documented_shapes images y_hat B T N Q P → tilt_documented tilt B T N Q P →
  0 < B → 0 < T → 0 < P →
  ∃ e_mse e_msf nrm,
    eval_grid "mse" images y_hat tilt = inr e_mse ∧
    eval_grid "msf" images y_hat tilt = inr e_msf ∧
    energy images tilt = inr nrm ∧
    shape e_mse = [B; T; Q] ∧ shape e_msf = [B; T; Q] ∧
    (∀ b t, b < B → t < T →
      ∃ c, tensor_get nrm [b; t] = Some c ∧
        ∀ q q', q < Q → q' < Q →
          ∃ m m' f f',
            tensor_get e_mse [b; t; q] = Some m ∧ tensor_get e_mse [b; t; q'] = Some m' ∧
            tensor_get e_msf [b; t; q] = Some f ∧ tensor_get e_msf [b; t; q'] = Some f' ∧
            f = (m / 2 - c / 2)%R ∧
            ((f <= f')%R ↔ (m <= m')%R) ∧ ((f < f')%R ↔ (m < m')%R)) ∧
    (∀ b t t' q q', b < B → t < T → t' < T → q < Q → q' < Q →
       ∃ c c' m m' f f',
         tensor_get nrm [b; t] = Some c ∧ tensor_get nrm [b; t'] = Some c' ∧
         tensor_get e_mse [b; t; q] = Some m ∧ tensor_get e_mse [b; t'; q'] = Some m' ∧
         tensor_get e_msf [b; t; q] = Some f ∧ tensor_get e_msf [b; t'; q'] = Some f' ∧
         (f - f' = (m - m') / 2 - (c - c') / 2)%R ∧
         (c = c' → ((f <= f')%R ↔ (m <= m')%R) ∧ ((f < f')%R ↔ (m < m')%R))).
Proof.
  intros Hdoc Htilt HB HT HP.
  destruct (eval_grid_msf_mse_is images y_hat tilt B T N Q P Hdoc Htilt HB HT HP)
    as (e1 & e2 & nrm & m & f & c & He1 & He2 & Hn & H1 & H2 & H3 & Hrel).
  exists e1, e2, nrm. split_and!; [done..|by destruct H1|by destruct H2| |].
  - intros b t Hb Ht. exists (c [b; t]).
    split; [by apply (tensor_is_get _ _ _ _ H3), valid_index2|].
    intros q q' Hq Hq'. exists (m [b; t; q]), (m [b; t; q']), (f [b; t; q]), (f [b; t; q']).
    split_and!; try (by apply (tensor_is_get _ _ _ _ H1), valid_index3);
      try (by apply (tensor_is_get _ _ _ _ H2), valid_index3);
      rewrite ?Hrel by done; try done; lra.
  - intros b t t' q q' Hb Ht Ht' Hq Hq'.
    exists (c [b; t]), (c [b; t']), (m [b; t; q]), (m [b; t'; q']),
           (f [b; t; q]), (f [b; t'; q']).
    split_and!; try (by apply (tensor_is_get _ _ _ _ H3), valid_index2);
      try (by apply (tensor_is_get _ _ _ _ H1), valid_index3);
      try (by apply (tensor_is_get _ _ _ _ H2), valid_index3).
    + rewrite !Hrel by done. lra.
    + intros Hc. rewrite !Hrel by done. split; lra.
Qed.

(* ================================================================= *)
(** ** Division by a zero standard deviation *)

(** IEEE 754: whatever is divided by zero is an infinity or NaN. *)
Lemma div_zero_not_finite (x z : float) :
  is_zero z = true → is_finite (x / z)%float = false.
Proof.
  unfold is_zero, is_finite. rewrite div_spec.
  destruct (Prim2SF z) as [sz| | |]; try done. intros _.
  by destruct (Prim2SF x) as [sx|sx| |sx mx ex].
Qed.

(** Whatever is multiplied by an infinity or NaN is an infinity or NaN. *)
Lemma mul_not_finite (x r : float) :
  is_finite r = false → is_finite (x * r)%float = false.
Proof.
  unfold is_finite. rewrite mul_spec.
  destruct (Prim2SF r) as [sr|sr| |sr mr er]; try done; intros _;
    by destruct (Prim2SF x) as [sx|sx| |sx mx ex].
Qed.

(** Whatever is added to an infinity or NaN is an infinity or NaN. *)
Lemma add_not_finite (v w : float) :
  is_finite v = false → is_finite (v + w)%float = false.
Proof.
  unfold is_finite. rewrite add_spec.
  destruct (Prim2SF v) as [sv|sv| |sv mv ev]; try done; intros _;
    destruct (Prim2SF w) as [sw|sw| |sw mw ew]; try done.
  by destruct sv, sw.
Qed.

(* ================================================================= *)
(** ** The rescaling step of [rotate_images] *)

Lemma interpolate_wf {F : Type} `{Arith F} (img coords r : tensor F) :
  interpolate img coords = inr r → wf_tensor r.
Proof.
  unfold interpolate.
  intros (_ & _ & (_ & _ & (n & _ & Hr)%rbind_inv)%rbind_inv)%rbind_inv.
  destruct (reverse (shape img)) as [|WW [|HH rb]]; try done.
  by apply tabulate_inv in Hr as (_ & Hwf & _).
Qed.

Section rescale.
Context {F : Type} `{Scalar F}.

(** [interpolated *= squeezed.std(-1, keepdim=True) / interpolated.std(-1, keepdim=True)] *)
Lemma rescale_is (squeezed itp : tensor F) (R C : nat) f1 f2 :
  tensor_is squeezed [R; C] f1 → tensor_is itp [R; C] f2 →
  ∃ s si ratio out,
    reduce_last fstd true squeezed = inr s ∧
    reduce_last fstd true itp = inr si ∧
    binop fdiv s si = inr ratio ∧
    binop_inplace fmul itp ratio = inr out ∧
    tensor_is si [R; 1] (λ idx, fstd ((λ p, f2 (take 1 idx ++ [p])) <$> seq 0 C)) ∧
    tensor_is out [R; C]
      (λ idx, match idx with
              | [r; p] =>
                  fmul (f2 [r; p])
                       (fdiv (fstd ((λ p, f1 [r; p]) <$> seq 0 C))
                             (fstd ((λ p, f2 [r; p]) <$> seq 0 C)))
              | _ => fzero
              end).
Proof.
  intros H1 H2.
  destruct (reduce_last_keep_is fstd squeezed [R] C f1 H1) as (s & Hs & Hsi).
  destruct (reduce_last_keep_is fstd itp [R] C f2 H2) as (si & Hsi' & Hsii).
  cbn [app length] in Hsi, Hsii.
  assert (Forall2 compat [R; 1] [R; 1]) as Hc1.
  { repeat (constructor; [by left|]). constructor. }
  destruct (binop_is fdiv s si _ _ _ _ Hsi Hsii Hc1) as (ratio & Hratio & Hri).
  cbn [zip_with] in Hri. rewrite !bext_same in Hri.
  assert (Forall2 compat [R; C] [R; 1]) as Hc2.
  { repeat (constructor; [unfold compat; lia|]). constructor. }
  destruct (binop_is fmul itp ratio _ _ _ _ H2 Hri Hc2) as (out & Hout & Hoi).
  cbn [zip_with] in Hoi. rewrite bext_same, bext_1_r in Hoi.
  exists s, si, ratio, out. split_and!; [done..| | |].
  - unfold binop_inplace. rewrite Hout. cbn [rbind].
    destruct Hoi as (-> & _ & _). destruct H2 as (-> & _ & _).
    by rewrite bool_decide_eq_true_2.
  - done.
  - eapply tensor_is_ext; [exact Hoi|]. intros idx Hv. inv_valid Hv.
    cbn [zip_with take app]. rewrite !(bfix_lt R i), !(bfix_lt C i0) by done. done.
Qed.

Lemma rotate_one_inv (squeezed full coords out : tensor F) :
  rotate_one squeezed full coords = inr out →
  ∃ itp, interpolate full coords = inr itp ∧ shape itp = shape squeezed.
Proof.
  unfold rotate_one. intros (itp & Hitp & (_ & Hsh%assert_inv & _)%rbind_inv)%rbind_inv.
  exists itp. split; [done|]. unfold shape_eqb in Hsh. by apply bool_decide_eq_true in Hsh.
Qed.

End rescale.

Lemma list_comp_inv {X Y} (f : X → result Y) (l : list X) ys :
  list_comp f l = inr ys → Forall2 (λ x y, f x = inr y) l ys.
Proof.
  revert ys. induction l as [|x l IH]; intros ys; cbn.
  - intros [= <-]. constructor.
  - intros (y & Hy & (ys' & Hys & [= <-])%rbind_inv)%rbind_inv.
    constructor; [done|by apply IH].
Qed.

Lemma view_inv {X} (t r : tensor X) s :
  view t s = inr r → r = Tensor s (data t) ∧ wf_tensor r.
Proof.
  unfold view. case_decide; [|done]. intros [= <-]. split; [done|].
  unfold wf_tensor. by cbn.
Qed.

Section rotate_images_facts.
Context {F : Type} `{Scalar F}.

(** One turn of the loop, from its inputs on. *)
Lemma rotate_one_is (squeezed full coords out : tensor F) (R C : nat) :
  wf_tensor squeezed → shape squeezed = [R; C] →
  rotate_one squeezed full coords = inr out →
  ∃ itp si,
    interpolate full coords = inr itp ∧ reduce_last fstd true itp = inr si ∧
    ∀ r, r < R →
      ∃ zs z, tensor_get si [r; 0] = Some z ∧
        ∀ p, p < C → ∃ x, tensor_get out [r; p] = Some (fmul x (fdiv zs z)).
Proof.
  intros Hwf Hs Hout.
  destruct (rotate_one_inv _ _ _ _ Hout) as (itp & Hitp & Hsh).
  pose proof (interpolate_wf _ _ _ Hitp) as Hiwf.
  pose proof (tensor_is_entry fzero squeezed Hwf) as H1.
  pose proof (tensor_is_entry fzero itp Hiwf) as H2.
  rewrite Hsh in H2. rewrite Hs in H1, H2.
  destruct (rescale_is squeezed itp R C _ _ H1 H2)
    as (s & si & ratio & out' & Es & Esi & Eratio & Eout & Hsi & Ho).
  unfold rotate_one in Hout. rewrite Hitp in Hout. cbn [rbind] in Hout.
  unfold shape_eqb in Hout. rewrite bool_decide_eq_true_2 in Hout by done.
  cbn [assert_ rbind ret] in Hout. rewrite Es, Esi in Hout. cbn [rbind] in Hout.
  rewrite Eratio in Hout. cbn [rbind] in Hout. rewrite Eout in Hout.
  injection Hout as <-.
  exists itp, si. split; [done|]. split; [done|]. intros r Hr.
  eexists _, _. split.
  - apply (tensor_is_get _ _ _ _ Hsi). apply valid_index2; [done|lia].
  - intros p Hp. eexists.
    rewrite (tensor_is_get _ _ _ _ Ho) by (by apply valid_index2). done.
Qed.

Lemma rotate_images_inv (images rot : tensor F) (lv : lattice_view F) (B d1 NQ YX : nat) :
  shape images = [B; d1; NQ; YX] → rotate_images images lv = inr rot →
  ∃ squeezed full per_angle,
    view images [B * NQ; YX] = inr squeezed ∧
    scatter_mask (B * NQ) (lat_D lv) (lat_mask lv) squeezed = inr full ∧
    Forall2 (λ c o, rotate_one squeezed full c = inr o) (lat_rot_coords lv) per_angle ∧
    ∀ b q a p o, b < B → q < NQ → p < YX → per_angle !! a = Some o →
      tensor_get rot [b; 0; q * length (lat_rot_coords lv) + a; p]
      = tensor_get o [b * NQ + q; p].
Proof.
  intros Hs. unfold rotate_images. rewrite Hs. cbv zeta.
  intros (squeezed & Hsq & (full & Hfull & (per_angle & Hper &
            (res & Hres & Hrot)%rbind_inv)%rbind_inv)%rbind_inv)%rbind_inv.
  exists squeezed, full, per_angle. split; [done|]. split; [done|].
  apply list_comp_inv in Hper. split; [done|].
  intros b q a p o Hb Hq Hp Ho.
  apply view_inv in Hrot as [-> _].
  apply tabulate_inv in Hres as (Hrs & Hrwf & Hget).
  pose proof (Forall2_length _ _ _ Hper) as Hlen.
  assert (a < length (lat_rot_coords lv)) as Ha.
  { rewrite Hlen. by eapply lookup_lt_Some. }
  assert (b * NQ + q < B * NQ) as Hr by nia.
  specialize (Hget [b * NQ + q; a; p] (valid_index3 _ _ _ _ _ _ Hr Ha Hp)).
  cbn beta iota in Hget. rewrite Ho in Hget.
  transitivity (tensor_get res [b * NQ + q; a; p]); [|exact Hget]. unfold tensor_get. cbn [shape data]. rewrite Hrs.
  rewrite ravel3, ravel4 by (try done; nia). do 2 f_equal. lia.
Qed.

End rotate_images_facts.

(* ================================================================= *)
(** ** A zero standard deviation is not guarded *)

(** The correlation loss of one image set: every entry is a quotient by
    the standard deviation [y_hat.std(-1)] of its candidate. *)
Lemma compute_err_cor_quotient (images y_hat : tensor float) (B T N Q P : nat) :
  documented_shapes images y_hat B T N Q P →
  ∃ err sd f,
    compute_err "cor" images y_hat = inr err ∧
    reduce_last fstd false y_hat = inr sd ∧
    tensor_is err [B; T; Q] f ∧
    ∀ b t q, b < B → t < T → q < Q →
      ∃ s z, tensor_get sd [bfix N b; 0; q] = Some z ∧ f [b; t; q] = (s / z)%float.
Proof.
  intros (Hwf & Hs & Hywf & Hys & HN).
  pose proof (tensor_is_entry 0%float images Hwf) as Hi. rewrite Hs in Hi.
  pose proof (tensor_is_entry 0%float y_hat Hywf) as Hy. rewrite Hys in Hy.
  destruct (compute_err_cor_is _ _ B T N Q P _ _ Hi Hy HN) as (err & Herr & He).
  destruct (reduce_last_is fstd _ [N; 1; Q] P _ Hy) as (sd & Hsd & Hsdi).
  eexists err, sd, _. split_and!; [done..|].
  intros b t q Hb Ht Hq. eexists _, _. split.
  - apply (tensor_is_get _ _ _ _ Hsdi).
    apply valid_index3; [by apply (bfix_batch B)|lia|done].
  - done.
Qed.

Lemma eval_grid_cor_zero_std (images y_hat : tensor float)
    (tilt : option (tensor float * tensor float)) (B T N Q P : nat) :
  documented_shapes images y_hat B T N Q P → tilt_documented tilt B T N Q P →
  ∃ err sd,
    eval_grid "cor" images y_hat tilt = inr err ∧
    reduce_last fstd false y_hat = inr sd ∧
    ∀ b t q, b < B → t < T → q < Q →
      ∃ z v, tensor_get sd [bfix N b; 0; q] = Some z ∧
        tensor_get err [b; t; q] = Some v ∧
        (is_zero z = true → is_finite v = false).
Proof.
  intros Hdoc Htilt.
  destruct (compute_err_cor_quotient images y_hat B T N Q P Hdoc)
    as (e & sd & f & He & Hsd & Hf & Hq).
  unfold eval_grid. rewrite He. cbn [rbind].
  destruct tilt as [[it yt]|].
  - destruct (compute_err_cor_quotient it yt B T N Q P Htilt)
      as (e' & _ & f' & He' & _ & Hf' & _).
    rewrite He'. cbn [rbind].
    destruct (binop_inplace_is fadd e e' _ _ _ Hf Hf') as (r & -> & Hr).
    exists r, sd. split; [done|]. split; [done|]. intros b t q Hb Ht Hq'.
    destruct (Hq b t q Hb Ht Hq') as (s & z & Hz & Hfz).
    eexists z, _. split; [done|].
    split; [by apply (tensor_is_get _ _ _ _ Hr), valid_index3|].
    intros Hzero. cbv beta. rewrite Hfz. apply add_not_finite.
    by apply div_zero_not_finite.
  - exists e, sd. split; [done|]. split; [done|]. intros b t q Hb Ht Hq'.
    destruct (Hq b t q Hb Ht Hq') as (s & z & Hz & Hfz).
    eexists z, _. split; [done|].
    split; [by apply (tensor_is_get _ _ _ _ Hf), valid_index3|].
    intros Hzero. rewrite Hfz. by apply div_zero_not_finite.
Qed.

Lemma rotate_images_zero_std (images rot : tensor float) (lv : lattice_view float)
    (B d1 NQ YX : nat) :
  shape images = [B; d1; NQ; YX] → rotate_images images lv = inr rot →
  ∃ squeezed full,
    view images [B * NQ; YX] = inr squeezed ∧
    scatter_mask (B * NQ) (lat_D lv) (lat_mask lv) squeezed = inr full ∧
    ∀ a coords b q, lat_rot_coords lv !! a = Some coords → b < B → q < NQ →
      ∃ interpolated si z,
        interpolate full coords = inr interpolated ∧
        reduce_last fstd true interpolated = inr si ∧
        tensor_get si [b * NQ + q; 0] = Some z ∧
        (is_zero z = true →
         ∀ p, p < YX →
           ∃ v, tensor_get rot [b; 0; q * length (lat_rot_coords lv) + a; p] = Some v ∧
                is_finite v = false).
Proof.
  intros Hs Hrot.
  destruct (rotate_images_inv images rot lv B d1 NQ YX Hs Hrot)
    as (squeezed & full & per_angle & Hsq & Hfull & Hper & Hget).
  exists squeezed, full. split; [done|]. split; [done|].
  intros a coords b q Ha Hb Hq.
  destruct (Forall2_lookup_l _ _ _ a coords Hper Ha) as (o & Ho & Hone).
  apply view_inv in Hsq as [Hsq Hsqwf].
  assert (shape squeezed = [B * NQ; YX]) as Hss by (by rewrite Hsq).
  destruct (rotate_one_is squeezed full coords o (B * NQ) YX Hsqwf Hss Hone)
    as (itp & si & Hitp & Hsi & Hent).
  assert (b * NQ + q < B * NQ) as Hr by nia.
  destruct (Hent (b * NQ + q) Hr) as (zs & z & Hz & Hv).
  exists itp, si, z. split_and!; [done..|].
  intros Hzero p Hp. rewrite (Hget b q a p o) by done.
  destruct (Hv p Hp) as [x ->].
  eexists. split; [done|]. apply mul_not_finite. by apply div_zero_not_finite.
Qed.

(** C7 (amended).  Neither division is guarded.  On inputs of the
    documented shapes, an entry of the "cor" loss [eval_grid] returns whose
    candidate has the standard deviation zero is an infinity or NaN; and
    where [rotate_images] returns, every pixel of a rotated image whose
    interpolation has the standard deviation zero is an infinity or NaN. *)
Theorem zero_std_propagates :
  (∀ (images y_hat : tensor float) (tilt : option (tensor float * tensor float))
     (B T N Q P : nat),
     documented_shapes images y_hat B T N Q P → tilt_documented tilt B T N Q P →
     ∃ err sd,
       eval_grid "cor" images y_hat tilt = inr err ∧
       reduce_last fstd false y_hat = inr sd ∧
       ∀ b t q, b < B → t < T → q < Q →
         ∃ z v, tensor_get sd [bfix N b; 0; q] = Some z ∧
           tensor_get err [b; t; q] = Some v ∧
           (is_zero z = true → is_finite v = false)) ∧
  (∀ (images rot : tensor float) (lv : lattice_view float) (B d1 NQ YX : nat),
     shape images = [B; d1; NQ; YX] → rotate_images images lv = inr rot →
     ∃ squeezed full,
       view images [B * NQ; YX] = inr squeezed ∧
       scatter_mask (B * NQ) (lat_D lv) (lat_mask lv) squeezed = inr full ∧
       ∀ a coords b q, lat_rot_coords lv !! a = Some coords → b < B → q < NQ →
         ∃ interpolated si z,
           interpolate full coords = inr interpolated ∧
           reduce_last fstd true interpolated = inr si ∧
           tensor_get si [b * NQ + q; 0] = Some z ∧
           (is_zero z = true →
            ∀ p, p < YX →
              ∃ v, tensor_get rot [b; 0; q * length (lat_rot_coords lv) + a; p] = Some v ∧
                   is_finite v = false)).
Proof.
  split.
  - intros images y_hat tilt B T N Q P Hdoc Htilt.
    by apply (eval_grid_cor_zero_std images y_hat tilt B T N Q P).
  - intros images rot lv B d1 NQ YX Hs Hrot.
    by apply (rotate_images_zero_std images rot lv B d1 NQ YX).
Qed.

(* ================================================================= *)
(** ** The pruner on any batch size that divides the tensor *)

Lemma list_comp_raises {X Y} (f : X → result Y) (x : X) (l : list X) e :
  f x = inl e → list_comp f (x :: l) = inl e.
Proof. intros Hx. cbn. by rewrite Hx. Qed.

Section keep_matrix_rows.
Context {A : Type} (leb : A → A → bool).
Hypothesis leb_total : ∀ x y, leb x y = true ∨ leb y x = true.
Hypothesis leb_trans : ∀ x y z, leb x y = true → leb y z = true → leb x z = true.

Context (loss : tensor A) (B M k : nat).
Hypothesis Hwf : wf_tensor loss.
Hypothesis Hlen : length (data loss) = B * M.
Hypothesis HB : 0 < B.
Hypothesis Hk : k ≤ M.

Lemma rows_numel : numel (shape loss) = B * M.
Proof using Hwf Hlen. unfold wf_tensor in Hwf. by rewrite <-Hwf. Qed.

(** The pruner returns the un-flattened flat indices. *)
Lemma keep_matrix_rows :
  keep_matrix leb loss B k
  = inr (axes (shape loss) (flat_of leb k M (rows_of loss B M))).
Proof using leb_total leb_trans Hwf Hlen HB Hk.
  rewrite (keep_matrix_unfold leb loss B M k) by done.
  pose proof (flat_of_bound leb leb_total leb_trans loss B _ k Hlen Hk) as Hbound.
  rewrite unravel_axes; last first.
  { destruct (flat_of leb k _ (rows_of loss B _)) as [|f ?]; [by right|left].
    apply Forall_cons in Hbound as [Hf _]. rewrite rows_numel. lia. }
  cbn [rbind]. rewrite rows_numel.
  replace (forallb _ _) with true; [done|].
  symmetry. apply forallb_Forall_true, Forall_fmap, Forall_impl with (1 := Hbound).
  intros f Hf. cbn. rewrite Nat.div_small by done. done.
Qed.

(** The flat indices are pairwise distinct. *)
Lemma flat_of_NoDup : NoDup (flat_of leb k M (rows_of loss B M)).
Proof using leb_total leb_trans Hlen HB Hk.
  apply NoDup_alt. intros p p' f Hp Hp'.
  destruct (flat_of_elem leb leb_total leb_trans _ _ _ _ _ _ Hlen Hk Hp)
    as (i & j & x & -> & Hi & Hj & Hf & Hx & Hxj).
  destruct (flat_of_elem leb leb_total leb_trans _ _ _ _ _ _ Hlen Hk Hp')
    as (i' & j' & x' & -> & Hi' & Hj' & Hf' & Hx' & Hxj').
  assert (i = i') as <- by nia.
  assert (x = x') as <- by lia.
  assert (k ≤ length (image_row loss M i)) as Hk'.
  { by rewrite (image_row_length loss B). }
  destruct (topk_spec leb leb_total leb_trans k _ Hk')
    as (vals & idxs & Htop & _ & _ & _ & Hnd & _).
  rewrite topk_top_of in Htop by done. injection Htop as _ <-.
  by rewrite (NoDup_lookup _ _ _ _ Hnd Hxj Hxj').
Qed.

(** Column [c] of the index arrays is the multi-index of a flat position
    of its own. *)
Lemma rows_column c :
  c < B * k →
  ∃ f idx, flat_of leb k M (rows_of loss B M) !! c = Some f ∧
    mapM (λ a : list nat, a !! c) (axes (shape loss) (flat_of leb k M (rows_of loss B M)))
    = Some idx ∧
    ravel (shape loss) idx = Some f.
Proof using leb_total leb_trans Hwf Hlen Hk.
  intros Hc.
  assert (is_Some (flat_of leb k M (rows_of loss B M) !! c)) as [f Hf].
  { apply lookup_lt_is_Some. by rewrite flat_of_length. }
  exists f, (digits (shape loss) f). split; [done|]. split; [by apply axes_column|].
  apply ravel_digits. rewrite rows_numel.
  by apply (Forall_lookup_1 _ _ _ _ (flat_of_bound leb leb_total leb_trans loss B M k Hlen Hk) Hf).
Qed.

End keep_matrix_rows.

Section keep_matrix_any_batch.
Context {A : Type} (leb : A → A → bool).
Hypothesis leb_total : ∀ x y, leb x y = true ∨ leb y x = true.
Hypothesis leb_trans : ∀ x y z, leb x y = true → leb y z = true → leb x z = true.

Lemma keep_matrix_fails (loss : tensor A) (B k : nat) :
  ¬ (0 < B ∧ length (data loss) mod B = 0 ∧ B * k ≤ length (data loss)) →
  ∃ msg, keep_matrix leb loss B k = inl (RuntimeError msg).
Proof.
  intros Hnot. unfold keep_matrix, view_rows. cbv zeta.
  case_decide as HB0; [by eexists|].
  case_decide as Hdiv; [|by eexists].
  set (n := length (data loss)) in *. set (M := n / B).
  assert (n = B * M) as Hn.
  { pose proof (Nat.div_mod_eq n B). unfold M. lia. }
  assert (M < k) as Hk by (destruct (decide (M < k)); [done|]; exfalso; apply Hnot; nia).
  destruct B as [|B']; [done|]. cbn [seq fmap list_fmap]. unfold ret. cbn [rbind].
  rewrite (list_comp_raises _ _ _ (RuntimeError "selected index k out of range")).
  { by eexists. }
  unfold topk. rewrite decide_False; [done|].
  rewrite length_take, length_drop. fold n. nia.
Qed.

Lemma keep_matrix_succeeds (loss : tensor A) (B k : nat) :
  wf_tensor loss →
  0 < B → length (data loss) mod B = 0 → B * k ≤ length (data loss) →
  let M := length (data loss) / B in
  length (data loss) = B * M ∧ k ≤ M ∧
  keep_matrix leb loss B k = inr (axes (shape loss) (flat_of leb k M (rows_of loss B M))).
Proof using leb_total leb_trans.
  intros Hwf HB Hdiv Hk M.
  assert (length (data loss) = B * M) as Hlen.
  { pose proof (Nat.div_mod_eq (length (data loss)) B). unfold M. lia. }
  assert (k ≤ M) as HkM by nia.
  split; [done|]. split; [done|]. by apply keep_matrix_rows.
Qed.

(** X1.  On a well-formed loss tensor [keep_matrix] returns exactly when
    the batch size is positive, divides the number of elements, and every
    image has at least max_poses candidates; it then returns one index
    array per axis, each of length B * max_poses.  Every other call raises
    a RuntimeError: the final assertion never fails. *)
Theorem keep_matrix_returns_iff (loss : tensor A) (B max_poses : nat) :
  wf_tensor loss →
  ((∃ keep_idx, keep_matrix leb loss B max_poses = inr keep_idx)
     ↔ 0 < B ∧ numel (shape loss) mod B = 0 ∧ B * max_poses ≤ numel (shape loss)) ∧
  (∀ keep_idx, keep_matrix leb loss B max_poses = inr keep_idx →
     length keep_idx = length (shape loss) ∧
     Forall (λ a, length a = B * max_poses) keep_idx) ∧
  (∀ e, keep_matrix leb loss B max_poses = inl e → ∃ msg, e = RuntimeError msg).
Proof using leb_total leb_trans.
  intros Hwf. pose proof Hwf as Hn. unfold wf_tensor in Hn. rewrite <-Hn.
  destruct (decide (0 < B ∧ length (data loss) mod B = 0
                    ∧ B * max_poses ≤ length (data loss))) as [Hok|Hnot].
  - destruct Hok as (HB & Hdiv & Hk).
    destruct (keep_matrix_succeeds loss B max_poses Hwf HB Hdiv Hk) as (Hlen & HkM & ->).
    split_and!.
    + split; [done|]. intros _. by eexists.
    + intros keep_idx [= <-]. split; [apply length_axes|].
      apply Forall_lookup. intros d a (n & _ & ->)%axes_lookup.
      rewrite length_fmap. by apply flat_of_length.
    + intros e [=].
  - destruct (keep_matrix_fails loss B max_poses Hnot) as [msg ->].
    split_and!.
    + split; [by intros [? [=]]|done].
    + intros keep_idx [=].
    + intros e [= <-]. by eexists.
Qed.

(** X2.  The multi-indices [keep_matrix] returns are pairwise distinct: no
    candidate is kept twice. *)
Theorem keep_matrix_distinct (loss : tensor A) (B max_poses : nat) keep_idx c c' :
  wf_tensor loss →
  keep_matrix leb loss B max_poses = inr keep_idx →
  c < B * max_poses → c' < B * max_poses → c ≠ c' →
  ∃ idx idx',
    mapM (λ a : list nat, a !! c) keep_idx = Some idx ∧
    mapM (λ a : list nat, a !! c') keep_idx = Some idx' ∧
    idx ≠ idx'.
Proof using leb_total leb_trans.
  intros Hwf Hkeep Hc Hc' Hne.
  destruct (decide (0 < B ∧ length (data loss) mod B = 0
                    ∧ B * max_poses ≤ length (data loss))) as [(HB & Hdiv & Hk)|Hnot];
    last first.
  { destruct (keep_matrix_fails loss B max_poses Hnot) as [msg Hf]. congruence. }
  destruct (keep_matrix_succeeds loss B max_poses Hwf HB Hdiv Hk) as (Hlen & HkM & Heq).
  rewrite Heq in Hkeep. injection Hkeep as <-.
  destruct (rows_column leb leb_total leb_trans loss B _ max_poses Hwf Hlen HkM c Hc)
    as (f & i1 & Hf & Hi1 & Hr1).
  destruct (rows_column leb leb_total leb_trans loss B _ max_poses Hwf Hlen HkM c' Hc')
    as (f' & i2 & Hf' & Hi2 & Hr2).
  exists i1, i2. split; [done|]. split; [done|]. intros <-.
  assert (f = f') as <- by congruence.
  pose proof (flat_of_NoDup leb leb_total leb_trans loss B _ max_poses Hlen HB HkM) as Hnd.
  apply Hne. by apply (NoDup_lookup _ _ _ _ Hnd Hf Hf').
Qed.

End keep_matrix_any_batch.

(* ================================================================= *)
(** ** The pruner inside the loop: several candidate rows per image *)

Lemma repeat_each_lookup (k : nat) (l : list nat) i j x :
  l !! i = Some x → j < k → repeat_each k l !! (i * k + j) = Some x.
Proof.
  intros Hi Hj. unfold repeat_each.
  apply (join_lookup_Some_same_length' k); [|done|].
  - apply Forall_fmap, Forall_forall. intros y _. cbn. apply length_replicate.
  - exists (replicate k x). split; [by rewrite list_lookup_fmap, Hi|].
    by apply lookup_replicate_2.
Qed.

Lemma length_repeat_each (k : nat) (l : list nat) : length (repeat_each k l) = length l * k.
Proof.
  unfold repeat_each. rewrite length_join, (sum_list_fmap_same k).
  - by rewrite length_fmap.
  - apply Forall_fmap, Forall_forall. intros y _. cbn. apply length_replicate.
Qed.

Section keep_matrix_in_loop.
Context {A : Type} (leb : A → A → bool).
Hypothesis leb_total : ∀ x y, leb x y = true ∨ leb y x = true.
Hypothesis leb_trans : ∀ x y z, leb x y = true → leb y z = true → leb x z = true.

Context (loss : tensor A) (B K : nat) (rest : list nat) (k : nat).
Hypothesis Hwf : wf_tensor loss.
Hypothesis Hshape : shape loss = (B * K) :: rest.
Hypothesis HB : 0 < B.
Hypothesis Hk : k ≤ K * numel rest.

Lemma loop_loss_length : length (data loss) = B * (K * numel rest).
Proof using Hwf Hshape.
  clear HB Hk. unfold wf_tensor in Hwf. rewrite Hwf, Hshape, numel_cons. lia.
Qed.

(** The first-axis index of the j-th kept candidate of image i. *)
Lemma loop_batch_index i j :
  i < B → j < k →
  ∃ a0 r, axes (shape loss) (flat_of leb k (K * numel rest) (rows_of loss B (K * numel rest)))
            !! 0 = Some a0 ∧
    a0 !! (i * k + j) = Some r ∧ i * K ≤ r < (i + 1) * K.
Proof using leb_total leb_trans Hwf Hshape HB Hk.
  intros Hi Hj. pose proof loop_loss_length as Hlen. set (M := K * numel rest) in *.
  rewrite Hshape. cbn [axes].
  assert (k ≤ length (image_row loss M i)) as Hk'.
  { by rewrite (image_row_length loss B). }
  assert (is_Some ((top_of leb k (image_row loss M i)).2 !! j)) as [x Hx].
  { apply lookup_lt_is_Some. by rewrite top_of_idx_length. }
  assert (x < M) as HxM.
  { apply (top_of_idx_bound leb leb_total leb_trans) in Hx; [|done].
    by rewrite (image_row_length loss B) in Hx. }
  eexists _, _. split; [done|]. rewrite list_lookup_fmap.
  rewrite (flat_of_lookup leb leb_total leb_trans loss B M k i j x) by done.
  cbn. split; [reflexivity|].
  assert (0 < numel rest) as Hr by (unfold M in HxM; nia).
  assert ((x + i * M) / numel rest = x / numel rest + i * K) as ->.
  { unfold M. replace (i * (K * numel rest)) with (i * K * numel rest) by lia.
    by rewrite Nat.div_add by lia. }
  assert (x / numel rest < K) as Hq.
  { apply Nat.Div0.div_lt_upper_bound. unfold M in HxM. lia. }
  rewrite Nat.mod_small by nia. lia.
Qed.

End keep_matrix_in_loop.

Section keep_matrix_gather.
Context {A : Type} (leb : A → A → bool).
Hypothesis leb_total : ∀ x y, leb x y = true ∨ leb y x = true.
Hypothesis leb_trans : ∀ x y z, leb x y = true → leb y z = true → leb x z = true.

(** Gathering at the returned multi-indices gives, image by image, the k
    smallest values of the image's part of the flattened tensor. *)
Lemma rows_gather (loss : tensor A) (B M k i : nat) :
  wf_tensor loss → length (data loss) = B * M → k ≤ M → i < B →
  ∃ vals, length vals = k ∧
    (∀ j, j < k →
       gather loss (axes (shape loss) (flat_of leb k M (rows_of loss B M))) (i * k + j)
       = vals !! j) ∧
    k_smallest leb vals (image_row loss M i).
Proof using leb_total leb_trans.
  intros Hwf Hlen Hk Hi.
  pose proof (image_row_length loss B M i Hlen Hi) as Hrowlen.
  assert (k ≤ length (image_row loss M i)) as Hk' by by rewrite Hrowlen.
  destruct (topk_spec leb leb_total leb_trans k _ Hk')
    as (vals & idxs & Htop & Hlv & Hli & HF & _ & Hsmall).
  rewrite (topk_top_of leb) in Htop by done.
  exists vals. split; [done|]. split; [|done].
  intros j Hj.
  assert (j < length idxs) as Hlt by lia.
  apply lookup_lt_is_Some in Hlt as [x Hx].
  destruct (Forall2_lookup_l _ _ _ _ _ HF Hx) as (v & Hv & Hrow).
  rewrite Hv. unfold gather.
  assert ((top_of leb k (image_row loss M i)).2 !! j = Some x) as Hx'.
  { injection Htop as _ <-. done. }
  rewrite (axes_column _ _ _ (x + i * M)); last first.
  { by apply (flat_of_lookup leb leb_total leb_trans loss B M k i j x). }
  cbn. unfold tensor_get.
  assert (x < M) as HxM.
  { apply lookup_lt_Some in Hrow. by rewrite Hrowlen in Hrow. }
  rewrite ravel_digits by (rewrite (rows_numel loss B M) by done; nia). cbn.
  unfold image_row in Hrow. rewrite lookup_take_lt, lookup_drop in Hrow by done.
  by rewrite Nat.add_comm.
Qed.

(** The kept candidates of image i come from the rows of image i. *)
Lemma loop_keep (loss : tensor A) (B K : nat) (rest : list nat) (max_poses : nat) :
  wf_tensor loss → shape loss = (B * K) :: rest → 0 < B →
  max_poses ≤ K * numel rest →
  ∃ keepBN others,
    axes (shape loss)
         (flat_of leb max_poses (K * numel rest) (rows_of loss B (K * numel rest)))
      = keepBN :: others ∧
    keep_matrix leb loss B max_poses = inr (keepBN :: others) ∧
    length keepBN = B * max_poses ∧
    (∀ i j, i < B → j < max_poses →
       ∃ r, keepBN !! (i * max_poses + j) = Some r ∧ i * K ≤ r < (i + 1) * K) ∧
    rescale_batch keepBN B (B * K) = inr (repeat_each max_poses (seq 0 B)).
Proof using leb_total leb_trans.
  intros Hwf Hshape HB Hk.
  pose proof (loop_loss_length loss B K rest Hwf Hshape) as Hlen.
  rewrite (keep_matrix_rows leb leb_total leb_trans loss B _ max_poses Hwf Hlen HB Hk).
  set (flat := flat_of leb max_poses _ _).
  assert (∃ keepBN others, axes (shape loss) flat = keepBN :: others) as (keepBN & others & Hax).
  { rewrite Hshape. cbn [axes]. eauto. }
  assert (length keepBN = B * max_poses) as HlenBN.
  { assert (axes (shape loss) flat !! 0 = Some keepBN) as Ha by by rewrite Hax.
    apply axes_lookup in Ha as (n & _ & ->). rewrite length_fmap.
    by apply flat_of_length. }
  assert (∀ i j, i < B → j < max_poses →
            ∃ r, keepBN !! (i * max_poses + j) = Some r ∧ i * K ≤ r < (i + 1) * K) as Hblock.
  { intros i j Hi Hj.
    destruct (loop_batch_index leb leb_total leb_trans loss B K rest max_poses
                Hwf Hshape HB Hk i j Hi Hj) as (a0 & r & Ha0 & Hr & Hrange).
    fold flat in Ha0. rewrite Hax in Ha0. injection Ha0 as <-. eauto. }
  exists keepBN, others. rewrite Hax. split_and!; [done..|].
  unfold rescale_batch. rewrite decide_False; last first.
  { intros [HBK Hne]. apply Hne. apply length_zero_iff_nil. nia. }
  unfold ret. f_equal. apply list_eq. intros p.
  destruct (decide (p < B * max_poses)) as [Hp|Hp]; last first.
  { rewrite !lookup_ge_None_2; [done| |].
    - rewrite length_repeat_each, length_seq. lia.
    - rewrite length_fmap. lia. }
  assert (0 < max_poses) as Hpos by nia.
  assert (0 < K) as HK by nia.
  pose proof (Nat.div_mod_eq p max_poses) as Hdm.
  assert (p mod max_poses < max_poses) as Hm by (apply Nat.mod_upper_bound; lia).
  assert (p / max_poses < B) as Hd by (apply Nat.Div0.div_lt_upper_bound; lia).
  replace p with (p / max_poses * max_poses + p mod max_poses) by lia.
  destruct (Hblock _ _ Hd Hm) as (r & Hr & Hlo & Hhi).
  rewrite list_lookup_fmap, Hr. cbn.
  rewrite (repeat_each_lookup _ _ _ _ (p / max_poses)); [|by apply lookup_seq_lt|done].
  f_equal. rewrite (Nat.mul_comm r B), Nat.Div0.div_mul_cancel_l by lia.
  set (q := p / max_poses) in *.
  clearbody q. symmetry. apply Nat.div_unique with (r - q * K); nia.
Qed.

(** X3.  Inside the loop the loss has K candidate rows per image (shape
    (B*K) x ...) and the pruner is still called with the batch size B: the
    kept candidates of image i then come from rows i*K .. i*K + K - 1, so
    that [keepBN * B // loss.shape[0]] is the image index of every kept
    candidate, and gathering gives the max_poses smallest values among
    all rows of the image. *)
Theorem keep_matrix_in_loop (loss : tensor A) (B K : nat) (rest : list nat)
    (max_poses : nat) :
  wf_tensor loss → shape loss = (B * K) :: rest → 0 < B →
  max_poses ≤ K * numel rest →
  ∃ keepBN others,
    keep_matrix leb loss B max_poses = inr (keepBN :: others) ∧
    length keepBN = B * max_poses ∧
    (∀ i j, i < B → j < max_poses →
       ∃ r, keepBN !! (i * max_poses + j) = Some r ∧ i * K ≤ r < (i + 1) * K) ∧
    rescale_batch keepBN B (B * K) = inr (repeat_each max_poses (seq 0 B)) ∧
    (∀ i, i < B →
       ∃ vals, length vals = max_poses ∧
         (∀ j, j < max_poses →
            gather loss (keepBN :: others) (i * max_poses + j) = vals !! j) ∧
         k_smallest leb vals
           (take (K * numel rest) (drop (i * (K * numel rest)) (data loss)))).
Proof using leb_total leb_trans.
  intros Hwf Hshape HB Hk.
  destruct (loop_keep loss B K rest max_poses Hwf Hshape HB Hk)
    as (keepBN & others & Hax & Hkeep & Hlen & Hblock & Hresc).
  exists keepBN, others. split_and!; [done..|].
  intros i Hi. rewrite <-Hax.
  apply (rows_gather loss B (K * numel rest) max_poses i); try done.
  by apply loop_loss_length.
Qed.

End keep_matrix_gather.

(* ================================================================= *)
(** ** The un-flattening loop *)

Lemma unravel_zero_extent (s : list nat) (flat : list nat) :
  numel s = 0 → flat ≠ [] → unravel s flat = inl (RuntimeError "ZeroDivisionError").
Proof.
  induction s as [|n s IH]; intros Hz Hne; [done|].
  cbn [unravel foldr]. fold (unravel s flat).
  destruct (decide (numel s = 0)) as [Hs|Hs].
  { by rewrite IH. }
  rewrite unravel_axes by (left; lia). cbn [unravel_step rbind].
  rewrite numel_cons in Hz. rewrite decide_True; [done|].
  split; [nia|]. by destruct flat.
Qed.

(** X4.  The un-flattening loop of [keep_matrix] inverts flattening: for
    extents that are all positive it returns, for every flat index f, the
    multi-index whose row-major offset is f modulo the number of elements,
    and leaves f divided by that number; so the final assertion holds
    exactly when every flat index is in range.  With an extent 0 and at
    least one index the loop stops with a ZeroDivisionError. *)
Theorem unravel_round_trip (s : list nat) (flat : list nat) :
  (0 < numel s →
   ∃ keep_idx left,
     unravel s flat = inr (keep_idx, left) ∧
     (∀ j f, flat !! j = Some f →
        ∃ idx, mapM (λ a : list nat, a !! j) keep_idx = Some idx ∧
          ravel s idx = Some (f mod numel s) ∧
          left !! j = Some (f / numel s)) ∧
     (forallb (λ f, f =? 0) left = true ↔ Forall (λ f, f < numel s) flat)) ∧
  (numel s = 0 → flat ≠ [] →
   unravel s flat = inl (RuntimeError "ZeroDivisionError")).
Proof.
  split; [|apply unravel_zero_extent].
  intros Hpos. rewrite unravel_axes by by left.
  eexists _, _. split; [done|]. split.
  - intros j f Hj. exists (digits s f). split; [by apply axes_column|]. split.
    + rewrite <-digits_mod by done. apply ravel_digits.
      apply Nat.mod_upper_bound. lia.
    + by rewrite list_lookup_fmap, Hj.
  - rewrite forallb_forall, Forall_forall. split.
    + intros Hall f Hf.
      assert ((f / numel s =? 0) = true) as Hq.
      { apply Hall. apply list_elem_of_In, list_elem_of_fmap. eauto. }
      apply Nat.eqb_eq in Hq. apply Nat.div_small_iff in Hq; lia.
    + intros Hall q Hq. apply list_elem_of_In, list_elem_of_fmap in Hq as (f & -> & Hf).
      apply Nat.eqb_eq, Nat.div_small. by apply Hall.
Qed.

(* ================================================================= *)
(** ** The resolution schedule, level by level *)

(** X5.  From one level to the next the frequency radius doubles until
    it reaches Lmax, and once at Lmax it stays there. *)
Theorem getL_doubles (Lmin Lmax i niter niter' : Z) :
  (0 ≤ i)%Z → (0 ≤ Lmax)%Z →
  getL Lmin Lmax (i + 1) niter' = Z.min (2 * getL Lmin Lmax i niter) Lmax ∧
  (getL Lmin Lmax i niter = Lmax → getL Lmin Lmax (i + 1) niter' = Lmax).
Proof.
  intros Hi HL. unfold getL. rewrite Z.pow_add_r by lia.
  change (2 ^ 1)%Z with 2%Z. set (x := (Lmin * 2 ^ i)%Z).
  replace (Lmin * (2 ^ i * 2))%Z with (2 * x)%Z by (unfold x; lia).
  lia.
Qed.

(* ================================================================= *)
(** ** The memo tables only grow *)

Section grown_facts.
Context {F : Type} `{Collaborators F} (self : PoseSearch F).

Lemma grown_refl (st : state F) : grown st st.
Proof. by split_and!. Qed.

Lemma grown_trans (st1 st2 st3 : state F) :
  grown st1 st2 → grown st2 st3 → grown st1 st3.
Proof.
  intros (Ha & Hb & Hc & Hd) (Ha' & Hb' & Hc' & Hd'). split_and!.
  - by etrans.
  - by etrans.
  - congruence.
  - congruence.
Qed.

Lemma get_neighbor_so3_state quat s2i s1i res (st : state F) :
  let st' := (get_neighbor_so3 quat s2i s1i res st).2 in
  grown st st' ∧
  dom (so3_neighbor_cache st') = dom (so3_neighbor_cache st) ∪ {[ (s2i, s1i, res) ]} ∧
  shift_neighbor_cache st' = shift_neighbor_cache st.
Proof.
  cbn zeta.
  destruct (so3_neighbor_cache st !! (s2i, s1i, res)) as [v|] eqn:Hc.
  - rewrite (get_neighbor_so3_hit _ _ _ _ _ _ Hc). cbn [snd].
    split; [apply grown_refl|]. split; [|done].
    apply elem_of_dom_2 in Hc. apply set_eq. intros k.
    rewrite elem_of_union, elem_of_singleton. split; [by left|by intros [?| ->]].
  - rewrite get_neighbor_so3_miss by done. cbn [snd so3_neighbor_cache shift_neighbor_cache].
    split; [|split; [|done]].
    + split_and!; try done. by apply insert_subseteq.
    + by rewrite dom_insert_L, union_comm_L.
Qed.

Lemma get_neighbor_shift_state x y res (st : state F) :
  let st' := (get_neighbor_shift self x y res st).2 in
  grown st st' ∧
  dom (shift_neighbor_cache st') = dom (shift_neighbor_cache st) ∪ {[ (x, y, res) ]} ∧
  so3_neighbor_cache st' = so3_neighbor_cache st.
Proof.
  cbn zeta.
  destruct (shift_neighbor_cache st !! (x, y, res)) as [v|] eqn:Hc.
  - rewrite (get_neighbor_shift_hit _ _ _ _ _ _ Hc). cbn [snd].
    split; [apply grown_refl|]. split; [|done].
    apply elem_of_dom_2 in Hc. apply set_eq. intros k.
    rewrite elem_of_union, elem_of_singleton. split; [by left|by intros [?| ->]].
  - rewrite (get_neighbor_shift_miss self x y res st) by done.
    cbn [snd so3_neighbor_cache shift_neighbor_cache].
    split; [|split; [|done]].
    + split_and!; try done. by apply insert_subseteq.
    + by rewrite dom_insert_L, union_comm_L.
Qed.

Lemma so3_keys_cons (c : call F) calls :
  so3_keys (c :: calls)
  = match c with
    | CallSo3 _ s2i s1i res => {[ (s2i, s1i, res) ]} ∪ so3_keys calls
    | CallShift _ _ _ => so3_keys calls
    end.
Proof. by destruct c. Qed.

Lemma shift_keys_cons (c : call F) calls :
  shift_keys (c :: calls)
  = match c with
    | CallSo3 _ _ _ _ => shift_keys calls
    | CallShift x y res => {[ (x, y, res) ]} ∪ shift_keys calls
    end.
Proof. by destruct c. Qed.

(** X6.  Whatever queries are made in whatever state, the memo tables
    only grow: no entry is dropped or overwritten, after the calls each
    table holds exactly the keys it held before and the keys queried, a
    rotation query never touches the translation table nor a translation
    query the rotation table, and neither touches the model's mode or the
    scorer. *)
Theorem memo_tables_grow (calls : list (call F)) (st : state F) :
  let st' := run_calls self calls st in
  grown st st' ∧
  dom (so3_neighbor_cache st') = dom (so3_neighbor_cache st) ∪ so3_keys calls ∧
  dom (shift_neighbor_cache st') = dom (shift_neighbor_cache st) ∪ shift_keys calls.
Proof.
  cbn zeta. revert st. induction calls as [|c calls IH]; intros st.
  { cbn. split; [apply grown_refl|]. unfold so3_keys, shift_keys. cbn.
    by rewrite !(right_id_L ∅ (∪)). }
  cbn [run_calls foldl]. fold (run_calls self calls (do_call self st c)).
  destruct (IH (do_call self st c)) as (Hg & Hd1 & Hd2).
  rewrite Hd1, Hd2, so3_keys_cons, shift_keys_cons.
  destruct c as [quat s2i s1i res|x y res]; cbn [do_call].
  - destruct (get_neighbor_so3_state quat s2i s1i res st) as (Hg0 & Hdom & Hsh).
    cbn zeta in *. split; [by eapply grown_trans|]. rewrite Hdom, Hsh.
    by rewrite (assoc_L (∪)).
  - destruct (get_neighbor_shift_state x y res st) as (Hg0 & Hdom & Hso).
    cbn zeta in *. split; [by eapply grown_trans|]. rewrite Hdom, Hso.
    by rewrite (assoc_L (∪)).
Qed.

End grown_facts.

(* ================================================================= *)
(** ** [subdivide] is replayed from the memo tables *)

Section replay.
Context {F : Type} `{Collaborators F} (self : PoseSearch F).

Lemma replays_lift {A} (r : result A) : replays (F := F) (lift r).
Proof.
  intros st a st1 Hr. unfold lift in *. injection Hr as -> <-.
  split; [apply grown_refl|done].
Qed.

Lemma replays_ret {A} (a : A) : replays (F := F) (mret a).
Proof. intros st a' st1 [= <- <-]. split; [apply grown_refl|done]. Qed.

Lemma replays_bind {A B} (m : M F A) (k : A → M F B) :
  replays m → (∀ a, replays (k a)) → replays (mbind m k).
Proof.
  intros Hm Hk st b st1 (a & st' & Hma & Hkb)%mbind_inv.
  destruct (Hm _ _ _ Hma) as [Hg1 Hr1]. destruct (Hk a _ _ _ Hkb) as [Hg2 Hr2].
  split; [by eapply grown_trans|]. intros st2 Hg.
  unfold mbind. rewrite Hr1 by (by eapply grown_trans). by apply Hr2.
Qed.

Lemma replays_list_compM {X Y} (f : X → M F Y) (l : list X) :
  (∀ x, replays (f x)) → replays (list_compM f l).
Proof.
  intros Hf. induction l as [|x l IH]; cbn; [apply replays_ret|].
  apply replays_bind; [done|]. intros y.
  apply replays_bind; [done|]. intros ys. apply replays_ret.
Qed.

Lemma replays_so3 quat s2i s1i res : replays (get_neighbor_so3 quat s2i s1i res).
Proof.
  intros st v st1 Hrun.
  pose proof (get_neighbor_so3_state quat s2i s1i res st) as (Hg & _ & _).
  cbn zeta in Hg. rewrite Hrun in Hg. cbn [snd] in Hg. split; [done|].
  intros st2 (Hso & _). apply get_neighbor_so3_hit.
  apply (lookup_weaken (so3_neighbor_cache st1)); [|done].
  destruct (so3_neighbor_cache st !! (s2i, s1i, res)) as [v'|] eqn:Hc.
  - rewrite (get_neighbor_so3_hit _ _ _ _ _ _ Hc) in Hrun. by injection Hrun as <- <-.
  - rewrite get_neighbor_so3_miss in Hrun by done. injection Hrun as <- <-.
    cbn. by rewrite lookup_insert_eq.
Qed.

Lemma replays_shift x y res : replays (get_neighbor_shift self x y res).
Proof.
  intros st v st1 Hrun.
  pose proof (get_neighbor_shift_state self x y res st) as (Hg & _ & _).
  cbn zeta in Hg. rewrite Hrun in Hg. cbn [snd] in Hg. split; [done|].
  intros st2 (_ & Hsh & _). apply get_neighbor_shift_hit.
  apply (lookup_weaken (shift_neighbor_cache st1)); [|done].
  destruct (shift_neighbor_cache st !! (x, y, res)) as [v'|] eqn:Hc.
  - rewrite (get_neighbor_shift_hit _ _ _ _ _ _ Hc) in Hrun. by injection Hrun as <- <-.
  - rewrite (get_neighbor_shift_miss self x y res st) in Hrun by done.
    injection Hrun as <- <-. cbn. by rewrite lookup_insert_eq.
Qed.

Ltac replays_tac :=
  repeat first
    [ apply replays_ret | apply replays_lift | apply replays_so3 | apply replays_shift
    | apply replays_list_compM; intros ?
    | apply replays_bind; [|intros ?]
    | match goal with |- replays (let '(_, _) := ?x in _) => destruct x end ].

Lemma replays_subdivide quat q_ind t_ind cur_res :
  replays (subdivide self quat q_ind t_ind cur_res).
Proof. unfold subdivide. replays_tac. Qed.

(** X7.  Once [subdivide] has returned for a candidate set, the memo
    tables hold all it needs: they have only grown, and every later call
    with the same arguments, whatever else was cached in between, returns
    the same arrays and leaves the tables as they are. *)
Theorem subdivide_replayed (quat : tensor F) (q_ind t_ind : tensor Z) (cur_res : Z)
    (st st1 : state F) r :
  subdivide self quat q_ind t_ind cur_res st = (inr r, st1) →
  grown st st1 ∧
  ∀ st2, grown st1 st2 → subdivide self quat q_ind t_ind cur_res st2 = (inr r, st2).
Proof. apply replays_subdivide. Qed.

(** X8.  [subdivide] checks the shapes of its arguments before it makes
    any query: a quaternion array without axes raises IndexError, and
    arguments that are not N x 4, N x 2 and N x 2 for one N fail the
    assertions, in both cases with the memo tables untouched. *)
Theorem subdivide_rejects_malformed (quat : tensor F) (q_ind t_ind : tensor Z)
    (cur_res : Z) (st : state F) :
  (shape quat = [] →
   subdivide self quat q_ind t_ind cur_res st = (inl IndexError, st)) ∧
  (∀ N s, shape quat = N :: s →
     ¬ (s = [4] ∧ shape q_ind = [N; 2] ∧ shape t_ind = [N; 2]) →
     subdivide self quat q_ind t_ind cur_res st = (inl AssertionError, st)).
Proof.
  split.
  - intros Hs. unfold subdivide, mbind, lift, shape0. by rewrite Hs.
  - intros N s Hs Hnot. unfold subdivide, mbind, lift, shape0, shape_eqb. rewrite Hs.
    cbn [ret]. destruct (decide (s = [4])) as [->|Hs4]; last first.
    { rewrite bool_decide_eq_false_2; [done|]. congruence. }
    rewrite bool_decide_eq_true_2 by done. cbn [assert_ ret].
    destruct (decide (shape q_ind = [N; 2])) as [Hq|Hq]; last first.
    { by rewrite bool_decide_eq_false_2. }
    rewrite bool_decide_eq_true_2 by done. cbn [assert_ ret].
    rewrite bool_decide_eq_false_2; [done|]. intros Ht. by apply Hnot.
Qed.

End replay.

(* ================================================================= *)
(** ** The driver, step by step *)

Ltac inv_lift H x Hx :=
  let st := fresh "st" in
  apply mbind_inv in H as (x & st & Hx & H); apply lift_inv in Hx as [Hx ->].

Section driver_steps.
Context {F : Type} `{Collaborators F} (leb : F → F → bool) (self : PoseSearch F).

Lemma assert_not_training_inv (st st' : state F) u :
  assert_not_training st = (inr u, st') → training st = false ∧ st' = st.
Proof.
  unfold assert_not_training. intros [= Ha ->]. split; [|done].
  by destruct (training st').
Qed.

Lemma eval_grid_call_inv req (st st' : state F) loss :
  eval_grid_call req st = (inr loss, st') →
  score req = inr loss ∧
  st' = State (training st) (so3_neighbor_cache st) (shift_neighbor_cache st)
              (req :: eval_log st).
Proof. unfold eval_grid_call. by intros [= -> <-]. Qed.

(** What a returning call of the driver went through. *)
Lemma opt_theta_trans_inv (B : nat) (niter : Z) init_poses (st st' : state F)
    best_rot best_trans new_init_poses :
  opt_theta_trans leb self B niter init_poses st
    = (inr (best_rot, best_trans, new_init_poses), st') →
  training st = false ∧
  ∃ keepB keepT keepQ loss0 st0 quat trans v loss,
    match init_poses with
    | None =>
        ∃ lossb keep,
          score (base_request self niter) = inr lossb ∧
          keep_matrix leb lossb B (nkeptposes self) = inr keep ∧
          unpack3 keep = inr (keepB, keepT, keepQ) ∧
          loss0 = Some lossb ∧
          st0 = State (training st) (so3_neighbor_cache st) (shift_neighbor_cache st)
                      (base_request self niter :: eval_log st)
    | Some p =>
        keepB = repeat_each (nkeptposes self) (seq 0 B) ∧
        unpack_poses p = inr (keepT, keepQ) ∧ loss0 = None ∧ st0 = st
    end ∧
    pose_pairs B (nkeptposes self) keepT keepQ = inr new_init_poses ∧
    index_rows (so3_base_quat self) keepQ = inr quat ∧
    index_rows (base_shifts self) keepT = inr trans ∧
    loop leb self B niter
      (Locals keepB quat (so3_get_base_ind keepQ (base_healpy self)) 
              (shift_get_base_ind keepT (t_ngrid self * 2 ^ (base_healpy self - 1)))
              trans None loss0)
      (range (base_healpy self) (niter + 1)) st0 = (inr v, st') ∧
    l_loss v = Some loss ∧
    (niter = 0%Z ∨ ∃ rot, l_rot v = Some rot).
Proof.
  unfold opt_theta_trans. intros Hrun.
  apply mbind_inv in Hrun as (u & s1 & Hassert & Hrun).
  apply assert_not_training_inv in Hassert as [Htr ->]. split; [done|].
  apply mbind_inv in Hrun as ([[[keepB keepT] keepQ] loss0] & st0 & Hstart & Hrun).
  inv_lift Hrun nip Hpp. inv_lift Hrun quat Hquat. inv_lift Hrun trans Htrans.
  apply mbind_inv in Hrun as (v & s2 & Hloop & Hrun).
  inv_lift Hrun loss Hloss. inv_lift Hrun best Hbest.
  inv_lift Hrun best3 Hun. destruct best3 as [[bestBN bestT] bestQ].
  inv_lift Hrun u1 Hlen.
  apply mbind_inv in Hrun as ([br bt] & s3 & Hbr & Hrun). injection Hrun as -> -> -> <-.
  assert (s3 = s2 ∧ (niter = 0%Z ∨ ∃ rot, l_rot v = Some rot)) as [-> Hrot].
  { case_decide as Hn.
    - inv_lift Hbr x1 H1. inv_lift Hbr x2 H2. injection Hbr as _ _ <-. by split; [|left].
    - inv_lift Hbr x1 H1. inv_lift Hbr x2 H2. inv_lift Hbr x3 H3.
      inv_lift Hbr x4 H4. inv_lift Hbr x5 H5.
      injection Hbr as _ _ <-. split; [done|]. right.
      destruct (l_rot v) as [rot|]; [by eexists|done]. }
  destruct (l_loss v) as [loss'|] eqn:Hl; [|done].
  exists keepB, keepT, keepQ, loss0, st0, quat, trans, v, loss'. split.
  { destruct init_poses as [p|].
    - inv_lift Hstart kk Hun'. destruct kk as [kT kQ].
      injection Hstart as <- <- <- <- <-. done.
    - apply mbind_inv in Hstart as (lossb & s4 & Hscore & Hstart).
      apply eval_grid_call_inv in Hscore as [Hscore ->].
      inv_lift Hstart keep Hkeep. inv_lift Hstart kk Hun'.
      destruct kk as [[kB kT] kQ]. injection Hstart as <- <- <- <- <-.
      exists lossb, keep. done. }
  done.
Qed.

(* ----------------------------------------------------------------- *)
(** Parts of the driver that only compute. *)

Lemma keeps_state_ret {A} (a : A) : keeps_state (F := F) (mret a).
Proof. done. Qed.

Lemma keeps_state_lift {A} (r : result A) : keeps_state (F := F) (lift r).
Proof. done. Qed.

Lemma keeps_state_assert : keeps_state (F := F) assert_not_training.
Proof. done. Qed.

Lemma keeps_state_bind {A B} (m : M F A) (k : A → M F B) :
  keeps_state m → (∀ a, keeps_state (k a)) → keeps_state (mbind m k).
Proof.
  intros Hm Hk st. unfold mbind. specialize (Hm st).
  destruct (m st) as [[e|a] st1]; cbn in *; [done|]. subst. apply Hk.
Qed.

(** The log of scorer requests along the loop. *)
Lemma loop_body_log B niter v iter_ (st st' : state F) v' :
  loop_body leb self B niter v iter_ st = (inr v', st') →
  ∃ req, eval_log st' = req :: eval_log st ∧
    req_L req = getL (Lmin self) (Lmax self) iter_ niter ∧ req_NQ req = 8 ∧
    training st' = training st ∧
    so3_neighbor_cache st ⊆ so3_neighbor_cache st' ∧
    shift_neighbor_cache st ⊆ shift_neighbor_cache st'.
Proof.
  unfold loop_body. intros Hrun.
  apply mbind_inv in Hrun as ([[[[quat q_ind] t_ind] rot] trans] & s1 & Hsub & Hrun).
  apply (replays_subdivide self) in Hsub as [(Hso & Hsh & Htr & Hlog) _].
  apply mbind_inv in Hrun as (loss & s2 & Hscore & Hrun).
  apply eval_grid_call_inv in Hscore as [Hscore ->].
  inv_lift Hrun keep Hkeep. inv_lift Hrun k3 Hun. destruct k3 as [[keepBN keepT] keepQ].
  inv_lift Hrun n Hn. inv_lift Hrun keepB HkB. inv_lift Hrun u Hlen.
  inv_lift Hrun quat' Hq. inv_lift Hrun q_ind' Hqi. inv_lift Hrun t_ind' Hti.
  injection Hrun as <- <-. eexists. cbn. rewrite Hlog. split_and!; done.
Qed.

Lemma loop_log B niter iters : ∀ v (st st' : state F) v',
  loop leb self B niter v iters st = (inr v', st') →
  req_L <$> eval_log st'
  = reverse ((λ i, getL (Lmin self) (Lmax self) i niter) <$> iters)
    ++ (req_L <$> eval_log st) ∧
  length (eval_log st') = length iters + length (eval_log st) ∧
  training st' = training st ∧
  so3_neighbor_cache st ⊆ so3_neighbor_cache st' ∧
  shift_neighbor_cache st ⊆ shift_neighbor_cache st'.
Proof.
  induction iters as [|i iters IH]; intros v st st' v' Hrun; cbn in Hrun.
  { injection Hrun as <- <-. done. }
  apply mbind_inv in Hrun as (v1 & s1 & Hbody & Hrun).
  apply loop_body_log in Hbody as (req & Hlog & HL & _ & Htr & Hso & Hsh).
  destruct (IH _ _ _ _ Hrun) as (IH1 & IH2 & IH3 & IH4 & IH5).
  rewrite IH1, IH2, Hlog. cbn [fmap list_fmap length]. rewrite reverse_cons, HL.
  split_and!.
  - by rewrite <-(assoc_L (++)).
  - lia.
  - congruence.
  - by etrans.
  - by etrans.
Qed.

End driver_steps.

Ltac keeps_state_tac :=
  repeat first
    [ apply keeps_state_ret | apply keeps_state_lift | apply keeps_state_assert
    | apply keeps_state_bind; [|intros ?]
    | match goal with |- keeps_state (match ?x with _ => _ end) => destruct x end
    | match goal with |- keeps_state (let '(_, _) := ?x in _) => destruct x end ].

(* ================================================================= *)
(** ** The warm-start set *)

Lemma pairs_lookup (f g : nat → nat) (n i : nat) :
  i < n →
  mjoin ((λ i, [f i; g i]) <$> seq 0 n) !! (2 * i) = Some (f i) ∧
  mjoin ((λ i, [f i; g i]) <$> seq 0 n) !! (2 * i + 1) = Some (g i).
Proof.
  intros Hi.
  assert (Forall (λ l : list nat, length l = 2) ((λ i, [f i; g i]) <$> seq 0 n)) as Hlen.
  { apply Forall_fmap, Forall_forall. done. }
  split.
  - replace (2 * i) with (i * 2 + 0) by lia.
    apply (join_lookup_Some_same_length' 2); [done|lia|].
    exists [f i; g i]. split; [|done]. by rewrite list_lookup_fmap, lookup_seq_lt.
  - replace (2 * i + 1) with (i * 2 + 1) by lia.
    apply (join_lookup_Some_same_length' 2); [done|lia|].
    exists [f i; g i]. split; [|done]. by rewrite list_lookup_fmap, lookup_seq_lt.
Qed.

Lemma pairs_length (f g : nat → nat) (n : nat) :
  length (mjoin ((λ i, [f i; g i]) <$> seq 0 n)) = 2 * n.
Proof.
  rewrite length_join, (sum_list_fmap_same 2), length_fmap, length_seq; [lia|].
  apply Forall_fmap, Forall_forall. done.
Qed.

(** A list of even length is the list of its pairs. *)
Lemma pairs_of_data (d : list nat) (n : nat) :
  length d = 2 * n →
  mjoin ((λ i, [nth (2 * i) d 0; nth (2 * i + 1) d 0]) <$> seq 0 n) = d.
Proof.
  intros Hlen. apply list_eq. intros j.
  destruct (decide (j < 2 * n)) as [Hj|Hj]; last first.
  { rewrite !lookup_ge_None_2; [done|lia|]. rewrite pairs_length. lia. }
  pose proof (Nat.div_mod_eq j 2) as Hdm.
  assert (j mod 2 < 2) as Hm by (apply Nat.mod_upper_bound; lia).
  assert (j / 2 < n) as Hd by (apply Nat.Div0.div_lt_upper_bound; lia).
  destruct (pairs_lookup (λ i, nth (2 * i) d 0) (λ i, nth (2 * i + 1) d 0) n (j / 2) Hd)
    as [H0 H1].
  assert (∀ x, x < 2 * n → d !! x = Some (nth x d 0)) as Hnth.
  { intros x Hx. destruct (lookup_lt_is_Some_2 d x) as [y Hy]; [lia|].
    rewrite Hy. f_equal. symmetry. by apply nth_lookup_Some. }
  set (q := j / 2) in *. clearbody q.
  destruct (decide (j mod 2 = 0)) as [Hz|Hz].
  - assert (j = 2 * q) as -> by lia. rewrite H0. symmetry. apply Hnth. lia.
  - assert (j = 2 * q + 1) as -> by lia. rewrite H1. symmetry. apply Hnth. lia.
Qed.

Lemma fmap_nth_seq (l : list nat) : (λ i, nth i l 0) <$> seq 0 (length l) = l.
Proof.
  apply list_eq. intros i. rewrite list_lookup_fmap.
  destruct (decide (i < length l)) as [Hi|Hi].
  - rewrite lookup_seq_lt by done. cbn.
    destruct (lookup_lt_is_Some_2 l i Hi) as [y Hy]. rewrite Hy. f_equal.
    by apply nth_lookup_Some.
  - rewrite lookup_seq_ge by lia. cbn. symmetry. apply lookup_ge_None_2. lia.
Qed.

Lemma fmap_seq_ext_lt {X} (f g : nat → X) (n : nat) :
  (∀ i, i < n → f i = g i) → f <$> seq 0 n = g <$> seq 0 n.
Proof.
  intros Hfg. apply list_fmap_ext. intros i x Hx.
  apply lookup_seq in Hx as [-> Hi]. by apply Hfg.
Qed.

Lemma nth_fmap_seq (f : nat → nat) (n i : nat) :
  i < n → nth i (f <$> seq 0 n) 0 = f i.
Proof.
  intros Hi. apply nth_lookup_Some. by rewrite list_lookup_fmap, lookup_seq_lt.
Qed.

(** [reshape(-1, 2).t()] followed by [cat / view / permute] gives the
    tensor back, as B x K x 2. *)
Lemma unpack_then_pairs (p q : tensor nat) (B K : nat) keepT keepQ :
  unpack_poses p = inr (keepT, keepQ) → pose_pairs B K keepT keepQ = inr q →
  q = Tensor [B; K; 2] (data p) ∧ length (data p) = 2 * B * K.
Proof.
  unfold unpack_poses, ret. intros Hun.
  case_decide as Heven; [|done].
  set (d := data p) in *. set (n := length d / 2) in *.
  assert (keepT = (λ i, nth (2 * i) d 0) <$> seq 0 n
          ∧ keepQ = (λ i, nth (2 * i + 1) d 0) <$> seq 0 n) as [-> ->]
    by (split; congruence).
  clear Hun.
  assert (length d = 2 * n) as Hd.
  { pose proof (Nat.div_mod_eq (length d) 2). unfold n. lia. }
  unfold pose_pairs, ret. intros Hpp.
  case_decide as Hlen; [|done].
  assert (q = Tensor [B; K; 2]
                (mjoin ((λ i, [nth i (((λ i, nth (2 * i) d 0) <$> seq 0 n)
                                      ++ ((λ i, nth (2 * i + 1) d 0) <$> seq 0 n)) 0;
                               nth (B * K + i)
                                   (((λ i, nth (2 * i) d 0) <$> seq 0 n)
                                      ++ ((λ i, nth (2 * i + 1) d 0) <$> seq 0 n)) 0])
                          <$> seq 0 (B * K)))) as -> by congruence.
  clear Hpp.
  rewrite length_app, !length_fmap, !length_seq in Hlen.
  assert (n = B * K) as Hn by nia. split; [|nia]. f_equal.
  rewrite <-Hn. transitivity (mjoin ((λ i, [nth (2 * i) d 0; nth (2 * i + 1) d 0]) <$> seq 0 n));
    [|by apply pairs_of_data].
  f_equal. apply fmap_seq_ext_lt. intros i Hi. f_equal; [|f_equal].
  - rewrite app_nth1 by (by rewrite length_fmap, length_seq).
    by rewrite nth_fmap_seq.
  - rewrite app_nth2 by (rewrite length_fmap, length_seq; lia).
    rewrite length_fmap, length_seq.
    replace (n + i - n) with i by lia. by rewrite nth_fmap_seq.
Qed.

(** [cat / view / permute] followed by [reshape(-1, 2).t()] gives the two
    index arrays back. *)
Lemma pairs_then_unpack (q : tensor nat) (B K : nat) keepT keepQ :
  length keepT = length keepQ → pose_pairs B K keepT keepQ = inr q →
  unpack_poses q = inr (keepT, keepQ) ∧ length keepT = B * K.
Proof.
  unfold unpack_poses, pose_pairs, ret. intros Heq Hpp.
  case_decide as Hlen; [|done].
  assert (q = Tensor [B; K; 2]
                (mjoin ((λ i, [nth i (keepT ++ keepQ) 0; nth (B * K + i) (keepT ++ keepQ) 0])
                          <$> seq 0 (B * K)))) as -> by congruence.
  clear Hpp. cbn [data].
  rewrite length_app in Hlen.
  assert (length keepT = B * K ∧ length keepQ = B * K) as [HT HQ] by nia.
  split; [|done].
  set (cat := keepT ++ keepQ).
  rewrite pairs_length.
  replace (2 * (B * K) / 2) with (B * K); last first.
  { apply (Nat.div_unique _ _ _ 0); lia. }
  rewrite decide_True; last first.
  { rewrite (Nat.mul_comm 2). apply Nat.Div0.mod_mul. }
  f_equal. f_equal.
  - etrans; [|apply (fmap_nth_seq keepT)]. rewrite HT.
    apply fmap_seq_ext_lt. intros i Hi.
    destruct (pairs_lookup (λ i, nth i cat 0) (λ i, nth (B * K + i) cat 0) (B * K) i Hi)
      as [H0 _].
    rewrite (nth_lookup_Some _ _ _ _ H0). unfold cat. by rewrite app_nth1 by lia.
  - etrans; [|apply (fmap_nth_seq keepQ)]. rewrite HQ.
    apply fmap_seq_ext_lt. intros i Hi.
    destruct (pairs_lookup (λ i, nth i cat 0) (λ i, nth (B * K + i) cat 0) (B * K) i Hi)
      as [_ H1].
    rewrite (nth_lookup_Some _ _ _ _ H1). unfold cat. rewrite app_nth2 by lia.
    f_equal. lia.
Qed.

(** The index arrays the pruner returns all have the same length, whatever
    the tensor. *)
Lemma unravel_lengths (s flat : list nat) keep left :
  unravel s flat = inr (keep, left) →
  length left = length flat ∧ Forall (λ a, length a = length flat) keep.
Proof.
  revert keep left. induction s as [|n s IH]; intros keep left Hun.
  { injection Hun as <- <-. done. }
  cbn [unravel foldr] in Hun. fold (unravel s flat) in Hun.
  unfold unravel_step in Hun. apply rbind_inv in Hun as ([keep' left'] & Hun & Hstep).
  destruct (IH _ _ Hun) as [Hl Hk].
  case_decide; [done|].
  assert (keep = ((λ f, f mod n) <$> left') :: keep' ∧ left = (λ f, f / n) <$> left')
    as [-> ->] by (unfold ret in Hstep; split; congruence).
  rewrite length_fmap. split; [done|]. constructor; [by rewrite length_fmap|done].
Qed.

Lemma keep_matrix_same_length {A} (leb : A → A → bool) (loss : tensor A) B k keep :
  keep_matrix leb loss B k = inr keep →
  ∃ n, Forall (λ a, length a = n) keep.
Proof.
  unfold keep_matrix. cbv zeta. intros Hrun.
  apply rbind_inv in Hrun as ([M rows] & _ & Hrun).
  apply rbind_inv in Hrun as (top & _ & Hrun).
  apply rbind_inv in Hrun as ([keep' left] & Hun & Hrun).
  apply rbind_inv in Hrun as (u & _ & Hrun).
  assert (keep = keep') as <- by (unfold ret in Hrun; congruence).
  apply unravel_lengths in Hun as [_ Hk]. eauto.
Qed.

(* ================================================================= *)
(** ** What a call of the driver does to the object *)

Section driver_extras.
Context {F : Type} `{Collaborators F} (leb : F → F → bool) (self : PoseSearch F).

(** Without a turn of the loop a warm start only computes. *)
Lemma warm_start_keeps_state (B : nat) (niter : Z) (p : tensor nat) :
  (niter < base_healpy self)%Z →
  keeps_state (opt_theta_trans leb self B niter (Some p)).
Proof.
  intros Hn. unfold opt_theta_trans, range. rewrite seqZ_nil by lia. cbn [loop].
  keeps_state_tac.
Qed.

(** X9.  With a base level of at least 1, so that every level scored
    is non-negative and [getL] is the integer the source computes, a
    returning call of [opt_theta_trans] found the model in evaluation mode
    and leaves it there; it called the scorer once per level, in order:
    for a cold start the base grid at level base_healpy - 1, then the
    levels base_healpy .. niter of the loop, each at the radius [getL]
    gives for the level; and it only added entries to the memo tables. *)
Theorem opt_theta_trans_schedule (B : nat) (niter : Z) (init_poses : option (tensor nat))
    (st st' : state F) r :
  (1 ≤ base_healpy self)%Z →
  opt_theta_trans leb self B niter init_poses st = (inr r, st') →
  training st = false ∧ training st' = false ∧
  Forall (λ i, (0 ≤ i)%Z) (scored_levels self niter init_poses) ∧
  req_L <$> eval_log st'
  = reverse ((λ i, getL (Lmin self) (Lmax self) i niter)
               <$> scored_levels self niter init_poses)
    ++ (req_L <$> eval_log st) ∧
  so3_neighbor_cache st ⊆ so3_neighbor_cache st' ∧
  shift_neighbor_cache st ⊆ shift_neighbor_cache st'.
Proof.
  destruct r as [[best_rot best_trans] nip]. intros Hbase Hrun.
  apply opt_theta_trans_inv in Hrun
    as (Htr & keepB & keepT & keepQ & loss0 & st0 & quat & trans & v & loss
        & Hstart & _ & _ & _ & Hloop & _).
  apply loop_log in Hloop as (Hlog & _ & Htr' & Hso & Hsh).
  split; [done|]. unfold scored_levels.
  assert (Forall (λ i, (0 ≤ i)%Z) (range (base_healpy self) (niter + 1))) as Hlevels.
  { apply Forall_forall. intros i Hi. unfold range in Hi.
    apply elem_of_seqZ in Hi. lia. }
  destruct init_poses as [p|].
  - destruct Hstart as (_ & _ & _ & ->). split_and!; try done. congruence.
  - destruct Hstart as (lossb & keep & _ & _ & _ & _ & ->).
    cbn [training so3_neighbor_cache shift_neighbor_cache eval_log] in *.
    split_and!; try done; [congruence| |].
    { constructor; [lia|done]. }
    rewrite Hlog. cbn [app fmap list_fmap req_L base_request].
    rewrite reverse_cons. by rewrite <-(assoc_L (++)).
Qed.

(** X10.  When niter is below the base level the loop is skipped.  The
    call then returns only for niter = 0 and a cold start, after a single
    scorer call; a warm start never returns and leaves the object as it
    was: once the initial poses are unpacked and looked up, reading the
    loss that no step has bound raises a NameError. *)
Theorem opt_theta_trans_needs_iteration (B : nat) (niter : Z) (st : state F) :
  (niter < base_healpy self)%Z →
  (∀ init_poses r st',
     opt_theta_trans leb self B niter init_poses st = (inr r, st') →
     niter = 0%Z ∧ init_poses = None ∧
     eval_log st' = base_request self 0 :: eval_log st) ∧
  (∀ p, ∃ e,
     opt_theta_trans leb self B niter (Some p) st = (inl e, st) ∧
     (training st = false →
      ∀ keepT keepQ nip quat trans,
        unpack_poses p = inr (keepT, keepQ) →
        pose_pairs B (nkeptposes self) keepT keepQ = inr nip →
        index_rows (so3_base_quat self) keepQ = inr quat →
        index_rows (base_shifts self) keepT = inr trans →
        e = NameError)).
Proof.
  intros Hn.
  assert (∀ init_poses r st',
            opt_theta_trans leb self B niter init_poses st = (inr r, st') →
            niter = 0%Z ∧ init_poses = None ∧
            eval_log st' = base_request self 0 :: eval_log st) as Hret.
  { intros init_poses [[best_rot best_trans] nip] st' Hrun.
    apply opt_theta_trans_inv in Hrun
      as (Htr & keepB & keepT & keepQ & loss0 & st0 & quat & trans & v & loss
          & Hstart & _ & _ & _ & Hloop & Hloss & Hrot).
    unfold range in Hloop. rewrite seqZ_nil in Hloop by lia. cbn [loop] in Hloop.
    injection Hloop as <- <-. cbn [l_loss l_rot] in *.
    destruct Hrot as [->|[rot [=]]]. split; [done|].
    destruct init_poses as [p|].
    - destruct Hstart as (_ & _ & -> & _). done.
    - destruct Hstart as (lossb & keep & _ & _ & _ & _ & ->). done. }
  split; [done|].
  intros p. pose proof (warm_start_keeps_state B niter p Hn st) as Hst.
  destruct (opt_theta_trans leb self B niter (Some p) st) as [[e|r] st'] eqn:Hrun.
  2: { by destruct (Hret _ _ _ Hrun) as (_ & [=] & _). }
  cbn in Hst. subst st'. exists e. split; [done|].
  intros Htr keepT keepQ nip quat trans Hun Hpp Hq Ht.
  revert Hrun. unfold opt_theta_trans.
  rewrite (mbind_inr _ _ _ tt st) by (unfold assert_not_training; by rewrite Htr).
  rewrite (mbind_inr _ _ _ (repeat_each (nkeptposes self) (seq 0 B), keepT, keepQ, None) st);
    last first.
  { by rewrite (mbind_lift_inr _ _ _ _ Hun). }
  rewrite (mbind_lift_inr _ _ _ _ Hpp), (mbind_lift_inr _ _ _ _ Hq).
  rewrite (mbind_lift_inr _ _ _ _ Ht).
  unfold range. rewrite seqZ_nil by lia. cbn [loop].
  rewrite mbind_mret. cbn [l_loss bound]. by intros [= <-].
Qed.

(** X11.  The set of poses a call returns for the next warm start has
    shape B x nkeptposes x 2, and unpacking it gives the translation and
    rotation indices this call started from: those of the first pruning
    step for a cold start, and those of the given set, returned entry for
    entry, for a warm start. *)
Theorem init_poses_round_trip (B : nat) (niter : Z) (init_poses : option (tensor nat))
    (st st' : state F) best_rot best_trans new_init_poses :
  opt_theta_trans leb self B niter init_poses st
    = (inr (best_rot, best_trans, new_init_poses), st') →
  shape new_init_poses = [B; nkeptposes self; 2] ∧
  length (data new_init_poses) = 2 * B * nkeptposes self ∧
  ∃ keepT keepQ,
    unpack_poses new_init_poses = inr (keepT, keepQ) ∧
    length keepT = B * nkeptposes self ∧ length keepQ = B * nkeptposes self ∧
    match init_poses with
    | Some p => unpack_poses p = inr (keepT, keepQ) ∧ data new_init_poses = data p
    | None =>
        ∃ lossb keepB,
          score (base_request self niter) = inr lossb ∧
          keep_matrix leb lossb B (nkeptposes self) = inr [keepB; keepT; keepQ]
    end.
Proof.
  intros Hrun.
  apply opt_theta_trans_inv in Hrun
    as (Htr & keepB & keepT & keepQ & loss0 & st0 & quat & trans & v & loss
        & Hstart & Hpp & _).
  assert (shape new_init_poses = [B; nkeptposes self; 2]
          ∧ length (keepT ++ keepQ) = 2 * B * nkeptposes self) as [Hshape Hcat].
  { revert Hpp. unfold pose_pairs, ret. case_decide; [|done]. intros Hpp.
    split; [|done]. by injection Hpp as <-. }
  rewrite length_app in Hcat.
  assert (length keepT = length keepQ) as Heq.
  { destruct init_poses as [p|].
    - destruct Hstart as (_ & Hun & _). revert Hun. unfold unpack_poses, ret.
      case_decide; [|done]. intros Hun.
      assert (keepT = (λ i, nth (2 * i) (data p) 0) <$> seq 0 (length (data p) / 2)
              ∧ keepQ = (λ i, nth (2 * i + 1) (data p) 0) <$> seq 0 (length (data p) / 2))
        as [-> ->] by (split; congruence).
      by rewrite !length_fmap.
    - destruct Hstart as (lossb & keep & _ & Hkeep & Hun & _).
      apply keep_matrix_same_length in Hkeep as [n Hall].
      destruct keep as [|a [|b [|c [|? ?]]]]; try done.
      assert (a = keepB ∧ b = keepT ∧ c = keepQ) as (-> & -> & ->)
        by (unfold unpack3, ret in Hun; split_and!; congruence).
      apply Forall_cons in Hall as [_ Hall]. apply Forall_cons in Hall as [HT Hall].
      apply Forall_cons in Hall as [HQ _]. congruence. }
  destruct (pairs_then_unpack _ _ _ _ _ Heq Hpp) as [Hback HT].
  split; [done|]. split.
  { revert Hpp. unfold pose_pairs, ret. case_decide; [|done]. intros Hpp.
    assert (data new_init_poses
            = mjoin ((λ i, [nth i (keepT ++ keepQ) 0;
                            nth (B * nkeptposes self + i) (keepT ++ keepQ) 0])
                       <$> seq 0 (B * nkeptposes self))) as -> by (injection Hpp as <-; done).
    rewrite pairs_length. lia. }
  exists keepT, keepQ. split_and!; [done|done|lia|].
  destruct init_poses as [p|].
  - destruct Hstart as (_ & Hun & _). split; [done|].
    by destruct (unpack_then_pairs _ _ _ _ _ _ Hun Hpp) as [-> _].
  - destruct Hstart as (lossb & keep & Hscore & Hkeep & Hun & _).
    exists lossb, keepB. split; [done|]. rewrite Hkeep. f_equal.
    destruct keep as [|a [|b [|c [|? ?]]]]; try done.
    unfold unpack3, ret in Hun. congruence.
Qed.

End driver_extras.

(* ================================================================= *)
(** ** Tensors with the same entries *)

Lemma tensor_is_inj {X} (t t' : tensor X) s f :
  tensor_is t s f → tensor_is t' s f → t = t'.
Proof.
  intros (Hs & Hwf & Hget) (Hs' & Hwf' & Hget').
  destruct t as [s1 d], t' as [s2 d']. cbn in Hs, Hs'. subst s1 s2. f_equal.
  unfold wf_tensor in *. cbn [shape data] in *.
  apply list_eq. intros off.
  destruct (decide (off < numel s)) as [Hoff|Hoff].
  - pose proof (digits_valid s off Hoff) as Hv.
    specialize (Hget _ Hv). specialize (Hget' _ Hv).
    unfold tensor_get in *. cbn [shape data] in *.
    rewrite ravel_digits in Hget, Hget' by done. cbn in Hget, Hget'. congruence.
  - rewrite !lookup_ge_None_2; [done|lia|lia].
Qed.

Lemma ravel_Some_valid s idx off : ravel s idx = Some off → valid_index idx s.
Proof.
  revert idx off. induction s as [|n s IH]; intros [|i idx] off Hr; try done.
  cbn in Hr. case_decide; [|done].
  destruct (ravel s idx) as [o|] eqn:Ho; [|done]. constructor; [done|]. by eapply IH.
Qed.

Lemma ravel_lt s idx off : ravel s idx = Some off → off < numel s.
Proof.
  revert idx off. induction s as [|n s IH]; intros [|i idx] off Hr; try done.
  - injection Hr as <-. unfold numel. cbn. lia.
  - cbn in Hr. case_decide; [|done].
    destruct (ravel s idx) as [o|] eqn:Ho; [|done]. injection Hr as <-.
    apply IH in Ho. rewrite numel_cons. nia.
Qed.

Lemma ravel_inj s idx idx' off :
  ravel s idx = Some off → ravel s idx' = Some off → idx = idx'.
Proof.
  revert idx idx' off. induction s as [|n s IH]; intros [|i idx] [|i' idx'] off Hr Hr';
    try done.
  cbn in Hr, Hr'. repeat case_decide; try done.
  destruct (ravel s idx) as [o|] eqn:Ho; [|done].
  destruct (ravel s idx') as [o'|] eqn:Ho'; [|done].
  injection Hr as <-. injection Hr' as Heq.
  pose proof (ravel_lt _ _ _ Ho). pose proof (ravel_lt _ _ _ Ho').
  assert (i = i' ∧ o = o') as [-> ->].
  { cbn in Heq. set (N := numel s) in *.
    destruct (Nat.lt_trichotomy i i') as [Hlt|[->|Hlt]]; [|lia|].
    - assert ((i + 1) * N ≤ i' * N) by (apply Nat.mul_le_mono_r; lia). lia.
    - assert ((i' + 1) * N ≤ i * N) by (apply Nat.mul_le_mono_r; lia). lia. }
  f_equal. by eapply IH.
Qed.

(** [a @ b] of two matrices. *)
Lemma matmul2_is {F : Type} `{Scalar F} (a b : tensor F) n m k fa fb :
  tensor_is a [n; m] fa → tensor_is b [m; k] fb →
  ∃ r, matmul a b = inr r ∧
    tensor_is r [n; k]
      (λ idx, match idx with
              | [i; kk] => fsum ((λ j, fmul (fa [i; j]) (fb [j; kk])) <$> seq 0 m)
              | _ => fzero
              end).
Proof.
  intros (Hsa & Hwfa & Hga) (Hsb & Hwfb & Hgb). unfold matmul. rewrite Hsa, Hsb.
  cbn [reverse rev_append]. rewrite decide_True by done. cbn [reverse rev_append].
  change (broadcast_shapes [] []) with (inr [] : result (list nat)).
  cbn [rbind app length].
  apply tabulate_is. intros idx Hv. inv_valid Hv. cbn [take drop app bidx zip_with length].
  rewrite (mapM_seq_total _ (λ j, fmul (fa [i; j]) (fb [j; i0]))); [done|].
  intros p Hp.
  rewrite Hga by (by apply valid_index2). rewrite Hgb by (by apply valid_index2). done.
Qed.

(** [t.transpose(-1, -2)] of a matrix. *)
Lemma transpose2_is {X} (t : tensor X) n m f :
  tensor_is t [n; m] f →
  ∃ r, transpose_last2 t = inr r ∧
    tensor_is r [m; n] (λ idx, match idx with [j; i] => f [i; j] | _ => f [] end).
Proof.
  intros (Hs & Hwf & Hget). unfold transpose_last2. rewrite Hs.
  rewrite decide_True by (cbn; lia).
  change (swap_last2 [n; m]) with [m; n].
  apply tabulate_is. intros idx Hv. inv_valid Hv.
  change (swap_last2 [i; i0]) with [i0; i]. apply Hget. by apply valid_index2.
Qed.

(* ================================================================= *)
(** ** [rot_2d] *)

Lemma zeros_is {F : Type} `{Arith F} (s : list nat) : tensor_is (zeros s) s (λ _, fzero).
Proof.
  split; [done|]. split.
  { unfold wf_tensor, zeros. cbn. by rewrite length_replicate. }
  intros idx Hv. unfold tensor_get, zeros. cbn [shape data].
  destruct (ravel_valid s idx Hv) as [off Hoff]. rewrite Hoff. cbn.
  apply lookup_replicate_2. by eapply ravel_lt.
Qed.

Lemma tensor_set_is {X} (t : tensor X) s f idx x :
  tensor_is t s f → valid_index idx s →
  ∃ r, tensor_set t idx x = inr r ∧
    tensor_is r s (λ idx', if decide (idx' = idx) then x else f idx').
Proof.
  intros (Hs & Hwf & Hget) Hv. unfold tensor_set. rewrite Hs.
  destruct (ravel_valid s idx Hv) as [off Hoff]. rewrite Hoff.
  eexists. split; [done|]. split; [done|]. split.
  { unfold wf_tensor in *. cbn. by rewrite length_insert, Hwf, Hs. }
  intros idx' Hv'. unfold tensor_get. cbn [shape data].
  destruct (ravel_valid s idx' Hv') as [off' Hoff']. rewrite Hoff'. cbn.
  pose proof (ravel_lt _ _ _ Hoff') as Hlt.
  unfold wf_tensor in Hwf. rewrite Hs in Hwf.
  case_decide as Heq.
  - subst idx'. assert (off' = off) as -> by congruence.
    apply list_lookup_insert_eq. lia.
  - rewrite list_lookup_insert_ne.
    + specialize (Hget _ Hv'). unfold tensor_get in Hget. rewrite Hs, Hoff' in Hget. done.
    + intros <-. apply Heq. by eapply ravel_inj.
Qed.

Lemma tensor_set_invalid {X} (t : tensor X) idx x :
  ¬ valid_index idx (shape t) → tensor_set t idx x = inl IndexError.
Proof.
  intros Hv. unfold tensor_set.
  destruct (ravel (shape t) idx) as [off|] eqn:Hoff; [|done].
  exfalso. apply Hv. by eapply ravel_Some_valid.
Qed.

Section rot_2d_any_dtype.
Context {F : Type} `{Scalar F} (fcos fsin : F → F).

Lemma rot_2d_is (angle : F) (D : nat) :
  2 ≤ D →
  ∃ rot, rot_2d fcos fsin angle D = inr rot ∧
    tensor_is rot [D; D]
      (λ idx, if decide (idx = [1; 1]) then fcos angle
              else if decide (idx = [1; 0]) then fsin angle
              else if decide (idx = [0; 1]) then fneg (fsin angle)
              else if decide (idx = [0; 0]) then fcos angle
              else fzero).
Proof.
  intros HD. unfold rot_2d.
  destruct (tensor_set_is (zeros [D; D]) _ _ [0; 0] (fcos angle) (zeros_is _))
    as (r1 & -> & H1); [apply valid_index2; lia|].
  destruct (tensor_set_is r1 _ _ [0; 1] (fneg (fsin angle)) H1)
    as (r2 & E2 & H2); [apply valid_index2; lia|].
  destruct (tensor_set_is r2 _ _ [1; 0] (fsin angle) H2)
    as (r3 & E3 & H3); [apply valid_index2; lia|].
  destruct (tensor_set_is r3 _ _ [1; 1] (fcos angle) H3)
    as (r4 & E4 & H4); [apply valid_index2; lia|].
  cbn [rbind]. rewrite E2. cbn [rbind]. rewrite E3. cbn [rbind]. rewrite E4.
  exists r4. split; [done|]. done.
Qed.

Lemma rot_2d_small (angle : F) (D : nat) :
  D < 2 → rot_2d fcos fsin angle D = inl IndexError.
Proof.
  intros HD. unfold rot_2d. destruct D as [|[|D]]; [| |lia].
  - rewrite tensor_set_invalid; [done|]. cbn [shape zeros]. intros Hv. inv_valid Hv.
    cbn beta in *. lia.
  - destruct (tensor_set_is (zeros [1; 1]) _ _ [0; 0] (fcos angle) (zeros_is _))
      as (r1 & -> & (Hs & _)); [apply valid_index2; lia|].
    cbn [rbind]. rewrite tensor_set_invalid; [done|]. rewrite Hs.
    intros Hv. inv_valid Hv. cbn beta in *. lia.
Qed.

End rot_2d_any_dtype.

Lemma fsum_R_zeros (l : list R) : Forall (λ x, x = 0%R) l → fsum l = 0%R.
Proof.
  induction 1 as [|x l -> _ IH]; [apply fsum_R_nil|].
  rewrite fsum_R_cons, IH. lra.
Qed.

(** A sum whose terms vanish from the third on. *)
Lemma fsum_R_two (f : nat → R) (D : nat) :
  2 ≤ D → (∀ j, 2 ≤ j → f j = 0%R) → fsum (f <$> seq 0 D) = (f 0%nat + f 1%nat)%R.
Proof.
  intros HD Hz. destruct D as [|[|D]]; [lia..|].
  cbn [seq fmap list_fmap]. rewrite !fsum_R_cons, fsum_R_zeros; [lra|].
  apply Forall_fmap, Forall_forall. intros j Hj%elem_of_seq. cbn. apply Hz. lia.
Qed.

Lemma rot_2d_R_is (a : R) (D : nat) :
  2 ≤ D → ∃ rot, rot_2d cos sin a D = inr rot ∧ tensor_is rot [D; D] (rot_2d_entry a).
Proof.
  intros HD. destruct (rot_2d_is cos sin a D HD) as (rot & Hrot & His).
  exists rot. split; [done|]. eapply tensor_is_ext; [done|].
  intros idx Hv. inv_valid Hv. unfold rot_2d_entry.
  destruct i as [|[|i]], i0 as [|[|i0]]; repeat case_decide; try done.
Qed.

Lemma rot_2d_entry_high (a : R) (i j : nat) :
  2 ≤ i ∨ 2 ≤ j → rot_2d_entry a [i; j] = 0%R.
Proof. intros Hij. destruct i as [|[|i]], j as [|[|j]]; try done; lia. Qed.

(** X12.  For outD >= 2 [rot_2d] returns the outD x outD matrix that
    holds the rotation by the angle in its upper left 2 x 2 block and
    zeros elsewhere (over the reals).  These matrices multiply as the
    angles add, and the transpose is the matrix of the opposite angle; the
    product of a matrix with its transpose has ones at the first two
    diagonal places and zeros elsewhere, so it is the identity only for
    outD = 2.  For outD below 2 the second or the first assignment raises
    an IndexError. *)
Theorem rot_2d_rotations (a b : R) (outD : nat) :
  (2 ≤ outD →
   ∃ ra rb rab rta r0,
     rot_2d cos sin a outD = inr ra ∧ tensor_is ra [outD; outD] (rot_2d_entry a) ∧
     rot_2d cos sin b outD = inr rb ∧
     rot_2d cos sin (a + b)%R outD = inr rab ∧ matmul ra rb = inr rab ∧
     rot_2d cos sin (- a)%R outD = inr rta ∧ transpose_last2 ra = inr rta ∧
     matmul ra rta = inr r0 ∧
     ∀ i j, i < outD → j < outD →
       tensor_get r0 [i; j] = Some (if decide (i = j ∧ i < 2) then 1%R else 0%R)) ∧
  (outD < 2 → rot_2d cos sin a outD = inl IndexError).
Proof.
  split; [|apply rot_2d_small].
  intros HD.
  destruct (rot_2d_R_is a outD HD) as (ra & Hra & Ia).
  destruct (rot_2d_R_is b outD HD) as (rb & Hrb & Ib).
  destruct (rot_2d_R_is (a + b)%R outD HD) as (rab & Hrab & Iab).
  destruct (rot_2d_R_is (- a)%R outD HD) as (rta & Hrta & Ita).
  destruct (matmul2_is ra rb _ _ _ _ _ Ia Ib) as (p & Hp & Ip).
  destruct (transpose2_is ra _ _ _ Ia) as (t & Ht & It).
  destruct (matmul2_is ra rta _ _ _ _ _ Ia Ita) as (r0 & Hr0 & I0).
  exists ra, rb, rab, rta, r0. split_and!; try done.
  - rewrite Hp. f_equal. apply (tensor_is_inj _ _ [outD; outD] (rot_2d_entry (a + b)%R));
      [|done].
    eapply tensor_is_ext; [done|]. intros idx Hv. inv_valid Hv. cbn beta iota.
    rewrite fsum_R_two; [|done|]; last first.
    { intros j Hj. rewrite (rot_2d_entry_high a i j) by lia. cbn. lra. }
    destruct i as [|[|i]], i0 as [|[|i0]]; cbn [rot_2d_entry fmul R_arith];
      rewrite ?cos_plus, ?sin_plus; lra.
  - rewrite Ht. f_equal. apply (tensor_is_inj _ _ [outD; outD] (rot_2d_entry (- a)%R));
      [|done].
    eapply tensor_is_ext; [done|]. intros idx Hv. inv_valid Hv. cbn beta iota.
    destruct i as [|[|i]], i0 as [|[|i0]]; cbn [rot_2d_entry];
      rewrite ?cos_neg, ?sin_neg; lra.
  - intros i j Hi Hj. destruct I0 as (_ & _ & Hget).
    rewrite Hget by (by apply valid_index2). f_equal.
    rewrite fsum_R_two; [|done|]; last first.
    { intros k Hk. rewrite (rot_2d_entry_high a i k) by lia. cbn. lra. }
    pose proof (sin2_cos2 a) as Hsc. unfold Rsqr in Hsc.
    destruct i as [|[|i]], j as [|[|j]]; cbn [rot_2d_entry fmul R_arith];
      rewrite ?cos_neg, ?sin_neg; case_decide; try lia; try lra; nra.
Qed.

(* ================================================================= *)
(** ** Masking and un-masking *)

Section mask_rows.
Context {X : Type} (zero : X).

Lemma length_scatter_row (mask : list bool) (row : list X) :
  length (scatter_row zero mask row) = length mask.
Proof.
  revert row. induction mask as [|[] mask IH]; intros row; [done| |].
  - destruct row; cbn; by rewrite IH.
  - cbn. by rewrite IH.
Qed.

Lemma length_select_row (mask : list bool) (row : list X) :
  length mask = length row →
  length (select_row mask row) = count_occ bool_dec mask true.
Proof.
  revert row. induction mask as [|[] mask IH]; intros [|x row] Hlen; try done.
  - cbn. f_equal. apply IH. by injection Hlen.
  - cbn. apply IH. by injection Hlen.
Qed.

(** Un-masking and then masking gives the row back. *)
Lemma select_scatter_row (mask : list bool) (row : list X) :
  length row = count_occ bool_dec mask true →
  select_row mask (scatter_row zero mask row) = row.
Proof.
  revert row. induction mask as [|[] mask IH]; intros row Hlen.
  - by destruct row.
  - cbn in Hlen. destruct row as [|x row]; [done|]. cbn. f_equal. apply IH.
    by injection Hlen.
  - cbn in Hlen. cbn. by apply IH.
Qed.

(** Outside the mask an un-masked row holds zeros. *)
Lemma scatter_row_outside (mask : list bool) (row : list X) p :
  mask !! p = Some false → scatter_row zero mask row !! p = Some zero.
Proof.
  revert row p. induction mask as [|b mask IH]; intros row p Hp; [done|].
  destruct p as [|p]; cbn in Hp.
  - injection Hp as ->. done.
  - destruct b; [destruct row|]; cbn; by apply IH.
Qed.

(** Masking and then un-masking keeps the pixels inside the mask and
    clears the others. *)
Lemma scatter_select_row (mask : list bool) (row : list X) :
  length mask = length row →
  scatter_row zero mask (select_row mask row)
  = zip_with (λ (b : bool) x, if b then x else zero) mask row.
Proof.
  revert row. induction mask as [|[] mask IH]; intros [|x row] Hlen; try done.
  - cbn. f_equal. apply IH. by injection Hlen.
  - cbn. f_equal. apply IH. by injection Hlen.
Qed.

End mask_rows.

(** A list is the concatenation of its rows. *)
Lemma join_rows {X} (d : list X) (R C : nat) :
  length d = R * C → mjoin ((λ i, take C (drop (i * C) d)) <$> seq 0 R) = d.
Proof.
  revert d. induction R as [|R IH]; intros d Hlen.
  { cbn. symmetry. by apply length_zero_iff_nil. }
  cbn [seq fmap list_fmap mjoin list_join]. rewrite drop_0.
  etrans; [|apply (take_drop C d)]. f_equal.
  etrans; [|apply (IH (drop C d)); rewrite length_drop; lia].
  f_equal. rewrite <-fmap_S_seq, <-list_fmap_compose. apply list_fmap_ext.
  intros _ i _. cbn. rewrite drop_drop. do 2 f_equal.
Qed.

Lemma tensor_iter_rows {X} (t : tensor X) (R C : nat) :
  shape t = [R; C] →
  tensor_iter t = inr ((λ i, Tensor [C] (take C (drop (i * C) (data t)))) <$> seq 0 R).
Proof.
  intros Hs. unfold tensor_iter, shape0. rewrite Hs. cbn [rbind ret].
  apply list_comp_ok, Forall_forall. intros i Hi%elem_of_seq.
  unfold tensor_row. rewrite Hs, decide_True by lia.
  change (numel [C]) with (C * 1). by rewrite Nat.mul_1_r.
Qed.

(** The value of a masked assignment, for a value of rank 2. *)
Lemma strip_ones_head (n : nat) (s : list nat) : n ≠ 1 → strip_ones (n :: s) = n :: s.
Proof. intros Hn. by destruct n as [|[|n]]. Qed.

Lemma broadcast_value_fits (R C count : nat) :
  C = count ∨ C = 1 →
  broadcast_shapes (strip_ones [R; C]) [R; count] = inr [R; count].
Proof.
  intros HC.
  assert (bext C count = count) as HCb.
  { unfold bext. case_decide; [done|]. by destruct HC. }
  destruct (decide (R = 1)) as [->|HR].
  - change (strip_ones [1; C]) with (strip_ones [C]).
    destruct (decide (C = 1)) as [->|HC1].
    + done.
    + rewrite strip_ones_head by done. unfold broadcast_shapes.
      cbn [reverse rev_append broadcast_rev rbind ret].
      destruct HC as [->|]; [|done]. by rewrite decide_True.
  - rewrite strip_ones_head by done.
    rewrite broadcast_shapes_compat.
    + cbn [zip_with]. by rewrite bext_same, HCb.
    + constructor; [by left|]. constructor; [|constructor].
      unfold compat. destruct HC; auto.
Qed.

Lemma broadcast_value_get {X} (sq : tensor X) (R C b j : nat) :
  shape sq = [R; C] → b < R →
  tensor_get (Tensor (strip_ones [R; C]) (data sq)) (bidx (strip_ones [R; C]) [b; j])
  = tensor_get sq [b; bfix C j].
Proof.
  intros Hs Hb. destruct sq as [s d]. cbn [shape data] in *. subst s.
  destruct (decide (R = 1)) as [->|HR].
  - assert (b = 0) as -> by lia. change (strip_ones [1; C]) with (strip_ones [C]).
    destruct (decide (C = 1)) as [->|HC1].
    + done.
    + rewrite strip_ones_head by done. unfold bidx, bfix, tensor_get.
      cbn [length Nat.sub drop zip_with shape data ravel].
      rewrite !(decide_False (P := C = 1)) by done.
      rewrite (decide_True (P := 0 < 1)) by lia.
      destruct (decide (j < C)); [|done]. cbn. do 2 f_equal.
  - rewrite strip_ones_head by done. unfold bidx, bfix.
    cbn [length Nat.sub drop zip_with]. by rewrite (decide_False (P := R = 1)).
Qed.

Section mask_images_facts.
Context {F : Type} `{Scalar F}.

Lemma scattered_rows (mask : list bool) (d : list F) (R C : nat) :
  Forall (λ l, length l = length mask)
         ((λ i, scatter_row fzero mask (take C (drop (i * C) d))) <$> seq 0 R).
Proof. apply Forall_fmap, Forall_forall. intros i _. cbn. apply length_scatter_row. Qed.

(** What [rotate_images] builds as [full_images]: the rows of the
    broadcast value, spread over the masked pixels. *)
Lemma scatter_mask_inv (BNQ D : nat) (mask : list bool) (squeezed full : tensor F) :
  scatter_mask BNQ D mask squeezed = inr full →
  length mask = D * D ∧
  ∃ value,
    tabulate [BNQ; count_occ bool_dec mask true]
      (λ idx, tensor_get (Tensor (strip_ones (shape squeezed)) (data squeezed))
                         (bidx (strip_ones (shape squeezed)) idx)) = inr value ∧
    full = Tensor [BNQ; D; D]
             (mjoin ((λ i, scatter_row fzero mask
                             (take (count_occ bool_dec mask true)
                                   (drop (i * count_occ bool_dec mask true) (data value))))
                       <$> seq 0 BNQ)).
Proof.
  unfold scatter_mask. cbv zeta. intros Hrun.
  destruct (length mask =? D * D) eqn:Hlen; [|done]. apply Nat.eqb_eq in Hlen.
  cbn [negb] in Hrun. split; [done|].
  destruct (negb _); [done|].
  apply rbind_inv in Hrun as (value & Hval & Hrun). exists value. split; [done|].
  pose proof (tabulate_inv _ _ _ Hval) as (Hs & _ & _).
  rewrite (tensor_iter_rows _ _ _ Hs) in Hrun. cbn [rbind ret] in Hrun.
  rewrite <-list_fmap_compose in Hrun. by injection Hrun as <-.
Qed.

(** For masked images of one column per masked pixel, or of one column. *)
Lemma scatter_mask_rank2 (BNQ D C : nat) (mask : list bool) (squeezed : tensor F) :
  wf_tensor squeezed → shape squeezed = [BNQ; C] → length mask = D * D →
  C = count_occ bool_dec mask true ∨ C = 1 →
  ∃ value full,
    scatter_mask BNQ D mask squeezed = inr full ∧
    tensor_is value [BNQ; count_occ bool_dec mask true]
      (λ idx, match idx with
              | [b; j] => entry fzero squeezed [b; bfix C j]
              | _ => fzero
              end) ∧
    full = Tensor [BNQ; D; D]
             (mjoin ((λ i, scatter_row fzero mask
                             (take (count_occ bool_dec mask true)
                                   (drop (i * count_occ bool_dec mask true) (data value))))
                       <$> seq 0 BNQ)).
Proof.
  intros Hwf Hs Hmask HC. set (count := count_occ bool_dec mask true) in *.
  unfold scatter_mask. cbv zeta. fold count.
  rewrite Hmask, Nat.eqb_refl. cbn [negb].
  rewrite Hs, (broadcast_value_fits BNQ C count HC).
  rewrite bool_decide_eq_true_2 by done. cbn [negb].
  destruct (tabulate_is [BNQ; count]
              (λ idx, tensor_get (Tensor (strip_ones [BNQ; C]) (data squeezed))
                                 (bidx (strip_ones [BNQ; C]) idx))
              (λ idx, match idx with
                      | [b; j] => entry fzero squeezed [b; bfix C j]
                      | _ => fzero
                      end)) as (value & Hval & His).
  { intros idx Hv. inv_valid Hv.
    rewrite (broadcast_value_get squeezed BNQ C i i0 Hs) by done.
    apply (tensor_is_get _ _ _ _ (tensor_is_entry fzero squeezed Hwf)).
    rewrite Hs. apply valid_index2; [done|]. unfold bfix. case_decide; [lia|].
    destruct HC as [->|]; [done|lia]. }
  rewrite Hval. cbn [rbind].
  pose proof His as (Hvs & _ & _).
  rewrite (tensor_iter_rows _ _ _ Hvs). cbn [rbind ret].
  exists value. eexists. split; [done|]. split; [done|].
  by rewrite <-list_fmap_compose.
Qed.

(** X13.  [rotate_images] loses nothing when it spreads the masked
    images over full D x D images: whenever the assignment returns for a
    non-empty batch, the full images are zero outside the mask, and
    masking them as [mask_images] does gives back what was assigned: the
    masked images themselves when they have one column per masked pixel,
    and for images of a single column, which the assignment broadcasts,
    that column at every masked pixel. *)
Theorem mask_inverts_scatter (BNQ D : nat) (mask : list bool) (squeezed full : tensor F) :
  wf_tensor squeezed → 0 < BNQ →
  scatter_mask BNQ D mask squeezed = inr full →
  shape full = [BNQ; D; D] ∧ wf_tensor full ∧
  (∀ b r c, b < BNQ → r < D → c < D → mask !! (r * D + c) = Some false →
     tensor_get full [b; r; c] = Some fzero) ∧
  ∃ value,
    mask_images full mask = inr value ∧
    shape value = [BNQ; count_occ bool_dec mask true] ∧
    (shape squeezed = [BNQ; count_occ bool_dec mask true] → value = squeezed) ∧
    (shape squeezed = [BNQ; 1] →
     ∀ b j, b < BNQ → j < count_occ bool_dec mask true →
       tensor_get value [b; j] = tensor_get squeezed [b; 0]).
Proof.
  intros Hwf HB Hrun.
  apply scatter_mask_inv in Hrun as (Hmask & value & Hval & ->).
  set (C := count_occ bool_dec mask true) in *.
  pose proof (tabulate_inv _ _ _ Hval) as (Hvs & Hvwf & Hvget).
  set (srow := λ i, scatter_row fzero mask (take C (drop (i * C) (data value)))).
  pose proof (scattered_rows mask (data value) BNQ C) as Hrows. fold srow in Hrows.
  assert (length (data value) = BNQ * C) as Hlen.
  { unfold wf_tensor in Hvwf. rewrite Hvwf, Hvs. change (numel [BNQ; C]) with (BNQ * (C * 1)).
    lia. }
  assert (length (mjoin (srow <$> seq 0 BNQ)) = BNQ * (D * D)) as Hjoin.
  { rewrite length_join, (sum_list_fmap_same (length mask)) by done.
    rewrite length_fmap, length_seq. lia. }
  assert (mask_images (Tensor [BNQ; D; D] (mjoin (srow <$> seq 0 BNQ))) mask = inr value)
    as Hback.
  { unfold mask_images, shape0. cbn [shape rbind ret].
    rewrite (view_rows_ok _ BNQ (D * D)) by done. cbn [rbind data].
    rewrite Hmask, Nat.eqb_refl. cbn [negb]. fold C.
    destruct value as [s d]. cbn [shape data] in *. subst s. unfold ret. do 2 f_equal.
    rewrite <-list_fmap_compose.
    etrans; [|apply (join_rows d BNQ C Hlen)]. f_equal.
    apply list_fmap_ext. intros i ? [-> Hi]%lookup_seq. cbn.
    rewrite <-Hmask, (take_drop_join _ _ _ (srow i)); [|done|].
    + unfold srow. apply select_scatter_row. rewrite length_take, length_drop. nia.
    + by rewrite list_lookup_fmap, lookup_seq_lt. }
  split_and!.
  - done.
  - unfold wf_tensor. cbn [shape data]. rewrite Hjoin, numel3. lia.
  - intros b r c Hb Hr Hc Hout. unfold tensor_get. cbn [shape data].
    rewrite ravel3 by done. cbn.
    replace ((b * D + r) * D + c) with (b * length mask + (r * D + c)) by lia.
    apply (join_lookup_Some_same_length' (length mask)); [done|nia|].
    exists (srow b). split; [by rewrite list_lookup_fmap, lookup_seq_lt|].
    by apply scatter_row_outside.
  - exists value. split; [done|]. split; [done|]. split.
    + intros Hs.
      apply (tensor_is_inj _ _ [BNQ; C] (entry fzero squeezed)).
      * split; [done|]. split; [done|]. intros idx Hv. rewrite Hvget by done.
        inv_valid Hv. rewrite Hs, (broadcast_value_get squeezed BNQ C i i0 Hs) by done.
        rewrite (bfix_lt C i0) by done.
        apply (tensor_is_get _ _ _ _ (tensor_is_entry fzero squeezed Hwf)).
        rewrite Hs. by apply valid_index2.
      * rewrite <-Hs. by apply tensor_is_entry.
    + intros Hs b j Hb Hj. rewrite Hvget by (by apply valid_index2).
      rewrite Hs, (broadcast_value_get squeezed BNQ 1 b j Hs) by done. done.
Qed.

(** X14.  [mask_images] on a batch of D x D images returns for a
    non-empty batch and a mask of D * D entries; it keeps the masked
    pixels of every image, in order: spreading its result over full images
    again gives the images with the pixels outside the mask cleared.  An
    empty batch makes the [view] raise a RuntimeError, a mask of another
    length makes the indexing raise an IndexError. *)
Theorem mask_images_then_scatter (images : tensor F) (mask : list bool) (B D : nat) :
  wf_tensor images → shape images = [B; D; D] →
  (0 < B → length mask = D * D →
   ∃ m full,
     mask_images images mask = inr m ∧
     shape m = [B; count_occ bool_dec mask true] ∧ wf_tensor m ∧
     scatter_mask B D mask m = inr full ∧ shape full = [B; D; D] ∧
     ∀ b r c x (inside : bool), b < B → r < D → c < D →
       tensor_get images [b; r; c] = Some x → mask !! (r * D + c) = Some inside →
       tensor_get full [b; r; c] = Some (if inside then x else fzero)) ∧
  (B = 0 → ∃ msg, mask_images images mask = inl (RuntimeError msg)) ∧
  (0 < B → length mask ≠ D * D → mask_images images mask = inl IndexError).
Proof.
  intros Hwf Hs.
  assert (length (data images) = B * (D * D)) as Hlen.
  { unfold wf_tensor in Hwf. rewrite Hwf, Hs, numel3. lia. }
  set (C := count_occ bool_dec mask true).
  set (row := λ i, take (D * D) (drop (i * (D * D)) (data images))).
  split_and!.
  - intros HB Hmask.
    assert (∀ i, i < B → length (row i) = length mask) as Hrow.
    { intros i Hi. unfold row. rewrite length_take, length_drop. nia. }
    assert (Forall (λ l, length l = C) (select_row mask <$> (row <$> seq 0 B))) as Hsel.
    { rewrite <-list_fmap_compose. apply Forall_fmap, Forall_forall.
      intros i Hi%elem_of_seq. cbn. apply length_select_row. symmetry. apply Hrow. lia. }
    set (m := Tensor [B; C] (mjoin (select_row mask <$> (row <$> seq 0 B)))).
    assert (mask_images images mask = inr m) as Hm.
    { unfold mask_images, shape0. rewrite Hs. cbn [rbind ret].
      rewrite (view_rows_ok _ B (D * D)) by done. cbn [rbind].
      by rewrite Hmask, Nat.eqb_refl. }
    assert (length (data m) = B * C) as Hmlen.
    { cbn [m data]. rewrite length_join, (sum_list_fmap_same C) by done.
      by rewrite !length_fmap, length_seq. }
    set (srow := λ i, scatter_row fzero mask (take C (drop (i * C) (data m)))).
    set (full := Tensor [B; D; D] (mjoin (srow <$> seq 0 B))).
    assert (wf_tensor m) as Hmwf.
    { unfold wf_tensor. rewrite Hmlen. change (numel (shape m)) with (B * (C * 1)). lia. }
    assert (scatter_mask B D mask m = inr full) as Hfull.
    { destruct (scatter_mask_rank2 B D C mask m Hmwf eq_refl Hmask (or_introl eq_refl))
        as (value & full' & Hrun & His & Hfull').
      assert (value = m) as ->.
      { apply (tensor_is_inj _ _ [B; C] (entry fzero m)).
        - eapply tensor_is_ext; [exact His|]. intros idx Hv. inv_valid Hv.
          by rewrite (bfix_lt C i0).
        - by apply (tensor_is_entry fzero m Hmwf). }
      by rewrite Hrun, Hfull'. }
    exists m, full. split_and!; try done.
    intros b r c x inside Hb Hr Hc Hx Hin.
    unfold tensor_get in *. rewrite Hs in Hx. rewrite ravel3 in Hx by done. cbn in Hx.
    change (shape full) with [B; D; D]. rewrite ravel3 by done.
    change (data full) with (mjoin (srow <$> seq 0 B)). cbn [mbind option_bind].
    change (mjoin (srow <$> seq 0 B) !! ((b * D + r) * D + c)
            = Some (if inside then x else fzero)).
    replace ((b * D + r) * D + c) with (b * length mask + (r * D + c)) by lia.
    apply (join_lookup_Some_same_length' (length mask));
      [apply scattered_rows|nia|].
    exists (srow b). split; [by rewrite list_lookup_fmap, lookup_seq_lt|].
    unfold srow. cbn [m data].
    rewrite (take_drop_join _ _ _ (select_row mask (row b)) Hsel); last first.
    { by rewrite !list_lookup_fmap, lookup_seq_lt. }
    rewrite scatter_select_row by (symmetry; by apply Hrow).
    rewrite lookup_zip_with, Hin. cbn. unfold row.
    rewrite lookup_take_lt by nia. rewrite lookup_drop.
    replace (b * (D * D) + (r * D + c)) with ((b * D + r) * D + c) by lia.
    by rewrite Hx.
  - intros ->. unfold mask_images, shape0. rewrite Hs. cbn [rbind ret].
    unfold view_rows. rewrite decide_True by done. by eexists.
  - intros HB Hmask. unfold mask_images, shape0. rewrite Hs. cbn [rbind ret].
    rewrite (view_rows_ok _ B (D * D)) by done. cbn [rbind].
    by apply Nat.eqb_neq in Hmask as ->.
Qed.

End mask_images_facts.

(* ================================================================= *)
(** ** [interpolate] at and beyond the borders *)

(** One entry that cannot be read makes [tabulate] raise. *)
Lemma tabulate_fails {X} (s : list nat) (g : list nat → option X) idx :
  valid_index idx s → g idx = None → tabulate s g = inl IndexError.
Proof.
  intros Hv Hg. unfold tabulate.
  destruct (mapM _ _) as [d|] eqn:Hd; [|done]. exfalso.
  apply mapM_Some in Hd.
  destruct (ravel_valid s idx Hv) as [off Hoff].
  pose proof (ravel_lt _ _ _ Hoff) as Hlt.
  destruct (Forall2_lookup_l _ _ _ off off Hd) as (y & _ & Hy).
  { by apply lookup_seq_lt. }
  destruct (digits_ravel _ _ _ Hoff) as [Hdig _]. rewrite Hdig in Hy. congruence.
Qed.

Lemma tabulate_raises {X} (s : list nat) (g : list nat → option X) e :
  tabulate s g = inl e → e = IndexError.
Proof. unfold tabulate. destruct (mapM _ _); [done|]. by intros [= <-]. Qed.

Lemma py_index_reach (n : nat) (i : Z) :
  (in_reach n i → py_index n i = Some (wrap n i) ∧ wrap n i < n) ∧
  (¬ in_reach n i → py_index n i = None).
Proof.
  unfold in_reach, py_index, wrap. split.
  - intros Hi. case_decide as H0.
    + rewrite Z.mod_small by lia. split; [done|lia].
    + rewrite decide_True by lia.
      replace (i mod Z.of_nat n)%Z with (i + Z.of_nat n)%Z; [split; [done|lia]|].
      apply (Z.mod_unique _ _ (-1)); lia.
  - intros Hi. rewrite !decide_False by lia. done.
Qed.

Section interpolate_any_dtype.
Context {F : Type} `{Arith F}.
Context (img coords : tensor F) (bs : list nat) (HH WW n : nat).
Hypothesis Hwf : wf_tensor img.
Hypothesis Hs : shape img = bs ++ [HH; WW].
Hypothesis Hcwf : wf_tensor coords.
Hypothesis Hcs : shape coords = [n; 2].

(** The value for one image and one coordinate pair. *)
Lemma interpolate_unfold :
  ∃ body,
    interpolate img coords = tabulate (bs ++ [n]) body ∧
    ∀ bi k, valid_index bi bs → k < n →
      ∃ x y, tensor_get coords [k; 0] = Some x ∧ tensor_get coords [k; 1] = Some y ∧
        body (bi ++ [k]) = bilinear HH WW (λ r c, tensor_get img (bi ++ [r; c])) y x.
Proof using Hcwf Hcs Hs.
  unfold interpolate, shape0. rewrite Hcs, Hs, reverse_app.
  cbn [length Nat.eqb assert_ rbind last].
  rewrite bool_decide_eq_true_2 by done. cbn [assert_ rbind ret reverse rev_append app].
  change (rev_append (reverse bs) []) with (reverse (reverse bs)).
  rewrite reverse_involutive.
  eexists. split; [done|]. intros bi k Hbi Hk.
  destruct (tensor_get_valid coords [k; 0] Hcwf) as [x Hx].
  { rewrite Hcs. apply valid_index2; lia. }
  destruct (tensor_get_valid coords [k; 1] Hcwf) as [y Hy].
  { rewrite Hcs. apply valid_index2; lia. }
  exists x, y. split; [done|]. split; [done|]. cbn beta.
  destruct (take_drop_app_length bi [k] (length bs)) as [-> ->].
  { by apply Forall2_length in Hbi. }
  rewrite Hy, Hx. done.
Qed.

Lemma pixel_at bi r c :
  valid_index bi bs → r < HH → c < WW → is_Some (tensor_get img (bi ++ [r; c])).
Proof using Hwf Hs.
  intros Hbi Hr Hc. apply tensor_get_valid; [done|]. rewrite Hs.
  apply Forall2_app; [done|]. by apply valid_index2.
Qed.

(** Within reach the kernel reads the four neighbours, counting negative
    indices from the end. *)
Lemma bilinear_reach bi (y x : F) :
  valid_index bi bs → reachable HH WW y x →
  bilinear HH WW (λ r c, tensor_get img (bi ++ [r; c])) y x
  = bilinear_wrapped img HH WW bi y x ∧
  is_Some (bilinear_wrapped img HH WW bi y x).
Proof using Hwf Hs.
  intros Hbi (Hyf & Hyc & Hxf & Hxc).
  destruct (proj1 (py_index_reach _ _) Hyf) as [Eyf Byf].
  destruct (proj1 (py_index_reach _ _) Hyc) as [Eyc Byc].
  destruct (proj1 (py_index_reach _ _) Hxf) as [Exf Bxf].
  destruct (proj1 (py_index_reach _ _) Hxc) as [Exc Bxc].
  destruct (pixel_at bi _ _ Hbi Byf Bxf) as [v1 E1].
  destruct (pixel_at bi _ _ Hbi Byf Bxc) as [v2 E2].
  destruct (pixel_at bi _ _ Hbi Byc Bxf) as [v3 E3].
  destruct (pixel_at bi _ _ Hbi Byc Bxc) as [v4 E4].
  unfold bilinear, bilinear_wrapped. cbv zeta. rewrite Eyf, Eyc, Exf, Exc. simpl.
  rewrite E1, E2, E3, E4. simpl. split; [done|by eexists].
Qed.

Lemma bilinear_out_of_reach (px : nat → nat → option F) (y x : F) :
  ¬ reachable HH WW y x → bilinear HH WW px y x = None.
Proof.
  intros Hnot. unfold bilinear. cbv zeta.
  destruct (decide (in_reach HH (ffloor y))) as [Hyf|Hyf]; last first.
  { by rewrite (proj2 (py_index_reach _ _) Hyf). }
  destruct (proj1 (py_index_reach _ _) Hyf) as [-> _]. simpl.
  destruct (decide (in_reach HH (fceil y))) as [Hyc|Hyc]; last first.
  { by rewrite (proj2 (py_index_reach _ _) Hyc). }
  destruct (proj1 (py_index_reach _ _) Hyc) as [-> _]. simpl.
  destruct (decide (in_reach WW (ffloor x))) as [Hxf|Hxf]; last first.
  { by rewrite (proj2 (py_index_reach _ _) Hxf). }
  destruct (proj1 (py_index_reach _ _) Hxf) as [-> _]. simpl.
  destruct (decide (in_reach WW (fceil x))) as [Hxc|Hxc]; last first.
  { by rewrite (proj2 (py_index_reach _ _) Hxc). }
  exfalso. by apply Hnot.
Qed.

(** A returned value, entry by entry. *)
Lemma interpolate_entry res bi k x y :
  interpolate img coords = inr res → valid_index bi bs →
  tensor_get coords [k; 0] = Some x → tensor_get coords [k; 1] = Some y →
  reachable HH WW y x ∧
  ∃ v, tensor_get res (bi ++ [k]) = Some v ∧
    bilinear_wrapped img HH WW bi y x = Some v.
Proof using Hwf Hs Hcwf Hcs.
  intros Hres Hbi Hx Hy. destruct interpolate_unfold as (body & Hrun & Hbody).
  rewrite Hrun in Hres.
  assert (k < n) as Hlt.
  { unfold tensor_get in Hx. rewrite Hcs in Hx.
    destruct (ravel [n; 2] [k; 0]) as [off|] eqn:Hoff; [|done].
    apply ravel_Some_valid in Hoff. by inversion Hoff. }
  destruct (Hbody bi k Hbi Hlt) as (x' & y' & Hx' & Hy' & Hb).
  assert (x' = x) as -> by congruence. assert (y' = y) as -> by congruence.
  assert (valid_index (bi ++ [k]) (bs ++ [n])) as Hv.
  { apply Forall2_app; [done|]. by apply valid_index1. }
  pose proof (tabulate_inv _ _ _ Hres) as (Hsh & Hrwf & Hget).
  destruct (tensor_get_valid res (bi ++ [k]) Hrwf) as [v Hval]; [by rewrite Hsh|].
  pose proof Hval as Hval'. rewrite Hget, Hb in Hval' by done.
  destruct (decide (reachable HH WW y x)) as [Hr|Hnot]; last first.
  { by rewrite bilinear_out_of_reach in Hval'. }
  split; [done|]. exists v. split; [done|].
  by destruct (bilinear_reach bi y x Hbi Hr) as [<- _].
Qed.

(** With every coordinate in reach the call returns. *)
Lemma interpolate_returns :
  (∀ k x y, tensor_get coords [k; 0] = Some x → tensor_get coords [k; 1] = Some y →
     reachable HH WW y x) →
  ∃ res, interpolate img coords = inr res ∧ shape res = bs ++ [n].
Proof using Hwf Hs Hcwf Hcs.
  intros Hall. destruct interpolate_unfold as (body & Hrun & Hbody).
  rewrite Hrun. destruct (tabulate_ok (bs ++ [n]) body) as [res Hres].
  { intros idx (bi & ik & -> & Hbi & Hik)%valid_index_app_inv.
    apply valid_index1_inv in Hik as (k & -> & Hlt).
    destruct (Hbody bi k Hbi Hlt) as (x & y & Hx & Hy & ->).
    by destruct (bilinear_reach bi y x Hbi (Hall _ _ _ Hx Hy)) as [-> Hsome]. }
  exists res. split; [done|]. by apply tabulate_inv in Hres as (Hsh & _).
Qed.

(** X15.  [interpolate] returns exactly when floor and ceiling of every
    coordinate index the image, from the front or, when negative, from the
    end: a coordinate between -1 and 0 is interpolated between the last
    and the first row or column.  Every other call raises an IndexError.
    A returned value is the bilinear combination of the four pixels at the
    wrapped positions. *)
Theorem interpolate_returns_iff :
  0 < numel bs →
  ((∃ res, interpolate img coords = inr res) ↔
     ∀ k x y, tensor_get coords [k; 0] = Some x → tensor_get coords [k; 1] = Some y →
       reachable HH WW y x) ∧
  (∀ e, interpolate img coords = inl e → e = IndexError) ∧
  (∀ res bi k x y,
     interpolate img coords = inr res → valid_index bi bs →
     tensor_get coords [k; 0] = Some x → tensor_get coords [k; 1] = Some y →
     ∃ v, tensor_get res (bi ++ [k]) = Some v ∧
       bilinear_wrapped img HH WW bi y x = Some v).
Proof using Hwf Hs Hcwf Hcs.
  intros Hpos. split_and!.
  - split.
    + intros [res Hres] k x y Hx Hy.
      by destruct (interpolate_entry res (digits bs 0) k x y Hres
                     (digits_valid bs 0 Hpos) Hx Hy) as [Hr _].
    + intros Hall. destruct (interpolate_returns Hall) as (res & Hres & _). by exists res.
  - intros e. destruct interpolate_unfold as (body & -> & _). apply tabulate_raises.
  - intros res bi k x y Hres Hbi Hx Hy.
    by destruct (interpolate_entry res bi k x y Hres Hbi Hx Hy) as [_ Hv].
Qed.

End interpolate_any_dtype.

(* ----------------------------------------------------------------- *)
(** Exact arithmetic: the weights. *)

Lemma bilinear_weights (a b c d fy fx lo hi : Q) :
  (0 <= fy)%Q → (fy <= 1)%Q → (0 <= fx)%Q → (fx <= 1)%Q →
  (lo <= a)%Q ∧ (a <= hi)%Q → (lo <= b)%Q ∧ (b <= hi)%Q →
  (lo <= c)%Q ∧ (c <= hi)%Q → (lo <= d)%Q ∧ (d <= hi)%Q →
  (lo <= a * (1 - fy) * (1 - fx) + b * (1 - fy) * fx + c * fy * (1 - fx) + d * fy * fx)%Q ∧
  (a * (1 - fy) * (1 - fx) + b * (1 - fy) * fx + c * fy * (1 - fx) + d * fy * fx <= hi)%Q.
Proof.
  intros Hy0 Hy1 Hx0 Hx1 [] [] [] [].
  assert (0 <= (1 - fy) * (1 - fx))%Q by (apply Qmult_le_0_compat; Lqa.lra).
  assert (0 <= (1 - fy) * fx)%Q by (apply Qmult_le_0_compat; Lqa.lra).
  assert (0 <= fy * (1 - fx))%Q by (apply Qmult_le_0_compat; Lqa.lra).
  assert (0 <= fy * fx)%Q by (apply Qmult_le_0_compat; Lqa.lra).
  split; Lqa.nra.
Qed.

Lemma Qfrac_range (y : Q) :
  (0 <= y - inject_Z (Qfloor y))%Q ∧ (y - inject_Z (Qfloor y) <= 1)%Q.
Proof.
  pose proof (Qfloor_le y) as H0. pose proof (Qlt_floor y) as H1.
  rewrite inject_Z_plus in H1. change (inject_Z 1) with 1%Q in H1. split; Lqa.lra.
Qed.

(** X16.  Over the rationals a value [interpolate] returns lies between
    the smallest and the largest of the four pixels it is read from: the
    four weights are non-negative and add up to one.  At a point with
    integer coordinates it is the pixel at that point. *)
Theorem interpolate_between_pixels (img coords : tensor Q) (bs : list nat) (HH WW n : nat)
    (res : tensor Q) (bi : list nat) (k : nat) (x y : Q) :
  wf_tensor img → shape img = bs ++ [HH; WW] →
  wf_tensor coords → shape coords = [n; 2] →
  interpolate img coords = inr res → valid_index bi bs →
  tensor_get coords [k; 0] = Some x → tensor_get coords [k; 1] = Some y →
  ∃ v v_ff v_fc v_cf v_cc,
    tensor_get res (bi ++ [k]) = Some v ∧
    tensor_get img (bi ++ [wrap HH (Qfloor y); wrap WW (Qfloor x)]) = Some v_ff ∧
    tensor_get img (bi ++ [wrap HH (Qfloor y); wrap WW (Qceiling x)]) = Some v_fc ∧
    tensor_get img (bi ++ [wrap HH (Qceiling y); wrap WW (Qfloor x)]) = Some v_cf ∧
    tensor_get img (bi ++ [wrap HH (Qceiling y); wrap WW (Qceiling x)]) = Some v_cc ∧
    (∀ lo hi,
       (lo <= v_ff)%Q ∧ (v_ff <= hi)%Q → (lo <= v_fc)%Q ∧ (v_fc <= hi)%Q →
       (lo <= v_cf)%Q ∧ (v_cf <= hi)%Q → (lo <= v_cc)%Q ∧ (v_cc <= hi)%Q →
       (lo <= v)%Q ∧ (v <= hi)%Q) ∧
    ((y == inject_Z (Qfloor y))%Q → (x == inject_Z (Qfloor x))%Q → (v == v_ff)%Q).
Proof.
  intros Hwf Hs Hcwf Hcs Hres Hbi Hx Hy.
  destruct (interpolate_entry img coords bs HH WW n Hwf Hs Hcwf Hcs res bi k x y
              Hres Hbi Hx Hy) as (_ & v & Hv & Hb).
  unfold bilinear_wrapped in Hb. cbv zeta in Hb.
  cbn [ffloor fceil fadd fsub fmul fone of_int Q_arith] in Hb.
  destruct (tensor_get img (bi ++ [wrap HH (Qfloor y); wrap WW (Qfloor x)]))
    as [v_ff|]; [|done].
  destruct (tensor_get img (bi ++ [wrap HH (Qfloor y); wrap WW (Qceiling x)]))
    as [v_fc|]; [|done].
  destruct (tensor_get img (bi ++ [wrap HH (Qceiling y); wrap WW (Qfloor x)]))
    as [v_cf|]; [|done].
  destruct (tensor_get img (bi ++ [wrap HH (Qceiling y); wrap WW (Qceiling x)]))
    as [v_cc|]; [|done].
  cbn in Hb. injection Hb as <-.
  eexists _, v_ff, v_fc, v_cf, v_cc. split_and!; try done.
  - intros lo hi Hff Hfc Hcf Hcc.
    destruct (Qfrac_range y) as [Hy0 Hy1]. destruct (Qfrac_range x) as [Hx0 Hx1].
    by apply bilinear_weights.
  - intros Hyi Hxi.
    assert (y - inject_Z (Qfloor y) == 0)%Q as -> by Lqa.lra.
    assert (x - inject_Z (Qfloor x) == 0)%Q as -> by Lqa.lra.
    ring.
Qed.

(* ================================================================= *)
(** ** Sums and standard deviations over the reals *)

Lemma fsum_R_scale (k : R) (l : list R) : fsum (Rmult k <$> l) = (k * fsum l)%R.
Proof.
  induction l as [|x l IH]; cbn [fmap list_fmap].
  - rewrite fsum_R_nil. lra.
  - rewrite !fsum_R_cons, IH. lra.
Qed.

Lemma fsum_R_nonneg (l : list R) : Forall (λ x, (0 <= x)%R) l → (0 <= fsum l)%R.
Proof.
  induction 1 as [|x l Hx _ IH]; [rewrite fsum_R_nil; lra|].
  rewrite fsum_R_cons. lra.
Qed.

(** A sum of non-negative terms vanishes only if every term does. *)
Lemma fsum_R_zero (l : list R) :
  Forall (λ x, (0 <= x)%R) l → fsum l = 0%R → Forall (λ x, x = 0%R) l.
Proof.
  induction 1 as [|x l Hx Hl IH]; [constructor|].
  rewrite fsum_R_cons. intros Hsum. pose proof (fsum_R_nonneg l Hl).
  constructor; [lra|]. apply IH. lra.
Qed.

Lemma sqrt_scale (k y : R) : (0 <= k)%R → sqrt (k * k * y) = (k * sqrt y)%R.
Proof.
  intros Hk. rewrite sqrt_mult_alt by nra. by rewrite sqrt_square.
Qed.

Lemma fstd_R_scale (k : R) (l : list R) :
  (0 <= k)%R → fstd (Rmult k <$> l) = (k * fstd l)%R.
Proof.
  intros Hk. unfold fstd. cbv zeta. rewrite length_fmap, fsum_R_scale.
  cbn [fdiv fsub fmul fsqrt of_int R_arith R_scalar].
  set (n := length l). set (m := (fsum l / IZR (Z.of_nat n))%R).
  rewrite <-list_fmap_compose.
  rewrite (list_fmap_ext _ (Rmult (k * k) ∘ (λ x, ((x - m) * (x - m))%R)) l); last first.
  { intros i x _. cbn. unfold m. unfold Rdiv. ring. }
  rewrite list_fmap_compose, fsum_R_scale.
  rewrite <-sqrt_scale by done. f_equal. unfold Rdiv. ring.
Qed.

Lemma fstd_R_nonneg (l : list R) : (0 <= fstd l)%R.
Proof. unfold fstd. cbv zeta. cbn [fsqrt R_scalar]. apply sqrt_pos. Qed.

(* ================================================================= *)
(** ** The rescaling of [rotate_images] over the reals *)

(** X17.  Over the reals the rescaling of [rotate_images] does what it is
    there for: a rotated image whose interpolation has a non-zero standard
    deviation leaves the loop with the standard deviation of the image
    before the rotation. *)
Theorem rotate_one_keeps_std (squeezed full coords out : tensor R) (n C : nat) :
  wf_tensor squeezed → shape squeezed = [n; C] →
  rotate_one squeezed full coords = inr out →
  ∃ itp s si so,
    interpolate full coords = inr itp ∧
    reduce_last fstd true squeezed = inr s ∧
    reduce_last fstd true itp = inr si ∧
    reduce_last fstd true out = inr so ∧
    shape out = [n; C] ∧
    ∀ r, r < n →
      ∃ z zi zo,
        tensor_get s [r; 0] = Some z ∧ tensor_get si [r; 0] = Some zi ∧
        tensor_get so [r; 0] = Some zo ∧ (zi ≠ 0%R → zo = z).
Proof.
  intros Hwf Hs Hout.
  destruct (rotate_one_inv _ _ _ _ Hout) as (itp & Hitp & Hsh).
  pose proof (interpolate_wf _ _ _ Hitp) as Hiwf.
  pose proof (tensor_is_entry 0%R squeezed Hwf) as H1.
  pose proof (tensor_is_entry 0%R itp Hiwf) as H2.
  rewrite Hsh in H2. rewrite Hs in H1, H2.
  destruct (rescale_is squeezed itp n C _ _ H1 H2)
    as (s & si & ratio & out' & Es & Esi & Eratio & Eout & Hsi & Ho).
  destruct (reduce_last_keep_is fstd squeezed [n] C _ H1) as (s' & Es' & Hs').
  assert (s' = s) as -> by congruence.
  unfold rotate_one in Hout. rewrite Hitp in Hout. cbn [rbind] in Hout.
  unfold shape_eqb in Hout. rewrite bool_decide_eq_true_2 in Hout by congruence.
  cbn [assert_ rbind ret] in Hout. rewrite Es, Esi in Hout. cbn [rbind] in Hout.
  rewrite Eratio in Hout. cbn [rbind] in Hout. rewrite Eout in Hout.
  injection Hout as <-.
  destruct (reduce_last_keep_is fstd out' [n] C _ Ho) as (so & Eso & Hso).
  exists itp, s, si, so. split_and!; try done.
  { by destruct Ho as (-> & _). }
  intros r Hr.
  assert (valid_index [r; 0] ([n] ++ [1])) as Hv by (apply valid_index2; lia).
  eexists _, _, _. split; [by apply (tensor_is_get _ _ _ _ Hs')|].
  split; [by apply (tensor_is_get _ _ _ _ Hsi)|].
  split; [by apply (tensor_is_get _ _ _ _ Hso)|].
  cbn [take app length]. intros Hzi.
  set (a := fstd ((λ p, entry 0%R squeezed [r; p]) <$> seq 0 C)) in *.
  set (b := fstd ((λ p, entry 0%R itp [r; p]) <$> seq 0 C)) in *.
  pose proof (fstd_R_nonneg ((λ p, entry 0%R squeezed [r; p]) <$> seq 0 C)) as Ha.
  pose proof (fstd_R_nonneg ((λ p, entry 0%R itp [r; p]) <$> seq 0 C)) as Hb.
  fold a in Ha. fold b in Hb.
  assert (0 <= a / b)%R as Hab.
  { apply Rmult_le_pos; [done|]. apply Rlt_le, Rinv_0_lt_compat. lra. }
  rewrite (list_fmap_ext _ (Rmult (a / b) ∘ (λ p, entry 0%R itp [r; p])) (seq 0 C));
    last first.
  { intros i p _. cbn. lra. }
  rewrite list_fmap_compose, fstd_R_scale by done. fold b. field. done.
Qed.

(** The loop body returns whenever the interpolation does, with the
    shape of the masked images. *)
Lemma rotate_one_returns {F : Type} `{Scalar F} (squeezed full coords itp : tensor F)
    (n C : nat) :
  wf_tensor squeezed → shape squeezed = [n; C] →
  interpolate full coords = inr itp → shape itp = [n; C] →
  ∃ out, rotate_one squeezed full coords = inr out.
Proof.
  intros Hwf Hs Hitp Hsh.
  pose proof (interpolate_wf _ _ _ Hitp) as Hiwf.
  pose proof (tensor_is_entry fzero squeezed Hwf) as H1.
  pose proof (tensor_is_entry fzero itp Hiwf) as H2.
  rewrite Hsh in H2. rewrite Hs in H1.
  destruct (rescale_is squeezed itp n C _ _ H1 H2)
    as (s & si & ratio & out & Es & Esi & Eratio & Eout & _).
  exists out. unfold rotate_one. rewrite Hitp. cbn [rbind].
  unfold shape_eqb. rewrite bool_decide_eq_true_2 by congruence.
  cbn [assert_ rbind ret]. rewrite Es, Esi. cbn [rbind]. rewrite Eratio. cbn [rbind].
  done.
Qed.

(* ================================================================= *)
(** ** The losses over the reals *)

Section real_losses.
Context (images y_hat : tensor R) (B T N Q P : nat).
Hypothesis Hdoc : documented_shapes images y_hat B T N Q P.

Lemma doc_images_is : tensor_is images [B; T; P] (entry 0%R images).
Proof using Hdoc. destruct Hdoc as (Hwf & <- & _). by apply tensor_is_entry. Qed.

Lemma doc_y_hat_is : tensor_is y_hat [N; 1; Q; P] (entry 0%R y_hat).
Proof using Hdoc. destruct Hdoc as (_ & _ & Hwf & <- & _). by apply tensor_is_entry. Qed.

Lemma doc_entries b t q p :
  b < B → t < T → q < Q → p < P →
  tensor_get images [b; t; p] = Some (entry 0%R images [b; t; p]) ∧
  tensor_get y_hat [bfix N b; 0; q; p] = Some (entry 0%R y_hat [bfix N b; 0; q; p]).
Proof using Hdoc.
  intros Hb Ht Hq Hp. pose proof Hdoc as (_ & _ & _ & _ & HN). split.
  - apply (tensor_is_get _ _ _ _ doc_images_is). by apply valid_index3.
  - apply (tensor_is_get _ _ _ _ doc_y_hat_is).
    apply valid_index4; [by apply (bfix_batch B)|lia|done|done].
Qed.

(** The "mse" loss entry by entry: a sum of squares. *)
Lemma mse_entry :
  ∃ e f, compute_err "mse" images y_hat = inr e ∧ tensor_is e [B; T; Q] f ∧
    ∀ b t q, b < B → t < T → q < Q →
      (0 <= f [b; t; q])%R ∧
      (f [b; t; q] = 0%R ↔
       ∀ p, p < P →
         tensor_get images [b; t; p] = tensor_get y_hat [bfix N b; 0; q; p]).
Proof using Hdoc.
  pose proof Hdoc as (_ & _ & _ & _ & HN).
  destruct (compute_err_mse_is _ _ B T N Q P _ _ doc_images_is doc_y_hat_is HN)
    as (e & He & His).
  eexists e, _. split; [done|]. split; [done|]. intros b t q Hb Ht Hq.
  cbv beta iota zeta.
  set (sq := λ p, fmul (fsub (entry 0%R images [b; t; p])
                             (entry 0%R y_hat [bfix N b; 0; q; p]))
                       (fsub (entry 0%R images [b; t; p])
                             (entry 0%R y_hat [bfix N b; 0; q; p]))).
  assert (Forall (λ x, (0 <= x)%R) (sq <$> seq 0 P)) as Hpos.
  { apply Forall_fmap, Forall_forall. intros p _. unfold sq.
    cbn [fmul fsub R_arith]. apply Rle_0_sqr. }
  split; [by apply fsum_R_nonneg|]. split.
  - intros Hz p Hp. apply (fsum_R_zero _ Hpos) in Hz.
    rewrite Forall_fmap, Forall_forall in Hz.
    specialize (Hz p). cbn in Hz. unfold sq in Hz. cbn in Hz.
    destruct (doc_entries b t q p Hb Ht Hq Hp) as [-> ->]. f_equal.
    assert (p ∈ seq 0 P) as Hin by (apply elem_of_seq; lia). specialize (Hz Hin).
    apply Rsqr_0_uniq in Hz. lra.
  - intros Heq. apply fsum_R_zeros, Forall_fmap, Forall_forall.
    intros p Hp%elem_of_seq. cbn. unfold sq. cbn.
    assert (p < P) as Hlt by lia. specialize (Heq p Hlt).
    destruct (doc_entries b t q p Hb Ht Hq Hlt) as [E1 E2]. rewrite E1, E2 in Heq.
    injection Heq as ->. lra.
Qed.

End real_losses.

(** X18.  Over the reals the "mse" loss is never negative; without a tilt
    pair an entry is zero exactly when the observed row and the candidate
    agree at every pixel, and with a tilt pair a zero entry still needs
    that. *)
Theorem mse_zero_iff_match (images y_hat : tensor R) (tilt : option (tensor R * tensor R))
    (B T N Q P : nat) :
  documented_shapes images y_hat B T N Q P → tilt_documented tilt B T N Q P →
  ∃ err, eval_grid "mse" images y_hat tilt = inr err ∧ shape err = [B; T; Q] ∧
    ∀ b t q, b < B → t < T → q < Q →
      ∃ v, tensor_get err [b; t; q] = Some v ∧ (0 <= v)%R ∧
        (v = 0%R →
         ∀ p, p < P →
           tensor_get images [b; t; p] = tensor_get y_hat [bfix N b; 0; q; p]) ∧
        (tilt = None →
         (∀ p, p < P →
            tensor_get images [b; t; p] = tensor_get y_hat [bfix N b; 0; q; p]) →
         v = 0%R).
Proof.
  intros Hdoc Htilt.
  destruct (mse_entry images y_hat B T N Q P Hdoc) as (e & f & He & His & Hentry).
  unfold eval_grid. rewrite He. cbn [rbind].
  destruct tilt as [[it yt]|].
  - destruct (mse_entry it yt B T N Q P Htilt) as (e' & f' & He' & His' & Hentry').
    rewrite He'. cbn [rbind].
    destruct (binop_inplace_is fadd e e' _ _ _ His His') as (r & -> & Hr).
    exists r. split; [done|]. split; [by destruct Hr as (-> & _)|].
    intros b t q Hb Ht Hq.
    destruct (Hentry b t q Hb Ht Hq) as (Hpos & Hz).
    destruct (Hentry' b t q Hb Ht Hq) as (Hpos' & _).
    assert (valid_index [b; t; q] [B; T; Q]) as Hvalid by by apply valid_index3.
    eexists. split; [by apply (tensor_is_get _ _ _ _ Hr)|]. cbv beta.
    cbn [fadd R_arith]. split; [lra|]. split; [|done].
    intros Hsum. apply Hz. lra.
  - exists e. split; [done|]. split; [by destruct His as (-> & _)|].
    intros b t q Hb Ht Hq.
    destruct (Hentry b t q Hb Ht Hq) as (Hpos & Hz).
    assert (valid_index [b; t; q] [B; T; Q]) as Hvalid by by apply valid_index3.
    eexists. split; [by apply (tensor_is_get _ _ _ _ His)|].
    split_and!; try done; [apply Hz|]. intros _. apply Hz.
Qed.

(** X19.  Over the reals the "cor" loss does not see the scale of the
    prediction: multiplying the prediction by a positive factor leaves
    every entry whose candidate has a non-zero standard deviation as it
    was. *)
Theorem cor_ignores_scale (images y_hat : tensor R) (B T N Q P : nat) (k : R) :
  documented_shapes images y_hat B T N Q P → (0 < k)%R →
  ∃ err err' sd,
    eval_grid "cor" images y_hat None = inr err ∧
    eval_grid "cor" images (map1 (Rmult k) y_hat) None = inr err' ∧
    reduce_last fstd false y_hat = inr sd ∧
    ∀ b t q, b < B → t < T → q < Q →
      ∃ z v, tensor_get sd [bfix N b; 0; q] = Some z ∧
        tensor_get err [b; t; q] = Some v ∧
        (z ≠ 0%R → tensor_get err' [b; t; q] = Some v).
Proof.
  intros Hdoc Hk. pose proof Hdoc as (_ & _ & _ & _ & HN).
  pose proof (doc_images_is _ _ _ _ _ _ _ Hdoc) as Hi.
  pose proof (doc_y_hat_is _ _ _ _ _ _ _ Hdoc) as Hy.
  pose proof (map1_is (Rmult k) _ _ _ Hy) as Hy'.
  destruct (compute_err_cor_is _ _ B T N Q P _ _ Hi Hy HN) as (e & He & His).
  destruct (compute_err_cor_is _ _ B T N Q P _ _ Hi Hy' HN) as (e' & He' & His').
  destruct (reduce_last_is fstd y_hat [N; 1; Q] P _ Hy) as (sd & Hsd & Hsdi).
  exists e, e', sd. unfold eval_grid. rewrite He, He'. split_and!; try done.
  intros b t q Hb Ht Hq.
  assert (valid_index [b; t; q] [B; T; Q]) as Hv by by apply valid_index3.
  assert (valid_index [bfix N b; 0; q] [N; 1; Q]) as Hv'.
  { apply valid_index3; [by apply (bfix_batch B)|lia|done]. }
  eexists _, _. split; [by apply (tensor_is_get _ _ _ _ Hsdi)|].
  split; [by apply (tensor_is_get _ _ _ _ His)|].
  cbn [app]. intros Hz. rewrite (tensor_is_get _ _ _ _ His') by done. f_equal.
  cbv beta iota.
  set (row := λ p, entry 0%R y_hat [bfix N b; 0; q; p]).
  set (img := λ p, entry 0%R images [b; t; p]).
  change (fdiv (fneg (fsum ((λ p, fmul (img p) (k * row p)%R) <$> seq 0 P)))
               (fstd ((λ p, (k * row p)%R) <$> seq 0 P))
          = fdiv (fneg (fsum ((λ p, fmul (img p) (row p)) <$> seq 0 P)))
                 (fstd (row <$> seq 0 P))).
  change (fstd (row <$> seq 0 P) ≠ 0%R) in Hz.
  rewrite (list_fmap_ext (λ p, fmul (img p) (k * row p)%R)
             (Rmult k ∘ (λ p, fmul (img p) (row p))) (seq 0 P)); last first.
  { intros i p _. cbn. lra. }
  rewrite (list_fmap_ext (λ p, (k * row p)%R) (Rmult k ∘ row) (seq 0 P)) by done.
  rewrite !list_fmap_compose, fsum_R_scale, fstd_R_scale by lra.
  cbn [fdiv fneg R_scalar]. field. split; [done|lra].
Qed.

(* ================================================================= *)
(** ** The losses on empty inputs *)

Section empty_inputs.
Context {F : Type} `{Scalar F}.

Lemma compute_err_msf_empty (images y_hat : tensor F) (B T N Q P : nat) :
  documented_shapes images y_hat B T N Q P → B * T * P = 0 →
  ∃ msg, compute_err "msf" images y_hat = inl (RuntimeError msg).
Proof.
  intros (Hwf & Hs & Hywf & Hys & HN) Hzero.
  assert (tensor_is images [B; T; P] (entry fzero images)) as Hi.
  { rewrite <-Hs. by apply tensor_is_entry. }
  assert (tensor_is y_hat [N; 1; Q; P] (entry fzero y_hat)) as Hy.
  { rewrite <-Hys. by apply tensor_is_entry. }
  unfold compute_err.
  destruct (unsqueeze2_is _ _ _ _ _ Hi) as (im & -> & Hdata & Him).
  cbn [rbind String.eqb Ascii.eqb Bool.eqb].
  pose proof Him as (-> & _ & _).
  destruct (decide (B * P = 0)) as [HBP|HBP].
  { unfold view_infer. cbv zeta. rewrite decide_True; [by eexists|].
    change (numel [B]) with (B * 1). change (numel [P]) with (P * 1). lia. }
  assert (T = 0) as -> by nia.
  (* images.view(B, -1, Npix) *)
  rewrite (view_infer_eq im [B] [P] 0); cycle 1.
  { rewrite (tensor_is_length _ _ _ Him), numel4. change (numel [B]) with (B * 1).
    change (numel [P]) with (P * 1). lia. }
  { change (numel [B]) with (B * 1). change (numel [P]) with (P * 1). lia. }
  cbn [rbind app]. rewrite Hdata.
  pose proof (tensor_is_data _ _ _ Hi) as Ha.
  unfold shape0. rewrite Hys. cbn [rbind ret].
  (* y_hat.view(N, -1, Npix) *)
  rewrite (view_infer_eq y_hat [N] [P] Q); cycle 1.
  { rewrite (tensor_is_length _ _ _ Hy), numel4. change (numel [N]) with (N * 1).
    change (numel [P]) with (P * 1). lia. }
  { change (numel [N]) with (N * 1). change (numel [P]) with (P * 1). nia. }
  cbn [rbind app].
  assert (tensor_is (Tensor [N; Q; P] (data y_hat)) [N; Q; P]
            (λ idx, entry fzero y_hat
                      (match idx with [n; q; p] => [n; 0; q; p] | _ => idx end))) as Hb.
  { eapply reshape_is; [exact Hy|by rewrite numel3, numel4; lia|].
    intros idx Hv. inv_valid Hv. split; [apply valid_index4; lia|].
    rewrite ravel3, ravel4 by lia. f_equal. lia. }
  destruct (transpose3_is _ _ _ _ _ Hb) as (bt & -> & Hbt). cbn [rbind].
  destruct (matmul3_is _ _ _ _ _ _ _ _ _ Ha Hbt (compat_batch _ _ HN)) as (ab & -> & Hab).
  cbn [rbind].
  (* .view(B, T, -1) with T = 0 *)
  unfold view_infer. cbv zeta. rewrite decide_True; [by eexists|].
  change (numel [B; 0]) with (B * (0 * 1)). lia.
Qed.

Lemma eval_grid_empty (images y_hat : tensor F) (tilt : option (tensor F * tensor F))
    (B T N Q P : nat) :
  documented_shapes images y_hat B T N Q P → tilt_documented tilt B T N Q P →
  B * T * P = 0 →
  (∃ e, eval_grid "mse" images y_hat tilt = inr e ∧ shape e = [B; T; Q]) ∧
  (∃ msg, eval_grid "msf" images y_hat tilt = inl (RuntimeError msg)).
Proof.
  intros Hdoc Htilt Hzero. split.
  - assert (∀ im yh, documented_shapes im yh B T N Q P →
              ∃ e f, compute_err "mse" im yh = inr e ∧ tensor_is e [B; T; Q] f) as Hmse.
    { intros im yh (Hwf & Hs & Hywf & Hys & HN).
      assert (tensor_is im [B; T; P] (entry fzero im)) as Hi.
      { rewrite <-Hs. by apply tensor_is_entry. }
      assert (tensor_is yh [N; 1; Q; P] (entry fzero yh)) as Hy.
      { rewrite <-Hys. by apply tensor_is_entry. }
      destruct (compute_err_mse_is _ _ B T N Q P _ _ Hi Hy HN) as (e & He & His).
      by eexists e, _. }
    destruct (Hmse _ _ Hdoc) as (e & f & He & His).
    unfold eval_grid. rewrite He. cbn [rbind].
    destruct tilt as [[it yt]|]; [|exists e; split; [done|by destruct His as (-> & _)]].
    destruct (Hmse _ _ Htilt) as (e' & f' & He' & His'). rewrite He'. cbn [rbind].
    destruct (binop_inplace_is fadd e e' _ _ _ His His') as (r & -> & Hr).
    exists r. split; [done|]. by destruct Hr as (-> & _).
  - destruct (compute_err_msf_empty _ _ _ _ _ _ _ Hdoc Hzero) as [msg Hmsg].
    exists msg. unfold eval_grid. by rewrite Hmsg.
Qed.

(** The whole of [eval_grid] is its part from line 106 on, run on the
    candidate images that lines 88-105 produce. *)
Lemma eval_grid_full_tail loss_fn (images : tensor F) model_out NQ YX inplane tilt
    y_hat tilt' :
  1 ≤ length (shape images) →
  predict model_out NQ YX inplane = inr y_hat →
  tilt_predicted tilt NQ YX inplane tilt' →
  eval_grid_full loss_fn images model_out NQ YX inplane tilt
  = eval_grid loss_fn images y_hat tilt'.
Proof.
  intros Hrank Hpred Htilt. unfold eval_grid_full, eval_grid, compute_err_full, shape0.
  destruct (shape images) as [|B s]; [cbn in Hrank; lia|]. cbn [rbind].
  rewrite Hpred. cbn [rbind].
  destruct (compute_err loss_fn images y_hat) as [e|err]; [done|]. cbn [rbind].
  destruct tilt as [[[it mo] lv]|], tilt' as [[it' yt]|]; try done.
  destruct Htilt as [-> Hpt]. rewrite Hpt. done.
Qed.

Lemma predict_documented (images : tensor F) model_out (B T N Q P : nat) :
  outputs_documented images model_out B T N Q P → 0 < Q * P →
  ∃ y_hat, predict model_out Q P None = inr y_hat ∧
           documented_shapes images y_hat B T N Q P.
Proof.
  intros (Hwf & Hs & HN & raw & -> & Hlen) Hpos.
  exists (Tensor [N; 1; Q; P] (data raw)). split.
  - unfold predict. cbn [rbind]. unfold view_infer. cbv zeta.
    change (numel []) with 1. change (numel [1; Q; P]) with (1 * (Q * (P * 1))).
    rewrite decide_False by lia. rewrite Hlen.
    replace (N * Q * P) with (N * (1 * (1 * (Q * (P * 1))))) by lia.
    rewrite Nat.Div0.mod_mul, decide_True by done.
    rewrite Nat.div_mul by lia. done.
  - split; [done|]. split; [done|]. split; [|done].
    unfold wf_tensor. cbn [shape data]. rewrite numel4. lia.
Qed.

Lemma predict_no_pixel (model_out : result (tensor F)) (raw : tensor F) Q P inplane :
  model_out = inr raw → Q * P = 0 →
  ∃ msg, predict model_out Q P inplane = inl (RuntimeError msg).
Proof.
  intros -> Hzero. unfold predict. cbn [rbind]. unfold view_infer. cbv zeta.
  change (numel []) with 1. change (numel [1; Q; P]) with (1 * (Q * (P * 1))).
  rewrite decide_True by lia. by eexists.
Qed.

(** X20.  The whole of [eval_grid] on arguments of the documented shapes.
    With no pixel within the mask or no candidate (Q * Npix = 0) the call
    raises a RuntimeError for every [loss_fn], with or without in-plane
    angles: [y_hat.view(-1, 1, NQ, YX)] cannot infer its first extent.
    With pixels and candidates but no image or no translation
    (B * T = 0), and without in-plane angles, the "mse" loss returns an
    empty B x T x Q tensor while the "msf" loss raises a RuntimeError: one
    of its [view] calls cannot infer an extent. *)
Theorem msf_raises_on_empty (images : tensor F) (model_out : result (tensor F))
    (tilt : option (tensor F * result (tensor F) * lattice_view F)) (B T N Q P : nat) :
  outputs_documented images model_out B T N Q P →
  tilt_outputs_documented tilt B T N Q P →
  (Q * P = 0 → ∀ loss_fn inplane,
     ∃ msg, eval_grid_full loss_fn images model_out Q P inplane tilt
            = inl (RuntimeError msg)) ∧
  (0 < Q * P → B * T = 0 →
     (∃ e, eval_grid_full "mse" images model_out Q P None tilt = inr e ∧
           shape e = [B; T; Q]) ∧
     (∃ msg, eval_grid_full "msf" images model_out Q P None tilt
             = inl (RuntimeError msg))).
Proof.
  intros Hdoc Htilt. split.
  - intros Hzero loss_fn inplane.
    pose proof Hdoc as (Hwf & Hs & HN & raw & Hraw & Hlen).
    destruct (predict_no_pixel model_out raw Q P inplane Hraw Hzero) as [msg Hmsg].
    exists msg. unfold eval_grid_full, compute_err_full, shape0. rewrite Hs. cbn [rbind].
    by rewrite Hmsg.
  - intros Hpos Hzero.
    destruct (predict_documented _ _ _ _ _ _ _ Hdoc Hpos) as (y_hat & Hpred & Hshapes).
    assert (∃ tilt', tilt_predicted tilt Q P None tilt' ∧ tilt_documented tilt' B T N Q P)
      as (tilt' & Hpt & Hdt).
    { destruct tilt as [[[it mo] lv]|]; [|by exists None].
      destruct (predict_documented _ _ _ _ _ _ _ Htilt Hpos) as (yt & Hyt & Hst).
      by exists (Some (it, yt)). }
    assert (1 ≤ length (shape images)) as Hrank.
    { destruct Hdoc as (_ & -> & _). cbn. lia. }
    rewrite !(eval_grid_full_tail _ images model_out Q P None tilt y_hat tilt') by done.
    apply (eval_grid_empty images y_hat tilt' B T N Q P); [done..|]. nia.
Qed.

End empty_inputs.

(* ================================================================= *)
(** ** The theorems at concrete inputs *)

Lemma Zleb_total (x y : Z) : (x <=? y)%Z = true ∨ (y <=? x)%Z = true.
Proof. destruct (Z.leb_spec x y); [by left|right]. apply Z.leb_le. lia. Qed.

Lemma Zleb_trans (x y z : Z) :
  (x <=? y)%Z = true → (y <=? z)%Z = true → (x <=? z)%Z = true.
Proof. rewrite !Z.leb_le. lia. Qed.

Lemma keep_matrix_topk_witness :
  ∃ keep_idx, keep_matrix Z.leb loss23 2 2 = inr keep_idx ∧ length keep_idx = 2.
Proof.
  destruct (keep_matrix_topk Z.leb Zleb_total Zleb_trans loss23 2 [3] 2)
    as (keep_idx & Hk & Hlen & _).
  - reflexivity.
  - reflexivity.
  - lia.
  - vm_compute. lia.
  - exists keep_idx. split; [exact Hk|exact Hlen].
Defined.

(** C1 as stated fails for an empty batch: [loss.view(0, -1)] raises. *)
Lemma keep_matrix_empty_batch :
  let loss : tensor Z := Tensor [0; 3] [] in
  wf_tensor loss ∧ shape loss = 0 :: [3] ∧ 2 ≤ numel [3] ∧
  ¬ ∃ keep_idx, keep_matrix Z.leb loss 0 2 = inr keep_idx.
Proof.
  cbn zeta. split_and!; [reflexivity|reflexivity|vm_compute; lia|].
  intros [keep_idx Hk]. vm_compute in Hk. discriminate.
Qed.

Lemma getL_schedule_witness :
  getL 12 24 1 5 = Z.min (12 * 2 ^ 1) 24 ∧ (getL 12 24 1 5 ≤ 24)%Z.
Proof.
  destruct (getL_schedule 12 24 1 5) as (H1 & H2 & _).
  - lia.
  - split; [exact H1|exact H2].
Defined.

(** C9 as stated fails when two rotation queries share a cell but not the
    quaternion: the second is answered with the children computed for the
    first. *)
Lemma memoised_so3_stale :
  let q1 : tensor Z := Tensor [4] [1; 0; 0; 0]%Z in
  let q2 : tensor Z := Tensor [4] [0; 1; 1; 0]%Z in
  let st := run_calls (H := toy_collab 1) (toy_self 3 1) [CallSo3 q1 0 0 1] (new_state false) in
  (get_neighbor_so3 (H := toy_collab 1) q2 0 0 1 st).1
  ≠ inr (so3_get_neighbor (Collaborators := toy_collab 1) q2 0 0 1).
Proof. cbn zeta. vm_compute. discriminate. Qed.

Lemma opt_theta_trans_requires_eval_mode_witness :
  opt_theta_trans (H := toy_collab 2) Z.leb (toy_self 3 1) 2 0 None (new_state true)
  = (inl AssertionError, new_state true).
Proof.
  destruct (opt_theta_trans_requires_eval_mode (H := toy_collab 2) Z.leb (toy_self 3 1)
              2 0 None (new_state true)) as [H1 _].
  - reflexivity.
  - exact H1.
Defined.

(* ----------------------------------------------------------------- *)
(** The toy grid keeps the contract of the grid modules. *)

Lemma toy_child_pairs8 (l : list Z) c a b :
  length l = 16 →
  child_pairs (Tensor [8; 2] l) c = Some (a, b) →
  c < 8 ∧ l !! (c * 2 + 0) = Some a ∧ l !! (c * 2 + 1) = Some b.
Proof.
  intros Hlen. unfold child_pairs, tensor_get. cbn [shape data].
  destruct (decide (c < 8)) as [Hc|Hc]; last first.
  { cbn [ravel]. rewrite !(decide_False (P := c < 8)) by done. done. }
  rewrite !ravel2 by lia. change (Some ?o ≫= ?f) with (f o). cbn beta.
  destruct (l !! (c * 2 + 0)) as [a'|]; [|done].
  destruct (l !! (c * 2 + 1)) as [b'|]; [|done]. by intros [= <- <-].
Qed.

Lemma toy_child_pairs4 (l : list Z) c a b :
  length l = 8 →
  child_pairs (Tensor [4; 2] l) c = Some (a, b) →
  c < 4 ∧ l !! (c * 2 + 0) = Some a ∧ l !! (c * 2 + 1) = Some b.
Proof.
  intros Hlen. unfold child_pairs, tensor_get. cbn [shape data].
  destruct (decide (c < 4)) as [Hc|Hc]; last first.
  { cbn [ravel]. rewrite !(decide_False (P := c < 4)) by done. done. }
  rewrite !ravel2 by lia. change (Some ?o ≫= ?f) with (f o). cbn beta.
  destruct (l !! (c * 2 + 0)) as [a'|]; [|done].
  destruct (l !! (c * 2 + 1)) as [b'|]; [|done]. by intros [= <- <-].
Qed.

Lemma toy_contract (B nkept : nat) (healpy : Z) :
  grid_contract (H := toy_collab B) (toy_self nkept healpy) toy_valid_rot toy_valid_shift.
Proof.
  split.
  - intros quat s2i s1i res _. cbn. by split_and!.
  - intros quat s2i s1i res c a b [Hs2 Hs1] Hc. cbn in Hc.
    apply toy_child_pairs8 in Hc as (Hc & Ha & Hb); [|done].
    assert (0 ≤ res)%Z as Hres.
    { destruct (decide (0 ≤ res)%Z); [done|]. rewrite Z.pow_neg_r in Hs2; lia. }
    unfold toy_valid_rot. rewrite !Z.pow_add_r, !Z.pow_1_r by lia.
    do 8 (destruct c as [|c]; [cbn in Ha, Hb; injection Ha as <-; injection Hb as <-; lia|]).
    lia.
  - intros x y res _. cbn. by split_and!.
  - intros x y res c a b [Hx Hy] Hc. cbn in Hc.
    apply toy_child_pairs4 in Hc as (Hc & Ha & Hb); [|done].
    assert (0 ≤ res)%Z as Hres.
    { destruct (decide (0 ≤ res)%Z); [done|]. rewrite Z.pow_neg_r in Hx; lia. }
    unfold toy_valid_shift. rewrite !Z.pow_add_r, !Z.pow_1_r by lia.
    do 4 (destruct c as [|c]; [cbn in Ha, Hb; injection Ha as <-; injection Hb as <-; lia|]).
    lia.
  - intros q n Hs Hwf. unfold wf_tensor in Hwf. rewrite Hs in Hwf.
    change (numel [n; 4]) with (n * (4 * 1)) in Hwf.
    cbn [quaternions_to_SO3 toy_collab]. rewrite Hwf.
    replace (n * (4 * 1) / 4) with n by (rewrite Nat.mul_1_r, Nat.div_mul; lia).
    split; [done|]. unfold wf_tensor. cbn [shape data].
    rewrite length_join, (sum_list_fmap_same 9), length_fmap, length_seq.
    + unfold numel. cbn. lia.
    + apply Forall_fmap, Forall_forall. intros i _. cbn. done.
Qed.

(** Two candidates at resolution 2: rotation cells (1, 2) and (3, 0),
    shift cells (1, 2) and (0, 3). *)
Lemma subdivide_fan_out_witness :
  ∃ quat' q_ind' t_ind' rot trans st',
    subdivide (H := toy_collab 1) (toy_self 3 1)
      (Tensor [2; 4] [1; 0; 0; 0; 0; 1; 0; 0]%Z) (Tensor [2; 2] [1; 2; 3; 0]%Z)
      (Tensor [2; 2] [1; 2; 0; 3]%Z) 2 (new_state false)
    = (inr (quat', q_ind', t_ind', rot, trans), st') ∧
    shape quat' = [2; 8; 4] ∧ shape q_ind' = [2; 8; 2] ∧ shape t_ind' = [2; 4; 2] ∧
    shape rot = [2 * 8; 3; 3] ∧ shape trans = [2 * 4; 2].
Proof.
  destruct (subdivide_fan_out (H := toy_collab 1) (toy_self 3 1) toy_valid_rot toy_valid_shift
              (Tensor [2; 4] [1; 0; 0; 0; 0; 1; 0; 0]%Z) (Tensor [2; 2] [1; 2; 3; 0]%Z)
              (Tensor [2; 2] [1; 2; 0; 3]%Z) 2 2 (new_state false))
    as [(quat' & q_ind' & t_ind' & rot & trans & st' & Hrun & _ & [Hq _] & [Hqi _] & [Hti _]
         & [Hr _] & [Ht _] & _) _].
  - apply toy_contract.
  - apply cache_ok_new.
  - lia.
  - reflexivity.
  - split; reflexivity.
  - split; reflexivity.
  - intros [|[|i]] s2i s1i; vm_compute; intros Hc; [| |discriminate];
      injection Hc as <- <-; split; split; discriminate || reflexivity.
  - intros [|[|i]] x y; vm_compute; intros Hc; [| |discriminate];
      injection Hc as <- <-; split; split; discriminate || reflexivity.
  - exists quat', q_ind', t_ind', rot, trans, st'. repeat split; assumption.
Defined.

(** C2 as stated fails twice.  For an empty candidate set [np.array([])]
    has shape (0,), and the first assertion on the results fails.  And a
    deviation need not reach the assertions: for one valid candidate and a
    rotation query that returns three numbers where eight quaternions are
    due, [view(-1, 4)] raises a RuntimeError before them. *)
Lemma subdivide_empty_raises :
  (let quat : tensor Z := Tensor [0; 4] [] in
   let ind : tensor Z := Tensor [0; 2] [] in
   shape quat = [0; 4] ∧ wf_tensor quat ∧ shape ind = [0; 2] ∧ wf_tensor ind ∧
   (subdivide (H := toy_collab 1) (toy_self 3 1) quat ind ind 1 (new_state false)).1
   = inl AssertionError) ∧
  (let quat : tensor Z := Tensor [1; 4] [1; 0; 0; 0]%Z in
   let ind : tensor Z := Tensor [1; 2] [1; 2]%Z in
   shape quat = [1; 4] ∧ wf_tensor quat ∧ shape ind = [1; 2] ∧ wf_tensor ind ∧
   (so3_get_neighbor (Collaborators := odd_collab) (Tensor [4] [1; 0; 0; 0]%Z) 1 2 2).1
   = Tensor [3] [0; 0; 0]%Z ∧
   (subdivide (H := odd_collab) (toy_self 3 1) quat ind ind 2 (new_state false)).1
   = inl (RuntimeError "shape [-1, c] is invalid for input size") ∧
   (subdivide (H := odd_collab) (toy_self 3 1) quat ind ind 2 (new_state false)).1
   ≠ inl AssertionError).
Proof.
  split; cbn zeta; split_and!; try reflexivity. vm_compute. discriminate.
Qed.

(** Two images on the toy grid: 4 shifts, 12 rotations, 3 kept poses. *)
Lemma opt_theta_trans_no_iterations_witness :
  ∃ best_rot best_trans new_init_poses,
    (opt_theta_trans (H := toy_collab 2) Z.leb (toy_self 3 1) 2 0 None (new_state false)).1
    = inr (best_rot, best_trans, new_init_poses) ∧
    shape best_rot = [2; 3; 3] ∧ shape best_trans = [2; 2] ∧
    shape new_init_poses = [2; 3; 2].
Proof.
  destruct (opt_theta_trans_no_iterations (H := toy_collab 2) Z.leb (toy_self 3 1)
              Zleb_total Zleb_trans 2 4 12 (toy_loss 2 4 12) (new_state false))
    as (best_rot & best_trans & p & keepB & keepT & keepQ & Hrun & Hr & Ht & _ & _ & Hp & _).
  - reflexivity.
  - vm_compute. discriminate.
  - lia.
  - reflexivity.
  - split; reflexivity.
  - vm_compute. lia.
  - lia.
  - split; reflexivity.
  - split; reflexivity.
  - split; reflexivity.
  - exists best_rot, best_trans, p. rewrite Hrun. repeat split; assumption.
Defined.

(** C5 as stated fails outside its unstated preconditions: with base
    level 0 the loop runs once for niter = 0 (two scorer calls, a filled
    rotation table); with more kept poses than base candidates, and with an
    empty batch, the first pruning step raises. *)
Lemma opt_theta_trans_niter0_preconditions :
  (let r := opt_theta_trans (H := toy_collab 2) Z.leb (toy_self 3 0) 2 0 None (new_state false) in
   length (eval_log r.2) = 2 ∧ size (so3_neighbor_cache r.2) ≠ 0) ∧
  (∃ msg, (opt_theta_trans (H := toy_collab 2) Z.leb (toy_self 100 1) 2 0 None
             (new_state false)).1 = inl (RuntimeError msg)) ∧
  (∃ msg, (opt_theta_trans (H := toy_collab 0) Z.leb (toy_self 3 1) 0 0 None
             (new_state false)).1 = inl (RuntimeError msg)).
Proof.
  split_and!.
  - cbn zeta. split; vm_compute; [reflexivity|discriminate].
  - eexists. vm_compute. reflexivity.
  - eexists. vm_compute. reflexivity.
Qed.

(* ================================================================= *)
(** ** [interpolate] on a 2 x 2 image *)

Lemma interpolate_bilinear_witness :
  ∃ res, interpolate img22 pair_quarter_half = inr res ∧ shape res = [] ++ [1] ∧
    wf_tensor res ∧
    ∀ bi k, valid_index bi [] → k < 1 →
      ∃ x y v, tensor_get pair_quarter_half [k; 0] = Some x ∧
        tensor_get pair_quarter_half [k; 1] = Some y ∧
        bilinear_value img22 bi y x = Some v ∧ tensor_get res (bi ++ [k]) = Some v.
Proof.
  apply (interpolate_bilinear img22 pair_quarter_half [] 2 2 1); try reflexivity.
  intros [|k] x y Hx Hy; [|discriminate Hx].
  vm_compute in Hx, Hy. injection Hx as <-. injection Hy as <-.
  unfold in_bounds, Qle. cbn. lia.
Defined.

(** C8, as stated, fails: read as (row, column), the pair (1/4, 1/2) asks
    for the value at row 1/4 and column 1/2, which is 1; [interpolate]
    returns 5/4, the value at row 1/2 and column 1/4. *)
Lemma interpolate_not_row_column :
  ∃ res v w, interpolate img22 pair_quarter_half = inr res ∧
    tensor_get res [0] = Some v ∧
    bilinear_value img22 [] (1 # 4) (1 # 2) = Some w ∧
    (w == 1)%Q ∧ (v == 5 # 4)%Q ∧ ¬ (v == w)%Q.
Proof.
  eexists _, _, _. split; [vm_compute; reflexivity|].
  split; [vm_compute; reflexivity|]. split; [vm_compute; reflexivity|].
  split; [reflexivity|]. split; [reflexivity|]. intros H. discriminate H.
Qed.

(* ================================================================= *)
(** ** The losses on small inputs *)

(** The spelling "MSE" is not a configured loss: with a render model that
    returns the two pixels of the single candidate, the call raises the
    error of the dispatch. *)
Lemma eval_grid_loss_dispatch_witness :
  ((∃ msg, eval_grid_full "MSE" one_image (inr uniform_prediction) 1 2 None None
           = inl (NotImplementedError msg))
     ↔ "MSE" ∉ known_losses) ∧
  ("MSE" ∉ known_losses →
     eval_grid_full "MSE" one_image (inr uniform_prediction) 1 2 None None
     = inl (NotImplementedError ("Unknown loss_fn: " +:+ "MSE"))).
Proof.
  apply (proj1 (@eval_grid_loss_dispatch float _ _ "MSE" one_image (inr uniform_prediction)
                  1 2 None None) uniform_prediction).
  - simpl. lia.
  - vm_compute. reflexivity.
  - exact I.
Defined.

(** C6 as stated fails when the candidate images are not produced: for
    the unknown name "MSE" and an output of the render model that does
    not divide into candidates of two pixels, the call raises the
    RuntimeError of [y_hat.view(-1, 1, NQ, YX)], as it does for "mse",
    and not the error of the dispatch. *)
Lemma eval_grid_view_raises_first :
  ("MSE" ∉ known_losses) ∧
  eval_grid_full "MSE" one_image (inr short_output) 1 2 None None
  = inl (RuntimeError "shape is invalid for input size") ∧
  eval_grid_full "mse" one_image (inr short_output) 1 2 None None
  = inl (RuntimeError "shape is invalid for input size") ∧
  ¬ ∃ msg, eval_grid_full "MSE" one_image (inr short_output) 1 2 None None
           = inl (NotImplementedError msg).
Proof.
  split_and!.
  - unfold known_losses. rewrite !elem_of_cons, elem_of_nil.
    intros [H|[H|[H|[]]]]; discriminate H.
  - vm_compute. reflexivity.
  - vm_compute. reflexivity.
  - intros [msg Hmsg]. vm_compute in Hmsg. discriminate Hmsg.
Qed.

Lemma msf_ranks_like_mse_witness :
  ∃ e_mse e_msf nrm,
    eval_grid "mse" one_row two_guesses None = inr e_mse ∧
    eval_grid "msf" one_row two_guesses None = inr e_msf ∧
    energy one_row None = inr nrm ∧
    shape e_mse = [1; 1; 2] ∧ shape e_msf = [1; 1; 2] ∧
    (∀ b t, b < 1 → t < 1 →
      ∃ c, tensor_get nrm [b; t] = Some c ∧
        ∀ q q', q < 2 → q' < 2 →
          ∃ m m' f f',
            tensor_get e_mse [b; t; q] = Some m ∧ tensor_get e_mse [b; t; q'] = Some m' ∧
            tensor_get e_msf [b; t; q] = Some f ∧ tensor_get e_msf [b; t; q'] = Some f' ∧
            f = (m / 2 - c / 2)%R ∧
            ((f <= f')%R ↔ (m <= m')%R) ∧ ((f < f')%R ↔ (m < m')%R)) ∧
    (∀ b t t' q q', b < 1 → t < 1 → t' < 1 → q < 2 → q' < 2 →
       ∃ c c' m m' f f',
         tensor_get nrm [b; t] = Some c ∧ tensor_get nrm [b; t'] = Some c' ∧
         tensor_get e_mse [b; t; q] = Some m ∧ tensor_get e_mse [b; t'; q'] = Some m' ∧
         tensor_get e_msf [b; t; q] = Some f ∧ tensor_get e_msf [b; t'; q'] = Some f' ∧
         (f - f' = (m - m') / 2 - (c - c') / 2)%R ∧
         (c = c' → ((f <= f')%R ↔ (m <= m')%R) ∧ ((f < f')%R ↔ (m < m')%R))).
Proof.
  apply (msf_ranks_like_mse one_row two_guesses None 1 1 1 2 2); try lia.
  - unfold documented_shapes. repeat split; try reflexivity. left. reflexivity.
  - exact I.
Defined.

(** C3 as stated fails twice on binary64, on inputs of the documented
    shapes.  The ranking of one image's candidates across its
    translations differs: for the pixel values 0 and 10 of one image
    under two translations and the candidate 1, "mse" gives 1 and 81 and
    prefers the first translation, "msf" gives 0.5 and -9.5 and prefers
    the second (all of these numbers are exact).  And within one
    observed-image row rounding can turn the ranking round: for the pixel
    134607182 and the candidates 134607182 and 134607181, "mse" gives 0
    and 1, "msf" a larger loss for the first candidate than for the
    second. *)
Lemma msf_ranking_differs :
  (documented_shapes two_shifts unit_candidate 1 2 1 1 1 ∧
   eval_grid "mse" two_shifts unit_candidate None = inr (Tensor [1; 2; 1] [1; 81]%float) ∧
   eval_grid "msf" two_shifts unit_candidate None
   = inr (Tensor [1; 2; 1] [0.5; -9.5]%float) ∧
   (1 <? 81)%float = true ∧ (-9.5 <? 0.5)%float = true) ∧
  (documented_shapes bright_pixel bright_candidates 1 1 1 2 1 ∧
   eval_grid "mse" bright_pixel bright_candidates None
   = inr (Tensor [1; 1; 2] [0; 1]%float) ∧
   eval_grid "msf" bright_pixel bright_candidates None
   = inr (Tensor [1; 1; 2] [-9059546722990562; -9059546722990564]%float) ∧
   (0 <? 1)%float = true ∧
   (-9059546722990564 <? -9059546722990562)%float = true).
Proof.
  split; split_and!; try (vm_compute; reflexivity);
    unfold documented_shapes; split_and!; try reflexivity; by left.
Qed.

Lemma zero_std_propagates_witness :
  (∃ err sd,
     eval_grid "cor" one_image uniform_prediction None = inr err ∧
     reduce_last fstd false uniform_prediction = inr sd ∧
     ∀ b t q, b < 1 → t < 1 → q < 1 →
       ∃ z v, tensor_get sd [bfix 1 b; 0; q] = Some z ∧
         tensor_get err [b; t; q] = Some v ∧
         (is_zero z = true → is_finite v = false)) ∧
  (∃ squeezed full,
     view one_prediction [1 * 1; 4] = inr squeezed ∧
     scatter_mask (1 * 1) (lat_D centre_lattice) (lat_mask centre_lattice) squeezed
     = inr full ∧
     ∀ a coords b q, lat_rot_coords centre_lattice !! a = Some coords → b < 1 → q < 1 →
       ∃ interpolated si z,
         interpolate full coords = inr interpolated ∧
         reduce_last fstd true interpolated = inr si ∧
         tensor_get si [b * 1 + q; 0] = Some z ∧
         (is_zero z = true →
          ∀ p, p < 4 →
            ∃ v, tensor_get all_infinite
                   [b; 0; q * length (lat_rot_coords centre_lattice) + a; p]
                 = Some v ∧ is_finite v = false)).
Proof.
  split.
  - apply (proj1 zero_std_propagates one_image uniform_prediction None 1 1 1 1 2).
    + unfold documented_shapes. repeat split; try reflexivity. left. reflexivity.
    + exact I.
  - apply (proj2 zero_std_propagates one_prediction all_infinite centre_lattice 1 1 1 4).
    + reflexivity.
    + vm_compute. reflexivity.
Defined.

(** C7, as stated, fails for uniform predictions.  The uniform prediction
    of two pixels has the standard deviation zero, and the "cor" loss
    [eval_grid] returns for it is minus infinity.  The uniform prediction
    of four pixels is interpolated to a uniform image on the lattice whose
    points all fall on the centre: the rescale step divides zero by zero,
    and every pixel of the image [rotate_images] returns is NaN. *)
Lemma zero_std_not_guarded :
  (∃ sd err z v,
     reduce_last fstd false uniform_prediction = inr sd ∧
     tensor_get sd [0; 0; 0] = Some z ∧ is_zero z = true ∧
     eval_grid "cor" one_image uniform_prediction None = inr err ∧
     tensor_get err [0; 0; 0] = Some v ∧ is_finite v = false) ∧
  (∃ sd z rot,
     reduce_last fstd false uniform_four = inr sd ∧
     tensor_get sd [0; 0; 0] = Some z ∧ is_zero z = true ∧
     rotate_images uniform_four centre_lattice = inr rot ∧
     shape rot = [1; 1; 1; 4] ∧
     ∀ p, p < 4 → ∃ v, tensor_get rot [0; 0; 0; p] = Some v ∧ is_finite v = false).
Proof.
  split.
  - eexists _, _, _, _. split; [vm_compute; reflexivity|].
    split; [vm_compute; reflexivity|]. split; [vm_compute; reflexivity|].
    split; [vm_compute; reflexivity|]. split; [vm_compute; reflexivity|].
    vm_compute. reflexivity.
  - eexists _, _, _. split; [vm_compute; reflexivity|].
    split; [vm_compute; reflexivity|]. split; [vm_compute; reflexivity|].
    split; [vm_compute; reflexivity|]. split; [reflexivity|].
    intros p Hp. do 4 (destruct p as [|p]; [eexists; split; vm_compute; reflexivity|]).
    lia.
Qed.

(** The divisor of the rescale step is the standard deviation of the
    interpolated image, not of the prediction: a uniform prediction whose
    interpolation is not uniform (here one lattice point falls outside the
    mask, where the full image is zero) is rescaled by 0 / std, and the
    image [rotate_images] returns is zero throughout, finite. *)
Lemma uniform_prediction_rescaled_to_zero :
  ∃ sd z,
    reduce_last fstd false uniform_prediction = inr sd ∧
    tensor_get sd [0; 0; 0] = Some z ∧ is_zero z = true ∧
    rotate_images uniform_prediction half_lattice = inr (Tensor [1; 1; 1; 2] [0; 0]%float).
Proof.
  eexists _, _. split; [vm_compute; reflexivity|].
  split; [vm_compute; reflexivity|]. split; vm_compute; reflexivity.
Qed.

(* ================================================================= *)
(** ** The pruner and the schedule at concrete inputs *)

Lemma keep_matrix_returns_iff_witness :
  ((∃ keep_idx, keep_matrix Z.leb loss23 2 2 = inr keep_idx)
     ↔ 0 < 2 ∧ numel (shape loss23) mod 2 = 0 ∧ 2 * 2 ≤ numel (shape loss23)) ∧
  (∀ keep_idx, keep_matrix Z.leb loss23 2 2 = inr keep_idx →
     length keep_idx = length (shape loss23) ∧
     Forall (λ a, length a = 2 * 2) keep_idx) ∧
  (∀ e, keep_matrix Z.leb loss23 2 2 = inl e → ∃ msg, e = RuntimeError msg).
Proof.
  apply (keep_matrix_returns_iff Z.leb Zleb_total Zleb_trans loss23 2 2).
  reflexivity.
Defined.

Lemma keep_matrix_distinct_witness :
  ∃ idx idx',
    mapM (λ a : list nat, a !! 0) [[0; 0; 1; 1]; [1; 2; 2; 0]] = Some idx ∧
    mapM (λ a : list nat, a !! 3) [[0; 0; 1; 1]; [1; 2; 2; 0]] = Some idx' ∧
    idx ≠ idx'.
Proof.
  apply (keep_matrix_distinct Z.leb Zleb_total Zleb_trans loss23 2 2
           [[0; 0; 1; 1]; [1; 2; 2; 0]] 0 3).
  - reflexivity.
  - vm_compute. reflexivity.
  - lia.
  - lia.
  - lia.
Defined.

Lemma keep_matrix_in_loop_witness :
  ∃ keepBN others,
    keep_matrix Z.leb loss43 2 2 = inr (keepBN :: others) ∧
    length keepBN = 2 * 2 ∧
    rescale_batch keepBN 2 (2 * 2) = inr (repeat_each 2 (seq 0 2)).
Proof.
  destruct (keep_matrix_in_loop Z.leb Zleb_total Zleb_trans loss43 2 2 [3] 2)
    as (keepBN & others & Hk & Hlen & _ & Hresc & _).
  - reflexivity.
  - reflexivity.
  - lia.
  - vm_compute. lia.
  - exists keepBN, others. split; [exact Hk|]. split; [exact Hlen|exact Hresc].
Defined.

Lemma getL_doubles_witness :
  getL 12 40 (1 + 1) 5 = Z.min (2 * getL 12 40 1 5) 40 ∧
  (getL 12 40 1 5 = 40%Z → getL 12 40 (1 + 1) 5 = 40%Z).
Proof. apply (getL_doubles 12 40 1 5 5); lia. Defined.

(* ================================================================= *)
(** ** The stateful code on the toy grid *)

Lemma subdivide_replayed_witness :
  ∃ r st1,
    subdivide (H := toy_collab 1) (toy_self 3 1)
      (Tensor [1; 4] [1; 0; 0; 0]%Z) (Tensor [1; 2] [1; 2]%Z) (Tensor [1; 2] [1; 2]%Z)
      2 (new_state false) = (inr r, st1) ∧
    grown (new_state false) st1 ∧
    ∀ st2, grown st1 st2 →
      subdivide (H := toy_collab 1) (toy_self 3 1)
        (Tensor [1; 4] [1; 0; 0; 0]%Z) (Tensor [1; 2] [1; 2]%Z) (Tensor [1; 2] [1; 2]%Z)
        2 st2 = (inr r, st2).
Proof.
  destruct (subdivide (H := toy_collab 1) (toy_self 3 1)
              (Tensor [1; 4] [1; 0; 0; 0]%Z) (Tensor [1; 2] [1; 2]%Z)
              (Tensor [1; 2] [1; 2]%Z) 2 (new_state false)) as [[e|r] st1] eqn:Hrun.
  - vm_compute in Hrun. discriminate Hrun.
  - exists r, st1. split; [reflexivity|].
    exact (subdivide_replayed (H := toy_collab 1) (toy_self 3 1) _ _ _ _ _ _ _ Hrun).
Defined.

Lemma opt_theta_trans_schedule_witness :
  ∃ r st',
    opt_theta_trans (H := toy_collab 2) Z.leb (toy_self 3 1) 2 2 None (new_state false)
    = (inr r, st') ∧
    req_L <$> eval_log st' = [24; 24; 12]%Z.
Proof.
  destruct (opt_theta_trans (H := toy_collab 2) Z.leb (toy_self 3 1) 2 2 None
              (new_state false)) as [[e|r] st'] eqn:Hrun.
  - vm_compute in Hrun. discriminate Hrun.
  - exists r, st'. split; [reflexivity|].
    destruct (opt_theta_trans_schedule (H := toy_collab 2) Z.leb (toy_self 3 1)
                2 2 None (new_state false) st' r) as (_ & _ & _ & Hlog & _).
    + reflexivity.
    + exact Hrun.
    + exact Hlog.
Defined.

Lemma opt_theta_trans_needs_iteration_witness :
  ∃ e, opt_theta_trans (H := toy_collab 2) Z.leb (toy_self 3 1) 2 0 (Some toy_poses)
         (new_state false) = (inl e, new_state false).
Proof.
  destruct (opt_theta_trans_needs_iteration (H := toy_collab 2) Z.leb (toy_self 3 1)
              2 0 (new_state false)) as [_ Hwarm].
  - reflexivity.
  - destruct (Hwarm toy_poses) as (e & He & _). exists e. exact He.
Defined.

Lemma init_poses_round_trip_witness :
  ∃ best_rot best_trans new_init_poses st',
    opt_theta_trans (H := toy_collab 2) Z.leb (toy_self 3 1) 2 2 (Some toy_poses)
      (new_state false) = (inr (best_rot, best_trans, new_init_poses), st') ∧
    shape new_init_poses = [2; 3; 2] ∧
    ∃ keepT keepQ,
      unpack_poses new_init_poses = inr (keepT, keepQ) ∧
      unpack_poses toy_poses = inr (keepT, keepQ) ∧
      data new_init_poses = data toy_poses.
Proof.
  destruct (opt_theta_trans (H := toy_collab 2) Z.leb (toy_self 3 1) 2 2 (Some toy_poses)
              (new_state false)) as [[e|[[best_rot best_trans] nip]] st'] eqn:Hrun.
  - vm_compute in Hrun. discriminate Hrun.
  - exists best_rot, best_trans, nip, st'. split; [reflexivity|].
    destruct (init_poses_round_trip (H := toy_collab 2) Z.leb (toy_self 3 1)
                2 2 (Some toy_poses) (new_state false) st' best_rot best_trans nip Hrun)
      as (Hs & _ & keepT & keepQ & Hun & _ & _ & Hp & Hd).
    split; [exact Hs|]. exists keepT, keepQ.
    split; [exact Hun|]. split; [exact Hp|exact Hd].
Defined.

(* ================================================================= *)
(** ** Masks, interpolation and the losses at concrete inputs *)

Lemma mask_inverts_scatter_witness :
  mask_images (Tensor [1; 2; 2] [1; 0; 0; 2]%float) corner_mask = inr two_pixels ∧
  tensor_get (Tensor [1; 2; 2] [1; 0; 0; 2]%float) [0; 0; 1] = Some 0%float.
Proof.
  destruct (mask_inverts_scatter 1 2 corner_mask two_pixels
              (Tensor [1; 2; 2] [1; 0; 0; 2]%float))
    as (_ & _ & Hzero & value & Hback & _ & Hexact & _).
  - reflexivity.
  - lia.
  - vm_compute. reflexivity.
  - split.
    + rewrite Hback. f_equal. apply Hexact. reflexivity.
    + apply (Hzero 0 0 1); try lia. reflexivity.
Defined.

Lemma mask_images_then_scatter_witness :
  ∃ m full,
    mask_images one_full_image corner_mask = inr m ∧
    shape m = [1; 2] ∧
    scatter_mask 1 2 corner_mask m = inr full ∧
    tensor_get full [0; 0; 0] = Some 1%float ∧
    tensor_get full [0; 0; 1] = Some 0%float.
Proof.
  destruct (mask_images_then_scatter one_full_image corner_mask 1 2) as (Hret & _ & _).
  - reflexivity.
  - reflexivity.
  - destruct Hret as (m & full & Hm & Hs & _ & Hfull & _ & Hget); [lia|reflexivity|].
    exists m, full. split; [exact Hm|]. split; [exact Hs|]. split; [exact Hfull|].
    split.
    + apply (Hget 0 0 0 1%float true); try lia; reflexivity.
    + apply (Hget 0 0 1 2%float false); try lia; reflexivity.
Defined.

Lemma interpolate_returns_iff_witness :
  (∃ res, interpolate img22 pair_quarter_half = inr res) ↔
  ∀ k x y, tensor_get pair_quarter_half [k; 0] = Some x →
    tensor_get pair_quarter_half [k; 1] = Some y → reachable 2 2 y x.
Proof.
  destruct (interpolate_returns_iff img22 pair_quarter_half [] 2 2 1) as (Hiff & _).
  - reflexivity.
  - reflexivity.
  - reflexivity.
  - reflexivity.
  - vm_compute. lia.
  - exact Hiff.
Defined.

Lemma interpolate_between_pixels_witness :
  ∃ res v,
    interpolate img22 pair_quarter_half = inr res ∧
    tensor_get res [0] = Some v ∧ (0 <= v)%Q ∧ (v <= 3)%Q.
Proof.
  destruct (interpolate img22 pair_quarter_half) as [e|res] eqn:Hrun.
  - vm_compute in Hrun. discriminate Hrun.
  - destruct (interpolate_between_pixels img22 pair_quarter_half [] 2 2 1 res [] 0
                (1 # 4) (1 # 2))
      as (v & v_ff & v_fc & v_cf & v_cc & Hv & Hff & Hfc & Hcf & Hcc & Hbetween & _);
      try reflexivity.
    + exact Hrun.
    + constructor.
    + exists res, v. split; [reflexivity|]. split; [exact Hv|].
      vm_compute in Hff, Hfc, Hcf, Hcc.
      injection Hff as <-. injection Hfc as <-. injection Hcf as <-. injection Hcc as <-.
      apply (Hbetween 0%Q 3%Q); split; unfold Qle; cbn; lia.
Defined.

Lemma Int_part_IZR (z : Z) : Int_part (IZR z) = z.
Proof. symmetry. apply Int_part_spec. lra. Qed.

Lemma diagonal_points_reachable k (x y : R) :
  tensor_get diagonal_points [k; 0] = Some x →
  tensor_get diagonal_points [k; 1] = Some y → reachable 2 2 y x.
Proof.
  intros Hx Hy.
  assert ((x = 0%R ∧ y = 0%R) ∨ (x = 1%R ∧ y = 1%R)) as Hxy.
  { unfold tensor_get, diagonal_points in Hx, Hy. cbn [shape data] in Hx, Hy.
    destruct k as [|[|k]]; [left|right|].
    - rewrite ravel2 in Hx, Hy by lia. cbn in Hx, Hy. split; congruence.
    - rewrite ravel2 in Hx, Hy by lia. cbn in Hx, Hy. split; congruence.
    - cbn in Hx. rewrite decide_False in Hx by lia. discriminate Hx. }
  unfold reachable, in_reach. cbn [ffloor fceil R_arith].
  destruct Hxy as [[-> ->]|[-> ->]].
  - rewrite Ropp_0, (Int_part_IZR 0). lia.
  - rewrite <-(opp_IZR 1), !Int_part_IZR. lia.
Qed.

Lemma rotate_one_keeps_std_witness :
  ∃ out itp s si so,
    rotate_one real_pixels real_image diagonal_points = inr out ∧
    interpolate real_image diagonal_points = inr itp ∧
    reduce_last fstd true real_pixels = inr s ∧
    reduce_last fstd true itp = inr si ∧
    reduce_last fstd true out = inr so ∧
    shape out = [1; 2] ∧
    ∃ z zi zo,
      tensor_get s [0; 0] = Some z ∧ tensor_get si [0; 0] = Some zi ∧
      tensor_get so [0; 0] = Some zo ∧ (zi ≠ 0%R → zo = z).
Proof.
  destruct (interpolate_returns real_image diagonal_points [1] 2 2 2)
    as (itp & Hitp & Hsh); try reflexivity.
  { apply diagonal_points_reachable. }
  destruct (rotate_one_returns real_pixels real_image diagonal_points itp 1 2)
    as [out Hout]; try reflexivity; try assumption.
  destruct (rotate_one_keeps_std real_pixels real_image diagonal_points out 1 2)
    as (itp' & s & si & so & Hitp' & Hs & Hsi & Hso & Hshape & Hstd);
    try reflexivity; try assumption.
  destruct (Hstd 0) as (z & zi & zo & Hz & Hzi & Hzo & Hkeep); [lia|].
  exists out, itp', s, si, so.
  split; [exact Hout|]. split; [exact Hitp'|]. split; [exact Hs|]. split; [exact Hsi|].
  split; [exact Hso|]. split; [exact Hshape|].
  exists z, zi, zo. split; [exact Hz|]. split; [exact Hzi|]. split; [exact Hzo|exact Hkeep].
Defined.

Lemma mse_zero_iff_match_witness :
  ∃ err, eval_grid "mse" one_pixel two_candidates None = inr err ∧
    shape err = [1; 1; 2] ∧
    ∃ v, tensor_get err [0; 0; 0] = Some v ∧ (0 <= v)%R.
Proof.
  destruct (mse_zero_iff_match one_pixel two_candidates None 1 1 1 2 1)
    as (err & Herr & Hs & Hentry).
  - unfold documented_shapes. repeat split; try reflexivity. left. reflexivity.
  - exact I.
  - destruct (Hentry 0 0 0) as (v & Hv & Hpos & _); try lia.
    exists err. split; [exact Herr|]. split; [exact Hs|]. exists v.
    split; [exact Hv|exact Hpos].
Defined.

Lemma cor_ignores_scale_witness :
  ∃ err err' sd,
    eval_grid "cor" one_pixel two_candidates None = inr err ∧
    eval_grid "cor" one_pixel (map1 (Rmult 2) two_candidates) None = inr err' ∧
    reduce_last fstd false two_candidates = inr sd ∧
    ∃ z v, tensor_get sd [0; 0; 1] = Some z ∧
      tensor_get err [0; 0; 1] = Some v ∧
      (z ≠ 0%R → tensor_get err' [0; 0; 1] = Some v).
Proof.
  destruct (cor_ignores_scale one_pixel two_candidates 1 1 1 2 1 2)
    as (err & err' & sd & Herr & Herr' & Hsd & Hentry).
  - unfold documented_shapes. repeat split; try reflexivity. left. reflexivity.
  - lra.
  - destruct (Hentry 0 0 1) as (z & v & Hz & Hv & Hsame); try lia.
    exists err, err', sd. split; [exact Herr|]. split; [exact Herr'|].
    split; [exact Hsd|]. exists z, v. split; [exact Hz|]. split; [exact Hv|exact Hsame].
Defined.

(** One image under no translation, and one image without a pixel within
    the mask. *)
Lemma msf_raises_on_empty_witness :
  ((∃ e, eval_grid_full "mse" no_translation (inr uniform_prediction) 1 2 None None = inr e ∧
         shape e = [1; 0; 1]) ∧
   (∃ msg, eval_grid_full "msf" no_translation (inr uniform_prediction) 1 2 None None
           = inl (RuntimeError msg))) ∧
  (∃ msg, eval_grid_full (F := float) "mse" (Tensor [1; 1; 0] []) (inr (Tensor [0] []))
            1 0 None None
          = inl (RuntimeError msg)).
Proof.
  split.
  - destruct (msf_raises_on_empty no_translation (inr uniform_prediction) None 1 0 1 1 2)
      as [_ Hempty].
    + unfold outputs_documented. split_and!; try reflexivity; [left; reflexivity|].
      exists uniform_prediction. split; reflexivity.
    + exact I.
    + apply Hempty; [lia|reflexivity].
  - destruct (msf_raises_on_empty (F := float) (Tensor [1; 1; 0] []) (inr (Tensor [0] []))
                None 1 1 1 1 0) as [Hnone _].
    + unfold outputs_documented. split_and!; try reflexivity; [left; reflexivity|].
      exists (Tensor [0] []). split; reflexivity.
    + exact I.
    + apply (Hnone eq_refl "mse" None).
Defined.
